(** * keyhunt core: a shallow embedding of [types.h], the test bloom filter,
    [thread_pool.h] and the BSGS search, with the properties of the
    specification stated over it; and of the hexadecimal text, [ByteArray],
    the SIMD lanes, the bit accessors of [bloom_filter.h] and [security.h],
    with the properties the code itself shows.

    Layout: the first part holds the definitions, one module per source
    file or group of members; the second part holds the lemmas and
    theorems. *)

From Stdlib Require Import ZArith List Bool Lia Permutation Sorted.
From stdpp Require Import base list strings.
Import ListNotations.

Local Open Scope Z_scope.

(* ===================================================================== *)
(** * Part I: the program *)
(* ===================================================================== *)

(** ** Machine integers *)

Module Mach.

(** [static_cast<uint64_t>]: reduction modulo 2^64. *)
Definition u64 (z : Z) : Z := z mod 2 ^ 64.

(** [static_cast<__uint128_t>] and arithmetic at that type. *)
Definition u128 (z : Z) : Z := z mod 2 ^ 128.

(** [static_cast<uint8_t>]. *)
Definition u8 (z : Z) : Z := z mod 2 ^ 8.

(** [~b] on a [uint64_t]. *)
Definition not64 (b : Z) : Z := u64 (Z.lnot b).

Definition is_u64 (z : Z) : Prop := 0 <= z < 2 ^ 64.
Definition is_u8 (z : Z) : Prop := 0 <= z < 2 ^ 8.

End Mach.

(** ** Exceptions *)

Module Exn.

(** The exceptions the embedded code throws: [ValidationException] of
    [error.h] and [std::runtime_error]. *)
Inductive Error : Type :=
| ValidationException (msg : string)
| StdRuntimeError (msg : string).

(** A function that either returns or throws. *)
Inductive Outcome (A : Type) : Type :=
| Returns (a : A)
| Throws (e : Error).
Arguments Returns {A} a.
Arguments Throws {A} e.

(** A member function of an object of state [S]: it returns or throws, and
    either way leaves the object in some state. *)
Inductive Res (S A : Type) : Type :=
| Ok (a : A) (s : S)
| Raise (e : Error) (s : S).
Arguments Ok {S A} a s.
Arguments Raise {S A} e s.

Definition M (S A : Type) : Type := S -> Res S A.

Definition ret {S A} (a : A) : M S A := fun s => Ok a s.

Definition bind {S A B} (m : M S A) (k : A -> M S B) : M S B :=
  fun s => match m s with
           | Ok a s' => k a s'
           | Raise e s' => Raise e s'
           end.

Definition throw {S A} (e : Error) : M S A := fun s => Raise e s.

Definition get {S} : M S S := fun s => Ok s s.

Definition modify {S} (f : S -> S) : M S unit := fun s => Ok tt (f s).

(** [for (x : xs) body(x)] *)
Fixpoint for_each {S A} (xs : list A) (body : A -> M S unit) : M S unit :=
  match xs with
  | [] => ret tt
  | x :: xs' => bind (body x) (fun _ => for_each xs' body)
  end.

End Exn.

Notation "'do' x <- m ; k" := (Exn.bind m (fun x => k))
  (at level 10, x name, m at level 100, k at level 200).
Notation "'run' m ; k" := (Exn.bind m (fun _ => k))
  (at level 10, m at level 100, k at level 200).

(** ** [include/keyhunt/core/types.h] *)

Module Types.
Import Mach Exn.

(** [class UInt256]: [std::array<uint64_t, 4> limbs_], little-endian limbs. *)
Record UInt256 : Type := MkUInt256 { limbs_ : list Z }.

Definition NUM_LIMBS : nat := 4.

(** [limbs_[i]] *)
Definition limb (x : UInt256) (i : nat) : Z := nth i (limbs_ x) 0.

(** [limbs_[i] = v] *)
Definition set_limb (x : UInt256) (i : nat) (v : Z) : UInt256 :=
  MkUInt256 (<[i := v]> (limbs_ x)).

(** The class invariant of the representation: four limbs, each a
    [uint64_t]. *)
Definition wf (x : UInt256) : Prop :=
  length (limbs_ x) = NUM_LIMBS /\ Forall is_u64 (limbs_ x).

(** [UInt256()]: [limbs_.fill(0)]. *)
Definition zero : UInt256 := MkUInt256 (repeat 0 NUM_LIMBS).

(** [explicit UInt256(uint64_t value)]. *)
Definition of_u64 (value : Z) : UInt256 := set_limb zero 0 (u64 value).

(** The number a [UInt256] stands for. *)
Definition to_Z (x : UInt256) : Z :=
  limb x 0 + 2 ^ 64 * limb x 1 + 2 ^ 128 * limb x 2 + 2 ^ 192 * limb x 3.

(** The number a big-endian byte string stands for. *)
Definition be_value (bytes : list Z) : Z :=
  fold_left (fun acc b => acc * 256 + b) bytes 0.

(** [operator<]: limbs compared from the most significant one down. *)
Fixpoint lt_from (n : nat) (x y : UInt256) : bool :=
  match n with
  | O => false
  | S i =>
      if limb x i <? limb y i then true
      else if limb y i <? limb x i then false
      else lt_from i x y
  end.

Definition lt (x y : UInt256) : bool := lt_from NUM_LIMBS x y.
Definition le (x y : UInt256) : bool := negb (lt y x).
Definition gt (x y : UInt256) : bool := lt y x.
Definition ge (x y : UInt256) : bool := negb (lt x y).

(** One round of the loop of [operator+]: the 128-bit sum of two limbs and
    the carry, its low half and its high half. *)
Definition adc (a b carry : Z) : Z * Z :=
  let sum := u128 (u128 a + u128 b + carry) in
  (u64 sum, u64 (Z.shiftr sum 64)).

Definition add_round (x y : UInt256) (st : UInt256 * Z) (i : nat)
  : UInt256 * Z :=
  let '(result, carry) := st in
  let '(lo, carry') := adc (limb x i) (limb y i) carry in
  (set_limb result i lo, carry').

(** [UInt256 operator+(const UInt256& other) const] *)
Definition add (x y : UInt256) : UInt256 :=
  fst (fold_left (add_round x y) (seq 0 NUM_LIMBS) (zero, 0)).

(** One round of the loop of [operator-]: [b] is the subtrahend limb plus
    the pending borrow, computed in 64 bits. *)
Definition sbb (a other_limb borrow : Z) : Z * Z :=
  let b := u64 (other_limb + borrow) in
  if (b <? borrow) || (a <? b)
  then (u64 (a + u64 (not64 b + 1)), 1)
  else (u64 (a - b), 0).

Definition sub_round (x y : UInt256) (st : UInt256 * Z) (i : nat)
  : UInt256 * Z :=
  let '(result, borrow) := st in
  let '(d, borrow') := sbb (limb x i) (limb y i) borrow in
  (set_limb result i d, borrow').

(** [UInt256 operator-(const UInt256& other) const] *)
Definition sub (x y : UInt256) : UInt256 :=
  fst (fold_left (sub_round x y) (seq 0 NUM_LIMBS) (zero, 0)).

(** [void set_bit(size_t pos, bool value = true)] with [value = true]. *)
Definition set_bit (x : UInt256) (pos : Z) : UInt256 :=
  if 256 <=? pos then x
  else
    let limb_idx := Z.to_nat (pos / 64) in
    let bit_idx := pos mod 64 in
    set_limb x limb_idx (Z.lor (limb x limb_idx) (u64 (Z.shiftl 1 bit_idx))).

(** [bool get_bit(size_t pos) const] *)
Definition get_bit (x : UInt256) (pos : Z) : bool :=
  if 256 <=? pos then false
  else Z.testbit (limb x (Z.to_nat (pos / 64))) (pos mod 64).

(** [static_cast<uint8_t>(v >> (j * 8))] *)
Definition byte_at (v : Z) (j : nat) : Z := u8 (Z.shiftr v (Z.of_nat j * 8)).

(** [static_cast<uint64_t>(b) << (j * 8)] *)
Definition place (b : Z) (j : nat) : Z :=
  u64 (Z.shiftl (u64 b) (Z.of_nat j * 8)).

(** [std::array<uint8_t, 32> to_bytes() const]: the loop nest writes
    [result[31 - (i * 8 + j)]]; [result] starts with whatever the array
    holds. *)
Definition to_bytes_into (result : list Z) (x : UInt256) : list Z :=
  fold_left
    (fun result i =>
       fold_left
         (fun result j =>
            <[(31 - (i * 8 + j))%nat := byte_at (limb x i) j]> result)
         (seq 0 8) result)
    (seq 0 4) result.

Definition to_bytes (x : UInt256) : list Z :=
  to_bytes_into (repeat 0 32%nat) x.

(** [static UInt256 from_bytes(const uint8_t* bytes)] *)
Definition from_bytes (bytes : list Z) : UInt256 :=
  fold_left
    (fun result i =>
       fold_left
         (fun result j =>
            set_limb result i
              (Z.lor (limb result i)
                     (place (nth (31 - (i * 8 + j))%nat bytes 0) j)))
         (seq 0 8) (set_limb result i 0))
    (seq 0 4) zero.

(** [struct KeyRange] *)
Record KeyRange : Type := MkKeyRange { start : UInt256; end_ : UInt256 }.

(** The loop [for (int i = 0; i < bit_count; ++i) range.end.set_bit(i)]. *)
Fixpoint set_low_bits (n : nat) (x : UInt256) : UInt256 :=
  match n with
  | O => x
  | S k => set_bit (set_low_bits k x) (Z.of_nat k)
  end.

Definition bit_count_message : string :=
  "Bit count must be between 1 and 256"%string.

(** [static KeyRange for_bits(int bit_count)] *)
Definition for_bits (bit_count : Z) : Outcome KeyRange :=
  if (bit_count <=? 0) || (256 <? bit_count)
  then Throws (ValidationException bit_count_message)
  else
    Returns (MkKeyRange (set_bit zero (bit_count - 1))
                        (set_low_bits (Z.to_nat bit_count) zero)).

(** Decidable form of the class invariant. *)
Definition wf_b (x : UInt256) : bool :=
  (length (limbs_ x) =? NUM_LIMBS)%nat
  && forallb (fun v => (0 <=? v) && (v <? 2 ^ 64)) (limbs_ x).

(** Does [for_bits n] return the range from 2^(n-1) to 2^n - 1? *)
Definition for_bits_returns_bits (n : Z) : bool :=
  match for_bits n with
  | Returns r =>
      wf_b (start r) && wf_b (end_ r)
      && (to_Z (start r) =? 2 ^ (n - 1)) && (to_Z (end_ r) =? 2 ^ n - 1)
  | Throws _ => false
  end.

(** [UInt256 size() const] *)
Definition size (r : KeyRange) : UInt256 :=
  if gt (start r) (end_ r) then of_u64 0
  else add (sub (end_ r) (start r)) (of_u64 1).

(** [bool contains(const UInt256& key) const] *)
Definition contains (r : KeyRange) (key : UInt256) : bool :=
  ge key (start r) && le key (end_ r).

(** [std::vector<KeyRange> split(size_t n) const]: the body computes
    [range_size] and then pushes the range itself, once. *)
Definition split (r : KeyRange) (n : Z) : list KeyRange :=
  if n =? 0 then []
  else
    let range_size := size r in
    [r].

End Types.

(** ** [tests/test_bloom_filter.cpp]: the filter the tests run *)

Module TestBloom.
Import Mach.

(** The body of the loop of [simple_hash], for one byte. *)
Definition simple_hash_round (hash byte : Z) : Z :=
  let hash := u64 (hash * 31 + byte) in
  let hash := Z.lxor hash (Z.shiftr hash 17) in
  u64 (hash * 2246822507).

(** [uint64_t simple_hash(const void* data, size_t len, uint64_t seed)];
    [data] and [len] together are the list of bytes. *)
Definition simple_hash (data : list Z) (seed : Z) : Z :=
  fold_left simple_hash_round data seed.

(** [class SimpleBloomFilter] *)
Record SimpleBloomFilter : Type := MkSimpleBloomFilter {
  bits_ : list Z;
  num_bits_ : Z;
  num_hashes_ : Z
}.

(** The constructor: [bits_((num_bits + 7) / 8, 0)], the sum computed in
    [size_t]. *)
Definition make (num_bits num_hashes : Z) : SimpleBloomFilter :=
  {| bits_ := repeat 0 (Z.to_nat (u64 (num_bits + 7) / 8));
     num_bits_ := num_bits;
     num_hashes_ := num_hashes |}.

(** [size_t pos = h % num_bits_]; there is no result when [num_bits_] is
    zero. *)
Definition position (f : SimpleBloomFilter) (data : list Z) (i : Z)
  : option Z :=
  if num_bits_ f =? 0 then None
  else Some (simple_hash data i mod num_bits_ f).

(** [bits_[pos / 8] |= (1 << (pos % 8))]; there is no result when the index
    lies outside the vector. *)
Definition set_pos (bits : list Z) (pos : Z) : option (list Z) :=
  let idx := Z.to_nat (pos / 8) in
  match bits !! idx with
  | Some b => Some (<[idx := u8 (Z.lor b (Z.shiftl 1 (pos mod 8)))]> bits)
  | None => None
  end.

(** [bits_[pos / 8] & (1 << (pos % 8))], as a truth value. *)
Definition test_pos (bits : list Z) (pos : Z) : option bool :=
  match bits !! Z.to_nat (pos / 8) with
  | Some b => Some (negb (Z.land b (Z.shiftl 1 (pos mod 8)) =? 0))
  | None => None
  end.

(** The loop of [add], [n] rounds from index [i] on. *)
Fixpoint add_loop (f : SimpleBloomFilter) (data : list Z) (n : nat) (i : Z)
  (bits : list Z) : option (list Z) :=
  match n with
  | O => Some bits
  | S k =>
      match position f data i with
      | None => None
      | Some pos =>
          match set_pos bits pos with
          | None => None
          | Some bits' => add_loop f data k (i + 1) bits'
          end
      end
  end.

(** [void add(const void* data, size_t len)] *)
Definition add (f : SimpleBloomFilter) (data : list Z)
  : option SimpleBloomFilter :=
  match add_loop f data (Z.to_nat (num_hashes_ f)) 0 (bits_ f) with
  | Some bits => Some {| bits_ := bits; num_bits_ := num_bits_ f;
                         num_hashes_ := num_hashes_ f |}
  | None => None
  end.

(** The loop of [possibly_contains]. *)
Fixpoint contains_loop (f : SimpleBloomFilter) (data : list Z) (n : nat)
  (i : Z) : option bool :=
  match n with
  | O => Some true
  | S k =>
      match position f data i with
      | None => None
      | Some pos =>
          match test_pos (bits_ f) pos with
          | None => None
          | Some false => Some false
          | Some true => contains_loop f data k (i + 1)
          end
      end
  end.

(** [bool possibly_contains(const void* data, size_t len) const] *)
Definition possibly_contains (f : SimpleBloomFilter) (data : list Z)
  : option bool :=
  contains_loop f data (Z.to_nat (num_hashes_ f)) 0.

(** [void clear()] *)
Definition clear (f : SimpleBloomFilter) : SimpleBloomFilter :=
  {| bits_ := map (fun _ => 0) (bits_ f); num_bits_ := num_bits_ f;
     num_hashes_ := num_hashes_ f |}.

(** [size_t memory_usage() const] *)
Definition memory_usage (f : SimpleBloomFilter) : Z :=
  Z.of_nat (length (bits_ f)).

(** Bit [pos] of the bit vector is set. *)
Definition bit_set (bits : list Z) (pos : Z) : Prop :=
  exists b, bits !! Z.to_nat (pos / 8) = Some b
            /\ Z.testbit b (pos mod 8) = true.

(** The vector has a byte for every position below [num_bits_]. *)
Definition covers (f : SimpleBloomFilter) : Prop :=
  1 <= num_bits_ f /\ num_bits_ f <= 8 * Z.of_nat (length (bits_ f)).

(** A run of [add] calls, one per element, in order. *)
Fixpoint add_all (f : SimpleBloomFilter) (es : list (list Z))
  : option SimpleBloomFilter :=
  match es with
  | [] => Some f
  | e :: es' =>
      match add f e with
      | Some f' => add_all f' es'
      | None => None
      end
  end.

(** The property P7 for a filter built with the given parameters: after any
    run of [add] calls every added element tests positive. *)
Definition no_false_negatives (num_bits num_hashes : Z) : Prop :=
  forall es : list (list Z),
    exists f, add_all (make num_bits num_hashes) es = Some f
              /\ forall e, In e es -> possibly_contains f e = Some true.

End TestBloom.

(** ** The heap algorithms behind [std::priority_queue]

    [std::priority_queue<Task>] keeps a [std::vector<Task>] and calls
    [std::push_heap] and [std::pop_heap] on it. The functions below follow
    libstdc++ ([bits/stl_heap.h]). Indices are naturals: the signed
    differences of the library ([holeIndex - 1], [len - 1], [len - 2]) are
    only taken here where truncated subtraction agrees with them, [len]
    being at least 1 whenever [__adjust_heap] runs. *)

Module StdHeap.
Section Heap.
Context {A : Type} (comp : A -> A -> bool) (d : A).

(** [__push_heap(first, holeIndex, topIndex, value, comp)]: the hole climbs
    while its parent compares below [value]. *)
Fixpoint __push_heap (fuel : nat) (v : list A) (holeIndex topIndex : nat)
  (value : A) : list A :=
  let parent := ((holeIndex - 1) / 2)%nat in
  match fuel with
  | O => <[holeIndex := value]> v
  | S fuel' =>
      if (topIndex <? holeIndex)%nat && comp (nth parent v d) value
      then __push_heap fuel' (<[holeIndex := nth parent v d]> v)
                       parent topIndex value
      else <[holeIndex := value]> v
  end.

(** [std::push_heap(first, last)]: the new element is the last one. *)
Definition push_heap (v : list A) : list A :=
  match length v with
  | O => v
  | S n => __push_heap n v n 0 (nth n v d)
  end.

(** The [while] loop of [__adjust_heap]: the hole sinks along the larger
    child. It returns the vector and the final [secondChild]. *)
Fixpoint adjust_loop (fuel : nat) (v : list A) (len holeIndex : nat)
  : list A * nat :=
  match fuel with
  | O => (v, holeIndex)
  | S fuel' =>
      if (holeIndex <? (len - 1) / 2)%nat
      then
        let secondChild := (2 * (holeIndex + 1))%nat in
        let secondChild :=
          if comp (nth secondChild v d) (nth (secondChild - 1) v d)
          then (secondChild - 1)%nat else secondChild in
        adjust_loop fuel' (<[holeIndex := nth secondChild v d]> v)
                    len secondChild
      else (v, holeIndex)
  end.

(** [__adjust_heap(first, holeIndex, len, value, comp)] *)
Definition __adjust_heap (v : list A) (holeIndex len : nat) (value : A)
  : list A :=
  let topIndex := holeIndex in
  let '(v, secondChild) := adjust_loop len v len holeIndex in
  let '(v, hole) :=
    if Nat.even len && (secondChild =? (len - 2) / 2)%nat
    then
      let secondChild' := (2 * (secondChild + 1))%nat in
      (<[secondChild := nth (secondChild' - 1) v d]> v, (secondChild' - 1)%nat)
    else (v, secondChild) in
  __push_heap hole v hole topIndex value.

(** [std::pop_heap(first, last)]: the top goes to the last slot and the
    former last element is sifted in from the top. *)
Definition pop_heap (v : list A) : list A :=
  if (1 <? length v)%nat
  then
    let last := (length v - 1)%nat in
    let value := nth last v d in
    let v := <[last := nth 0 v d]> v in
    __adjust_heap v 0 last value
  else v.

(** [priority_queue::push]: [c.push_back(x); push_heap(c.begin(), c.end())] *)
Definition pq_push (x : A) (c : list A) : list A := push_heap (c ++ [x]).

(** [priority_queue::top]: [c.front()] *)
Definition pq_top (c : list A) : A := nth 0 c d.

(** [priority_queue::pop]: [pop_heap(c.begin(), c.end()); c.pop_back()] *)
Definition pq_pop (c : list A) : list A := removelast (pop_heap c).

End Heap.
End StdHeap.

(** Invariants of a vector kept as a max-heap under [key]. *)

Module HeapInv.
Section Inv.
Context {A : Type} (key : A -> Z) (d : A).

(** The first [n] slots form a heap: no slot exceeds its parent. *)
Definition heap_upto (v : list A) (n : nat) : Prop :=
  forall i, (0 < i < n)%nat ->
            key (nth i v d) <= key (nth ((i - 1) / 2) v d).

Definition is_heap (v : list A) : Prop := heap_upto v (length v).

(** The first [n] slots form a heap except around the hole [h]: every
    edge that does not touch [h] is in order, and the children of [h] do
    not exceed the parent of [h]. *)
Definition hole_inv (v : list A) (n h : nat) : Prop :=
  (h < n <= length v)%nat
  /\ (forall i, (0 < i < n)%nat -> i <> h -> ((i - 1) / 2)%nat <> h ->
                key (nth i v d) <= key (nth ((i - 1) / 2) v d))
  /\ (forall c, (0 < c < n)%nat -> ((c - 1) / 2)%nat = h -> (0 < h)%nat ->
                key (nth c v d) <= key (nth ((h - 1) / 2) v d)).

(** The children of the hole [h] do not exceed [x]. *)
Definition below (v : list A) (n h : nat) (x : A) : Prop :=
  forall c, (0 < c < n)%nat -> ((c - 1) / 2)%nat = h ->
            key (nth c v d) <= key x.

End Inv.
End HeapInv.

(** ** [include/keyhunt/core/thread_pool.h] *)

Module ThreadPool.
Import Mach Exn.

(** [enum class TaskPriority : uint8_t] *)
Inductive TaskPriority : Type := LOW | NORMAL | HIGH | CRITICAL.

Definition priority_value (p : TaskPriority) : Z :=
  match p with LOW => 0 | NORMAL => 1 | HIGH => 2 | CRITICAL => 3 end.

(** What a queued [std::function<void()>] does when called: a callable
    known by a label, or the chunk lambda of [parallel_for], which calls
    [func(j)] for [j] from [i] while [j < chunk_end]. *)
Inductive Closure : Type :=
| Work (label : nat)
| ChunkLoop (i chunk_end : Z).

(** [struct Task] *)
Record Task : Type := MkTask { func : Closure; priority : TaskPriority }.

(** [bool Task::operator<(const Task& other) const] *)
Definition task_lt (a b : Task) : bool :=
  priority_value (priority a) <? priority_value (priority b).

Definition no_task : Task := MkTask (Work 0) LOW.

(** [struct ThreadPoolStats] *)
Record ThreadPoolStats : Type := MkStats {
  tasks_submitted : Z;
  tasks_completed : Z;
  tasks_pending : Z;
  total_wait_time_ns : Z;
  total_exec_time_ns : Z
}.

(** [class ThreadPool]: the data the member functions read and write.
    [workers_] stands for the number of worker threads. *)
Record Pool : Type := MkPool {
  workers_ : Z;
  tasks_ : list Task;
  stop_ : bool;
  paused_ : bool;
  active_tasks_ : Z;
  stats_ : ThreadPoolStats
}.

Definition set_tasks (q : list Task) (p : Pool) : Pool :=
  MkPool (workers_ p) q (stop_ p) (paused_ p) (active_tasks_ p) (stats_ p).
Definition set_stop (b : bool) (p : Pool) : Pool :=
  MkPool (workers_ p) (tasks_ p) b (paused_ p) (active_tasks_ p) (stats_ p).
Definition set_paused (b : bool) (p : Pool) : Pool :=
  MkPool (workers_ p) (tasks_ p) (stop_ p) b (active_tasks_ p) (stats_ p).
Definition set_stats (st : ThreadPoolStats) (p : Pool) : Pool :=
  MkPool (workers_ p) (tasks_ p) (stop_ p) (paused_ p) (active_tasks_ p) st.

(** [tasks_.push(...)] *)
Definition push_task (t : Task) (p : Pool) : Pool :=
  set_tasks (StdHeap.pq_push task_lt no_task t (tasks_ p)) p.

(** [stats_.tasks_submitted.fetch_add(n)] *)
Definition add_submitted (n : Z) (p : Pool) : Pool :=
  let st := stats_ p in
  set_stats (MkStats (u64 (tasks_submitted st + n)) (tasks_completed st)
                     (tasks_pending st) (total_wait_time_ns st)
                     (total_exec_time_ns st)) p.

(** [stats_.tasks_pending.fetch_add(n)] *)
Definition add_pending (n : Z) (p : Pool) : Pool :=
  let st := stats_ p in
  set_stats (MkStats (tasks_submitted st) (tasks_completed st)
                     (u64 (tasks_pending st + n)) (total_wait_time_ns st)
                     (total_exec_time_ns st)) p.

(** [stats_.tasks_pending.fetch_sub(1)] *)
Definition sub_pending (p : Pool) : Pool :=
  let st := stats_ p in
  set_stats (MkStats (tasks_submitted st) (tasks_completed st)
                     (u64 (tasks_pending st - 1)) (total_wait_time_ns st)
                     (total_exec_time_ns st)) p.

Definition stopped_message : string := "Cannot submit to stopped thread pool".

(** [submit_with_priority(priority, f, args...)]: the block under
    [queue_mutex_]. The packaged task and its future are locals; [f] is the
    callable the queued lambda runs. *)
Definition submit_with_priority (prio : TaskPriority) (f : Closure)
  : M Pool unit :=
  do p <- get;
  if stop_ p then throw (StdRuntimeError stopped_message)
  else
    run modify (push_task (MkTask f prio));
    run modify (add_submitted 1);
    modify (add_pending 1).

(** [submit(f, args...)] *)
Definition submit (f : Closure) : M Pool unit :=
  submit_with_priority NORMAL f.

(** [submit_batch(tasks, priority)] *)
Definition submit_batch (tasks : list Closure) (prio : TaskPriority)
  : M Pool unit :=
  do p <- get;
  if stop_ p then throw (StdRuntimeError stopped_message)
  else
    run for_each tasks (fun task => modify (push_task (MkTask task prio)));
    run modify (add_submitted (Z.of_nat (length tasks)));
    modify (add_pending (Z.of_nat (length tasks))).

(** [pause()], [resume()], [is_paused()] *)
Definition pause (p : Pool) : Pool := set_paused true p.
Definition resume (p : Pool) : Pool := set_paused false p.
Definition is_paused (p : Pool) : bool := paused_ p.

(** [shutdown()]: the block under [queue_mutex_]; joining the workers is
    left to the scheduler. *)
Definition shutdown (p : Pool) : Pool :=
  if stop_ p then p else set_stop true p.

(** [size()] and [pending()] *)
Definition size (p : Pool) : Z := workers_ p.
Definition pending (p : Pool) : Z := Z.of_nat (length (tasks_ p)).

(** The constructor, for [n] worker threads once [num_threads] is
    settled. *)
Definition new_pool (n : Z) : Pool :=
  MkPool n [] false false 0 (MkStats 0 0 0 0 0).

(** The predicate of [condition_.wait] in [worker_loop]. *)
Definition wake_condition (p : Pool) : bool :=
  stop_ p || (negb (Nat.eqb (length (tasks_ p)) 0) && negb (paused_ p)).

(** [task = std::move(tasks_.top()); tasks_.pop();
    stats_.tasks_pending.fetch_sub(1)] *)
Definition take_top (p : Pool) : Task * Pool :=
  (StdHeap.pq_top no_task (tasks_ p),
   sub_pending (set_tasks (StdHeap.pq_pop task_lt no_task (tasks_ p)) p)).

(** *** The pool with its workers, step by step

    Where each worker stands in [worker_loop]. A worker holds
    [queue_mutex_] from the return of [condition_.wait] to the end of the
    locked block. *)
Inductive WorkerPc : Type :=
| Waiting                 (* in [condition_.wait], mutex released *)
| Woken                   (* wait returned; before [if (stop_ && empty)] *)
| Checking                (* before [if (empty || paused_)] *)
| Popping                 (* before [tasks_.top()] and [tasks_.pop()] *)
| Running (t : Task)      (* mutex released, around [task.func()] *)
| Exited.

Record Sys : Type := MkSys { pool : Pool; pcs : list WorkerPc }.

(** What can happen next: a call by a client thread, or one step of the
    worker [w]. [pause] and [resume] store to the atomic [paused_] and take
    no lock; [submit] and [shutdown] take [queue_mutex_]. *)
Inductive Event : Type :=
| ClientSubmit (prio : TaskPriority) (f : Closure)
| ClientPause
| ClientResume
| ClientShutdown
| WorkerWake (w : nat)
| WorkerStopCheck (w : nat)
| WorkerPauseCheck (w : nat)
| WorkerPop (w : nat)
| WorkerFinish (w : nat).

Definition holds_mutex (pc : WorkerPc) : bool :=
  match pc with
  | Woken | Checking | Popping => true
  | Waiting | Running _ | Exited => false
  end.

Definition mutex_free (s : Sys) : bool :=
  forallb (fun pc => negb (holds_mutex pc)) (pcs s).

Definition set_pc (w : nat) (pc : WorkerPc) (s : Sys) : Sys :=
  MkSys (pool s) (<[w := pc]> (pcs s)).

(** [active_tasks_.fetch_sub(1); stats_.tasks_completed.fetch_add(1)] *)
Definition finish_task (p : Pool) : Pool :=
  let st := stats_ p in
  MkPool (workers_ p) (tasks_ p) (stop_ p) (paused_ p)
         (u64 (active_tasks_ p - 1))
         (MkStats (tasks_submitted st) (u64 (tasks_completed st + 1))
                  (tasks_pending st) (total_wait_time_ns st)
                  (total_exec_time_ns st)).

(** [active_tasks_.fetch_add(1)] *)
Definition start_task (p : Pool) : Pool :=
  MkPool (workers_ p) (tasks_ p) (stop_ p) (paused_ p)
         (u64 (active_tasks_ p + 1)) (stats_ p).

(** One step; [None] when the event cannot happen in this state. The
    steps of a worker follow [worker_loop]: [WorkerWake] is the return of
    [condition_.wait], its predicate true under the lock; [WorkerStopCheck]
    and [WorkerPauseCheck] are the two [if]s; [WorkerPop] is the rest of the
    locked block with the [active_tasks_.fetch_add(1)] after it;
    [WorkerFinish] is the return of [task.func()] and the bookkeeping after
    it. *)
Definition step (e : Event) (s : Sys) : option Sys :=
  match e with
  | ClientSubmit prio f =>
      if mutex_free s then
        match submit_with_priority prio f (pool s) with
        | Ok _ p' => Some (MkSys p' (pcs s))
        | Raise _ p' => Some (MkSys p' (pcs s))
        end
      else None
  | ClientPause => Some (MkSys (pause (pool s)) (pcs s))
  | ClientResume => Some (MkSys (resume (pool s)) (pcs s))
  | ClientShutdown =>
      if mutex_free s then Some (MkSys (shutdown (pool s)) (pcs s)) else None
  | WorkerWake w =>
      match pcs s !! w with
      | Some Waiting =>
          if mutex_free s && wake_condition (pool s)
          then Some (set_pc w Woken s) else None
      | _ => None
      end
  | WorkerStopCheck w =>
      match pcs s !! w with
      | Some Woken =>
          if stop_ (pool s) && Nat.eqb (length (tasks_ (pool s))) 0
          then Some (set_pc w Exited s)
          else Some (set_pc w Checking s)
      | _ => None
      end
  | WorkerPauseCheck w =>
      match pcs s !! w with
      | Some Checking =>
          if Nat.eqb (length (tasks_ (pool s))) 0 || paused_ (pool s)
          then Some (set_pc w Waiting s)
          else Some (set_pc w Popping s)
      | _ => None
      end
  | WorkerPop w =>
      match pcs s !! w with
      | Some Popping =>
          let '(t, p') := take_top (pool s) in
          Some (MkSys (start_task p') (<[w := Running t]> (pcs s)))
      | _ => None
      end
  | WorkerFinish w =>
      match pcs s !! w with
      | Some (Running _) =>
          Some (MkSys (finish_task (pool s)) (<[w := Waiting]> (pcs s)))
      | _ => None
      end
  end.

(** A run: the events in order, from [s]. *)
Fixpoint run_events (evs : list Event) (s : Sys) : option Sys :=
  match evs with
  | [] => Some s
  | e :: evs' =>
      match step e s with
      | Some s' => run_events evs' s'
      | None => None
      end
  end.

(** A new pool of [n] workers, all about to wait. *)
Definition start_sys (n : nat) : Sys :=
  MkSys (new_pool (Z.of_nat n)) (repeat Waiting n).

(** No worker takes a task out of the queue in a state where the pool is
    paused. *)
Definition never_pops_while_paused (n : nat) : Prop :=
  forall evs s w,
    run_events evs (start_sys n) = Some s ->
    paused_ (pool s) = true ->
    step (WorkerPop w) s = None.

(** The pool is paused and no worker stands between the [paused_] check
    and the pop. *)
Definition settled (s : Sys) : Prop :=
  paused_ (pool s) = true /\ forall w, pcs s !! w <> Some Popping.

(** The key [operator<] compares. *)
Definition task_key (t : Task) : Z := priority_value (priority t).

(** A run of [submit_with_priority] calls, one per task, in order. *)
Definition submit_tasks (ts : list Task) : M Pool unit :=
  for_each ts (fun t => submit_with_priority (priority t) (func t)).

(** One worker going round [worker_loop]: while the queue is not empty and
    the pool is not paused it takes the top task; the tasks taken, in
    order. *)
Fixpoint worker_dequeues (fuel : nat) (p : Pool) : list Task :=
  match fuel with
  | O => []
  | S fuel' =>
      if Nat.eqb (length (tasks_ p)) 0 || paused_ p then []
      else let '(t, p') := take_top p in t :: worker_dequeues fuel' p'
  end.

(** Tasks of priority [prio], in the order of the list. *)
Definition with_priority (prio : TaskPriority) (ts : list Task) : list Task :=
  List.filter (fun t => priority_value (priority t) =? priority_value prio) ts.

(** FIFO among equal priorities, for tasks all queued before a single
    worker takes them: at each priority level the worker takes the tasks
    in the order they were submitted. *)
Definition fifo_among_equal (ts : list Task) : Prop :=
  forall p1, submit_tasks ts (new_pool 1) = Ok tt p1 ->
  forall prio,
    with_priority prio (worker_dequeues (length ts) p1)
    = with_priority prio ts.

(** The queue of the pool is a heap on the priority. *)
Definition queue_ok (p : Pool) : Prop :=
  HeapInv.is_heap task_key no_task (tasks_ p).

(** The schedule of the race: one worker; a task is submitted; the worker
    wakes, passes both checks with [paused_] still false; [pause()] stores
    [true]; the worker then pops. *)
Definition pause_race : list Event :=
  [ClientSubmit NORMAL (Work 0); WorkerWake 0; WorkerStopCheck 0;
   WorkerPauseCheck 0; ClientPause].

(** The calls [func(j)] of the loop [for (j = i; j < e; ++j) func(j)],
    [n] rounds from [j] on; [++j] cannot wrap, [j] being below [e]. *)
Fixpoint loop_calls (n : nat) (j : Z) : list Z :=
  match n with
  | O => []
  | S k => j :: loop_calls k (j + 1)
  end.

(** Calling a queued closure: the [func] calls it makes, in order. *)
Definition closure_calls (c : Closure) : list Z :=
  match c with
  | Work _ => []
  | ChunkLoop i chunk_end => loop_calls (Z.to_nat (chunk_end - i)) i
  end.

(** The sequential loop over the same range. *)
Definition sequential_calls (start end_ : Z) : list Z :=
  loop_calls (Z.to_nat (end_ - start)) start.

(** [chunk_size] after the [if (chunk_size == 0)] of [parallel_for], at
    [IndexType = size_t]. *)
Definition chunk_size_used (p : Pool) (start end_ chunk_size : Z) : Z :=
  let total := u64 (end_ - start) in
  if chunk_size =? 0
  then Z.max 1 (total / u64 (size p * 4))
  else chunk_size.

(** The loop [for (i = start; i < end; i += chunk_size)] of [parallel_for]:
    it submits one chunk lambda per round and collects them, in the order
    of their futures. [None]: the loop is still running when the fuel is
    spent. *)
Fixpoint submit_chunks (fuel : nat) (i end_ chunk_size : Z) (p : Pool)
  : option (Res Pool (list Closure)) :=
  if i <? end_ then
    match fuel with
    | O => None
    | S fuel' =>
        let chunk_end := Z.min (u64 (i + chunk_size)) end_ in
        match submit (ChunkLoop i chunk_end) p with
        | Raise e p' => Some (Raise e p')
        | Ok _ p' =>
            match submit_chunks fuel' (u64 (i + chunk_size)) end_
                                chunk_size p' with
            | Some (Ok cs p'') => Some (Ok (ChunkLoop i chunk_end :: cs) p'')
            | Some (Raise e p'') => Some (Raise e p'')
            | None => None
            end
        end
    end
  else Some (Ok [] p).

(** [parallel_for(pool, start, end, func, chunk_size)] up to the point
    where every chunk is submitted; it then waits on the future of each
    chunk, so that on return each collected closure has run once. *)
Definition parallel_for (fuel : nat) (start end_ chunk_size : Z) (p : Pool)
  : option (Res Pool (list Closure)) :=
  if end_ <=? start then Some (Ok [] p)
  else submit_chunks fuel start end_
                     (chunk_size_used p start end_ chunk_size) p.

(** P10 for one call: [parallel_for] returns, and in whatever order the
    workers run the chunks, the calls of [func] are those of the
    sequential loop, as multisets. *)
Definition parallel_for_as_sequential (start end_ chunk_size : Z) (p : Pool)
  : Prop :=
  exists fuel chunks p',
    parallel_for fuel start end_ chunk_size p = Some (Ok chunks p')
    /\ forall sched, Permutation sched chunks ->
          Permutation (flat_map closure_calls sched)
                      (sequential_calls start end_).

End ThreadPool.

(** ** The BSGS search engine

    [bsgs.h] declares [CPUBSGSEngine]; its implementation and the field and
    point arithmetic are not among the sources. *)

Module Bsgs.

(** [enum class BSGSMode] of [config.h] *)
Inductive BSGSMode : Type := SEQUENTIAL | BACKWARD | BOTH | RANDOM | DANCE.

(** Modelled from the spec: the group of the curve (sections 3 and 4.1), for
    the missing field and point arithmetic. The points are the multiples of
    the base point [G], a group of order [order]; [mul_G a] names the point
    a.G and is used in the laws only. [x_of] is the affine X coordinate,
    which a point shares with its negation; [phi] is the endomorphism,
    multiplication by [lambda]. *)
Record Curve : Type := MkCurve {
  point : Type;
  infinity : point;
  point_add : point -> point -> point;
  point_neg : point -> point;
  point_eqb : point -> point -> bool;
  G : point;
  order : Z;
  coord : Type;
  x_of : point -> coord;
  coord_eqb : coord -> coord -> bool;
  lambda : Z;
  lambda_inv : Z;
  phi : point -> point;
  mul_G : Z -> point
}.

(** Modelled from the spec: the laws of that group. *)
Record CurveLaws (c : Curve) : Prop := MkCurveLaws {
  order_range : 2 <= order c < 2 ^ 256;
  G_def : G c = mul_G c 1;
  infinity_def : infinity c = mul_G c 0;
  add_law : forall a b,
    point_add c (mul_G c a) (mul_G c b) = mul_G c (a + b);
  neg_law : forall a, point_neg c (mul_G c a) = mul_G c (- a);
  eq_law : forall a b,
    mul_G c a = mul_G c b <-> a mod order c = b mod order c;
  point_eqb_law : forall P Q, point_eqb c P Q = true <-> P = Q;
  x_law : forall a b,
    x_of c (mul_G c a) = x_of c (mul_G c b)
    <-> (a mod order c = b mod order c \/ a mod order c = (- b) mod order c);
  coord_eqb_law : forall x y, coord_eqb c x y = true <-> x = y;
  lambda_law : (lambda c * lambda_inv c) mod order c = 1;
  phi_law : forall a, phi c (mul_G c a) = mul_G c (lambda c * a)
}.

Section Engine.
Context (c : Curve).

(** Modelled from the spec: [point_double], 2.P = P + P (P5). *)
Definition point_double (P : point c) : point c := point_add c P P.

(** Modelled from the spec: [scalar_mul(k, P)], "double-and-add from bit 0
    upward", in 256 iterations. *)
Fixpoint scalar_mul_loop (n : nat) (i : Z) (k : Z) (R Q : point c)
  : point c :=
  match n with
  | O => R
  | S n' =>
      scalar_mul_loop n' (i + 1) k
        (if Z.testbit k i then point_add c R Q else R) (point_double Q)
  end.

(** Modelled from the spec: [scalar_mul(k, P)], the loop run from bit 0 on
    the point at infinity, "in constant number of iterations (256)". *)
Definition scalar_mul (k : Z) (P : point c) : point c :=
  scalar_mul_loop 256 0 k (infinity c) P.

(** Modelled from the spec: the baby-step table of section 4.3, step 2,
    "for scalars [0, m) against base G", affine X only; row i holds the X
    of i.G. *)
Fixpoint baby_steps (n : nat) (P : point c) : list (coord c) :=
  match n with
  | O => []
  | S n' => x_of c P :: baby_steps n' (point_add c P (G c))
  end.

(** Modelled from the spec: the table of size [m], built from 0.G on. *)
Definition baby_table (m : Z) : list (coord c) :=
  baby_steps (Z.to_nat m) (infinity c).

(** Modelled from the spec: the probe contract of section 4.2,
    "table.lookup(C) returns Some(i) iff there is i < m with P_i.x = C.x".
    The bloom prefilter has no false negatives (P7) and its false positives
    are removed by the exact comparison, so the answer is that of the
    comparison: the first row with the X looked up. *)
Fixpoint lookup_from (i : Z) (table : list (coord c)) (x : coord c)
  : option Z :=
  match table with
  | [] => None
  | y :: rest =>
      if coord_eqb c y x then Some i else lookup_from (i + 1) rest x
  end.

(** Modelled from the spec: [table.lookup], rows counted from 0. *)
Definition lookup (table : list (coord c)) (x : coord c) : option Z :=
  lookup_from 0 table x.

(** Modelled from the spec: the inputs of a search, the target T and the
    fields of BSGSParams (section 3). [stride] and [thread_count] matter to
    the modes DANCE and RANDOM; [rng] is the stream of the pseudo-random
    generator. *)
Record Search : Type := MkSearch {
  target : point c;
  lo : Z;
  hi : Z;
  m : Z;
  mode : BSGSMode;
  endomorphism : bool;
  stride : nat;
  thread_count : nat;
  rng : nat -> nat
}.

Context (q : Search).

(** Modelled from the spec: N = hi - lo + 1, and the edge case "if N < m,
    reduce m to N" of section 4.3. *)
Definition range_size : Z := hi q - lo q + 1.

(** Modelled from the spec: the table size after "reduce m to N". *)
Definition table_size : Z := Z.min (m q) range_size.

(** Modelled from the spec: the number of giant steps, the ceiling of
    N / m. *)
Definition giant_steps : Z := (range_size + table_size - 1) / table_size.

(** Modelled from the spec: section 4.3, step 3, G_giant = m.G. *)
Definition G_giant : point c := scalar_mul table_size (G c).

(** Modelled from the spec: section 4.3, step 4, C_0 = T - lo.G and
    C_(j+1) = C_j - G_giant. *)
Fixpoint giant_point (j : nat) : point c :=
  match j with
  | O => point_add c (target q) (point_neg c (scalar_mul (lo q) (G c)))
  | S j' => point_add c (giant_point j') (point_neg c G_giant)
  end.

(** Modelled from the spec: the candidates of giant step [j]. A hit of C_j
    at row i gives k = lo + j.m + i (step 4). With the endomorphism, a hit
    of phi(C_j) at row i means lambda.(k - lo - j.m) = i or -i modulo the
    order, "from which the true k is recovered" (step 5). *)
Definition candidates (j : nat) : list Z :=
  let base := lo q + Z.of_nat j * table_size in
  let table := baby_table table_size in
  let plain :=
    match lookup table (x_of c (giant_point j)) with
    | Some i => [base + i]
    | None => []
    end in
  let endo :=
    if endomorphism q then
      match lookup table (x_of c (phi c (giant_point j))) with
      | Some i => [(base + lambda_inv c * i) mod order c;
                   (base - lambda_inv c * i) mod order c]
      | None => []
      end
    else [] in
  plain ++ endo.

(** Modelled from the spec: "Verify by computing k.G and comparing to T". *)
Definition verify (k : Z) : bool :=
  point_eqb c (scalar_mul k (G c)) (target q).

(** Modelled from the spec: one giant step, "if equal, publish": the first
    candidate that passes the verification. *)
Definition giant_step (j : nat) : option Z := find verify (candidates j).

(** Modelled from the spec: the mode bothways of section 4.3, "two
    independent cursors from opposite ends; terminate when they meet": one
    step from the front, one from the back, and so on. *)
Fixpoint from_both_ends (fuel : nat) (l : list nat) : list nat :=
  match fuel, l with
  | S fuel', j :: rest => j :: from_both_ends fuel' (rev rest)
  | _, _ => []
  end.

(** Modelled from the spec: the mode dance, "alternating forward/backward
    stride": a stride from the front, a stride from the back, and so on. *)
Fixpoint dance (fuel : nat) (s : nat) (l : list nat) : list nat :=
  match fuel, l with
  | S fuel', _ :: _ => take (S s) l ++ dance fuel' s (rev (drop (S s) l))
  | _, _ => []
  end.

(** Modelled from the spec: the mode random, "disjoint contiguous chunks":
    the list cut into chunks of [S s]. *)
Fixpoint chunks (fuel : nat) (s : nat) (l : list nat) : list (list nat) :=
  match fuel, l with
  | S fuel', _ :: _ => take (S s) l :: chunks fuel' s (drop (S s) l)
  | _, _ => []
  end.

(** Modelled from the spec: the mode random, "in a pseudo-random order":
    the generator picks, one after the other, which of the remaining chunks
    comes next. *)
Fixpoint pick_order {A} (fuel : nat) (g : nat -> nat) (i : nat) (l : list A)
  : list A :=
  match fuel, l with
  | S fuel', x :: rest =>
      let n := (g i mod length l)%nat in
      nth n l x :: pick_order fuel' g (S i) (delete n l)
  | _, _ => []
  end.

(** Modelled from the spec: the order in which each search mode of section
    4.3 visits the giant steps 0 to ceil(N/m) - 1; the chunks of the mode
    random have the size of the range over [thread_count]. *)
Definition schedule : list nat :=
  let all := seq 0 (Z.to_nat giant_steps) in
  let n := length all in
  match mode q with
  | SEQUENTIAL => all
  | BACKWARD => rev all
  | BOTH => from_both_ends n all
  | DANCE => dance n (pred (stride q)) all
  | RANDOM =>
      let size := (n / Nat.max 1 (thread_count q))%nat in
      concat (pick_order n (rng q) 0 (chunks n (pred size) all))
  end.

(** Modelled from the spec: the sweep, ended by the first verified
    candidate. *)
Fixpoint first_hit (steps : list nat) : option Z :=
  match steps with
  | [] => None
  | j :: rest =>
      match giant_step j with
      | Some k => Some k
      | None => first_hit rest
      end
  end.

(** Modelled from the spec: BSGS(T, lo, hi, m). *)
Definition bsgs : option Z := first_hit schedule.

End Engine.

(** The group of integers modulo 13 as a curve: base point 1, the X of a
    point the smaller of the point and its negation, [lambda] = 3. *)
Definition toy_curve : Curve :=
  {| point := Z;
     infinity := 0;
     point_add := fun a b => (a + b) mod 13;
     point_neg := fun a => (- a) mod 13;
     point_eqb := Z.eqb;
     G := 1;
     order := 13;
     coord := Z;
     x_of := fun a => Z.min a ((- a) mod 13);
     coord_eqb := Z.eqb;
     lambda := 3;
     lambda_inv := 9;
     phi := fun a => (3 * a) mod 13;
     mul_G := fun a => a mod 13 |}.

End Bsgs.

(** ** [UInt256]: the members of [types.h] beside the arithmetic *)

Module UInt256Ops.
Import Mach Exn Types.

(** [bool operator==(const UInt256& other) const]: [std::array] compares
    element by element. *)
Definition eqb (x y : UInt256) : bool :=
  forallb (fun i => limb x i =? limb y i) (seq 0 NUM_LIMBS).

(** [bool operator!=(const UInt256& other) const] *)
Definition neqb (x y : UInt256) : bool := negb (eqb x y).

(** The loop of [operator++], [n] rounds from limb [i] on:
    [if (++limbs_[i] != 0) break;]. *)
Fixpoint incr_from (n i : nat) (x : UInt256) : UInt256 :=
  match n with
  | O => x
  | S k =>
      let v := u64 (limb x i + 1) in
      let x' := set_limb x i v in
      if negb (v =? 0) then x' else incr_from k (S i) x'
  end.

(** [UInt256& operator++()] *)
Definition incr (x : UInt256) : UInt256 := incr_from NUM_LIMBS 0 x.

(** [bool is_zero() const] *)
Definition is_zero (x : UInt256) : bool :=
  (limb x 0 =? 0) && (limb x 1 =? 0) && (limb x 2 =? 0) && (limb x 3 =? 0).

(** [void set_bit(size_t pos, bool value = true)] *)
Definition set_bit (x : UInt256) (pos : Z) (value : bool) : UInt256 :=
  if 256 <=? pos then x
  else
    let limb_idx := Z.to_nat (pos / 64) in
    let bit_idx := pos mod 64 in
    if value
    then set_limb x limb_idx
           (Z.lor (limb x limb_idx) (u64 (Z.shiftl 1 bit_idx)))
    else set_limb x limb_idx
           (Z.land (limb x limb_idx) (not64 (u64 (Z.shiftl 1 bit_idx)))).

(** [__builtin_clzll(v)]: the zero bits above the highest set bit of the
    64-bit [v], found by looking at the bits from bit [n - 1] down. The
    builtin has no defined result for 0. *)
Fixpoint clz_from (n : nat) (v : Z) : option Z :=
  match n with
  | O => None
  | S k => if Z.testbit v (Z.of_nat k) then Some (63 - Z.of_nat k)
           else clz_from k v
  end.

Definition clzll (v : Z) : option Z := clz_from 64 v.

(** The loop of [highest_bit], over the limbs [n - 1] down to 0. *)
Fixpoint highest_bit_from (n : nat) (x : UInt256) : option Z :=
  match n with
  | O => Some (-1)
  | S i =>
      if negb (limb x i =? 0)
      then match clzll (limb x i) with
           | Some z => Some (Z.of_nat i * 64 + (63 - z))
           | None => None
           end
      else highest_bit_from i x
  end.

(** [int highest_bit() const] *)
Definition highest_bit (x : UInt256) : option Z :=
  highest_bit_from NUM_LIMBS x.

End UInt256Ops.

(** ** Hexadecimal text: [from_hex] and [to_hex] of [types.h]

    A [std::string] or [std::string_view] is the list of its characters. *)

Module Hex.
Import Stdlib.Strings.Ascii Mach Types.

(** [static int hex_char_to_int(char c)]; the tests on [c] give the same
    answers whether [char] is signed or not. *)
Definition hex_char_to_int (c : ascii) : Z :=
  let n := Z.of_N (N_of_ascii c) in
  if (48 <=? n) && (n <=? 57) then n - 48
  else if (97 <=? n) && (n <=? 102) then n - 97 + 10
  else if (65 <=? n) && (n <=? 70) then n - 65 + 10
  else -1.

(** [if (hex.size() >= 2 && hex[0] == '0' && (hex[1] == 'x' || hex[1] == 'X'))
    hex = hex.substr(2);] *)
Definition strip_prefix (hex : list ascii) : list ascii :=
  match hex with
  | c0 :: c1 :: rest =>
      if Ascii.eqb c0 "0" && (Ascii.eqb c1 "x" || Ascii.eqb c1 "X")
      then rest else hex
  | _ => hex
  end.

(** [hex.substr(pos, n)] *)
Definition substr (s : list ascii) (pos n : nat) : list ascii :=
  take n (drop pos s).

(** The inner loop of [UInt256::from_hex] over one chunk:
    [value <<= 4; digit = hex_char_to_int(c); if (digit < 0) return nullopt;
    value |= digit;]. *)
Fixpoint parse_chunk (chunk : list ascii) (value : Z) : option Z :=
  match chunk with
  | [] => Some value
  | c :: rest =>
      let value := u64 (Z.shiftl value 4) in
      let digit := hex_char_to_int c in
      if digit <? 0 then None else parse_chunk rest (Z.lor value digit)
  end.

(** [if (hex.size() < 64) { padded = std::string(64 - hex.size(), '0') +
    std::string(hex); hex = padded; }] *)
Definition padded (hex : list ascii) : list ascii :=
  if (length hex <? 64)%nat
  then repeat "0"%char (64 - length hex) ++ hex
  else hex.

(** [static std::optional<UInt256> from_hex(std::string_view hex)] *)
Definition from_hex (hex : list ascii) : option UInt256 :=
  let hex := strip_prefix hex in
  let hex := padded hex in
  if (64 <? length hex)%nat then None
  else
    fold_left
      (fun acc i =>
         match acc with
         | None => None
         | Some result =>
             let offset := ((3 - i) * 16)%nat in
             match parse_chunk (substr hex offset 16) 0 with
             | None => None
             | Some value => Some (set_limb result i value)
             end
         end)
      (seq 0 4) (Some zero).

(** The digit characters [std::hex] prints. *)
Definition hex_digit (d : Z) : ascii :=
  nth (Z.to_nat d) (String.list_ascii_of_string "0123456789abcdef") "0"%char.

(** The [n] low hexadecimal digits of [v], the most significant first. *)
Fixpoint hex_digits (n : nat) (v : Z) : list ascii :=
  match n with
  | O => []
  | S k => hex_digits k (v / 16) ++ [hex_digit (v mod 16)]
  end.

Fixpoint drop_zeros (s : list ascii) : list ascii :=
  match s with
  | c :: rest => if Ascii.eqb c "0" then drop_zeros rest else s
  | [] => []
  end.

(** [oss << v] under [std::hex], for an unsigned [v] below 2^64: the digits
    without leading zeros, and one digit for zero. *)
Definition put_hex (v : Z) : list ascii :=
  match drop_zeros (hex_digits 16 v) with
  | [] => ["0"%char]
  | s => s
  end.

(** [oss << std::setw(w) << v] with [std::setfill('0')] *)
Definition put_hex_w (w : nat) (v : Z) : list ascii :=
  let s := put_hex v in repeat "0"%char (w - length s) ++ s.

(** One round of the loop of [UInt256::to_hex], for limb [i]. *)
Definition to_hex_round (x : UInt256) (st : list ascii * bool) (i : nat)
  : list ascii * bool :=
  let '(oss, leading_zero) := st in
  if negb (limb x i =? 0) || negb leading_zero || (i =? 0)%nat then
    if leading_zero && negb (limb x i =? 0)
    then (oss ++ put_hex (limb x i), false)
    else if negb leading_zero
         then (oss ++ put_hex_w 16 (limb x i), leading_zero)
         else (oss ++ ["0"%char], leading_zero)
  else (oss, leading_zero).

(** [std::string to_hex() const] *)
Definition to_hex (x : UInt256) : list ascii :=
  fst (fold_left (to_hex_round x) [3; 2; 1; 0]%nat ([], true)).

(** The number a string of hexadecimal digits stands for. *)
Definition hex_value_from (a : Z) (s : list ascii) : Z :=
  fold_left (fun a c => a * 16 + hex_char_to_int c) s a.

Definition hex_value (s : list ascii) : Z := hex_value_from 0 s.

(** [c] is a hexadecimal digit. *)
Definition is_hex (c : ascii) : Prop := 0 <= hex_char_to_int c.

(** What [std::setw(2)] and [std::hex] print for a byte: its two digits. *)
Definition byte_hex (b : Z) : list ascii :=
  [hex_digit (b / 16); hex_digit (b mod 16)].

End Hex.

(** ** [ByteArray<N, Tag>] *)

Module ByteArray.
Import Stdlib.Strings.Ascii Mach Hex.

Section Sized.
Variable N : nat.

(** The class invariant: [std::array<uint8_t, N> data_]. *)
Definition wf (a : list Z) : Prop := length a = N /\ Forall is_u8 a.

(** [ByteArray()]: [data_.fill(0)] *)
Definition zero : list Z := repeat 0 N.

(** [static std::optional<ByteArray> from_hex(std::string_view hex)] *)
Definition from_hex (hex : list ascii) : option (list Z) :=
  let hex := strip_prefix hex in
  if negb (length hex =? N * 2)%nat then None
  else
    fold_left
      (fun acc i =>
         match acc with
         | None => None
         | Some result =>
             let high := hex_char_to_int (nth (i * 2) hex "000"%char) in
             let low := hex_char_to_int (nth (i * 2 + 1) hex "000"%char) in
             if (high <? 0) || (low <? 0) then None
             else Some (<[i := u8 (Z.lor (Z.shiftl high 4) low)]> result)
         end)
      (seq 0 N) (Some zero).

(** [std::string to_hex() const] *)
Definition to_hex (a : list Z) : list ascii :=
  fold_left (fun oss i => oss ++ put_hex_w 2 (nth i a 0)) (seq 0 N) [].

(** [bool operator==], [operator!=] *)
Definition eqb (a b : list Z) : bool :=
  forallb (fun i => nth i a 0 =? nth i b 0) (seq 0 N).
Definition neqb (a b : list Z) : bool := negb (eqb a b).

(** [bool is_zero() const] *)
Definition is_zero (a : list Z) : bool :=
  forallb (fun i => nth i a 0 =? 0) (seq 0 N).

(** [void secure_zero()] *)
Definition secure_zero (a : list Z) : list Z :=
  fold_left (fun p i => <[i := 0]> p) (seq 0 N) a.

(** [ByteArray operator^(const ByteArray& other) const] *)
Definition xor (a b : list Z) : list Z :=
  fold_left (fun result i => <[i := Z.lxor (nth i a 0) (nth i b 0)]> result)
            (seq 0 N) zero.

End Sized.

(** [bool operator<]: [std::array] compares lexicographically. *)
Fixpoint lt (a b : list Z) : bool :=
  match a, b with
  | x :: a', y :: b' =>
      if x <? y then true else if y <? x then false else lt a' b'
  | [], _ :: _ => true
  | _, [] => false
  end.

End ByteArray.

(** ** [thread_pool.h]: the counters, the workers at large, [parallel_reduce] *)

Module PoolRuns.
Import Mach Exn ThreadPool.

(** [void ThreadPoolStats::reset()] *)
Definition reset (st : ThreadPoolStats) : ThreadPoolStats := MkStats 0 0 0 0 0.

(** [void reset_stats()] *)
Definition reset_stats (p : Pool) : Pool := set_stats (reset (stats_ p)) p.

(** [size_t active() const] *)
Definition active (p : Pool) : Z := active_tasks_ p.

(** The queue after the pushes of a batch, [tasks_.push(Task{task,
    priority})] for each task in order. *)
Definition pushed (fs : list Closure) (prio : TaskPriority) (q : list Task)
  : list Task :=
  fold_left (fun q f => StdHeap.pq_push task_lt no_task (MkTask f prio) q) fs q.

(** The counters hold 64-bit values. *)
Definition stats_wf (st : ThreadPoolStats) : Prop :=
  is_u64 (tasks_submitted st) /\ is_u64 (tasks_pending st).

(** The worker is between taking a task and counting it completed. *)
Definition is_running (pc : WorkerPc) : bool :=
  match pc with Running _ => true | _ => false end.

Definition running_count (pcs : list WorkerPc) : Z :=
  Z.of_nat (length (List.filter is_running pcs)).

(** At most one worker is inside the block locked by [queue_mutex_]. *)
Definition one_holder (s : Sys) : Prop :=
  forall w w' pc pc',
    pcs s !! w = Some pc -> pcs s !! w' = Some pc' ->
    holds_mutex pc = true -> holds_mutex pc' = true -> w = w'.

(** What holds of the pool between any two steps. *)
Definition pool_inv (s : Sys) : Prop :=
  one_holder s
  /\ (forall w, pcs s !! w = Some Popping -> tasks_ (pool s) <> [])
  /\ queue_ok (pool s)
  /\ tasks_pending (stats_ (pool s))
     = u64 (Z.of_nat (length (tasks_ (pool s))))
  /\ u64 (tasks_submitted (stats_ (pool s)))
     = u64 (tasks_completed (stats_ (pool s)) + running_count (pcs s)
            + Z.of_nat (length (tasks_ (pool s)))).

(** The pool was shut down while paused with tasks still queued, and no
    worker stands between the [paused_] check and the pop. *)
Definition stuck (s : Sys) : Prop :=
  stop_ (pool s) = true /\ paused_ (pool s) = true
  /\ tasks_ (pool s) <> []
  /\ forall w, pcs s !! w <> Some Popping.

(** The events of a client that pauses the pool, submits a task and shuts
    the pool down, as the destructor does. *)
Definition pause_submit_shutdown : list Event :=
  [ClientPause; ClientSubmit NORMAL (Work 0); ClientShutdown].

End PoolRuns.

Module ParallelReduce.
Import Mach Exn ThreadPool.

Section Reduce.
Context {T : Type} (identity : T) (map_func : Z -> T)
        (reduce_func : T -> T -> T).

(** The loop [for (j = i; j < chunk_end; ++j)
    result = reduce_func(result, map_func(j))] over the indices [js]. *)
Definition reduce_loop (result : T) (js : list Z) : T :=
  fold_left (fun result j => reduce_func result (map_func j)) js result.

(** What the chunk lambda of [parallel_reduce] returns; it captures [i]
    and [chunk_end] as the chunk lambda of [parallel_for] does. *)
Definition chunk_result (c : Closure) : T :=
  reduce_loop identity (closure_calls c).

(** [parallel_reduce(pool, start, end, identity, map_func, reduce_func,
    chunk_size)] at [IndexType = size_t]: the chunk loop is the one of
    [parallel_for]; the futures are read in the order of submission. *)
Definition parallel_reduce (fuel : nat) (start end_ chunk_size : Z) (p : Pool)
  : option (Res Pool T) :=
  if end_ <=? start then Some (Ok identity p)
  else
    match submit_chunks fuel start end_
                        (chunk_size_used p start end_ chunk_size) p with
    | Some (Ok futures p') =>
        Some (Ok (fold_left (fun result f => reduce_func result (chunk_result f))
                            futures identity) p')
    | Some (Raise e p') => Some (Raise e p')
    | None => None
    end.

(** The sequential reduction over the same range. *)
Definition sequential_reduce (start end_ : Z) : T :=
  reduce_loop identity (sequential_calls start end_).

End Reduce.
End ParallelReduce.

(** ** [thread_pool.h]: [wait()] and the workers, with
    [active_tasks_.fetch_add(1)] as a step of its own *)

Module WaitRuns.
Import Mach Exn ThreadPool.

(** Where a worker stands in [worker_loop]: the places of [WorkerPc], and
    the place after the locked block, the task in hand, before
    [active_tasks_.fetch_add(1)]. *)
Inductive Pc : Type :=
| At (pc : WorkerPc)
| Taken (t : Task).

Record FSys : Type := MkFSys { fpool : Pool; fpcs : list Pc }.

(** The events of [Event], with the pop and the [fetch_add] apart:
    [FPop] is [task = std::move(tasks_.top()); tasks_.pop();
    stats_.tasks_pending.fetch_sub(1)] and the end of the locked block,
    [FStart] is [active_tasks_.fetch_add(1)]. *)
Inductive FEvent : Type :=
| FSubmit (prio : TaskPriority) (f : Closure)
| FPause
| FResume
| FShutdown
| FWake (w : nat)
| FStopCheck (w : nat)
| FPauseCheck (w : nat)
| FPop (w : nat)
| FStart (w : nat)
| FFinish (w : nat).

Definition fholds (pc : Pc) : bool :=
  match pc with
  | At pc => holds_mutex pc
  | Taken _ => false
  end.

Definition fmutex_free (s : FSys) : bool :=
  forallb (fun pc => negb (fholds pc)) (fpcs s).

Definition fset_pc (w : nat) (pc : Pc) (s : FSys) : FSys :=
  MkFSys (fpool s) (<[w := pc]> (fpcs s)).

(** One step; [None] when the event cannot happen in this state. *)
Definition fstep (e : FEvent) (s : FSys) : option FSys :=
  match e with
  | FSubmit prio f =>
      if fmutex_free s then
        match submit_with_priority prio f (fpool s) with
        | Ok _ p' => Some (MkFSys p' (fpcs s))
        | Raise _ p' => Some (MkFSys p' (fpcs s))
        end
      else None
  | FPause => Some (MkFSys (pause (fpool s)) (fpcs s))
  | FResume => Some (MkFSys (resume (fpool s)) (fpcs s))
  | FShutdown =>
      if fmutex_free s then Some (MkFSys (shutdown (fpool s)) (fpcs s))
      else None
  | FWake w =>
      match fpcs s !! w with
      | Some (At Waiting) =>
          if fmutex_free s && wake_condition (fpool s)
          then Some (fset_pc w (At Woken) s) else None
      | _ => None
      end
  | FStopCheck w =>
      match fpcs s !! w with
      | Some (At Woken) =>
          if stop_ (fpool s) && Nat.eqb (length (tasks_ (fpool s))) 0
          then Some (fset_pc w (At Exited) s)
          else Some (fset_pc w (At Checking) s)
      | _ => None
      end
  | FPauseCheck w =>
      match fpcs s !! w with
      | Some (At Checking) =>
          if Nat.eqb (length (tasks_ (fpool s))) 0 || paused_ (fpool s)
          then Some (fset_pc w (At Waiting) s)
          else Some (fset_pc w (At Popping) s)
      | _ => None
      end
  | FPop w =>
      match fpcs s !! w with
      | Some (At Popping) =>
          let '(t, p') := take_top (fpool s) in
          Some (MkFSys p' (<[w := Taken t]> (fpcs s)))
      | _ => None
      end
  | FStart w =>
      match fpcs s !! w with
      | Some (Taken t) =>
          Some (MkFSys (start_task (fpool s)) (<[w := At (Running t)]> (fpcs s)))
      | _ => None
      end
  | FFinish w =>
      match fpcs s !! w with
      | Some (At (Running _)) =>
          Some (MkFSys (finish_task (fpool s)) (<[w := At Waiting]> (fpcs s)))
      | _ => None
      end
  end.

Fixpoint frun (evs : list FEvent) (s : FSys) : option FSys :=
  match evs with
  | [] => Some s
  | e :: evs' =>
      match fstep e s with
      | Some s' => frun evs' s'
      | None => None
      end
  end.

(** A new pool of [n] workers, all about to wait. *)
Definition fstart (n : nat) : FSys :=
  MkFSys (new_pool (Z.of_nat n)) (repeat (At Waiting) n).

(** [wait()] returns: the caller holds [queue_mutex_] and the predicate of
    [done_condition_.wait], [tasks_.empty() && active_tasks_.load() == 0],
    is true. *)
Definition wait_returns (s : FSys) : bool :=
  fmutex_free s && Nat.eqb (length (tasks_ (fpool s))) 0
  && (active_tasks_ (fpool s) =? 0).

(** The worker is inside [task.func()], counted by [active_tasks_]. *)
Definition is_started (pc : Pc) : bool :=
  match pc with At (Running _) => true | _ => false end.

(** The worker has taken a task and not yet counted it active. *)
Definition is_taken (pc : Pc) : bool :=
  match pc with Taken _ => true | _ => false end.

Definition count (f : Pc -> bool) (pcs : list Pc) : Z :=
  Z.of_nat (length (List.filter f pcs)).

(** What holds of the pool between any two steps. *)
Definition finv (s : FSys) : Prop :=
  (forall w w' pc pc',
     fpcs s !! w = Some pc -> fpcs s !! w' = Some pc' ->
     fholds pc = true -> fholds pc' = true -> w = w')
  /\ (forall w, fpcs s !! w = Some (At Popping) -> tasks_ (fpool s) <> [])
  /\ queue_ok (fpool s)
  /\ u64 (tasks_submitted (stats_ (fpool s)))
     = u64 (tasks_completed (stats_ (fpool s)) + count is_started (fpcs s)
            + count is_taken (fpcs s)
            + Z.of_nat (length (tasks_ (fpool s))))
  /\ active_tasks_ (fpool s) = u64 (count is_started (fpcs s)).

(** One client submits a task, the worker takes it and leaves the locked
    block. *)
Definition submit_and_take : list FEvent :=
  [FSubmit NORMAL (Work 0); FWake 0; FStopCheck 0; FPauseCheck 0; FPop 0].

End WaitRuns.

(** ** [bloom_filter.h]: the bit accessors of [BloomFilter] *)

Module BloomFilter.
Import Mach.

(** [void set_bit(size_t pos)]: [bits_[byte_idx] |= (1 << bit_idx)]; no
    result when the index lies outside the vector. *)
Definition set_bit (bits_ : list Z) (pos : Z) : option (list Z) :=
  let byte_idx := Z.to_nat (pos / 8) in
  let bit_idx := pos mod 8 in
  match bits_ !! byte_idx with
  | Some b => Some (<[byte_idx := u8 (Z.lor b (Z.shiftl 1 bit_idx))]> bits_)
  | None => None
  end.

(** [bool test_bit(size_t pos) const]:
    [(bits_[byte_idx] >> bit_idx) & 1] *)
Definition test_bit (bits_ : list Z) (pos : Z) : option bool :=
  let byte_idx := Z.to_nat (pos / 8) in
  let bit_idx := pos mod 8 in
  match bits_ !! byte_idx with
  | Some b => Some (negb (Z.land (Z.shiftr b bit_idx) 1 =? 0))
  | None => None
  end.

(** [size_t memory_usage() const] *)
Definition memory_usage (bits_ : list Z) : Z := Z.of_nat (length bits_).

End BloomFilter.

(** ** The test bloom filter: runs of [bits_[pos / 8] |= ...] *)

Module BloomRuns.
Import Mach TestBloom.

(** The writes of a run of rounds of [add], one per position, in order. *)
Fixpoint set_all (bits : list Z) (ps : list Z) : option (list Z) :=
  match ps with
  | [] => Some bits
  | pos :: ps' =>
      match set_pos bits pos with
      | Some bits' => set_all bits' ps'
      | None => None
      end
  end.

(** The positions [h % num_bits_] the rounds [i], [i + 1], ... of the loops
    of [add] and [possibly_contains] compute for [data], [n] of them. *)
Fixpoint positions (num_bits : Z) (data : list Z) (n : nat) (i : Z)
  : list Z :=
  match n with
  | O => []
  | S k => simple_hash data i mod num_bits :: positions num_bits data k (i + 1)
  end.

End BloomRuns.

(** ** [simd.h]: [UInt32x4] and the message schedule

    The lanes of a [UInt32x4] are modelled as the portable version of the
    class has them, [uint32_t data_[4]]; the NEON and SSE2 versions apply
    the same operation to each 32-bit lane. *)

Module Simd.

(** [static_cast<uint32_t>] *)
Definition u32 (z : Z) : Z := z mod 2 ^ 32.

Definition is_u32 (z : Z) : Prop := 0 <= z < 2 ^ 32.

Definition UInt32x4 : Type := list Z.

(** [explicit UInt32x4(uint32_t v)] *)
Definition broadcast (v : Z) : UInt32x4 := map (fun _ => v) (seq 0 4).

(** [static UInt32x4 loadu(const uint32_t* ptr)], [ptr] being [&mem[p]] *)
Definition loadu (mem : list Z) (p : nat) : UInt32x4 :=
  map (fun i => nth (p + i) mem 0) (seq 0 4).

(** [void storeu(uint32_t* ptr) const], [ptr] being [&mem[p]] *)
Definition storeu (x : UInt32x4) (mem : list Z) (p : nat) : list Z :=
  fold_left (fun mem i => <[(p + i)%nat := nth i x 0]> mem) (seq 0 4) mem.

(** The loop [for (int i = 0; i < 4; ++i) result.data_[i] = ...] of the
    binary operators. *)
Definition lanewise (op : Z -> Z -> Z) (a b : UInt32x4) : UInt32x4 :=
  map (fun i => op (nth i a 0) (nth i b 0)) (seq 0 4).

(** [operator+], [operator-], [operator&], [operator|], [operator^] *)
Definition add : UInt32x4 -> UInt32x4 -> UInt32x4 :=
  lanewise (fun x y => u32 (x + y)).
Definition sub : UInt32x4 -> UInt32x4 -> UInt32x4 :=
  lanewise (fun x y => u32 (x - y)).
Definition and_ : UInt32x4 -> UInt32x4 -> UInt32x4 := lanewise Z.land.
Definition or_ : UInt32x4 -> UInt32x4 -> UInt32x4 := lanewise Z.lor.
Definition xor : UInt32x4 -> UInt32x4 -> UInt32x4 := lanewise Z.lxor.

(** [template<int N> UInt32x4 shl() const] and [shr] *)
Definition shl (N : Z) (a : UInt32x4) : UInt32x4 :=
  map (fun i => u32 (Z.shiftl (nth i a 0) N)) (seq 0 4).
Definition shr (N : Z) (a : UInt32x4) : UInt32x4 :=
  map (fun i => Z.shiftr (nth i a 0) N) (seq 0 4).

(** [rotl<N>()] is [shl<N>() | shr<32 - N>()], [rotr<N>()] is
    [shr<N>() | shl<32 - N>()]. *)
Definition rotl (N : Z) (a : UInt32x4) : UInt32x4 :=
  or_ (shl N a) (shr (32 - N) a).
Definition rotr (N : Z) (a : UInt32x4) : UInt32x4 :=
  or_ (shr N a) (shl (32 - N) a).

(** [uint32_t operator[](size_t i) const]: [data_[i & 3]] *)
Definition get (a : UInt32x4) (i : Z) : Z := nth (Z.to_nat (Z.land i 3)) a 0.

(** The body of the second loop of [sha256_schedule_simd], for one [i]. *)
Definition schedule_round (W : list Z) (i : nat) : list Z :=
  let w15 := loadu W (i - 15) in
  let w2 := loadu W (i - 2) in
  let w16 := loadu W (i - 16) in
  let w7 := loadu W (i - 7) in
  let s0 := xor (xor (rotr 7 w15) (rotr 18 w15)) (shr 3 w15) in
  let s1 := xor (xor (rotr 17 w2) (rotr 19 w2)) (shr 10 w2) in
  let result := add (add (add w16 s0) w7) s1 in
  storeu result W i.

(** The values of [i] in [for (int i = 16; i < 64; i += 4)], the first [n]
    of them. *)
Definition rounds (n : nat) : list nat :=
  map (fun k => (16 + 4 * k)%nat) (seq 0 n).

(** [void sha256_schedule_simd(const uint32_t* message, uint32_t* W)]:
    [W] is the buffer as the caller passes it, the result is the buffer
    on return. *)
Definition sha256_schedule_simd (message W : list Z) : list Z :=
  let W := fold_left (fun W i => <[i := nth i message 0]> W) (seq 0 16) W in
  fold_left schedule_round (rounds 12) W.

(** The functions the comments of the schedule name, on one word:
    ROTR, sigma0, sigma1, and the sum the recurrence takes. *)
Definition rotr32 (n x : Z) : Z :=
  Z.lor (Z.shiftr x n) (u32 (Z.shiftl x (32 - n))).
Definition rotl32 (n x : Z) : Z :=
  Z.lor (u32 (Z.shiftl x n)) (Z.shiftr x (32 - n)).
Definition sigma0 (x : Z) : Z :=
  Z.lxor (Z.lxor (rotr32 7 x) (rotr32 18 x)) (Z.shiftr x 3).
Definition sigma1 (x : Z) : Z :=
  Z.lxor (Z.lxor (rotr32 17 x) (rotr32 19 x)) (Z.shiftr x 10).
Definition schedule_word (w16 w15 w7 w2 : Z) : Z :=
  u32 (w16 + sigma0 w15 + w7 + sigma1 w2).

(** What the round for [i] has left in [W], the buffer on return, [W0]
    being the buffer as the caller passed it: lanes 0 and 1 follow the
    recurrence of the schedule; lanes 2 and 3 take as their last operand
    the words that were in the buffer before the call. *)
Definition round_result (W0 W : list Z) (i : nat) : Prop :=
  nth i W 0
  = schedule_word (nth (i - 16) W 0) (nth (i - 15) W 0) (nth (i - 7) W 0)
                  (nth (i - 2) W 0)
  /\ nth (i + 1) W 0
     = schedule_word (nth (i - 15) W 0) (nth (i - 14) W 0) (nth (i - 6) W 0)
                     (nth (i - 1) W 0)
  /\ nth (i + 2) W 0
     = schedule_word (nth (i - 14) W 0) (nth (i - 13) W 0) (nth (i - 5) W 0)
                     (nth i W0 0)
  /\ nth (i + 3) W 0
     = schedule_word (nth (i - 13) W 0) (nth (i - 12) W 0) (nth (i - 4) W 0)
                     (nth (i + 1) W0 0).

End Simd.

(** ** [include/keyhunt/core/security.h] and [BitcoinAddress] *)

Module Security.
Import Stdlib.Strings.Ascii Mach Hex.

(** [struct ValidationResult] *)
Record ValidationResult := {
  valid : bool;
  error_message : list ascii
}.

Definition ok : ValidationResult := {| valid := true; error_message := [] |}.
Definition fail (msg : list ascii) : ValidationResult :=
  {| valid := false; error_message := msg |}.

(** The value of a character as [unsigned char]. *)
Definition code (c : ascii) : Z := Z.of_N (N_of_ascii c).

(** [std::isxdigit], [std::isdigit], [std::isspace] and [std::tolower] of
    the C locale.  [safe_stoi] and [validate_bitcoin_address] hand the last
    two a plain [char]; the model gives the answer of the C locale for the
    codes 0 to 127 and takes a code above 127 for neither a space nor an
    upper-case letter. *)
Definition isxdigit (c : ascii) : bool :=
  let n := code c in
  ((48 <=? n) && (n <=? 57)) || ((65 <=? n) && (n <=? 70))
  || ((97 <=? n) && (n <=? 102)).

Definition isdigit (c : ascii) : bool :=
  let n := code c in (48 <=? n) && (n <=? 57).

Definition isspace (c : ascii) : bool :=
  let n := code c in (n =? 32) || ((9 <=? n) && (n <=? 13)).

Definition tolower (c : ascii) : ascii :=
  let n := code c in
  if (65 <=? n) && (n <=? 90) then ascii_of_N (Z.to_N (n + 32)) else c.

(** [s.find(c) != std::string::npos] *)
Definition contains_char (s : list ascii) (c : ascii) : bool :=
  existsb (Ascii.eqb c) s.

(** [inline ValidationResult validate_hex_string(std::string_view hex,
    size_t min_length, size_t max_length)] *)
Definition validate_hex_string (hex : list ascii) (min_length max_length : Z)
  : ValidationResult :=
  let hex := strip_prefix hex in
  if Z.of_nat (length hex) <? min_length
  then fail (String.list_ascii_of_string "Hex string too short")
  else if max_length <? Z.of_nat (length hex)
  then fail (String.list_ascii_of_string "Hex string too long")
  else match List.find (fun c => negb (isxdigit c)) hex with
       | Some c =>
           fail (String.list_ascii_of_string "Invalid hex character: " ++ [c])
       | None => ok
       end.

(** The lambda [high] of [safe_hex_to_bytes]. *)
Definition high (c : ascii) : Z :=
  let n := code c in
  if (48 <=? n) && (n <=? 57) then n - 48
  else if (97 <=? n) && (n <=? 102) then n - 97 + 10
  else if (65 <=? n) && (n <=? 70) then n - 65 + 10
  else -1.

(** [inline std::optional<std::vector<uint8_t>>
    safe_hex_to_bytes(std::string_view hex)]; the loop runs over
    [i = 0, 2, 4, ...] below [hex.size()]. *)
Definition safe_hex_to_bytes (hex : list ascii) : option (list Z) :=
  let hex := strip_prefix hex in
  if negb (length hex mod 2 =? 0)%nat then None
  else
    fold_left
      (fun acc i =>
         match acc with
         | None => None
         | Some result =>
             let h := high (nth i hex "000"%char) in
             let l := high (nth (i + 1) hex "000"%char) in
             if (h <? 0) || (l <? 0) then None
             else Some (result ++ [u8 (Z.lor (Z.shiftl h 4) l)])
         end)
      (map (fun k => (k * 2)%nat) (seq 0 (length hex / 2))) (Some []).

(** The leading-whitespace loop of [safe_stoi]. *)
Fixpoint skip_spaces (str : list ascii) : list ascii :=
  match str with
  | c :: rest => if isspace c then skip_spaces rest else str
  | [] => []
  end.

(** The digit loop of [safe_stoi<T>], [max] being
    [std::numeric_limits<T>::max()]:
    [if (result > (max - digit) / 10) return nullopt;
     result = result * 10 + digit;].
    The division is the truncating one of C++.  The guard keeps [result]
    at most [max] ([stoi_loop_value]), so the arithmetic of [T] is exact. *)
Fixpoint stoi_loop (max : Z) (str : list ascii) (result : Z) : option Z :=
  match str with
  | [] => Some result
  | c :: rest =>
      if negb (isdigit c) then None
      else
        let digit := code c - 48 in
        if Z.quot (max - digit) 10 <? result then None
        else stoi_loop max rest (result * 10 + digit)
  end.

(** [safe_stoi] after the sign: [if (str.empty()) return nullopt;], the
    loop, and [if (negative) result = -result;]. *)
Definition stoi_digits (max : Z) (negative : bool) (str : list ascii)
  : option Z :=
  match str with
  | [] => None
  | _ =>
      match stoi_loop max str 0 with
      | None => None
      | Some result => Some (if negative then - result else result)
      end
  end.

(** [template<typename T> inline std::optional<T> safe_stoi(std::string_view
    str)], [is_signed] being [std::is_signed_v<T>]. *)
Definition safe_stoi (is_signed : bool) (max : Z) (str : list ascii)
  : option Z :=
  match str with
  | [] => None
  | _ =>
      let str := skip_spaces str in
      match str with
      | [] => None
      | c :: rest =>
          if Ascii.eqb c "-" then
            if negb is_signed then None
            else stoi_digits max true rest
          else if Ascii.eqb c "+" then stoi_digits max false rest
          else stoi_digits max false str
      end
  end.

(** The number a string of decimal digits stands for. *)
Definition decimal_from (a : Z) (ds : list ascii) : Z :=
  fold_left (fun a c => a * 10 + (code c - 48)) ds a.

Definition decimal (ds : list ascii) : Z := decimal_from 0 ds.

(** [inline bool secure_compare(const void* a, const void* b, size_t len)]:
    [result |= pa[i] ^ pb[i]] on [uint8_t]. *)
Definition secure_compare (a b : list Z) (len : nat) : bool :=
  fold_left (fun result i => u8 (Z.lor result (Z.lxor (nth i a 0) (nth i b 0))))
            (seq 0 len) 0
  =? 0.

Definition base58_chars : list ascii :=
  String.list_ascii_of_string
    "123456789ABCDEFGHJKLMNPQRSTUVWXYZabcdefghijkmnopqrstuvwxyz".

Definition bech32_chars : list ascii :=
  String.list_ascii_of_string "qpzry9x8gf2tvdw0s3jn54khce6mua7l".

(** [address.substr(0, n) == s] *)
Definition starts_with (n : nat) (s : string) (address : list ascii) : bool :=
  bool_decide (substr address 0 n = String.list_ascii_of_string s).

(** [prefix != '1' && prefix != '3' && prefix != 'm' && prefix != 'n' &&
    prefix != '2'] *)
Definition other_prefix (prefix : ascii) : bool :=
  negb (Ascii.eqb prefix "1") && negb (Ascii.eqb prefix "3")
  && negb (Ascii.eqb prefix "m") && negb (Ascii.eqb prefix "n")
  && negb (Ascii.eqb prefix "2").

(** [inline ValidationResult validate_bitcoin_address(std::string_view
    address)] *)
Definition validate_bitcoin_address (address : list ascii) : ValidationResult :=
  match address with
  | [] => fail (String.list_ascii_of_string "Address is empty")
  | prefix :: _ =>
      if (length address <? 26)%nat || (35 <? length address)%nat
      then fail (String.list_ascii_of_string "Invalid address length")
      else
        match List.find (fun c => negb (contains_char base58_chars c)) address with
        | Some c =>
            if (4 <=? length address)%nat
               && (starts_with 4 "bc1q" address || starts_with 4 "tb1q" address
                   || starts_with 4 "bc1p" address || starts_with 4 "tb1p" address)
            then
              if forallb (fun ch => contains_char bech32_chars (tolower ch))
                         (drop 4 address)
              then ok
              else fail (String.list_ascii_of_string "Invalid Bech32 character")
            else
              fail (String.list_ascii_of_string "Invalid Base58 character: "
                    ++ [c])
        | None =>
            if other_prefix prefix
            then fail (String.list_ascii_of_string "Invalid address prefix")
            else ok
        end
  end.

(** [bool BitcoinAddress::validate() const] of [types.h] *)
Definition validate (address_ : list ascii) : bool :=
  match address_ with
  | [] => false
  | prefix :: _ =>
      if (length address_ <? 26)%nat || (35 <? length address_)%nat then false
      else if negb (forallb (contains_char base58_chars) address_) then false
      else if other_prefix prefix then
        if (4 <=? length address_)%nat
           && (starts_with 3 "bc1" address_ || starts_with 3 "tb1" address_)
        then true
        else false
      else true
  end.

End Security.

(* ===================================================================== *)
(** * Part II: properties *)
(* ===================================================================== *)

(** ** Machine arithmetic *)

Section MachFacts.
Import Mach.

Lemma pow64_eq : 2 ^ 64 = 18446744073709551616.
Proof. reflexivity. Qed.

Lemma pow128_eq : 2 ^ 128 = 340282366920938463463374607431768211456.
Proof. reflexivity. Qed.

Lemma u64_range z : is_u64 (u64 z).
Proof. unfold is_u64, u64. apply Z.mod_pos_bound. reflexivity. Qed.

Lemma u64_small z : is_u64 z -> u64 z = z.
Proof. unfold is_u64, u64. intros H. apply Z.mod_small. exact H. Qed.

Lemma not64_val b : is_u64 b -> not64 b = 2 ^ 64 - 1 - b.
Proof.
  unfold is_u64, not64, u64, Z.lnot, Z.pred. rewrite pow64_eq. intros H.
  symmetry. apply Z.mod_unique_pos with (q := -1); lia.
Qed.

End MachFacts.

(** ** [UInt256]: carry and borrow chains *)

Section UInt256Arith.
Import Mach Types.

(** A round of [operator+] splits the exact sum into a limb and a carry. *)
Lemma adc_spec a b c lo c' :
  is_u64 a -> is_u64 b -> 0 <= c <= 1 ->
  adc a b c = (lo, c') ->
  is_u64 lo /\ 0 <= c' <= 1 /\ lo + 2 ^ 64 * c' = a + b + c.
Proof.
  unfold is_u64, adc, u128, u64. rewrite Z.shiftr_div_pow2 by lia.
  rewrite pow64_eq, pow128_eq. intros Ha Hb Hc [= <- <-].
  rewrite (Z.mod_small a), (Z.mod_small b) by lia.
  rewrite (Z.mod_small (a + b + c)) by lia.
  assert (Hq : 0 <= (a + b + c) / 18446744073709551616 <= 1).
  { split; [apply Z.div_pos; lia|].
    apply Z.lt_succ_r, Z.div_lt_upper_bound; lia. }
  rewrite (Z.mod_small (_ / _)) by lia.
  pose proof (Z.div_mod (a + b + c) 18446744073709551616 ltac:(lia)).
  pose proof (Z.mod_pos_bound (a + b + c) 18446744073709551616 ltac:(lia)).
  lia.
Qed.

(** A round of [operator-] yields the difference modulo 2^64 and the
    outgoing borrow, also when [other_limb + borrow] wraps to zero. *)
Lemma sbb_spec a b w d w' :
  is_u64 a -> is_u64 b -> 0 <= w <= 1 ->
  sbb a b w = (d, w') ->
  is_u64 d /\ 0 <= w' <= 1 /\ d - 2 ^ 64 * w' = a - b - w.
Proof.
  intros Ha Hb Hw. unfold sbb.
  assert (Hbw : is_u64 (u64 (b + w))) by apply u64_range.
  rewrite (not64_val _ Hbw).
  unfold is_u64, u64 in *. rewrite pow64_eq in *.
  assert (Hcase : (b + w) mod 18446744073709551616 = b + w
                  \/ (b + w = 18446744073709551616
                      /\ (b + w) mod 18446744073709551616 = 0)).
  { destruct (Z.eq_dec (b + w) 18446744073709551616) as [E|E].
    - right. split; [exact E|]. rewrite E. reflexivity.
    - left. apply Z.mod_small. lia. }
  set (bb := (b + w) mod 18446744073709551616) in *.
  destruct ((bb <? w) || (a <? bb)) eqn:Hc; intros [= <- <-].
  - apply orb_true_iff in Hc. rewrite !Z.ltb_lt in Hc.
    assert (Hin : (18446744073709551616 - 1 - bb + 1) mod 18446744073709551616
                  = (18446744073709551616 - bb) mod 18446744073709551616)
      by (f_equal; lia).
    rewrite Hin.
    destruct Hcase as [E | [E1 E2]].
    + destruct (Z.eq_dec bb 0) as [Z0|NZ].
      * lia.
      * rewrite (Z.mod_small (18446744073709551616 - bb)) by lia.
        rewrite (Z.mod_small (a + (18446744073709551616 - bb))) by lia.
        lia.
    + rewrite E2. rewrite Z.sub_0_r, Z.mod_same by lia.
      rewrite Z.add_0_r, Z.mod_small by lia. lia.
  - apply orb_false_iff in Hc. rewrite !Z.ltb_ge in Hc.
    destruct Hcase as [E | [E1 E2]]; [|lia].
    rewrite Z.mod_small by lia. lia.
Qed.

End UInt256Arith.

Section UInt256Chains.
Import Mach Types.

Lemma wf_inv x :
  wf x ->
  exists a0 a1 a2 a3,
    x = MkUInt256 [a0; a1; a2; a3]
    /\ is_u64 a0 /\ is_u64 a1 /\ is_u64 a2 /\ is_u64 a3.
Proof.
  destruct x as [l]. unfold wf, NUM_LIMBS. cbn [limbs_]. intros [Hlen Hall].
  destruct l as [|a0 [|a1 [|a2 [|a3 [|? ?]]]]]; try discriminate Hlen.
  inversion Hall as [|? ? H0 Hall1]; subst.
  inversion Hall1 as [|? ? H1 Hall2]; subst.
  inversion Hall2 as [|? ? H2 Hall3]; subst.
  inversion Hall3 as [|? ? H3 _]; subst.
  exists a0, a1, a2, a3. auto.
Qed.

Lemma wf_intro a0 a1 a2 a3 :
  is_u64 a0 -> is_u64 a1 -> is_u64 a2 -> is_u64 a3 ->
  wf (MkUInt256 [a0; a1; a2; a3]).
Proof.
  intros. split; [reflexivity|]. cbn [limbs_].
  repeat (apply Forall_cons; split; [assumption|]). apply Forall_nil_2.
Qed.

(** The four rounds of [operator+], written as the carry chain they form. *)
Lemma add_chain a0 a1 a2 a3 b0 b1 b2 b3 :
  is_u64 a0 -> is_u64 a1 -> is_u64 a2 -> is_u64 a3 ->
  is_u64 b0 -> is_u64 b1 -> is_u64 b2 -> is_u64 b3 ->
  exists s0 s1 s2 s3 c1 c2 c3 c4,
    add (MkUInt256 [a0; a1; a2; a3]) (MkUInt256 [b0; b1; b2; b3])
    = MkUInt256 [s0; s1; s2; s3]
    /\ (is_u64 s0 /\ is_u64 s1 /\ is_u64 s2 /\ is_u64 s3)
    /\ (0 <= c1 <= 1 /\ 0 <= c2 <= 1 /\ 0 <= c3 <= 1 /\ 0 <= c4 <= 1)
    /\ s0 + 2 ^ 64 * c1 = a0 + b0
    /\ s1 + 2 ^ 64 * c2 = a1 + b1 + c1
    /\ s2 + 2 ^ 64 * c3 = a2 + b2 + c2
    /\ s3 + 2 ^ 64 * c4 = a3 + b3 + c3.
Proof.
  intros A0 A1 A2 A3 B0 B1 B2 B3.
  unfold add, NUM_LIMBS.
  cbn [seq fold_left add_round limb limbs_ nth zero repeat].
  destruct (adc a0 b0 0) as [s0 c1] eqn:E0.
  apply adc_spec in E0 as (S0 & C1 & E0); [|assumption|assumption|lia].
  cbn [fold_left add_round limb limbs_ nth].
  destruct (adc a1 b1 c1) as [s1 c2] eqn:E1.
  apply adc_spec in E1 as (S1 & C2 & E1); [|assumption..].
  cbn [fold_left add_round limb limbs_ nth].
  destruct (adc a2 b2 c2) as [s2 c3] eqn:E2.
  apply adc_spec in E2 as (S2 & C3 & E2); [|assumption..].
  cbn [fold_left add_round limb limbs_ nth].
  destruct (adc a3 b3 c3) as [s3 c4] eqn:E3.
  apply adc_spec in E3 as (S3 & C4 & E3); [|assumption..].
  exists s0, s1, s2, s3, c1, c2, c3, c4.
  split; [reflexivity|]. rewrite Z.add_0_r in E0. auto 10.
Qed.

(** The four rounds of [operator-], written as the borrow chain. *)
Lemma sub_chain a0 a1 a2 a3 b0 b1 b2 b3 :
  is_u64 a0 -> is_u64 a1 -> is_u64 a2 -> is_u64 a3 ->
  is_u64 b0 -> is_u64 b1 -> is_u64 b2 -> is_u64 b3 ->
  exists d0 d1 d2 d3 w1 w2 w3 w4,
    sub (MkUInt256 [a0; a1; a2; a3]) (MkUInt256 [b0; b1; b2; b3])
    = MkUInt256 [d0; d1; d2; d3]
    /\ (is_u64 d0 /\ is_u64 d1 /\ is_u64 d2 /\ is_u64 d3)
    /\ (0 <= w1 <= 1 /\ 0 <= w2 <= 1 /\ 0 <= w3 <= 1 /\ 0 <= w4 <= 1)
    /\ d0 - 2 ^ 64 * w1 = a0 - b0
    /\ d1 - 2 ^ 64 * w2 = a1 - b1 - w1
    /\ d2 - 2 ^ 64 * w3 = a2 - b2 - w2
    /\ d3 - 2 ^ 64 * w4 = a3 - b3 - w3.
Proof.
  intros A0 A1 A2 A3 B0 B1 B2 B3.
  unfold sub, NUM_LIMBS.
  cbn [seq fold_left sub_round limb limbs_ nth zero repeat].
  destruct (sbb a0 b0 0) as [d0 w1] eqn:E0.
  apply sbb_spec in E0 as (D0 & W1 & E0); [|assumption|assumption|lia].
  cbn [fold_left sub_round limb limbs_ nth].
  destruct (sbb a1 b1 w1) as [d1 w2] eqn:E1.
  apply sbb_spec in E1 as (D1 & W2 & E1); [|assumption..].
  cbn [fold_left sub_round limb limbs_ nth].
  destruct (sbb a2 b2 w2) as [d2 w3] eqn:E2.
  apply sbb_spec in E2 as (D2 & W3 & E2); [|assumption..].
  cbn [fold_left sub_round limb limbs_ nth].
  destruct (sbb a3 b3 w3) as [d3 w4] eqn:E3.
  apply sbb_spec in E3 as (D3 & W4 & E3); [|assumption..].
  exists d0, d1, d2, d3, w1, w2, w3, w4.
  split; [reflexivity|]. rewrite Z.sub_0_r in E0. auto 10.
Qed.

End UInt256Chains.

Section UInt256Ring.
Import Mach Types.

Lemma add_wf x y : wf x -> wf y -> wf (add x y).
Proof.
  intros (a0 & a1 & a2 & a3 & -> & A0 & A1 & A2 & A3)%wf_inv
         (b0 & b1 & b2 & b3 & -> & B0 & B1 & B2 & B3)%wf_inv.
  destruct (add_chain a0 a1 a2 a3 b0 b1 b2 b3)
    as (s0 & s1 & s2 & s3 & c1 & c2 & c3 & c4 & -> & (S0 & S1 & S2 & S3) & _);
    try assumption.
  apply wf_intro; assumption.
Qed.

Lemma sub_wf x y : wf x -> wf y -> wf (sub x y).
Proof.
  intros (a0 & a1 & a2 & a3 & -> & A0 & A1 & A2 & A3)%wf_inv
         (b0 & b1 & b2 & b3 & -> & B0 & B1 & B2 & B3)%wf_inv.
  destruct (sub_chain a0 a1 a2 a3 b0 b1 b2 b3)
    as (d0 & d1 & d2 & d3 & w1 & w2 & w3 & w4 & -> & (D0 & D1 & D2 & D3) & _);
    try assumption.
  apply wf_intro; assumption.
Qed.

Lemma to_Z_range x : wf x -> 0 <= to_Z x < 2 ^ 256.
Proof.
  intros (a0 & a1 & a2 & a3 & -> & A0 & A1 & A2 & A3)%wf_inv.
  unfold to_Z, limb, is_u64 in *. cbn [limbs_ nth].
  change (2 ^ 256) with (2 ^ 64 * (2 ^ 64 * (2 ^ 64 * 2 ^ 64))).
  change (2 ^ 128) with (2 ^ 64 * 2 ^ 64).
  change (2 ^ 192) with (2 ^ 64 * (2 ^ 64 * 2 ^ 64)).
  rewrite pow64_eq in *. lia.
Qed.

(** [operator+] is addition modulo 2^256. *)
Lemma add_to_Z x y :
  wf x -> wf y -> to_Z (add x y) = (to_Z x + to_Z y) mod 2 ^ 256.
Proof.
  intros Hx Hy.
  pose proof (to_Z_range _ (add_wf _ _ Hx Hy)) as Hr.
  revert Hr.
  destruct (wf_inv _ Hx) as (a0 & a1 & a2 & a3 & -> & A0 & A1 & A2 & A3).
  destruct (wf_inv _ Hy) as (b0 & b1 & b2 & b3 & -> & B0 & B1 & B2 & B3).
  destruct (add_chain a0 a1 a2 a3 b0 b1 b2 b3)
    as (s0 & s1 & s2 & s3 & c1 & c2 & c3 & c4 & -> & _ & C & E0 & E1 & E2 & E3);
    try assumption.
  unfold to_Z, limb. cbn [limbs_ nth]. intros Hr.
  apply Z.mod_unique_pos with (q := c4); [exact Hr|].
  change (2 ^ 256) with (2 ^ 64 * (2 ^ 64 * (2 ^ 64 * 2 ^ 64))).
  change (2 ^ 128) with (2 ^ 64 * 2 ^ 64).
  change (2 ^ 192) with (2 ^ 64 * (2 ^ 64 * 2 ^ 64)).
  rewrite pow64_eq in *. lia.
Qed.

(** [operator-] is subtraction modulo 2^256. *)
Lemma sub_to_Z x y :
  wf x -> wf y -> to_Z (sub x y) = (to_Z x - to_Z y) mod 2 ^ 256.
Proof.
  intros Hx Hy.
  pose proof (to_Z_range _ (sub_wf _ _ Hx Hy)) as Hr.
  revert Hr.
  destruct (wf_inv _ Hx) as (a0 & a1 & a2 & a3 & -> & A0 & A1 & A2 & A3).
  destruct (wf_inv _ Hy) as (b0 & b1 & b2 & b3 & -> & B0 & B1 & B2 & B3).
  destruct (sub_chain a0 a1 a2 a3 b0 b1 b2 b3)
    as (d0 & d1 & d2 & d3 & w1 & w2 & w3 & w4 & -> & _ & W & E0 & E1 & E2 & E3);
    try assumption.
  unfold to_Z, limb. cbn [limbs_ nth]. intros Hr.
  apply Z.mod_unique_pos with (q := - w4); [exact Hr|].
  change (2 ^ 256) with (2 ^ 64 * (2 ^ 64 * (2 ^ 64 * 2 ^ 64))).
  change (2 ^ 128) with (2 ^ 64 * 2 ^ 64).
  change (2 ^ 192) with (2 ^ 64 * (2 ^ 64 * 2 ^ 64)).
  rewrite pow64_eq in *. lia.
Qed.

Lemma add_sub_limbs (a b : UInt256) :
  wf a -> wf b -> sub (add a b) b = a.
Proof.
  intros (a0 & a1 & a2 & a3 & -> & A0 & A1 & A2 & A3)%wf_inv
         (b0 & b1 & b2 & b3 & -> & B0 & B1 & B2 & B3)%wf_inv.
  destruct (add_chain a0 a1 a2 a3 b0 b1 b2 b3)
    as (s0 & s1 & s2 & s3 & c1 & c2 & c3 & c4 & -> & (S0 & S1 & S2 & S3)
        & (C1 & C2 & C3 & C4) & E0 & E1 & E2 & E3);
    try assumption.
  destruct (sub_chain s0 s1 s2 s3 b0 b1 b2 b3)
    as (d0 & d1 & d2 & d3 & w1 & w2 & w3 & w4 & -> & (D0 & D1 & D2 & D3)
        & (W1 & W2 & W3 & W4) & F0 & F1 & F2 & F3);
    try assumption.
  unfold is_u64 in *. rewrite pow64_eq in *.
  assert (d0 = a0 /\ w1 = c1) as [-> ->] by lia.
  assert (d1 = a1 /\ w2 = c2) as [-> ->] by lia.
  assert (d2 = a2 /\ w3 = c3) as [-> ->] by lia.
  assert (d3 = a3 /\ w4 = c4) as [-> ->] by lia.
  reflexivity.
Qed.

(** C9. For all well-formed [UInt256] values [a] and [b], subtracting [b]
    from [a + b] gives back [a], limb for limb: the borrow chain of
    [operator-] undoes the carry chain of [operator+], including the round
    in which a limb of [b] is 2^64-1 and a borrow is pending. Both
    operators compute modulo 2^256. *)
Theorem uint256_add_sub_cancel (a b : UInt256) :
  wf a -> wf b ->
  sub (add a b) b = a
  /\ to_Z (add a b) = (to_Z a + to_Z b) mod 2 ^ 256
  /\ to_Z (sub (add a b) b) = (to_Z (add a b) - to_Z b) mod 2 ^ 256.
Proof.
  intros Ha Hb. split; [apply add_sub_limbs; assumption|].
  split; [apply add_to_Z; assumption|].
  apply sub_to_Z; [apply add_wf|]; assumption.
Qed.

(** The round the claim singles out: limb 1 of [b] is 2^64-1 and limb 0
    leaves a borrow. *)
Lemma uint256_add_sub_cancel_witness :
  let a := MkUInt256 [2 ^ 64 - 1; 5; 0; 0] in
  let b := MkUInt256 [1; 2 ^ 64 - 1; 0; 0] in
  wf a /\ wf b
  /\ sub (add a b) b = a
  /\ to_Z (add a b) = (to_Z a + to_Z b) mod 2 ^ 256
  /\ to_Z (sub (add a b) b) = (to_Z (add a b) - to_Z b) mod 2 ^ 256.
Proof.
  intros a b.
  assert (Ha : wf a) by (apply wf_intro; unfold is_u64; lia).
  assert (Hb : wf b) by (apply wf_intro; unfold is_u64; lia).
  split; [exact Ha|]. split; [exact Hb|].
  exact (uint256_add_sub_cancel a b Ha Hb).
Defined.

Example sub_pending_borrow_round :
  sbb 5 (2 ^ 64 - 1) 1 = (5, 1).
Proof. reflexivity. Qed.

End UInt256Ring.

(** ** [UInt256]: byte form *)

Section UInt256Bytes.
Import Mach Types.

Lemma byte_at_val v j : byte_at v j = (v / 2 ^ (8 * Z.of_nat j)) mod 2 ^ 8.
Proof.
  unfold byte_at, u8. rewrite Z.shiftr_div_pow2 by lia.
  do 3 f_equal. lia.
Qed.

Lemma byte_at_range v j : is_u8 (byte_at v j).
Proof. unfold is_u8, byte_at, u8. apply Z.mod_pos_bound. reflexivity. Qed.

Lemma testbit_place_byte_at a j n :
  0 <= n -> (j < 8)%nat ->
  Z.testbit (place (byte_at a j) j) n
  = (8 * Z.of_nat j <=? n) && (n <? 8 * Z.of_nat j + 8) && Z.testbit a n.
Proof.
  intros Hn Hj. unfold place, byte_at, u64, u8.
  replace (Z.of_nat j * 8) with (8 * Z.of_nat j) by lia.
  set (k := 8 * Z.of_nat j). assert (0 <= k <= 56) by lia.
  rewrite (Z.mod_small (_ mod 2 ^ 8)).
  2:{ pose proof (Z.mod_pos_bound (Z.shiftr a k) (2 ^ 8) ltac:(lia)).
      rewrite pow64_eq. change (2 ^ 8) with 256 in *. lia. }
  destruct (Z.ltb_spec n 64) as [L64|G64].
  - rewrite Z.mod_pow2_bits_low by lia.
    destruct (Z.leb_spec k n) as [Lk|Gk].
    + rewrite Z.shiftl_spec by lia.
      destruct (Z.ltb_spec n (k + 8)) as [L8|G8].
      * rewrite Z.mod_pow2_bits_low by lia.
        rewrite Z.shiftr_spec by lia. cbn [andb]. f_equal. lia.
      * rewrite Z.mod_pow2_bits_high by lia. reflexivity.
    + rewrite Z.shiftl_spec_low by lia. reflexivity.
  - rewrite Z.mod_pow2_bits_high by lia.
    destruct (Z.ltb_spec n (k + 8)); [lia|].
    rewrite andb_false_r. reflexivity.
Qed.

Lemma testbit_u64_high a n : is_u64 a -> 64 <= n -> Z.testbit a n = false.
Proof.
  intros Ha Hn. rewrite <- (u64_small a Ha). unfold u64.
  apply Z.mod_pow2_bits_high. lia.
Qed.

(** Eight bytes put back in place rebuild the limb they were cut from. *)
Lemma limb_of_bytes a :
  is_u64 a ->
  Z.lor (Z.lor (Z.lor (Z.lor (Z.lor (Z.lor (Z.lor (Z.lor 0
    (place (byte_at a 0) 0)) (place (byte_at a 1) 1))
    (place (byte_at a 2) 2)) (place (byte_at a 3) 3))
    (place (byte_at a 4) 4)) (place (byte_at a 5) 5))
    (place (byte_at a 6) 6)) (place (byte_at a 7) 7) = a.
Proof.
  intros Ha. apply Z.bits_inj'. intros n Hn.
  rewrite !Z.lor_spec, !testbit_place_byte_at, Z.bits_0 by lia.
  destruct (Z.testbit a n) eqn:Hb.
  2:{ rewrite !andb_false_r. reflexivity. }
  assert (n < 64).
  { destruct (Z.ltb_spec n 64); [assumption|].
    rewrite testbit_u64_high in Hb by assumption. discriminate. }
  rewrite !andb_true_r.
  repeat match goal with
         | |- context [Z.leb ?u ?v] =>
             destruct (Z.leb_spec u v); try (exfalso; lia)
         | |- context [Z.ltb ?u ?v] =>
             destruct (Z.ltb_spec u v); try (exfalso; lia)
         end;
  reflexivity.
Qed.

Lemma byte_at_0 a : byte_at a 0 = a mod 256.
Proof. unfold byte_at, u8. rewrite Z.shiftr_0_r. reflexivity. Qed.

Lemma byte_at_S a j : byte_at a (S j) = byte_at (a / 256) j.
Proof.
  rewrite !byte_at_val. f_equal.
  replace (8 * Z.of_nat (S j)) with (8 + 8 * Z.of_nat j) by lia.
  rewrite Z.pow_add_r by lia. rewrite Z.div_div by lia. reflexivity.
Qed.

(** A limb is the little-endian sum of its eight bytes. *)
Lemma limb_split a :
  is_u64 a ->
  a = byte_at a 0 + 256 * (byte_at a 1 + 256 * (byte_at a 2 + 256 *
      (byte_at a 3 + 256 * (byte_at a 4 + 256 * (byte_at a 5 + 256 *
      (byte_at a 6 + 256 * byte_at a 7)))))).
Proof.
  unfold is_u64. rewrite pow64_eq. intros Ha.
  rewrite !byte_at_S, !byte_at_0.
  Z.div_mod_to_equations. lia.
Qed.

(** What the loop nest of [to_bytes] leaves in the array, whatever the
    array held before. *)
Lemma to_bytes_into_eq init a0 a1 a2 a3 :
  length init = 32%nat ->
  to_bytes_into init (MkUInt256 [a0; a1; a2; a3])
  = [ byte_at a3 7; byte_at a3 6; byte_at a3 5; byte_at a3 4;
      byte_at a3 3; byte_at a3 2; byte_at a3 1; byte_at a3 0;
      byte_at a2 7; byte_at a2 6; byte_at a2 5; byte_at a2 4;
      byte_at a2 3; byte_at a2 2; byte_at a2 1; byte_at a2 0;
      byte_at a1 7; byte_at a1 6; byte_at a1 5; byte_at a1 4;
      byte_at a1 3; byte_at a1 2; byte_at a1 1; byte_at a1 0;
      byte_at a0 7; byte_at a0 6; byte_at a0 5; byte_at a0 4;
      byte_at a0 3; byte_at a0 2; byte_at a0 1; byte_at a0 0 ].
Proof.
  intros Hlen.
  do 32 (destruct init as [|? init]; [discriminate Hlen|]).
  destruct init; [|discriminate Hlen].
  reflexivity.
Qed.

Lemma to_bytes_eq a0 a1 a2 a3 :
  to_bytes (MkUInt256 [a0; a1; a2; a3])
  = to_bytes_into (repeat 0 32%nat) (MkUInt256 [a0; a1; a2; a3]).
Proof. reflexivity. Qed.

(** C7. For every well-formed [UInt256] x, [from_bytes] of [to_bytes x] is
    [x]; [to_bytes x] has exactly 32 entries, each a byte, and reads as the
    big-endian numeral of [x], entry 0 holding the most significant byte. *)
Theorem uint256_bytes_roundtrip (x : UInt256) :
  wf x ->
  from_bytes (to_bytes x) = x
  /\ length (to_bytes x) = 32%nat
  /\ Forall is_u8 (to_bytes x)
  /\ be_value (to_bytes x) = to_Z x
  /\ nth 0 (to_bytes x) 0 = to_Z x / 2 ^ 248.
Proof.
  intros (a0 & a1 & a2 & a3 & -> & A0 & A1 & A2 & A3)%wf_inv.
  rewrite to_bytes_eq, to_bytes_into_eq by reflexivity.
  pose proof (limb_split a0 A0) as S0. pose proof (limb_split a1 A1) as S1.
  pose proof (limb_split a2 A2) as S2. pose proof (limb_split a3 A3) as S3.
  split; [|split; [|split; [|split]]].
  - unfold from_bytes, zero, NUM_LIMBS.
    cbn -[place byte_at Z.lor].
    rewrite !limb_of_bytes by assumption. reflexivity.
  - reflexivity.
  - repeat (apply Forall_cons; split; [apply byte_at_range|]).
    apply Forall_nil_2.
  - unfold to_Z, limb, be_value. cbn [limbs_ nth fold_left].
    change (2 ^ 64) with 18446744073709551616.
    change (2 ^ 128) with 340282366920938463463374607431768211456.
    change (2 ^ 192)
      with 6277101735386680763835789423207666416102355444464034512896.
    lia.
  - unfold to_Z, limb. cbn [limbs_ nth].
    pose proof (byte_at_range a0 0). pose proof (byte_at_range a0 1).
    pose proof (byte_at_range a0 2). pose proof (byte_at_range a0 3).
    pose proof (byte_at_range a0 4). pose proof (byte_at_range a0 5).
    pose proof (byte_at_range a0 6). pose proof (byte_at_range a0 7).
    pose proof (byte_at_range a1 0). pose proof (byte_at_range a1 1).
    pose proof (byte_at_range a1 2). pose proof (byte_at_range a1 3).
    pose proof (byte_at_range a1 4). pose proof (byte_at_range a1 5).
    pose proof (byte_at_range a1 6). pose proof (byte_at_range a1 7).
    pose proof (byte_at_range a2 0). pose proof (byte_at_range a2 1).
    pose proof (byte_at_range a2 2). pose proof (byte_at_range a2 3).
    pose proof (byte_at_range a2 4). pose proof (byte_at_range a2 5).
    pose proof (byte_at_range a2 6). pose proof (byte_at_range a2 7).
    pose proof (byte_at_range a3 0). pose proof (byte_at_range a3 1).
    pose proof (byte_at_range a3 2). pose proof (byte_at_range a3 3).
    pose proof (byte_at_range a3 4). pose proof (byte_at_range a3 5).
    pose proof (byte_at_range a3 6). pose proof (byte_at_range a3 7).
    unfold is_u8 in *. change (2 ^ 8) with 256 in *.
    apply Z.div_unique_pos
      with (r := to_Z (MkUInt256 [a0; a1; a2; a3]) - 2 ^ 248 * byte_at a3 7);
      unfold to_Z, limb; cbn [limbs_ nth];
      change (2 ^ 64) with 18446744073709551616;
      change (2 ^ 128) with 340282366920938463463374607431768211456;
      change (2 ^ 192)
        with 6277101735386680763835789423207666416102355444464034512896;
      change (2 ^ 248)
        with 452312848583266388373324160190187140051835877600158453279131187530910662656;
      lia.
Qed.

Lemma uint256_bytes_roundtrip_witness :
  let x := MkUInt256 [1311768467463790320; 0; 0; 2 ^ 63] in
  wf x
  /\ from_bytes (to_bytes x) = x
  /\ length (to_bytes x) = 32%nat
  /\ Forall is_u8 (to_bytes x)
  /\ be_value (to_bytes x) = to_Z x
  /\ nth 0 (to_bytes x) 0 = to_Z x / 2 ^ 248.
Proof.
  intros x.
  assert (Hx : wf x) by (apply wf_intro; unfold is_u64; lia).
  split; [exact Hx|]. exact (uint256_bytes_roundtrip x Hx).
Defined.

(** The test [UInt256.ToFromBytes] of [tests/test_types.cpp]. *)
Example to_from_bytes_test :
  from_bytes (to_bytes (of_u64 1311768467463790320))
  = of_u64 1311768467463790320.
Proof. vm_compute. reflexivity. Qed.

End UInt256Bytes.

(** ** [KeyRange] *)

Section KeyRangeFacts.
Import Mach Exn Types.

Lemma wf_b_spec x : wf_b x = true -> wf x.
Proof.
  unfold wf_b, wf. intros [Hl Hf]%andb_true_iff.
  split; [apply Nat.eqb_eq, Hl|].
  apply Forall_forall. intros v Hv.
  rewrite forallb_forall in Hf. rewrite list_elem_of_In in Hv.
  specialize (Hf v Hv). apply andb_true_iff in Hf as [H1 H2].
  unfold is_u64. split; [apply Z.leb_le, H1 | apply Z.ltb_lt, H2].
Qed.

(** Every bit count from 1 to 256, checked by running [for_bits]. *)
Lemma for_bits_table :
  forallb (fun k => for_bits_returns_bits (Z.of_nat k)) (seq 1 256) = true.
Proof. vm_compute. reflexivity. Qed.

(** C6. For every bit count n from 1 to 256, [for_bits n] returns the range
    whose start is 2^(n-1) and whose end is 2^n - 1; for n <= 0 and for
    n > 256 it throws a [ValidationException] and returns no range. *)
Theorem for_bits_spec (n : Z) :
  (1 <= n <= 256 ->
   exists r, for_bits n = Returns r
             /\ wf (start r) /\ wf (end_ r)
             /\ to_Z (start r) = 2 ^ (n - 1)
             /\ to_Z (end_ r) = 2 ^ n - 1)
  /\ (n <= 0 \/ 256 < n ->
      for_bits n = Throws (ValidationException bit_count_message)).
Proof.
  split.
  - intros Hn.
    pose proof for_bits_table as Htab. rewrite forallb_forall in Htab.
    specialize (Htab (Z.to_nat n)).
    rewrite Z2Nat.id in Htab by lia.
    assert (Hin : In (Z.to_nat n) (seq 1 256)) by (apply in_seq; lia).
    specialize (Htab Hin). unfold for_bits_returns_bits in Htab.
    destruct (for_bits n) as [r|e]; [|discriminate Htab].
    apply andb_true_iff in Htab as [Htab He].
    apply andb_true_iff in Htab as [Htab Hs].
    apply andb_true_iff in Htab as [W1 W2].
    exists r. split; [reflexivity|].
    split; [apply wf_b_spec, W1|]. split; [apply wf_b_spec, W2|].
    split; [apply Z.eqb_eq, Hs | apply Z.eqb_eq, He].
  - intros Hn. unfold for_bits.
    destruct ((n <=? 0) || (256 <? n)) eqn:Hc; [reflexivity|].
    apply orb_false_iff in Hc as [H1 H2].
    apply Z.leb_gt in H1. apply Z.ltb_ge in H2. lia.
Qed.

Lemma for_bits_spec_witness :
  (exists r, for_bits 8 = Returns r
             /\ wf (start r) /\ wf (end_ r)
             /\ to_Z (start r) = 2 ^ (8 - 1)
             /\ to_Z (end_ r) = 2 ^ 8 - 1)
  /\ for_bits 257 = Throws (ValidationException bit_count_message)
  /\ for_bits 0 = Throws (ValidationException bit_count_message).
Proof.
  split; [apply (proj1 (for_bits_spec 8)); lia|].
  split; [apply (proj2 (for_bits_spec 257)); lia|].
  apply (proj2 (for_bits_spec 0)); lia.
Defined.

(** The test [KeyRange.ForBits] of [tests/test_types.cpp]. *)
Example for_bits_8_test :
  for_bits 8 = Returns (MkKeyRange (of_u64 128) (of_u64 255)).
Proof. reflexivity. Qed.

(** The test [KeyRange.Contains]. *)
Example contains_test :
  let range := MkKeyRange (of_u64 128) (of_u64 255) in
  contains range (of_u64 200) = true
  /\ contains range (of_u64 50) = false
  /\ contains range (of_u64 300) = false.
Proof. repeat split; reflexivity. Qed.

End KeyRangeFacts.

Lemma split_returns_the_range r n : n <> 0 -> Types.split r n = [r].
Proof.
  intros Hn. unfold Types.split.
  destruct (Z.eqb_spec n 0) as [E|_]; [contradiction|reflexivity].
Qed.

(** C2. [split] is a stub. On the range from 0 to 9, of size 10, [split 3]
    returns the range itself as its only part, where the partition into
    parts of 3 has four parts (and the partition into 3 parts has three). *)
Theorem keyrange_split_is_stub :
  let r := Types.MkKeyRange (Types.of_u64 0) (Types.of_u64 9) in
  Types.to_Z (Types.size r) = 10
  /\ Types.split r 3 = [r]
  /\ Z.of_nat (length (Types.split r 3)) <> (10 + 3 - 1) / 3
  /\ Z.of_nat (length (Types.split r 3)) <> 3.
Proof.
  cbv zeta. split; [reflexivity|]. split; [reflexivity|].
  split; vm_compute; discriminate.
Qed.

(** ** The test bloom filter: no false negatives *)

Section BloomFacts.
Import Mach TestBloom.

Lemma land_mask_testbit b k :
  0 <= k -> (Z.land b (Z.shiftl 1 k) =? 0) = negb (Z.testbit b k).
Proof.
  intros Hk. rewrite Z.shiftl_1_l.
  destruct (Z.testbit b k) eqn:Hb; cbn [negb].
  - apply Z.eqb_neq. intros H0.
    assert (Ht : Z.testbit (Z.land b (2 ^ k)) k = true).
    { rewrite Z.land_spec, Hb, Z.pow2_bits_true by lia. reflexivity. }
    rewrite H0, Z.bits_0 in Ht. discriminate.
  - apply Z.eqb_eq. apply Z.bits_inj'. intros n Hn.
    rewrite Z.land_spec, Z.bits_0, Z.pow2_bits_eqb by lia.
    destruct (Z.eqb_spec k n) as [->|_].
    + rewrite Hb. reflexivity.
    + apply andb_false_r.
Qed.

Lemma test_pos_true bits pos :
  0 <= pos -> (test_pos bits pos = Some true <-> bit_set bits pos).
Proof.
  intros Hp. unfold test_pos, bit_set.
  assert (Hk : 0 <= pos mod 8) by (apply Z.mod_pos_bound; lia).
  destruct (bits !! Z.to_nat (pos / 8)) as [b|]; split.
  - intros [= H]. exists b. split; [reflexivity|].
    rewrite land_mask_testbit, negb_involutive in H by assumption. exact H.
  - intros (b' & [= <-] & Hb).
    rewrite land_mask_testbit, negb_involutive, Hb by assumption. reflexivity.
  - discriminate.
  - intros (b' & H & _). discriminate H.
Qed.

Lemma set_pos_spec bits pos :
  0 <= pos -> pos < 8 * Z.of_nat (length bits) ->
  exists bits',
    set_pos bits pos = Some bits'
    /\ length bits' = length bits
    /\ bit_set bits' pos
    /\ (forall q, bit_set bits q -> bit_set bits' q).
Proof.
  intros Hp Hlt. unfold set_pos.
  assert (Hk : 0 <= pos mod 8 < 8) by (apply Z.mod_pos_bound; lia).
  assert (Hidx : (Z.to_nat (pos / 8) < length bits)%nat).
  { assert (pos / 8 < Z.of_nat (length bits))
      by (apply Z.div_lt_upper_bound; lia).
    assert (0 <= pos / 8) by (apply Z.div_pos; lia). lia. }
  destruct (lookup_lt_is_Some_2 bits _ Hidx) as [b Hb]. rewrite Hb.
  eexists. split; [reflexivity|].
  split; [apply length_insert|]. split.
  - exists (u8 (Z.lor b (Z.shiftl 1 (pos mod 8)))).
    split; [apply list_lookup_insert_eq, Hidx|].
    unfold u8. rewrite Z.mod_pow2_bits_low by lia.
    rewrite Z.lor_spec, Z.shiftl_1_l, Z.pow2_bits_true by lia.
    apply orb_true_r.
  - intros q (c & Hc & Hbit). unfold bit_set.
    destruct (Nat.eq_dec (Z.to_nat (pos / 8)) (Z.to_nat (q / 8))) as [E|NE].
    + rewrite <- E in *. rewrite Hb in Hc. injection Hc as <-.
      exists (u8 (Z.lor b (Z.shiftl 1 (pos mod 8)))).
      split; [apply list_lookup_insert_eq, Hidx|].
      destruct (Z.ltb_spec (q mod 8) 0) as [Hneg|Hnn].
      { rewrite Z.testbit_neg_r in Hbit by assumption. discriminate. }
      destruct (Z.ltb_spec (q mod 8) 8) as [H8|H8].
      * unfold u8. rewrite Z.mod_pow2_bits_low by lia.
        rewrite Z.lor_spec, Hbit. reflexivity.
      * destruct (Z.eq_dec 8 0) as [|_]; [lia|].
        pose proof (Z.mod_pos_bound q 8 ltac:(lia)). lia.
    + exists c. split; [|exact Hbit].
      rewrite list_lookup_insert_ne by assumption. exact Hc.
Qed.

Lemma position_spec f data i :
  1 <= num_bits_ f ->
  exists pos, position f data i = Some pos
              /\ pos = simple_hash data i mod num_bits_ f
              /\ 0 <= pos < num_bits_ f.
Proof.
  intros Hn. unfold position.
  destruct (Z.eqb_spec (num_bits_ f) 0) as [E|_]; [lia|].
  eexists. split; [reflexivity|]. split; [reflexivity|].
  apply Z.mod_pos_bound. lia.
Qed.

(** The loop of [add] sets the position of every round and clears none. *)
Lemma add_loop_spec f data n : forall i bits,
  1 <= num_bits_ f -> num_bits_ f <= 8 * Z.of_nat (length bits) ->
  exists bits',
    add_loop f data n i bits = Some bits'
    /\ length bits' = length bits
    /\ (forall q, bit_set bits q -> bit_set bits' q)
    /\ (forall j, i <= j < i + Z.of_nat n ->
                  bit_set bits' (simple_hash data j mod num_bits_ f)).
Proof.
  induction n as [|k IH]; intros i bits H1 Hlen.
  - exists bits. cbn [add_loop]. repeat split; auto. intros j Hj. lia.
  - cbn [add_loop].
    destruct (position_spec f data i H1) as (pos & -> & Hpos & Hr).
    destruct (set_pos_spec bits pos) as (b1 & -> & L1 & S1 & P1); [lia..|].
    destruct (IH (i + 1) b1 H1) as (b2 & -> & L2 & P2 & A2);
      [rewrite L1; exact Hlen|].
    exists b2. split; [reflexivity|]. split; [congruence|].
    split; [auto|]. intros j Hj.
    destruct (Z.eq_dec j i) as [->|NE].
    + apply P2. rewrite <- Hpos. exact S1.
    + apply A2. lia.
Qed.

(** The loop of [possibly_contains] answers [true] exactly when the position
    of every round is set. *)
Lemma contains_loop_true f data n : forall i,
  covers f ->
  (contains_loop f data n i = Some true
   <-> forall j, i <= j < i + Z.of_nat n ->
                 bit_set (bits_ f) (simple_hash data j mod num_bits_ f)).
Proof.
  induction n as [|k IH]; intros i Hc.
  - cbn [contains_loop]. split; [intros _ j Hj; lia | reflexivity].
  - cbn [contains_loop]. destruct Hc as [H1 Hlen].
    destruct (position_spec f data i H1) as (pos & -> & Hpos & Hr).
    pose proof (test_pos_true (bits_ f) pos ltac:(lia)) as Ht.
    destruct (test_pos (bits_ f) pos) as [[|]|] eqn:Et.
    + rewrite (IH (i + 1) (conj H1 Hlen)). split.
      * intros Hall j Hj. destruct (Z.eq_dec j i) as [->|NE].
        -- rewrite <- Hpos. apply Ht. reflexivity.
        -- apply Hall. lia.
      * intros Hall j Hj. apply Hall. lia.
    + split; [discriminate|]. intros Hall.
      assert (Hb : bit_set (bits_ f) pos) by (rewrite Hpos; apply Hall; lia).
      apply Ht in Hb. discriminate Hb.
    + split; [discriminate|]. intros Hall.
      assert (Hb : bit_set (bits_ f) pos) by (rewrite Hpos; apply Hall; lia).
      apply Ht in Hb. discriminate Hb.
Qed.

(** One [add]: it succeeds, the added element tests positive afterwards and
    so does every element that tested positive before. *)
Lemma add_spec f e :
  covers f ->
  exists f',
    add f e = Some f'
    /\ covers f'
    /\ possibly_contains f' e = Some true
    /\ (forall e0, possibly_contains f e0 = Some true ->
                   possibly_contains f' e0 = Some true).
Proof.
  intros [H1 Hlen]. unfold add.
  destruct (add_loop_spec f e (Z.to_nat (num_hashes_ f)) 0 (bits_ f) H1 Hlen)
    as (bits' & -> & L & P & A).
  eexists. split; [reflexivity|].
  assert (Hc' : covers {| bits_ := bits'; num_bits_ := num_bits_ f;
                          num_hashes_ := num_hashes_ f |}).
  { split; cbn [num_bits_ bits_]; [exact H1 | rewrite L; exact Hlen]. }
  split; [exact Hc'|]. unfold possibly_contains. cbn [num_hashes_].
  split.
  - apply (proj2 (contains_loop_true _ e _ 0 Hc')).
    cbn [bits_ num_bits_]. exact A.
  - intros e0 H0. apply (proj2 (contains_loop_true _ e0 _ 0 Hc')).
    cbn [bits_ num_bits_]. intros j Hj. apply P.
    apply (proj1 (contains_loop_true f e0 _ 0 (conj H1 Hlen)) H0 j Hj).
Qed.

Lemma add_all_spec es : forall f,
  covers f ->
  exists f',
    add_all f es = Some f'
    /\ covers f'
    /\ (forall e0, possibly_contains f e0 = Some true ->
                   possibly_contains f' e0 = Some true)
    /\ (forall e, In e es -> possibly_contains f' e = Some true).
Proof.
  induction es as [|e es IH]; intros f Hc.
  - exists f. cbn [add_all]. split; [reflexivity|]. split; [exact Hc|].
    split; [auto|]. intros e He. destruct He.
  - cbn [add_all].
    destruct (add_spec f e Hc) as (f1 & -> & C1 & Hin1 & P1).
    destruct (IH f1 C1) as (f2 & -> & C2 & P2 & A2).
    exists f2. split; [reflexivity|]. split; [exact C2|].
    split; [auto|]. intros x [<-|Hx]; auto.
Qed.

Lemma make_covers num_bits num_hashes :
  1 <= num_bits -> num_bits + 7 < 2 ^ 64 -> covers (make num_bits num_hashes).
Proof.
  intros H1 H2. unfold covers, make. cbn [num_bits_ bits_].
  split; [exact H1|]. rewrite repeat_length.
  unfold u64. rewrite Z.mod_small by lia.
  rewrite Z2Nat.id by (apply Z.div_pos; lia).
  pose proof (Z.div_mod (num_bits + 7) 8 ltac:(lia)).
  pose proof (Z.mod_pos_bound (num_bits + 7) 8 ltac:(lia)). lia.
Qed.

(** C3 (amended). For every filter built with [num_bits] from 1 up to
    2^64 - 8 and any number of hashes, after every sequence of [add] calls
    each added element tests positive: the filter has no false negatives,
    and further [add] calls keep it so. *)
Theorem bloom_no_false_negatives (num_bits num_hashes : Z) :
  1 <= num_bits -> num_bits + 7 < 2 ^ 64 ->
  no_false_negatives num_bits num_hashes.
Proof.
  intros H1 H2 es.
  destruct (add_all_spec es (make num_bits num_hashes)
              (make_covers _ _ H1 H2)) as (f & Hf & _ & _ & Hall).
  exists f. split; assumption.
Qed.

Lemma bloom_no_false_negatives_witness :
  1 <= 10000 /\ 10000 + 7 < 2 ^ 64 /\ no_false_negatives 10000 7.
Proof.
  split; [lia|]. split; [lia|].
  apply (bloom_no_false_negatives 10000 7); lia.
Defined.

(** C3 as stated fails for the largest sizes: with [num_bits] = 2^64 - 1 the
    sum [num_bits + 7] wraps to 6, the constructor allocates no byte, and
    the first [add] indexes past the end of the vector. *)
Lemma bloom_size_wraps :
  1 <= 2 ^ 64 - 1 /\ ~ no_false_negatives (2 ^ 64 - 1) 1.
Proof.
  split; [lia|]. intros H.
  destruct (H [[0]]) as (f & Hf & _).
  vm_compute in Hf. discriminate Hf.
Qed.

(** The test [BloomFilter.BasicOperations]: empty at first, positive after
    the [add]; 12345 as a little-endian [uint32_t]. *)
Example bloom_basic_operations :
  possibly_contains (make 10000 7) [57; 48; 0; 0] = Some false
  /\ match add (make 10000 7) [57; 48; 0; 0] with
     | Some f => possibly_contains f [57; 48; 0; 0]
     | None => None
     end = Some true.
Proof. split; vm_compute; reflexivity. Qed.

(** The tests [BloomFilter.Clear] (42 as a [uint32_t]) and
    [BloomFilter.MemoryUsage]. *)
Example bloom_clear :
  match add (make 10000 5) [42; 0; 0; 0] with
  | Some f => possibly_contains (clear f) [42; 0; 0; 0]
  | None => None
  end = Some false.
Proof. vm_compute. reflexivity. Qed.

Example bloom_memory_usage :
  125000 <= memory_usage (make 1000000 7) <= 126000.
Proof. vm_compute. split; discriminate. Qed.

End BloomFacts.

(** ** The thread pool: submitting to a stopped pool *)

Section SubmitFacts.
Import Mach Exn ThreadPool.

Lemma shutdown_stops p : stop_ (shutdown p) = true.
Proof. unfold shutdown. destruct (stop_ p) eqn:E; [exact E | reflexivity]. Qed.

(** C10. On a pool whose [stop_] flag is set, as [shutdown] leaves it,
    [submit_with_priority], [submit] and [submit_batch] throw
    [std::runtime_error] and leave the pool as it was: the queue, and the
    counters [tasks_submitted] and [tasks_pending] with it, are unchanged. *)
Theorem submit_to_stopped_pool (p : Pool) :
  stop_ p = true ->
  forall (prio : TaskPriority) (f : Closure) (fs : list Closure),
    submit_with_priority prio f p = Raise (StdRuntimeError stopped_message) p
    /\ submit f p = Raise (StdRuntimeError stopped_message) p
    /\ submit_batch fs prio p = Raise (StdRuntimeError stopped_message) p.
Proof.
  intros Hstop prio f fs.
  unfold submit, submit_with_priority, submit_batch, bind, get, throw.
  rewrite Hstop. auto.
Qed.

Lemma submit_to_stopped_pool_witness :
  let p := shutdown (MkPool 4 [MkTask (Work 7) HIGH] false true 0
                            (MkStats 1 0 1 0 0)) in
  stop_ p = true
  /\ submit_with_priority CRITICAL (Work 1) p
     = Raise (StdRuntimeError stopped_message) p
  /\ submit (Work 1) p = Raise (StdRuntimeError stopped_message) p
  /\ submit_batch [Work 1; Work 2] LOW p
     = Raise (StdRuntimeError stopped_message) p.
Proof.
  intros p.
  assert (Hstop : stop_ p = true) by reflexivity.
  split; [exact Hstop|].
  destruct (submit_to_stopped_pool p Hstop CRITICAL (Work 1) [Work 1; Work 2])
    as (H1 & H2 & _).
  destruct (submit_to_stopped_pool p Hstop LOW (Work 1) [Work 1; Work 2])
    as (_ & _ & H3).
  split; [exact H1|]. split; [exact H2 | exact H3].
Defined.

(** On a running pool [submit] queues the task and counts it. *)
Lemma submit_running p f :
  stop_ p = false ->
  submit f p = Ok tt (add_pending 1 (add_submitted 1
                        (push_task (MkTask f NORMAL) p))).
Proof.
  intros Hrun. unfold submit, submit_with_priority, bind, get, modify.
  rewrite Hrun. reflexivity.
Qed.

End SubmitFacts.

(** ** [parallel_for] *)

Section ParallelForFacts.
Import Mach Exn ThreadPool.

Lemma loop_calls_app a b j :
  loop_calls (a + b) j = loop_calls a j ++ loop_calls b (j + Z.of_nat a).
Proof.
  revert j. induction a as [|a IH]; intros j.
  - cbn [loop_calls Nat.add app]. f_equal. lia.
  - cbn [loop_calls Nat.add]. rewrite IH. cbn [app]. do 3 f_equal. lia.
Qed.

Lemma loop_calls_In n j x : In x (loop_calls n j) <-> j <= x < j + Z.of_nat n.
Proof.
  revert j. induction n as [|n IH]; intros j; cbn [loop_calls In].
  - lia.
  - rewrite IH. lia.
Qed.

Lemma loop_calls_NoDup n j : NoDup (loop_calls n j).
Proof.
  revert j. induction n as [|n IH]; intros j; cbn [loop_calls].
  - apply NoDup_nil_2.
  - apply NoDup_cons_2; [|apply IH].
    rewrite list_elem_of_In, loop_calls_In. lia.
Qed.

(** The chunk loop on a running pool, without wrap-around of [i]: it ends
    within [end_ - i] rounds, and the chunks it submits, laid end to end,
    are the range from [i] to [end_]. *)
Lemma submit_chunks_spec end_ c : forall fuel i p,
  stop_ p = false ->
  1 <= c -> 0 <= i -> end_ + c <= 2 ^ 64 ->
  (Z.to_nat (end_ - i) <= fuel)%nat ->
  exists chunks p',
    submit_chunks fuel i end_ c p = Some (Ok chunks p')
    /\ stop_ p' = false
    /\ flat_map closure_calls chunks = loop_calls (Z.to_nat (end_ - i)) i.
Proof.
  induction fuel as [|fuel IH]; intros i p Hrun Hc Hi Hw Hfuel.
  - cbn [submit_chunks]. destruct (Z.ltb_spec i end_) as [Hlt|Hge]; [lia|].
    exists [], p. replace (Z.to_nat (end_ - i)) with O by lia.
    auto.
  - cbn [submit_chunks]. destruct (Z.ltb_spec i end_) as [Hlt|Hge].
    + rewrite (submit_running p _ Hrun).
      set (p1 := add_pending 1 _).
      assert (Hrun1 : stop_ p1 = false) by exact Hrun.
      assert (Hu : u64 (i + c) = i + c)
        by (apply u64_small; unfold is_u64; lia).
      rewrite Hu.
      destruct (IH (i + c) p1 Hrun1 Hc ltac:(lia) Hw ltac:(lia))
        as (cs & p2 & -> & Hrun2 & Hcalls).
      eexists _, p2. split; [reflexivity|]. split; [exact Hrun2|].
      cbn [flat_map closure_calls]. rewrite Hcalls.
      destruct (Z.le_ge_cases (i + c) end_) as [Hle|Hgt].
      * rewrite Z.min_l by lia.
        replace (Z.to_nat (end_ - i))
          with (Z.to_nat (i + c - i) + Z.to_nat (end_ - (i + c)))%nat by lia.
        rewrite loop_calls_app. do 2 f_equal. lia.
      * rewrite Z.min_r by lia.
        replace (Z.to_nat (end_ - (i + c))) with O by lia.
        cbn [loop_calls]. apply app_nil_r.
    + exists [], p. replace (Z.to_nat (end_ - i)) with O by lia. auto.
Qed.

Lemma submit_chunks_done fuel i end_ c p :
  end_ <= i -> submit_chunks fuel i end_ c p = Some (Ok [] p).
Proof.
  intros Hge. destruct fuel; cbn [submit_chunks];
    destruct (Z.ltb_spec i end_); try lia; reflexivity.
Qed.

Lemma chunk_size_used_default p start end_ :
  1 <= workers_ p < 2 ^ 62 -> start <= end_ -> 0 <= start -> end_ < 2 ^ 64 ->
  chunk_size_used p start end_ 0 = Z.max 1 ((end_ - start) / (size p * 4)).
Proof.
  intros Hw Hse Hs He. unfold chunk_size_used, size. cbn [Z.eqb].
  rewrite !u64_small; [reflexivity | |]; unfold is_u64;
    change (2 ^ 62) with 4611686018427387904 in Hw; rewrite pow64_eq in *; lia.
Qed.




End ParallelForFacts.

(** ** The heap algorithms keep a heap *)

Section ListSlots.
Context {A : Type} (d : A).

Lemma nth_insert_eq (v : list A) j y :
  (j < length v)%nat -> nth j (<[j := y]> v) d = y.
Proof.
  intros H. rewrite nth_lookup, list_lookup_insert_eq by exact H. reflexivity.
Qed.

Lemma nth_insert_ne (v : list A) i j y :
  i <> j -> nth i (<[j := y]> v) d = nth i v d.
Proof.
  intros H. rewrite !nth_lookup, list_lookup_insert_ne by auto. reflexivity.
Qed.

Lemma lookup_nth (v : list A) i :
  (i < length v)%nat -> v !! i = Some (nth i v d).
Proof.
  intros H. destruct (lookup_lt_is_Some_2 v i H) as [x Hx].
  rewrite nth_lookup, Hx. reflexivity.
Qed.

(** Filling the hole [h] with the content of slot [p] and putting [x] into
    [p] instead rearranges the vector that has [x] in the hole. *)
Lemma hole_move (v : list A) h p x :
  h <> p -> (h < length v)%nat -> (p < length v)%nat ->
  <[p := x]> (<[h := nth p v d]> v) ≡ₚ <[h := x]> v.
Proof.
  intros Hne Hh Hp. apply Permutation_inj.
  split; [rewrite !length_insert; reflexivity|].
  exists (fun i => if decide (i = h) then p
                   else if decide (i = p) then h else i).
  split.
  - intros i j. repeat case_decide; intros; subst; congruence.
  - intros i. destruct (decide (i = h)) as [->|Hih].
    + rewrite list_lookup_insert_ne by auto.
      rewrite list_lookup_insert_eq by exact Hh.
      rewrite list_lookup_insert_ne by auto.
      symmetry. apply lookup_nth, Hp.
    + destruct (decide (i = p)) as [->|Hip].
      * rewrite list_lookup_insert_eq by (rewrite length_insert; exact Hp).
        rewrite list_lookup_insert_eq by exact Hh. reflexivity.
      * rewrite !list_lookup_insert_ne by auto. reflexivity.
Qed.

Lemma removelast_nth (v : list A) n :
  length v = S n -> v = removelast v ++ [nth n v d].
Proof.
  revert n. induction v as [|a v IH]; intros n Hlen; [discriminate Hlen|].
  destruct v as [|b t].
  - injection Hlen as <-. reflexivity.
  - destruct n as [|n]; [discriminate Hlen|].
    apply Nat.succ_inj in Hlen.
    change (removelast (a :: b :: t)) with (a :: removelast (b :: t)).
    change (nth (S n) (a :: b :: t) d) with (nth n (b :: t) d).
    cbn [app]. f_equal. apply IH. exact Hlen.
Qed.

End ListSlots.

(** Facts about [(i - 1) / 2], the parent of slot [i]. *)
Ltac div2_facts :=
  repeat match goal with
         | |- context [(?a / 2)%nat] =>
             lazymatch goal with
             | _ : a = (2 * (a / 2) + a mod 2)%nat |- _ => fail
             | _ => pose proof (Nat.div_mod_eq a 2);
                    pose proof (Nat.mod_upper_bound a 2 ltac:(lia))
             end
         | _ : context [(?a / 2)%nat] |- _ =>
             lazymatch goal with
             | _ : a = (2 * (a / 2) + a mod 2)%nat |- _ => fail
             | _ => pose proof (Nat.div_mod_eq a 2);
                    pose proof (Nat.mod_upper_bound a 2 ltac:(lia))
             end
         end.

Ltac div2_lia := div2_facts; lia.

Section HeapFacts.
Import StdHeap HeapInv.
Context {A : Type} (key : A -> Z) (d : A).

Let comp (a b : A) : bool := key a <? key b.

(** [__push_heap] started on a hole whose surroundings are in order fills
    the vector into a heap. *)
Lemma push_heap_up n x : forall fuel v h,
  hole_inv key d v n h -> below key d v n h x -> (h <= fuel)%nat ->
  let v' := __push_heap comp d fuel v h 0 x in
  heap_upto key d v' n
  /\ length v' = length v
  /\ v' ≡ₚ <[h := x]> v
  /\ (forall i, (n <= i)%nat -> nth i v' d = nth i v d).
Proof.
  induction fuel as [|fuel IH]; intros v h (Hr & Ha & Hd) Hb Hfuel.
  - assert (h = 0)%nat by lia. subst h. cbn [__push_heap].
    split; [|split; [apply length_insert|split; [reflexivity|]]].
    + intros i Hi. rewrite (nth_insert_ne d v i 0) by lia.
      destruct (Nat.eq_dec ((i - 1) / 2)%nat 0%nat) as [E|NE].
      * rewrite E, nth_insert_eq by lia. apply Hb; [lia | exact E].
      * rewrite nth_insert_ne by exact NE. apply Ha; lia.
    + intros i Hi. apply nth_insert_ne. lia.
  - cbn [__push_heap]. set (p := ((h - 1) / 2)%nat).
    destruct ((0 <? h)%nat && comp (nth p v d) x) eqn:Hc.
    + apply andb_true_iff in Hc as [Hh Hlt].
      apply Nat.ltb_lt in Hh. unfold comp in Hlt. apply Z.ltb_lt in Hlt.
      assert (Hp : (p < h)%nat) by (unfold p; div2_lia).
      set (v1 := <[h := nth p v d]> v).
      assert (Hinv1 : hole_inv key d v1 n p).
      { split; [unfold v1; rewrite length_insert; lia|]. split.
        - intros i Hi Hip Hq. unfold v1.
          destruct (Nat.eq_dec i h) as [->|Hih]; [fold p in Hq; lia|].
          rewrite (nth_insert_ne d v i h) by exact Hih.
          destruct (Nat.eq_dec ((i - 1) / 2)%nat h) as [E|NE].
          + rewrite E, nth_insert_eq by lia. apply Hd; [lia | exact E | lia].
          + rewrite nth_insert_ne by exact NE. apply Ha; auto.
        - intros c Hcn Hcp Hp0. unfold v1.
          assert (Hg : ((p - 1) / 2 < p)%nat) by div2_lia.
          rewrite (nth_insert_ne d v ((p - 1) / 2) h) by lia.
          assert (Hpg : key (nth p v d) <= key (nth ((p - 1) / 2) v d)).
          { apply Ha; lia. }
          destruct (Nat.eq_dec c h) as [->|Hch].
          + rewrite nth_insert_eq by lia. exact Hpg.
          + rewrite nth_insert_ne by exact Hch.
            assert (key (nth c v d) <= key (nth ((c - 1) / 2) v d))
              by (apply Ha; [lia | exact Hch | lia]).
            rewrite Hcp in *. lia. }
      assert (Hb1 : below key d v1 n p x).
      { intros c Hcn Hcp. unfold v1.
        destruct (Nat.eq_dec c h) as [->|Hch].
        - rewrite nth_insert_eq by lia. lia.
        - rewrite nth_insert_ne by exact Hch.
          assert (key (nth c v d) <= key (nth ((c - 1) / 2) v d))
            by (apply Ha; [lia | exact Hch | lia]).
          rewrite Hcp in *. lia. }
      destruct (IH v1 p Hinv1 Hb1 ltac:(lia)) as (H1 & H2 & H3 & H4).
      split; [exact H1|]. split; [rewrite H2; apply length_insert|].
      split.
      * rewrite H3. unfold v1. apply hole_move; lia.
      * intros i Hi. rewrite H4 by exact Hi. unfold v1.
        apply nth_insert_ne. lia.
    + assert (Hstop : h = 0%nat \/ key x <= key (nth p v d)).
      { apply andb_false_iff in Hc as [Hc|Hc].
        - left. apply Nat.ltb_ge in Hc. lia.
        - right. unfold comp in Hc. apply Z.ltb_ge in Hc. exact Hc. }
      split; [|split; [apply length_insert|split; [reflexivity|]]].
      * intros i Hi.
        destruct (Nat.eq_dec i h) as [->|Hih].
        -- rewrite nth_insert_eq by lia.
           assert ((h - 1) / 2 < h)%nat by div2_lia.
           rewrite nth_insert_ne by lia. fold p. destruct Hstop; [lia|auto].
        -- rewrite (nth_insert_ne d v i h) by exact Hih.
           destruct (Nat.eq_dec ((i - 1) / 2)%nat h) as [E|NE].
           ++ rewrite E, nth_insert_eq by lia. apply Hb; [lia | exact E].
           ++ rewrite nth_insert_ne by exact NE. apply Ha; auto.
      * intros i Hi. apply nth_insert_ne. lia.
Qed.


(** The loop of [__adjust_heap] sinks the hole along the larger child and
    keeps the surroundings of the hole in order. *)
Lemma adjust_loop_down n : forall fuel v h,
  hole_inv key d v n h -> (n - h <= fuel)%nat ->
  let '(v', h') := adjust_loop comp d fuel v n h in
  hole_inv key d v' n h'
  /\ ~ (h' < (n - 1) / 2)%nat
  /\ length v' = length v
  /\ (forall x, <[h' := x]> v' ≡ₚ <[h := x]> v)
  /\ (forall i, (n <= i)%nat -> nth i v' d = nth i v d).
Proof.
  induction fuel as [|fuel IH]; intros v h Hinv Hfuel.
  - destruct Hinv as (Hr & _). lia.
  - cbn [adjust_loop].
    destruct (Nat.ltb_spec h ((n - 1) / 2)) as [Hlt|Hge].
    2:{ split; [exact Hinv|]. split; [lia|]. split; [reflexivity|].
        split; [reflexivity | reflexivity]. }
    destruct Hinv as (Hr & Ha & Hd).
    assert (Hkids : (2 * (h + 1) < n)%nat) by div2_lia.
    set (r := (2 * (h + 1))%nat) in *.
    set (c := if comp (nth r v d) (nth (r - 1) v d) then (r - 1)%nat else r).
    assert (Hc : (c = (r - 1)%nat
                  /\ key (nth r v d) <= key (nth (r - 1) v d))
                 \/ (c = r /\ key (nth (r - 1) v d) <= key (nth r v d))).
    { unfold c, comp. destruct (Z.ltb_spec (key (nth r v d))
                                           (key (nth (r - 1) v d))).
      - left. split; [reflexivity | lia].
      - right. split; [reflexivity | lia]. }
    clearbody c.
    assert (Hcp : ((c - 1) / 2 = h)%nat) by (unfold r in *; div2_lia).
    assert (Hcr : (h < c < n)%nat) by (unfold r in *; lia).
    set (v1 := <[h := nth c v d]> v).
    assert (Hinv1 : hole_inv key d v1 n c).
    { split; [unfold v1; rewrite length_insert; lia|]. split.
      - intros i Hi Hic Hq. unfold v1.
        destruct (Nat.eq_dec i h) as [->|Hih].
        + rewrite nth_insert_eq by lia.
          assert ((h - 1) / 2 < h)%nat by div2_lia.
          rewrite nth_insert_ne by lia. apply Hd; [lia | exact Hcp | lia].
        + rewrite (nth_insert_ne d v i h) by exact Hih.
          destruct (Nat.eq_dec ((i - 1) / 2)%nat h) as [E|NE].
          * rewrite E, nth_insert_eq by lia.
            assert (Hi2 : (i = r - 1 \/ i = r)%nat)
              by (unfold r in *; div2_lia).
            destruct Hc as [[Ec Hk] | [Ec Hk]];
              destruct Hi2 as [Ei | Ei]; subst c i; lia.
          * rewrite nth_insert_ne by exact NE. apply Ha; auto.
      - intros cc Hcc Hccp Hc0. unfold v1. rewrite Hcp.
        rewrite nth_insert_eq by lia.
        assert (cc <> h) by div2_lia.
        rewrite nth_insert_ne by assumption.
        rewrite <- Hccp. apply Ha; [lia | assumption | lia]. }
    specialize (IH v1 c Hinv1 ltac:(lia)).
    destruct (adjust_loop comp d fuel v1 n c) as [v' h'].
    destruct IH as (I1 & I2 & I3 & I4 & I5).
    split; [exact I1|]. split; [exact I2|].
    split; [rewrite I3; apply length_insert|]. split.
    + intros x. rewrite I4. unfold v1. apply hole_move; lia.
    + intros i Hi. rewrite I5 by exact Hi. unfold v1.
      apply nth_insert_ne. lia.
Qed.


Lemma heap_upto_hole_inv v n :
  (0 < n <= length v)%nat -> heap_upto key d v n -> hole_inv key d v n 0.
Proof.
  intros Hn Hh. split; [lia|]. split.
  - intros i Hi _ _. apply Hh, Hi.
  - intros c _ _ H0. lia.
Qed.

(** [__adjust_heap] from the top: the first [n] slots, a heap but for the
    top, become a heap that holds [x] in place of the top. *)
Lemma adjust_heap_spec v n x :
  (0 < n <= length v)%nat -> heap_upto key d v n ->
  let v' := __adjust_heap comp d v 0 n x in
  heap_upto key d v' n
  /\ length v' = length v
  /\ v' ≡ₚ <[0%nat := x]> v
  /\ (forall i, (n <= i)%nat -> nth i v' d = nth i v d).
Proof.
  intros Hn Hh. unfold __adjust_heap.
  pose proof (adjust_loop_down n n v 0 (heap_upto_hole_inv v n Hn Hh)
                ltac:(lia)) as Hloop.
  destruct (adjust_loop comp d n v n 0) as [v1 h1].
  destruct Hloop as ((Hr & Ha & Hd) & Hend & Hlen & Hperm & Hout).
  destruct (Nat.even n && (h1 =? (n - 2) / 2)%nat) eqn:Hsp.
  - apply andb_true_iff in Hsp as [Hev Hh1].
    apply Nat.eqb_eq in Hh1. apply Nat.even_spec in Hev as [m Hm].
    assert (Hlast : (2 * (h1 + 1) - 1 = n - 1)%nat) by div2_lia.
    rewrite Hlast.
    set (v2 := <[h1 := nth (n - 1) v1 d]> v1).
    assert (Hh1p : (((n - 1) - 1) / 2 = h1)%nat) by div2_lia.
    assert (Hinv2 : hole_inv key d v2 n (n - 1)).
    { split; [unfold v2; rewrite length_insert; lia|]. split.
      - intros i Hi Hin Hq. unfold v2.
        destruct (Nat.eq_dec i h1) as [->|Hih].
        + rewrite nth_insert_eq by lia.
          assert ((h1 - 1) / 2 < h1)%nat by div2_lia.
          rewrite nth_insert_ne by lia. apply Hd; [lia | exact Hh1p | lia].
        + rewrite (nth_insert_ne d v1 i h1) by exact Hih.
          assert (Hq1 : ((i - 1) / 2)%nat <> h1) by div2_lia.
          rewrite nth_insert_ne by exact Hq1. apply Ha; auto.
      - intros c Hc Hcp _. exfalso. div2_lia. }
    assert (Hb2 : below key d v2 n (n - 1) x).
    { intros c Hc Hcp. exfalso. div2_lia. }
    destruct (push_heap_up n x (n - 1) v2 (n - 1) Hinv2 Hb2 (Nat.le_refl _))
      as (P1 & P2 & P3 & P4).
    split; [exact P1|].
    split; [rewrite P2; unfold v2; rewrite length_insert; exact Hlen|].
    split.
    + rewrite P3. unfold v2. rewrite hole_move by lia. apply Hperm.
    + intros i Hi. rewrite P4 by exact Hi. unfold v2.
      rewrite nth_insert_ne by lia. apply Hout, Hi.
  - assert (Hleaf : (n <= 2 * h1 + 1)%nat).
    { apply andb_false_iff in Hsp as [Hodd|Hne].
      - rewrite <- Nat.negb_odd in Hodd. apply negb_false_iff in Hodd.
        apply Nat.odd_spec in Hodd as [m Hm]. div2_lia.
      - apply Nat.eqb_neq in Hne.
        destruct (Nat.even n) eqn:Hev.
        + apply Nat.even_spec in Hev as [m Hm]. div2_lia.
        + rewrite <- Nat.negb_odd in Hev. apply negb_false_iff in Hev.
          apply Nat.odd_spec in Hev as [m Hm]. div2_lia. }
    assert (Hb1 : below key d v1 n h1 x).
    { intros c Hc Hcp. exfalso. div2_lia. }
    destruct (push_heap_up n x h1 v1 h1 (conj Hr (conj Ha Hd)) Hb1
                (Nat.le_refl _)) as (P1 & P2 & P3 & P4).
    split; [exact P1|]. split; [rewrite P2; exact Hlen|]. split.
    + rewrite P3. apply Hperm.
    + intros i Hi. rewrite P4 by exact Hi. apply Hout, Hi.
Qed.

(** The top of a heap has the largest key. *)
Lemma heap_top_max v :
  is_heap key d v ->
  forall i, (i < length v)%nat -> key (nth i v d) <= key (nth 0 v d).
Proof.
  intros Hh i. induction i as [i IH] using lt_wf_ind. intros Hi.
  destruct (Nat.eq_dec i 0%nat) as [->|Hne]; [lia|].
  assert (Hp : ((i - 1) / 2 < i)%nat) by div2_lia.
  specialize (IH _ Hp ltac:(lia)).
  specialize (Hh i ltac:(lia)). lia.
Qed.

(** [priority_queue::push] keeps the heap and adds the element. *)
Lemma pq_push_spec x c :
  is_heap key d c ->
  is_heap key d (pq_push comp d x c) /\ pq_push comp d x c ≡ₚ x :: c.
Proof.
  intros Hh. unfold pq_push, push_heap.
  rewrite length_app. cbn [length]. rewrite Nat.add_1_r.
  set (n := length c). set (v := c ++ [x]).
  assert (Hx : nth n v d = x).
  { unfold v, n. rewrite app_nth2 by lia. rewrite Nat.sub_diag. reflexivity. }
  rewrite Hx.
  assert (Hlen : length v = S n)
    by (unfold v, n; rewrite length_app; cbn [length]; lia).
  assert (Hinv : hole_inv key d v (S n) n).
  { split; [lia|]. split.
    - intros i Hi Hin Hq. unfold v.
      assert ((i - 1) / 2 < i)%nat by div2_lia.
      rewrite !app_nth1 by (fold n; lia). apply Hh. fold n. lia.
    - intros c0 Hc Hcp _. exfalso. div2_lia. }
  assert (Hb : below key d v (S n) n x).
  { intros c0 Hc Hcp. exfalso. div2_lia. }
  destruct (push_heap_up (S n) x n v n Hinv Hb (Nat.le_refl _))
    as (P1 & P2 & P3 & _).
  split.
  - unfold is_heap. rewrite P2, Hlen. exact P1.
  - rewrite P3. rewrite list_insert_id.
    + unfold v. rewrite Permutation_app_comm. reflexivity.
    + rewrite <- Hx. apply lookup_nth. lia.
Qed.

(** [priority_queue::pop] keeps the heap and removes the top. *)
Lemma pq_pop_spec c :
  is_heap key d c -> c <> [] ->
  is_heap key d (pq_pop comp d c) /\ c ≡ₚ pq_top d c :: pq_pop comp d c.
Proof.
  intros Hh Hne. unfold pq_pop, pop_heap, pq_top.
  destruct (Nat.ltb_spec 1 (length c)) as [Hlt|Hle].
  - set (last := (length c - 1)%nat).
    set (v1 := <[last := nth 0 c d]> c).
    assert (Hh1 : heap_upto key d v1 last).
    { intros i Hi. unfold v1.
      assert ((i - 1) / 2 < i)%nat by div2_lia.
      rewrite !nth_insert_ne by lia. apply Hh. unfold last in Hi. lia. }
    assert (Hl1 : length v1 = length c) by apply length_insert.
    destruct (adjust_heap_spec v1 last (nth last c d)
                ltac:(unfold last in *; lia) Hh1) as (P1 & P2 & P3 & P4).
    set (v' := __adjust_heap comp d v1 0 last (nth last c d)) in *.
    assert (Hlen' : length v' = S last) by (unfold last; lia).
    assert (Hv' : v' = removelast v' ++ [nth 0 c d]).
    { rewrite (removelast_nth d v' last Hlen') at 1.
      do 2 f_equal.
      rewrite P4 by lia. unfold v1. apply nth_insert_eq. unfold last. lia. }
    assert (Hrl : length (removelast v') = last).
    { apply (f_equal (@length A)) in Hv'. rewrite length_app in Hv'.
      cbn [length] in Hv'. lia. }
    split.
    + unfold is_heap. rewrite Hrl. intros i Hi.
      assert ((i - 1) / 2 < i)%nat by div2_lia.
      specialize (P1 i Hi). rewrite Hv' in P1.
      rewrite !app_nth1 in P1 by lia. exact P1.
    + rewrite (Permutation_cons_append (removelast v') (nth 0 c d)).
      rewrite <- Hv'. rewrite P3. unfold v1.
      rewrite (hole_move d c last 0) by (unfold last; lia).
      rewrite list_insert_id; [reflexivity|].
      apply lookup_nth. unfold last. lia.
  - destruct c as [|a [|b c]]; [contradiction| |cbn [length] in Hle; lia].
    cbn [removelast nth]. split; [|reflexivity].
    intros i Hi. cbn [length] in Hi. lia.
Qed.

End HeapFacts.

(** ** The task queue: order of dequeueing *)

Section QueueOrder.
Import Mach Exn StdHeap HeapInv ThreadPool.

Lemma submit_with_priority_queue p prio f :
  stop_ p = false -> queue_ok p ->
  exists p',
    submit_with_priority prio f p = Ok tt p'
    /\ stop_ p' = false /\ paused_ p' = paused_ p
    /\ queue_ok p'
    /\ tasks_ p' ≡ₚ MkTask f prio :: tasks_ p.
Proof.
  intros Hrun Hq.
  unfold submit_with_priority, bind, get, modify. rewrite Hrun.
  eexists. split; [reflexivity|].
  destruct (pq_push_spec task_key no_task (MkTask f prio) (tasks_ p) Hq)
    as [H1 H2].
  split; [exact Hrun|]. split; [reflexivity|]. split; [exact H1 | exact H2].
Qed.

Lemma submit_tasks_queue ts : forall p,
  stop_ p = false -> queue_ok p ->
  exists p',
    submit_tasks ts p = Ok tt p'
    /\ stop_ p' = false /\ paused_ p' = paused_ p
    /\ queue_ok p'
    /\ tasks_ p' ≡ₚ ts ++ tasks_ p.
Proof.
  induction ts as [|t ts IH]; intros p Hrun Hq.
  - exists p. cbn. auto.
  - unfold submit_tasks. cbn [for_each]. unfold bind at 1.
    destruct (submit_with_priority_queue p (priority t) (func t) Hrun Hq)
      as (p1 & -> & R1 & P1 & Q1 & T1).
    destruct (IH p1 R1 Q1) as (p2 & E2 & R2 & P2 & Q2 & T2).
    exists p2. split; [exact E2|]. split; [exact R2|].
    split; [congruence|]. split; [exact Q2|].
    rewrite T2, T1. destruct t. cbn [func priority app].
    symmetry. apply Permutation_middle.
Qed.

(** A worker that finds the tasks queued takes them all, highest priority
    first. *)
Lemma worker_dequeues_spec : forall fuel p,
  paused_ p = false -> queue_ok p -> (length (tasks_ p) <= fuel)%nat ->
  worker_dequeues fuel p ≡ₚ tasks_ p
  /\ StronglySorted (fun a b => task_key b <= task_key a)
                    (worker_dequeues fuel p).
Proof.
  induction fuel as [|fuel IH]; intros p Hp Hq Hfuel.
  - destruct (tasks_ p) eqn:E; [|cbn [length] in Hfuel; lia].
    cbn [worker_dequeues]. split; [reflexivity | constructor].
  - cbn [worker_dequeues]. rewrite Hp, orb_false_r.
    destruct (tasks_ p) as [|t0 q] eqn:E.
    { cbn [length Nat.eqb]. split; [reflexivity | constructor]. }
    cbn [length Nat.eqb]. unfold take_top. rewrite E.
    set (c := t0 :: q) in *.
    assert (Hc : c <> []) by discriminate.
    assert (Hq' : is_heap task_key no_task c)
      by (unfold queue_ok in Hq; rewrite E in Hq; exact Hq).
    destruct (pq_pop_spec task_key no_task c Hq' Hc) as [Hh Hperm].
    set (p' := sub_pending (set_tasks (pq_pop task_lt no_task c) p)).
    assert (Hlen : length c = S (length (pq_pop task_lt no_task c))).
    { apply Permutation_length in Hperm. exact Hperm. }
    assert (Hfuel' : (length (tasks_ p') <= fuel)%nat).
    { change (tasks_ p') with (pq_pop task_lt no_task c). lia. }
    destruct (IH p' Hp Hh Hfuel') as [I1 I2].
    split.
    + etransitivity; [|symmetry; exact Hperm].
      apply Permutation_cons; [reflexivity | exact I1].
    + apply SSorted_cons; [exact I2|].
      apply Forall_forall. intros b Hb.
      rewrite I1 in Hb.
      change (tasks_ p') with (pq_pop task_lt no_task c) in Hb.
      assert (Hbc : b ∈ c).
      { apply list_elem_of_In.
        apply (Permutation_in _ (Permutation_sym Hperm)).
        right. apply list_elem_of_In, Hb. }
      apply list_elem_of_lookup in Hbc as [i Hi].
      pose proof (lookup_lt_Some _ _ _ Hi) as Hlt.
      rewrite (lookup_nth no_task c i Hlt) in Hi. injection Hi as <-.
      apply (heap_top_max task_key no_task c Hq' i Hlt).
Qed.

(** C4 (amended). Tasks all queued before a single worker takes them are
    dequeued in max-heap order of priority: the worker takes every
    submitted task once, and never a task before one of higher priority.
    Among tasks of equal priority the order is the one the heap yields. *)
Theorem queue_priority_order (ts : list Task) :
  exists p1,
    submit_tasks ts (new_pool 1) = Ok tt p1
    /\ worker_dequeues (length ts) p1 ≡ₚ ts
    /\ StronglySorted
         (fun a b => priority_value (priority b)
                     <= priority_value (priority a))
         (worker_dequeues (length ts) p1).
Proof.
  assert (H0 : queue_ok (new_pool 1)).
  { intros i Hi. cbn [new_pool tasks_ length] in Hi. lia. }
  destruct (submit_tasks_queue ts (new_pool 1) eq_refl H0)
    as (p1 & E & _ & P & Q & T).
  rewrite app_nil_r in T.
  destruct (worker_dequeues_spec (length ts) p1 P Q) as [D1 D2].
  { apply Permutation_length in T. lia. }
  exists p1. split; [exact E|]. split; [rewrite D1; exact T | exact D2].
Qed.

(** C4 as stated fails on its second half: four tasks of priority NORMAL
    submitted as 0, 1, 2, 3 are taken as 0, 2, 1, 3. *)
Lemma queue_not_fifo_among_equal :
  ~ fifo_among_equal [MkTask (Work 0) NORMAL; MkTask (Work 1) NORMAL;
                      MkTask (Work 2) NORMAL; MkTask (Work 3) NORMAL].
Proof.
  intros H. unfold fifo_among_equal in H.
  destruct (submit_tasks _ (new_pool 1)) as [u p1|e p1] eqn:E.
  - pose proof E as E'. vm_compute in E'. injection E' as <- <-.
    specialize (H _ E NORMAL). vm_compute in H. discriminate H.
  - vm_compute in E. discriminate E.
Qed.

(** The same four tasks, as the worker takes them. *)
Example four_normal_tasks_order :
  match submit_tasks [MkTask (Work 0) NORMAL; MkTask (Work 1) NORMAL;
                      MkTask (Work 2) NORMAL; MkTask (Work 3) NORMAL]
                     (new_pool 1) with
  | Ok _ p1 => worker_dequeues 4 p1
  | Raise _ _ => []
  end
  = [MkTask (Work 0) NORMAL; MkTask (Work 2) NORMAL;
     MkTask (Work 1) NORMAL; MkTask (Work 3) NORMAL].
Proof. vm_compute. reflexivity. Qed.

End QueueOrder.

(** ** Pause and the workers *)

Section PauseFacts.
Import Mach Exn ThreadPool.

Lemma pause_race_run :
  exists s s',
    run_events pause_race (start_sys 1) = Some s
    /\ is_paused (pool s) = true
    /\ tasks_ (pool s) = [MkTask (Work 0) NORMAL]
    /\ step (WorkerPop 0) s = Some s'
    /\ is_paused (pool s') = true
    /\ tasks_ (pool s') = []
    /\ pcs s' = [Running (MkTask (Work 0) NORMAL)].
Proof. do 2 eexists. repeat split; reflexivity. Qed.

(** C8. The claim fails on the code: after the schedule [pause_race] the
    pool is paused, the task is still queued, and the pop of worker 0 is
    enabled; it takes the task and the worker runs it. So it is not the
    case that no worker pops while the pool is paused. *)
Theorem pause_does_not_stop_a_checked_worker :
  (exists s s',
     run_events pause_race (start_sys 1) = Some s
     /\ is_paused (pool s) = true
     /\ tasks_ (pool s) = [MkTask (Work 0) NORMAL]
     /\ step (WorkerPop 0) s = Some s'
     /\ is_paused (pool s') = true
     /\ tasks_ (pool s') = []
     /\ pcs s' = [Running (MkTask (Work 0) NORMAL)])
  /\ ~ never_pops_while_paused 1.
Proof.
  split; [exact pause_race_run|]. intros H.
  destruct pause_race_run as (s & s' & Hrun & Hp & _ & Hpop & _).
  specialize (H pause_race s 0%nat Hrun Hp). rewrite Hpop in H. discriminate.
Qed.

Lemma push_heap_length {A} (comp : A -> A -> bool) (d : A) x :
  forall fuel v h top,
    length (StdHeap.__push_heap comp d fuel v h top x) = length v.
Proof.
  induction fuel as [|fuel IH]; intros v h top; cbn [StdHeap.__push_heap].
  - apply length_insert.
  - destruct (_ && _); [rewrite IH|]; apply length_insert.
Qed.

Lemma pq_push_length {A} (comp : A -> A -> bool) (d : A) x c :
  length (StdHeap.pq_push comp d x c) = S (length c).
Proof.
  unfold StdHeap.pq_push, StdHeap.push_heap.
  rewrite length_app. cbn [length]. rewrite Nat.add_1_r.
  rewrite push_heap_length, length_app. cbn [length]. lia.
Qed.

Lemma set_pc_not_popping s w pc :
  pc <> Popping ->
  (forall w', pcs s !! w' <> Some Popping) ->
  forall w', pcs (set_pc w pc s) !! w' <> Some Popping.
Proof.
  intros Hpc Hs w'. unfold set_pc. cbn [pcs].
  destruct (Nat.eq_dec w w') as [->|Hne].
  - destruct (lt_dec w' (length (pcs s))) as [Hlt|Hge].
    + rewrite list_lookup_insert_eq by exact Hlt. congruence.
    + rewrite list_insert_ge by lia. apply Hs.
  - rewrite list_lookup_insert_ne by exact Hne. apply Hs.
Qed.

(** What does hold: once the pool is paused and no worker stands between
    the check and the pop, every step but [resume] leaves it so; no such
    step is a pop, and the queue does not shrink. *)
Lemma settled_step e s s' :
  settled s -> e <> ClientResume -> step e s = Some s' ->
  settled s'
  /\ (forall w, e <> WorkerPop w)
  /\ (length (tasks_ (pool s)) <= length (tasks_ (pool s')))%nat.
Proof.
  intros [Hp Hpc] Hne Hstep.
  destruct e as [prio f| | | |w|w|w|w|w]; cbn [step] in Hstep.
  - destruct (mutex_free s); [|discriminate Hstep].
    unfold submit_with_priority, bind, get, modify, throw in Hstep.
    destruct (stop_ (pool s)); injection Hstep as <-;
      (split; [split; [exact Hp | exact Hpc]|]);
      (split; [discriminate|]); cbn [pool tasks_]; [lia|].
    unfold add_pending, add_submitted, push_task, set_stats, set_tasks.
    cbn [tasks_ stats_]. rewrite pq_push_length. lia.
  - injection Hstep as <-. split; [split; [reflexivity | exact Hpc]|].
    split; [discriminate | cbn; lia].
  - contradiction.
  - destruct (mutex_free s); [|discriminate Hstep]. injection Hstep as <-.
    split; [split; [|exact Hpc]|split; [discriminate|]].
    + cbn [pool]. unfold shutdown. destruct (stop_ (pool s)); exact Hp.
    + cbn [pool]. unfold shutdown. destruct (stop_ (pool s)); cbn; lia.
  - destruct (pcs s !! w) as [[| | | | |]|]; try discriminate Hstep.
    destruct (mutex_free s && wake_condition (pool s));
      [|discriminate Hstep]. injection Hstep as <-.
    split; [split; [exact Hp|]|split; [discriminate | cbn; lia]].
    apply set_pc_not_popping; [discriminate | exact Hpc].
  - destruct (pcs s !! w) as [[| | | | |]|]; try discriminate Hstep.
    destruct (stop_ (pool s) && _); injection Hstep as <-;
      (split; [split; [exact Hp|]|split; [discriminate | cbn; lia]]);
      (apply set_pc_not_popping; [discriminate | exact Hpc]).
  - destruct (pcs s !! w) as [[| | | | |]|]; try discriminate Hstep.
    rewrite Hp, orb_true_r in Hstep. injection Hstep as <-.
    split; [split; [exact Hp|]|split; [discriminate | cbn; lia]].
    apply set_pc_not_popping; [discriminate | exact Hpc].
  - destruct (pcs s !! w) as [[| | | | |]|] eqn:E; try discriminate Hstep.
    exfalso. exact (Hpc w E).
  - destruct (pcs s !! w) as [[| | | | |]|]; try discriminate Hstep.
    injection Hstep as <-.
    split; [split; [exact Hp|]|split; [discriminate | cbn; lia]].
    apply (set_pc_not_popping (MkSys (finish_task (pool s)) (pcs s)));
      [discriminate | exact Hpc].
Qed.

End PauseFacts.

(** ** The BSGS search *)

Section CurveFacts.
Import Bsgs.
Context (c : Curve) (L : CurveLaws c).

Lemma mul_G_congr a b : a = b -> mul_G c a = mul_G c b.
Proof. intros ->. reflexivity. Qed.

Lemma pow2_split k i :
  0 <= i -> k mod 2 ^ (i + 1) = k mod 2 ^ i + 2 ^ i * Z.b2z (Z.testbit k i).
Proof.
  intros Hi. rewrite Z.testbit_spec' by exact Hi.
  rewrite Z.pow_add_r by lia. change (2 ^ 1) with 2.
  apply Z.rem_mul_r; lia.
Qed.

(** The loop of [scalar_mul]: after the bits below [i], [R] is a.(k mod 2^i)
    and [Q] is a.2^i. *)
Lemma scalar_mul_loop_spec a k : forall n i R Q,
  0 <= i ->
  R = mul_G c (a * (k mod 2 ^ i)) ->
  Q = mul_G c (a * 2 ^ i) ->
  scalar_mul_loop c n i k R Q = mul_G c (a * (k mod 2 ^ (i + Z.of_nat n))).
Proof.
  induction n as [|n IH]; intros i R Q Hi HR HQ.
  - cbn [scalar_mul_loop]. rewrite Z.add_0_r. exact HR.
  - cbn [scalar_mul_loop].
    replace (i + Z.of_nat (S n)) with (i + 1 + Z.of_nat n) by lia.
    apply IH; [lia| |].
    + rewrite pow2_split by exact Hi. subst R Q.
      destruct (Z.testbit k i); cbn [Z.b2z].
      * rewrite (add_law c L). apply mul_G_congr. ring.
      * apply mul_G_congr. ring.
    + subst Q. unfold point_double. rewrite (add_law c L).
      apply mul_G_congr. rewrite Z.pow_add_r by lia. ring.
Qed.

(** [scalar_mul] computes the multiple (for 256-bit scalars). *)
Lemma scalar_mul_spec k a :
  0 <= k < 2 ^ 256 ->
  scalar_mul c k (mul_G c a) = mul_G c (k * a).
Proof.
  intros Hk. unfold scalar_mul.
  rewrite (scalar_mul_loop_spec a k 256 0 _ _ (Z.le_refl 0)).
  - apply mul_G_congr. change (0 + Z.of_nat 256) with 256.
    rewrite Z.mod_small by exact Hk. ring.
  - rewrite (infinity_def c L). apply mul_G_congr.
    change (2 ^ 0) with 1. rewrite Z.mod_1_r. ring.
  - apply mul_G_congr. change (2 ^ 0) with 1. ring.
Qed.

Lemma scalar_mul_G k :
  0 <= k < 2 ^ 256 -> scalar_mul c k (G c) = mul_G c k.
Proof.
  intros Hk. rewrite (G_def c L), scalar_mul_spec by exact Hk.
  apply mul_G_congr. ring.
Qed.

(** Row t of the table built from i.G holds the X of (i + t).G; a lookup
    answers with the first row that has the X asked for. *)
Lemma lookup_baby_steps x : forall n i,
  match lookup_from c i (baby_steps c n (mul_G c i)) x with
  | Some r =>
      i <= r < i + Z.of_nat n
      /\ x_of c (mul_G c r) = x
      /\ forall t, i <= t < r -> x_of c (mul_G c t) <> x
  | None => forall t, i <= t < i + Z.of_nat n -> x_of c (mul_G c t) <> x
  end.
Proof.
  induction n as [|n IH]; intros i.
  - cbn [baby_steps lookup_from]. intros t Ht. lia.
  - cbn [baby_steps lookup_from].
    destruct (coord_eqb c (x_of c (mul_G c i)) x) eqn:E.
    + apply (coord_eqb_law c L) in E. split; [lia|]. split; [exact E|].
      intros t Ht. lia.
    + assert (Hne : x_of c (mul_G c i) <> x).
      { intros H. apply (coord_eqb_law c L) in H. congruence. }
      rewrite (G_def c L), (add_law c L).
      specialize (IH (i + 1)).
      destruct (lookup_from c (i + 1) (baby_steps c n (mul_G c (i + 1))) x)
        as [r|].
      * destruct IH as (Hr & Hx & Hfirst). split; [lia|]. split; [exact Hx|].
        intros t Ht. destruct (Z.eq_dec t i) as [->|]; [exact Hne|].
        apply Hfirst. lia.
      * intros t Ht. destruct (Z.eq_dec t i) as [->|]; [exact Hne|].
        apply IH. lia.
Qed.

End CurveFacts.

(** Orders of visit: each is a rearrangement of the steps. *)
Section Schedules.
Import Bsgs.

Lemma from_both_ends_perm : forall fuel l,
  (length l <= fuel)%nat -> from_both_ends fuel l ≡ₚ l.
Proof.
  induction fuel as [|fuel IH]; intros l Hl.
  - destruct l; [reflexivity | cbn [length] in Hl; lia].
  - destruct l as [|j rest]; [reflexivity|]. cbn [from_both_ends].
    apply Permutation_cons; [reflexivity|].
    rewrite IH by (rewrite length_rev; cbn [length] in Hl; lia).
    symmetry. apply Permutation_rev.
Qed.

Lemma dance_perm s : forall fuel l,
  (length l <= fuel)%nat -> dance fuel s l ≡ₚ l.
Proof.
  induction fuel as [|fuel IH]; intros l Hl.
  - destruct l; [reflexivity | cbn [length] in Hl; lia].
  - destruct l as [|j rest]; [reflexivity|].
    change (dance (S fuel) s (j :: rest))
      with (take (S s) (j :: rest)
            ++ dance fuel s (rev (drop (S s) (j :: rest)))).
    rewrite IH.
    + rewrite <- (Permutation_rev (drop (S s) (j :: rest))).
      rewrite take_drop. reflexivity.
    + rewrite length_rev, length_drop. cbn [length] in *. lia.
Qed.

Lemma chunks_concat s : forall fuel l,
  (length l <= fuel)%nat -> concat (chunks fuel s l) = l.
Proof.
  induction fuel as [|fuel IH]; intros l Hl.
  - destruct l; [reflexivity | cbn [length] in Hl; lia].
  - destruct l as [|j rest]; [reflexivity|].
    change (chunks (S fuel) s (j :: rest))
      with (take (S s) (j :: rest) :: chunks fuel s (drop (S s) (j :: rest))).
    cbn [concat]. rewrite IH.
    + apply take_drop.
    + rewrite length_drop. cbn [length] in *. lia.
Qed.

Lemma chunks_length s : forall fuel l,
  (length (chunks fuel s l) <= length l)%nat.
Proof.
  induction fuel as [|fuel IH]; intros l.
  - destruct l; cbn; lia.
  - destruct l as [|j rest]; [cbn; lia|].
    change (chunks (S fuel) s (j :: rest))
      with (take (S s) (j :: rest) :: chunks fuel s (drop (S s) (j :: rest))).
    cbn [length]. specialize (IH (drop (S s) (j :: rest))).
    rewrite length_drop in IH. cbn [length] in IH. lia.
Qed.

Lemma pick_order_perm {A} (g : nat -> nat) : forall fuel i (l : list A),
  (length l <= fuel)%nat -> pick_order fuel g i l ≡ₚ l.
Proof.
  induction fuel as [|fuel IH]; intros i l Hl.
  - destruct l; [reflexivity | cbn [length] in Hl; lia].
  - destruct l as [|x rest]; [reflexivity|].
    cbn [pick_order]. set (l := x :: rest) in *.
    set (n := (g i mod length l)%nat).
    assert (Hn : (n < length l)%nat).
    { unfold n. apply Nat.mod_upper_bound. unfold l. discriminate. }
    rewrite IH by (rewrite length_delete; [lia | apply lookup_lt_is_Some_2, Hn]).
    symmetry. apply delete_Permutation. apply lookup_nth, Hn.
Qed.

Lemma concat_perm {A} (l1 l2 : list (list A)) :
  l1 ≡ₚ l2 -> concat l1 ≡ₚ concat l2.
Proof.
  induction 1 as [|x l l' _ IH|x y l|l l' l'' _ IH1 _ IH2]; cbn [concat].
  - reflexivity.
  - apply Permutation_app_head, IH.
  - rewrite !app_assoc. apply Permutation_app_tail, Permutation_app_comm.
  - etransitivity; eassumption.
Qed.

(** Every search mode visits each giant step once. *)
Lemma schedule_perm c (q : Search c) :
  schedule c q ≡ₚ seq 0 (Z.to_nat (giant_steps c q)).
Proof.
  unfold schedule. set (all := seq 0 (Z.to_nat (giant_steps c q))).
  destruct (mode c q).
  - reflexivity.
  - symmetry. apply Permutation_rev.
  - apply from_both_ends_perm. lia.
  - rewrite (concat_perm _ (chunks (length all)
               (pred (length all / Nat.max 1 (thread_count c q))) all)).
    + rewrite chunks_concat by lia. reflexivity.
    + apply pick_order_perm, chunks_length.
  - apply dance_perm. lia.
Qed.

End Schedules.

Section SearchFacts.
Import Bsgs.
Context (c : Curve) (L : CurveLaws c).
Context (lo0 hi0 m0 k : Z) (md : BSGSMode) (endo : bool)
        (stride threads : nat) (rng : nat -> nat).
Context (Hk : 0 <= lo0 <= k /\ k <= hi0) (Hm : 1 <= m0)
        (Hfit : hi0 + m0 <= order c).

Let q : Search c :=
  MkSearch c (scalar_mul c k (G c)) lo0 hi0 m0 md endo stride threads rng.

Let N := range_size c q.
Let m' := table_size c q.
Let J := giant_steps c q.

Lemma sizes :
  N = hi0 - lo0 + 1 /\ 1 <= m' /\ m' <= m0 /\ m' <= N
  /\ N <= J * m' /\ J * m' < N + m' /\ 1 <= J.
Proof.
  unfold N, m', J, giant_steps, table_size, range_size. cbn [Bsgs.lo Bsgs.hi Bsgs.m q].
  set (n := hi0 - lo0 + 1). set (t := Z.min m0 n).
  assert (1 <= t /\ t <= m0 /\ t <= n) as (H1 & H2 & H3) by (unfold t, n; lia).
  pose proof (Z.div_mod (n + t - 1) t ltac:(lia)) as Hd.
  pose proof (Z.mod_pos_bound (n + t - 1) t ltac:(lia)) as Hr.
  repeat split; try assumption; try reflexivity; try nia.
Qed.

Lemma order_u256 : order c < 2 ^ 256.
Proof. apply (order_range c L). Qed.

Lemma target_is : target c q = mul_G c k.
Proof.
  cbn [target q]. apply (scalar_mul_G c L). pose proof order_u256. lia.
Qed.

Lemma G_giant_is : G_giant c q = mul_G c m'.
Proof.
  unfold G_giant. fold m'. apply (scalar_mul_G c L).
  pose proof order_u256. pose proof sizes. lia.
Qed.

Lemma giant_point_is j :
  giant_point c q j = mul_G c (k - lo0 - Z.of_nat j * m').
Proof.
  induction j as [|j IH].
  - cbn [giant_point]. rewrite target_is. cbn [Bsgs.lo q].
    rewrite (scalar_mul_G c L) by (pose proof order_u256; lia).
    rewrite (neg_law c L), (add_law c L). apply mul_G_congr. lia.
  - cbn [giant_point]. rewrite IH, G_giant_is.
    rewrite (neg_law c L), (add_law c L). apply mul_G_congr. lia.
Qed.

(** Two scalars below the order with the same multiple of G are equal. *)
Lemma mul_G_inj a b :
  0 <= a < order c -> 0 <= b < order c -> mul_G c a = mul_G c b -> a = b.
Proof.
  intros Ha Hb H. apply (eq_law c L) in H.
  rewrite !Z.mod_small in H by assumption. exact H.
Qed.

Lemma verify_sound k' :
  0 <= k' < order c -> verify c q k' = true -> k' = k.
Proof.
  intros Hr Hv. unfold verify in Hv. apply (point_eqb_law c L) in Hv.
  rewrite target_is in Hv.
  rewrite (scalar_mul_G c L) in Hv by (pose proof order_u256; lia).
  apply mul_G_inj; [exact Hr | lia | exact Hv].
Qed.

Lemma verify_key : verify c q k = true.
Proof.
  unfold verify. apply (point_eqb_law c L). rewrite target_is.
  apply (scalar_mul_G c L). pose proof order_u256. lia.
Qed.

Lemma lookup_range x i :
  lookup c (baby_table c m') x = Some i ->
  0 <= i < m'
  /\ x_of c (mul_G c i) = x
  /\ forall t, 0 <= t < i -> x_of c (mul_G c t) <> x.
Proof.
  unfold lookup, baby_table. rewrite (infinity_def c L). intros H.
  pose proof (lookup_baby_steps c L x (Z.to_nat m') 0) as Hl.
  rewrite H in Hl. pose proof sizes. destruct Hl as (H1 & H2 & H3).
  split; [lia|]. split; assumption.
Qed.

(** Whatever a giant step of the search reports is the key. *)
Lemma giant_step_sound j k' :
  Z.of_nat j < J -> giant_step c q j = Some k' -> k' = k.
Proof.
  intros Hj Hs. unfold giant_step in Hs.
  apply find_some in Hs as [Hin Hv].
  apply verify_sound; [|exact Hv].
  pose proof sizes as (HN & H1 & H2 & H3 & H4 & H5 & H6).
  pose proof (order_range c L) as Ho.
  unfold candidates in Hin. fold m' in Hin. cbn [Bsgs.lo q] in Hin.
  apply in_app_or in Hin as [Hin|Hin].
  - destruct (lookup c (baby_table c m') _) as [i|] eqn:El; [|destruct Hin].
    destruct Hin as [<-|[]].
    apply lookup_range in El as (Hi & _). nia.
  - cbn [endomorphism q] in Hin. destruct endo; [|destruct Hin].
    destruct (lookup c (baby_table c m') _) as [i|]; [|destruct Hin].
    destruct Hin as [<-|[<-|[]]]; apply Z.mod_pos_bound; lia.
Qed.

(** The giant step that holds the key reports it. *)
Lemma giant_step_complete :
  giant_step c q (Z.to_nat ((k - lo0) / m')) = Some k.
Proof.
  pose proof sizes as (HN & H1 & H2 & H3 & H4 & H5 & H6).
  pose proof (order_range c L) as Ho.
  set (j := Z.to_nat ((k - lo0) / m')).
  set (r := (k - lo0) mod m').
  assert (Hr : 0 <= r < m') by (apply Z.mod_pos_bound; lia).
  assert (Hj : Z.of_nat j = (k - lo0) / m').
  { unfold j. rewrite Z2Nat.id; [reflexivity|]. apply Z.div_pos; lia. }
  assert (Hdm : k - lo0 = m' * ((k - lo0) / m') + r)
    by (apply Z.div_mod; lia).
  assert (HC : giant_point c q j = mul_G c r).
  { rewrite giant_point_is. apply mul_G_congr. rewrite Hj. lia. }
  assert (Hplain : lookup c (baby_table c m') (x_of c (giant_point c q j))
                   = Some r).
  { rewrite HC.
    destruct (lookup c (baby_table c m') (x_of c (mul_G c r))) as [i|] eqn:El.
    - apply lookup_range in El as (Hi & Hx & Hfirst).
      assert (Hir : i <= r).
      { destruct (Z.le_gt_cases i r) as [|Hgt]; [assumption|].
        exfalso. apply (Hfirst r); [lia | reflexivity]. }
      apply (x_law c L) in Hx.
      rewrite (Z.mod_small i), (Z.mod_small r) in Hx by lia.
      destruct Hx as [->|Hx]; [reflexivity|].
      destruct (Z.eq_dec r 0) as [->|Hr0].
      + rewrite Z.mod_0_l in Hx by lia. congruence.
      + exfalso.
        assert (Hneg : (- r) mod order c = order c - r).
        { symmetry. apply Z.mod_unique_pos with (q := -1); lia. }
        lia.
    - exfalso.
      unfold lookup, baby_table in El. rewrite (infinity_def c L) in El.
      pose proof (lookup_baby_steps c L (x_of c (mul_G c r))
                    (Z.to_nat m') 0) as Hl.
      rewrite El in Hl. apply (Hl r); [lia | reflexivity]. }
  unfold giant_step, candidates. fold m'. rewrite Hplain.
  cbn [Bsgs.lo q app find].
  replace (lo0 + Z.of_nat j * m' + r) with k by (rewrite Hj; lia).
  rewrite verify_key. reflexivity.
Qed.

Lemma first_hit_spec j0 : forall steps,
  (forall j, In j steps -> Z.of_nat j < J) ->
  In j0 steps -> giant_step c q j0 = Some k ->
  first_hit c q steps = Some k.
Proof.
  induction steps as [|j rest IH]; intros Hb Hin Hj0; [destruct Hin|].
  cbn [first_hit].
  destruct (giant_step c q j) as [k'|] eqn:E.
  - f_equal. apply (giant_step_sound j); [apply Hb; left; reflexivity | exact E].
  - destruct Hin as [->|Hin]; [congruence|].
    apply IH; [|exact Hin|exact Hj0]. intros j' Hj'. apply Hb. right. exact Hj'.
Qed.

(** The search returns the key. *)
Lemma bsgs_finds_key : bsgs c q = Some k.
Proof.
  pose proof sizes as (HN & H1 & H2 & H3 & H4 & H5 & H6).
  unfold bsgs.
  assert (Hsched : forall j, In j (schedule c q) <-> Z.of_nat j < J).
  { intros j. split.
    - intros Hin. apply (Permutation_in _ (schedule_perm c q)) in Hin.
      apply in_seq in Hin. fold J in Hin. lia.
    - intros Hlt.
      apply (Permutation_in _ (Permutation_sym (schedule_perm c q))).
      apply in_seq. fold J. lia. }
  apply (first_hit_spec (Z.to_nat ((k - lo0) / m'))).
  - intros j Hin. apply Hsched, Hin.
  - apply Hsched. rewrite Z2Nat.id by (apply Z.div_pos; lia).
    apply Z.div_lt_upper_bound; [lia|]. nia.
  - apply giant_step_complete.
Qed.

End SearchFacts.

Section BsgsClaim.
Import Bsgs.

Lemma toy_curve_laws : CurveLaws toy_curve.
Proof.
  assert (Hneg : forall w, 0 <= w < 13 ->
                           (- w) mod 13 = if w =? 0 then 0 else 13 - w).
  { intros w Hw. destruct (Z.eqb_spec w 0) as [->|Hne]; [reflexivity|].
    symmetry. apply Z.mod_unique_pos with (q := -1); lia. }
  constructor; cbn [order G infinity point_add point_neg point_eqb x_of
                    coord_eqb lambda lambda_inv phi mul_G toy_curve point
                    coord].
  - lia.
  - reflexivity.
  - reflexivity.
  - intros a b. symmetry. apply Zplus_mod.
  - intros a. change (- (a mod 13)) with (0 - a mod 13).
    change (- a) with (0 - a). apply Zminus_mod_idemp_r.
  - intros a b. reflexivity.
  - intros P Q. apply Z.eqb_eq.
  - intros a b.
    pose proof (Z.mod_pos_bound a 13 ltac:(lia)) as Ha.
    pose proof (Z.mod_pos_bound b 13 ltac:(lia)) as Hb.
    replace ((- b) mod 13) with ((- (b mod 13)) mod 13)
      by (change (- (b mod 13)) with (0 - b mod 13);
          change (- b) with (0 - b); apply Zminus_mod_idemp_r).
    rewrite (Hneg _ Ha), (Hneg _ Hb).
    destruct (Z.eqb_spec (a mod 13) 0), (Z.eqb_spec (b mod 13) 0); lia.
  - intros x y. apply Z.eqb_eq.
  - reflexivity.
  - intros a. apply Zmult_mod_idemp_r.
Qed.



(** The five modes, with and without the endomorphism, on that search. *)
Example bsgs_all_modes :
  forallb
    (fun md =>
       forallb
         (fun endo =>
            match bsgs toy_curve
                    (MkSearch toy_curve
                       (scalar_mul toy_curve 6 (G toy_curve))
                       1 8 3 md endo 2 2 (fun i => (7 * i + 3)%nat)) with
            | Some k => k =? 6
            | None => false
            end)
         [false; true])
    [SEQUENTIAL; BACKWARD; BOTH; RANDOM; DANCE]
  = true.
Proof. vm_compute. reflexivity. Qed.

(** The scenario S1 in small: the single key, within one sweep. *)
Example bsgs_tiny :
  bsgs toy_curve
       (MkSearch toy_curve (scalar_mul toy_curve 6 (G toy_curve))
                 1 8 3 SEQUENTIAL false 1 1 (fun i => i))
  = Some 6.
Proof. vm_compute. reflexivity. Qed.

End BsgsClaim.

(** ** [UInt256]: comparison, increment, bits *)

Section UInt256OrderFacts.
Import Mach Types UInt256Ops.

Ltac limbs_lia :=
  unfold to_Z, limb, is_u64 in *; cbn [limbs_ nth] in *;
  change (2 ^ 256) with (2 ^ 64 * (2 ^ 64 * (2 ^ 64 * 2 ^ 64))) in *;
  change (2 ^ 128) with (2 ^ 64 * 2 ^ 64) in *;
  change (2 ^ 192) with (2 ^ 64 * (2 ^ 64 * 2 ^ 64)) in *;
  rewrite ?pow64_eq in *; lia.

(** Two well-formed values standing for the same number are the same. *)
Lemma to_Z_inj x y : wf x -> wf y -> to_Z x = to_Z y -> x = y.
Proof.
  intros (a0 & a1 & a2 & a3 & -> & A0 & A1 & A2 & A3)%wf_inv
         (b0 & b1 & b2 & b3 & -> & B0 & B1 & B2 & B3)%wf_inv E.
  assert (a0 = b0 /\ a1 = b1 /\ a2 = b2 /\ a3 = b3) as (-> & -> & -> & ->)
    by limbs_lia.
  reflexivity.
Qed.

Lemma lt_to_Z x y : wf x -> wf y -> lt x y = true <-> to_Z x < to_Z y.
Proof.
  intros (a0 & a1 & a2 & a3 & -> & A0 & A1 & A2 & A3)%wf_inv
         (b0 & b1 & b2 & b3 & -> & B0 & B1 & B2 & B3)%wf_inv.
  unfold lt, NUM_LIMBS, lt_from. unfold limb at 1 2 3 4 5 6 7 8 9 10 11 12 13 14 15 16.
  cbn [limbs_ nth].
  repeat match goal with
         | |- context [Z.ltb ?u ?v] => destruct (Z.ltb_spec u v)
         end;
  (split; [intros Hlt; try discriminate Hlt | intros Hlt; try reflexivity]);
  limbs_lia.
Qed.


Lemma le_to_Z x y : wf x -> wf y -> le x y = true <-> to_Z x <= to_Z y.
Proof.
  intros Hx Hy. unfold le. rewrite negb_true_iff, <- not_true_iff_false.
  rewrite (lt_to_Z y x Hy Hx). lia.
Qed.

Lemma gt_to_Z x y : wf x -> wf y -> gt x y = true <-> to_Z y < to_Z x.
Proof. intros Hx Hy. unfold gt. apply lt_to_Z; assumption. Qed.

Lemma ge_to_Z x y : wf x -> wf y -> ge x y = true <-> to_Z y <= to_Z x.
Proof.
  intros Hx Hy. unfold ge. rewrite negb_true_iff, <- not_true_iff_false.
  rewrite (lt_to_Z x y Hx Hy). lia.
Qed.

(** X1. The four comparison operators of [UInt256] are the comparisons of the
    numbers the operands stand for. *)
Theorem uint256_compare_spec (x y : UInt256) :
  wf x -> wf y ->
  (lt x y = true <-> to_Z x < to_Z y)
  /\ (le x y = true <-> to_Z x <= to_Z y)
  /\ (gt x y = true <-> to_Z x > to_Z y)
  /\ (ge x y = true <-> to_Z x >= to_Z y).
Proof.
  intros Hx Hy.
  split; [apply lt_to_Z; assumption|].
  split; [apply le_to_Z; assumption|].
  split; [rewrite gt_to_Z by assumption; lia|].
  rewrite ge_to_Z by assumption; lia.
Qed.

Lemma uint256_compare_spec_witness :
  let x := MkUInt256 [2 ^ 64 - 1; 0; 0; 0] in
  let y := MkUInt256 [0; 1; 0; 0] in
  wf x /\ wf y
  /\ (lt x y = true <-> to_Z x < to_Z y)
  /\ (le x y = true <-> to_Z x <= to_Z y)
  /\ (gt x y = true <-> to_Z x > to_Z y)
  /\ (ge x y = true <-> to_Z x >= to_Z y).
Proof.
  intros x y.
  assert (Hx : wf x) by (apply wf_intro; unfold is_u64; lia).
  assert (Hy : wf y) by (apply wf_intro; unfold is_u64; lia).
  split; [exact Hx|]. split; [exact Hy|].
  exact (uint256_compare_spec x y Hx Hy).
Defined.

Lemma eqb_eq x y : wf x -> wf y -> eqb x y = true <-> x = y.
Proof.
  intros (a0 & a1 & a2 & a3 & -> & A0 & A1 & A2 & A3)%wf_inv
         (b0 & b1 & b2 & b3 & -> & B0 & B1 & B2 & B3)%wf_inv.
  unfold eqb, NUM_LIMBS, limb. cbn [seq forallb limbs_ nth].
  rewrite !andb_true_iff, !Z.eqb_eq. split.
  - intros (-> & -> & -> & -> & _). reflexivity.
  - intros [= -> -> -> ->]. auto.
Qed.

(** X2. [operator==] holds exactly when the operands stand for the same number,
    [operator!=] exactly when they do not. *)
Theorem uint256_eq_spec (x y : UInt256) :
  wf x -> wf y ->
  (eqb x y = true <-> to_Z x = to_Z y)
  /\ (neqb x y = true <-> to_Z x <> to_Z y)
  /\ (eqb x y = true <-> x = y).
Proof.
  intros Hx Hy.
  assert (E : eqb x y = true <-> to_Z x = to_Z y).
  { rewrite eqb_eq by assumption. split; [intros ->; reflexivity|].
    apply to_Z_inj; assumption. }
  split; [exact E|]. split; [|apply eqb_eq; assumption].
  unfold neqb. rewrite negb_true_iff, <- not_true_iff_false, E. reflexivity.
Qed.

Lemma uint256_eq_spec_witness :
  let x := MkUInt256 [5; 0; 7; 0] in
  let y := MkUInt256 [5; 0; 8; 0] in
  wf x /\ wf y
  /\ (eqb x y = true <-> to_Z x = to_Z y)
  /\ (neqb x y = true <-> to_Z x <> to_Z y)
  /\ (eqb x y = true <-> x = y).
Proof.
  intros x y.
  assert (Hx : wf x) by (apply wf_intro; unfold is_u64; lia).
  assert (Hy : wf y) by (apply wf_intro; unfold is_u64; lia).
  split; [exact Hx|]. split; [exact Hy|].
  exact (uint256_eq_spec x y Hx Hy).
Defined.

Lemma u64_succ a :
  is_u64 a ->
  (a = 2 ^ 64 - 1 /\ u64 (a + 1) = 0) \/ (a < 2 ^ 64 - 1 /\ u64 (a + 1) = a + 1).
Proof.
  unfold is_u64, u64. intros Ha.
  destruct (Z.eq_dec a (2 ^ 64 - 1)) as [->|Hne].
  - left. split; reflexivity.
  - right. split; [lia|]. apply Z.mod_small. lia.
Qed.

Lemma of_u64_wf v : wf (of_u64 v).
Proof.
  unfold of_u64, set_limb, zero, NUM_LIMBS. cbn [repeat limbs_].
  change (<[0%nat := u64 v]> [0; 0; 0; 0]) with [u64 v; 0; 0; 0].
  apply wf_intro; try (unfold is_u64; lia). apply u64_range.
Qed.

Lemma of_u64_to_Z v : to_Z (of_u64 v) = u64 v.
Proof.
  unfold of_u64, set_limb, zero, NUM_LIMBS, to_Z, limb. cbn [repeat limbs_].
  change (<[0%nat := u64 v]> [0; 0; 0; 0]) with [u64 v; 0; 0; 0].
  cbn [nth]. lia.
Qed.

Lemma incr_spec x :
  wf x -> wf (incr x) /\ to_Z (incr x) = (to_Z x + 1) mod 2 ^ 256.
Proof.
  intros (a0 & a1 & a2 & a3 & -> & A0 & A1 & A2 & A3)%wf_inv.
  unfold incr, NUM_LIMBS, incr_from, set_limb, limb. cbn [limbs_ nth].
  change (<[0%nat := ?v]> (?a :: ?l)) with (v :: l).
  cbn [limbs_ nth].
  destruct (u64_succ a0 A0) as [[-> ->]|[L0 ->]].
  2:{ destruct (Z.eqb_spec (a0 + 1) 0) as [E|_]; [unfold is_u64 in A0; lia|].
      cbn [negb]. split; [apply wf_intro; unfold is_u64 in *; lia|].
      apply Z.mod_unique_pos with (q := 0); limbs_lia. }
  cbn [Z.eqb negb].
  change (<[1%nat := ?v]> (?a :: ?b :: ?l)) with (a :: v :: l).
  cbn [limbs_ nth].
  destruct (u64_succ a1 A1) as [[-> ->]|[L1 ->]].
  2:{ destruct (Z.eqb_spec (a1 + 1) 0) as [E|_]; [unfold is_u64 in A1; lia|].
      cbn [negb]. split; [apply wf_intro; unfold is_u64 in *; lia|].
      apply Z.mod_unique_pos with (q := 0); limbs_lia. }
  cbn [Z.eqb negb].
  change (<[2%nat := ?v]> (?a :: ?b :: ?c :: ?l)) with (a :: b :: v :: l).
  cbn [limbs_ nth].
  destruct (u64_succ a2 A2) as [[-> ->]|[L2 ->]].
  2:{ destruct (Z.eqb_spec (a2 + 1) 0) as [E|_]; [unfold is_u64 in A2; lia|].
      cbn [negb]. split; [apply wf_intro; unfold is_u64 in *; lia|].
      apply Z.mod_unique_pos with (q := 0); limbs_lia. }
  cbn [Z.eqb negb].
  change (<[3%nat := ?v]> (?a :: ?b :: ?c :: ?d :: ?l))
    with (a :: b :: c :: v :: l).
  cbn [limbs_ nth].
  destruct (u64_succ a3 A3) as [[-> ->]|[L3 ->]].
  2:{ destruct (Z.eqb_spec (a3 + 1) 0) as [E|_]; [unfold is_u64 in A3; lia|].
      cbn [negb]. split; [apply wf_intro; unfold is_u64 in *; lia|].
      apply Z.mod_unique_pos with (q := 0); limbs_lia. }
  cbn [Z.eqb negb].
  split; [apply wf_intro; unfold is_u64; lia|]. reflexivity.
Qed.

(** X3. [++x] adds one modulo 2^256, carrying through the limbs that are all
    ones and wrapping the largest value to zero; it is [x + UInt256(1)]. *)
Theorem uint256_increment (x : UInt256) :
  wf x ->
  wf (incr x)
  /\ to_Z (incr x) = (to_Z x + 1) mod 2 ^ 256
  /\ incr x = add x (of_u64 1)
  /\ (to_Z x = 2 ^ 256 - 1 -> incr x = zero).
Proof.
  intros Hx. destruct (incr_spec x Hx) as [Hw Hv].
  split; [exact Hw|]. split; [exact Hv|]. split.
  - apply to_Z_inj; [exact Hw | apply add_wf; [exact Hx | apply of_u64_wf] |].
    rewrite Hv, add_to_Z, of_u64_to_Z by (try assumption; apply of_u64_wf).
    reflexivity.
  - intros Hmax. apply to_Z_inj; [exact Hw | apply wf_intro; unfold is_u64; lia |].
    rewrite Hv, Hmax. reflexivity.
Qed.

Lemma uint256_increment_witness :
  let x := MkUInt256 [2 ^ 64 - 1; 2 ^ 64 - 1; 3; 0] in
  wf x
  /\ wf (incr x)
  /\ to_Z (incr x) = (to_Z x + 1) mod 2 ^ 256
  /\ incr x = add x (of_u64 1)
  /\ (to_Z x = 2 ^ 256 - 1 -> incr x = zero).
Proof.
  intros x.
  assert (Hx : wf x) by (apply wf_intro; unfold is_u64; lia).
  split; [exact Hx|]. exact (uint256_increment x Hx).
Defined.

End UInt256OrderFacts.

Section UInt256BitFacts.
Import Mach Types UInt256Ops.

Lemma is_u64_bits a :
  0 <= a -> (forall n, 64 <= n -> Z.testbit a n = false) -> is_u64 a.
Proof.
  intros Ha Hhigh.
  assert (E : a mod 2 ^ 64 = a).
  { apply Z.bits_inj'. intros n Hn.
    destruct (Z.ltb_spec n 64).
    - apply Z.mod_pow2_bits_low. lia.
    - rewrite Z.mod_pow2_bits_high by lia. symmetry. apply Hhigh. lia. }
  unfold is_u64. rewrite <- E. apply Z.mod_pos_bound. reflexivity.
Qed.

(** The limb that holds bit [pos], and the place of the bit in it. *)
Lemma limb_of_to_Z x q :
  wf x -> 0 <= q < 4 ->
  limb x (Z.to_nat q) = (to_Z x / 2 ^ (64 * q)) mod 2 ^ 64.
Proof.
  intros (a0 & a1 & a2 & a3 & -> & A0 & A1 & A2 & A3)%wf_inv Hq.
  assert (Hc : q = 0 \/ q = 1 \/ q = 2 \/ q = 3) by lia.
  unfold to_Z, limb, is_u64 in *. cbn [limbs_ nth].
  change (2 ^ 64) with 18446744073709551616 in *.
  change (2 ^ 128) with 340282366920938463463374607431768211456.
  change (2 ^ 192)
    with 6277101735386680763835789423207666416102355444464034512896.
  destruct Hc as [-> | [-> | [-> | ->]]].
  - change (Z.to_nat 0) with 0%nat. change (2 ^ (64 * 0)) with 1.
    cbn iota. Z.div_mod_to_equations. lia.
  - change (Z.to_nat 1) with 1%nat.
    change (2 ^ (64 * 1)) with 18446744073709551616.
    cbn iota. Z.div_mod_to_equations. lia.
  - change (Z.to_nat 2) with 2%nat.
    change (2 ^ (64 * 2)) with 340282366920938463463374607431768211456.
    cbn iota. Z.div_mod_to_equations. lia.
  - change (Z.to_nat 3) with 3%nat.
    change (2 ^ (64 * 3))
      with 6277101735386680763835789423207666416102355444464034512896.
    cbn iota. Z.div_mod_to_equations. lia.
Qed.

Lemma get_bit_to_Z x pos :
  wf x -> 0 <= pos -> get_bit x pos = Z.testbit (to_Z x) pos.
Proof.
  intros Hx Hpos. unfold get_bit.
  destruct (Z.leb_spec 256 pos) as [Hhi|Hlo].
  - pose proof (to_Z_range x Hx) as Hr.
    rewrite <- (Z.mod_small (to_Z x) (2 ^ 256)) by exact Hr.
    symmetry. apply Z.mod_pow2_bits_high. lia.
  - assert (Hq : 0 <= pos / 64 < 4)
      by (split; [apply Z.div_pos; lia | apply Z.div_lt_upper_bound; lia]).
    rewrite (limb_of_to_Z x (pos / 64) Hx Hq).
    pose proof (Z.mod_pos_bound pos 64 ltac:(lia)) as Hm.
    rewrite Z.mod_pow2_bits_low by lia.
    rewrite Z.div_pow2_bits by lia.
    f_equal. pose proof (Z.div_mod pos 64 ltac:(lia)). lia.
Qed.

Lemma u64_bit b : 0 <= b < 64 -> u64 (Z.shiftl 1 b) = 2 ^ b.
Proof.
  intros Hb. unfold u64. rewrite Z.shiftl_1_l. apply Z.mod_small.
  split; [apply Z.pow_nonneg; lia | apply Z.pow_lt_mono_r; lia].
Qed.

Lemma testbit_set a b k :
  0 <= b -> 0 <= k ->
  Z.testbit (Z.lor a (2 ^ b)) k = Z.testbit a k || (k =? b).
Proof.
  intros Hb Hk. rewrite Z.lor_spec, Z.pow2_bits_eqb by lia.
  f_equal. rewrite Z.eqb_sym. reflexivity.
Qed.

Lemma testbit_clear a b k :
  0 <= b < 64 -> 0 <= k < 64 ->
  Z.testbit (Z.land a (not64 (2 ^ b))) k = Z.testbit a k && negb (k =? b).
Proof.
  intros Hb Hk. unfold not64, u64.
  rewrite Z.land_spec, Z.mod_pow2_bits_low, Z.lnot_spec, Z.pow2_bits_eqb by lia.
  rewrite (Z.eqb_sym b k). reflexivity.
Qed.

Lemma set_is_u64 a b : is_u64 a -> 0 <= b < 64 -> is_u64 (Z.lor a (2 ^ b)).
Proof.
  intros Ha Hb. apply is_u64_bits.
  - apply Z.lor_nonneg. split; [apply Ha | apply Z.pow_nonneg; lia].
  - intros n Hn. rewrite testbit_set by lia.
    rewrite (testbit_u64_high a n Ha Hn).
    destruct (Z.eqb_spec n b); [lia|reflexivity].
Qed.

Lemma clear_is_u64 a m : is_u64 a -> is_u64 (Z.land a m).
Proof.
  intros Ha. apply is_u64_bits.
  - apply Z.land_nonneg. left. apply Ha.
  - intros n Hn. rewrite Z.land_spec, (testbit_u64_high a n Ha Hn).
    reflexivity.
Qed.

Lemma set_limb_wf x i v : wf x -> is_u64 v -> wf (set_limb x i v).
Proof.
  intros [Hl Hf] Hv. split.
  - cbn [set_limb limbs_]. rewrite length_insert. exact Hl.
  - cbn [set_limb limbs_]. apply Forall_insert; assumption.
Qed.

Lemma limb_wf x i : wf x -> is_u64 (limb x i).
Proof.
  intros [Hl Hf]. unfold limb.
  destruct (Nat.lt_ge_cases i (length (limbs_ x))) as [Hi|Hi].
  - rewrite Forall_forall in Hf. apply Hf. rewrite list_elem_of_In.
    apply nth_In. exact Hi.
  - rewrite nth_overflow by exact Hi. unfold is_u64. lia.
Qed.

Lemma limb_set_limb x i j v :
  (i < length (limbs_ x))%nat ->
  limb (set_limb x i v) j = if Nat.eqb j i then v else limb x j.
Proof.
  intros Hi. unfold limb, set_limb. cbn [limbs_].
  destruct (Nat.eqb_spec j i) as [->|Hne].
  - apply nth_lookup_Some with (d := 0). apply list_lookup_insert_eq. exact Hi.
  - rewrite !(nth_lookup _ _ 0).
    rewrite list_lookup_insert_ne by congruence. reflexivity.
Qed.

Lemma set_bit_wf x pos value : wf x -> 0 <= pos -> wf (set_bit x pos value).
Proof.
  intros Hx Hpos. unfold set_bit.
  destruct (Z.leb_spec 256 pos) as [Hhi|Hlo]; [exact Hx|].
  pose proof (Z.mod_pos_bound pos 64 ltac:(lia)) as Hm.
  rewrite u64_bit by lia.
  destruct value; apply set_limb_wf; try exact Hx.
  - apply set_is_u64; [apply limb_wf; exact Hx | lia].
  - apply clear_is_u64. apply limb_wf. exact Hx.
Qed.

Lemma get_set_bit x pos value q :
  wf x -> 0 <= pos -> 0 <= q ->
  get_bit (set_bit x pos value) q
  = if (pos <? 256) && (q =? pos) then value else get_bit x q.
Proof.
  intros Hx Hpos Hq. unfold set_bit.
  destruct (Z.leb_spec 256 pos) as [Hhi|Hlo].
  { destruct (Z.ltb_spec pos 256); [lia|]. reflexivity. }
  destruct (Z.ltb_spec pos 256); [|lia]. cbn [andb].
  pose proof (Z.mod_pos_bound pos 64 ltac:(lia)) as Hm.
  rewrite u64_bit by lia.
  assert (Hidx : (Z.to_nat (pos / 64) < length (limbs_ x))%nat).
  { destruct Hx as [-> _]. unfold NUM_LIMBS.
    assert (pos / 64 < 4) by (apply Z.div_lt_upper_bound; lia).
    assert (0 <= pos / 64) by (apply Z.div_pos; lia). lia. }
  unfold get_bit.
  destruct (Z.leb_spec 256 q) as [Hqhi|Hqlo].
  { destruct (Z.eqb_spec q pos); [lia|]. destruct value; reflexivity. }
  pose proof (Z.mod_pos_bound q 64 ltac:(lia)) as Hqm.
  assert (0 <= pos / 64) by (apply Z.div_pos; lia).
  assert (0 <= q / 64) by (apply Z.div_pos; lia).
  pose proof (Z.div_mod pos 64 ltac:(lia)) as Dp.
  pose proof (Z.div_mod q 64 ltac:(lia)) as Dq.
  destruct value; rewrite limb_set_limb by exact Hidx;
    (destruct (Nat.eqb_spec (Z.to_nat (q / 64)) (Z.to_nat (pos / 64))) as [E|E];
     [ apply Z2Nat.inj in E; [|lia|lia]; rewrite <- E
     | destruct (Z.eqb_spec q pos) as [->|_]; [congruence|reflexivity] ]).
  - rewrite testbit_set by lia.
    destruct (Z.eqb_spec (q mod 64) (pos mod 64)) as [E2|E2];
      destruct (Z.eqb_spec q pos) as [E3|E3]; try lia;
      rewrite ?orb_true_r, ?orb_false_r; reflexivity.
  - rewrite testbit_clear by lia.
    destruct (Z.eqb_spec (q mod 64) (pos mod 64)) as [E2|E2];
      destruct (Z.eqb_spec q pos) as [E3|E3]; try lia;
      rewrite ?andb_true_r, ?andb_false_r; reflexivity.
Qed.

(** X4. [get_bit] reads the binary digits of the number; [set_bit] writes one
    digit and leaves the others; positions from 256 on read as 0 and are
    not written. *)
Theorem uint256_bits (x : UInt256) (pos q : Z) (value : bool) :
  wf x -> 0 <= pos -> 0 <= q ->
  get_bit x q = Z.testbit (to_Z x) q
  /\ wf (set_bit x pos value)
  /\ get_bit (set_bit x pos value) q
     = (if (pos <? 256) && (q =? pos) then value else get_bit x q)
  /\ (256 <= pos -> set_bit x pos value = x /\ get_bit x pos = false)
  /\ (pos < 256 ->
      to_Z (set_bit x pos value)
      = if value then Z.lor (to_Z x) (2 ^ pos)
        else Z.ldiff (to_Z x) (2 ^ pos)).
Proof.
  intros Hx Hpos Hq.
  split; [apply get_bit_to_Z; assumption|].
  split; [apply set_bit_wf; assumption|].
  split; [apply get_set_bit; assumption|].
  split.
  - intros Hhi. unfold set_bit, get_bit.
    destruct (Z.leb_spec 256 pos); [split; reflexivity | lia].
  - intros Hlo. apply Z.bits_inj'. intros n Hn.
    rewrite <- get_bit_to_Z by (try apply set_bit_wf; assumption).
    rewrite get_set_bit by assumption.
    destruct (Z.ltb_spec pos 256); [|lia]. cbn [andb].
    rewrite (get_bit_to_Z x n Hx Hn).
    destruct value.
    + rewrite testbit_set by lia.
      destruct (Z.eqb_spec n pos); [rewrite orb_true_r | rewrite orb_false_r];
        reflexivity.
    + rewrite Z.ldiff_spec, Z.pow2_bits_eqb, (Z.eqb_sym pos n) by lia.
      destruct (Z.eqb_spec n pos);
        [rewrite andb_false_r | rewrite andb_true_r]; reflexivity.
Qed.

Lemma uint256_bits_witness :
  let x := MkUInt256 [5; 0; 2 ^ 63; 0] in
  wf x
  /\ get_bit x 191 = Z.testbit (to_Z x) 191
  /\ wf (set_bit x 191 false)
  /\ get_bit (set_bit x 191 false) 191
     = (if (191 <? 256) && (191 =? 191) then false else get_bit x 191)
  /\ (256 <= 191 -> set_bit x 191 false = x /\ get_bit x 191 = false)
  /\ (191 < 256 ->
      to_Z (set_bit x 191 false) = Z.ldiff (to_Z x) (2 ^ 191)).
Proof.
  intros x.
  assert (Hx : wf x) by (apply wf_intro; unfold is_u64; lia).
  split; [exact Hx|].
  exact (uint256_bits x 191 191 false Hx ltac:(lia) ltac:(lia)).
Defined.

(** [set_bit] with the default [value = true] is the function the range
    constructor uses. *)
Lemma set_bit_default x pos : set_bit x pos true = Types.set_bit x pos.
Proof. reflexivity. Qed.

End UInt256BitFacts.

Section UInt256HighestBit.
Import Mach Types UInt256Ops.

Lemma testbit_top v k :
  0 <= k -> 0 <= v < 2 ^ (k + 1) ->
  (Z.testbit v k = true /\ 2 ^ k <= v) \/ (Z.testbit v k = false /\ v < 2 ^ k).
Proof.
  intros Hk Hv.
  pose proof (Z.testbit_spec' v k Hk) as Hs.
  rewrite Z.pow_add_r in Hv by lia. change (2 ^ 1) with 2 in Hv.
  assert (Hp : 0 < 2 ^ k) by (apply Z.pow_pos_nonneg; lia).
  assert (Hd : 0 <= v / 2 ^ k < 2).
  { split; [apply Z.div_pos; lia | apply Z.div_lt_upper_bound; lia]. }
  pose proof (Z.div_mod v (2 ^ k) ltac:(lia)) as Dv.
  pose proof (Z.mod_pos_bound v (2 ^ k) Hp) as Mv.
  destruct (Z.testbit v k); cbn [Z.b2z] in Hs.
  - left. split; [reflexivity|].
    assert (v / 2 ^ k = 1) by (rewrite Z.mod_small in Hs by lia; lia). nia.
  - right. split; [reflexivity|].
    assert (v / 2 ^ k = 0) by (rewrite Z.mod_small in Hs by lia; lia). nia.
Qed.

Lemma clz_from_spec n v :
  0 < v < 2 ^ Z.of_nat n -> clz_from n v = Some (63 - Z.log2 v).
Proof.
  induction n as [|k IH]; intros Hv.
  - change (2 ^ Z.of_nat 0) with 1 in Hv. lia.
  - cbn [clz_from].
    replace (Z.of_nat (S k)) with (Z.of_nat k + 1) in Hv by lia.
    destruct (testbit_top v (Z.of_nat k) ltac:(lia) ltac:(lia))
      as [[-> Hge]|[-> Hlt]].
    + do 2 f_equal. symmetry. apply Z.log2_unique; [lia|]. lia.
    + apply IH. lia.
Qed.

Lemma clzll_spec v : is_u64 v -> v <> 0 -> clzll v = Some (63 - Z.log2 v).
Proof.
  unfold is_u64. intros Hv Hne. apply clz_from_spec.
  change (Z.of_nat 64) with 64. lia.
Qed.

Lemma log2_shift low v k :
  0 <= k -> 0 <= low < 2 ^ k -> 0 < v ->
  Z.log2 (low + 2 ^ k * v) = k + Z.log2 v.
Proof.
  intros Hk Hlow Hv.
  pose proof (Z.log2_spec v Hv) as Hs.
  pose proof (Z.log2_nonneg v) as Hl.
  apply Z.log2_unique; [lia|].
  replace (Z.succ (k + Z.log2 v)) with (k + Z.succ (Z.log2 v)) by lia.
  rewrite !Z.pow_add_r by lia.
  set (p := 2 ^ Z.log2 v) in *. set (p' := 2 ^ Z.succ (Z.log2 v)) in *.
  set (b := 2 ^ k) in *.
  assert (b * p <= b * v) by (apply Z.mul_le_mono_nonneg_l; lia).
  assert (b * (v + 1) <= b * p') by (apply Z.mul_le_mono_nonneg_l; lia).
  lia.
Qed.

Lemma highest_bit_spec x :
  wf x ->
  highest_bit x = Some (if to_Z x =? 0 then -1 else Z.log2 (to_Z x)).
Proof.
  intros (a0 & a1 & a2 & a3 & -> & A0 & A1 & A2 & A3)%wf_inv.
  unfold highest_bit, NUM_LIMBS, highest_bit_from, limb. cbn [limbs_ nth].
  assert (P0 : 0 <= a0) by apply A0. assert (P1 : 0 <= a1) by apply A1.
  assert (P2 : 0 <= a2) by apply A2. assert (P3 : 0 <= a3) by apply A3.
  assert (R0 : a0 < 2 ^ 64) by apply A0. assert (R1 : a1 < 2 ^ 64) by apply A1.
  assert (R2 : a2 < 2 ^ 64) by apply A2.
  destruct (Z.eqb_spec a3 0) as [->|N3]; cbn [negb].
  2:{ rewrite clzll_spec by assumption. f_equal.
      transitivity (192 + Z.log2 a3); [change (Z.of_nat 3) with 3; lia|].
      rewrite <- (log2_shift (a0 + 2 ^ 64 * a1 + 2 ^ 128 * a2) a3 192)
        by (try lia; change (2 ^ 128) with (2 ^ 64 * 2 ^ 64);
            change (2 ^ 192) with (2 ^ 64 * (2 ^ 64 * 2 ^ 64));
            rewrite ?pow64_eq in *; lia).
      unfold to_Z, limb. cbn [limbs_ nth].
      destruct (Z.eqb_spec (a0 + 2 ^ 64 * a1 + 2 ^ 128 * a2 + 2 ^ 192 * a3) 0);
        [lia | reflexivity]. }
  destruct (Z.eqb_spec a2 0) as [->|N2]; cbn [negb].
  2:{ rewrite clzll_spec by assumption. f_equal.
      transitivity (128 + Z.log2 a2); [change (Z.of_nat 2) with 2; lia|].
      rewrite <- (log2_shift (a0 + 2 ^ 64 * a1) a2 128)
        by (try lia; change (2 ^ 128) with (2 ^ 64 * 2 ^ 64);
            rewrite ?pow64_eq in *; lia).
      unfold to_Z, limb. cbn [limbs_ nth]. rewrite Z.mul_0_r, Z.add_0_r.
      destruct (Z.eqb_spec (a0 + 2 ^ 64 * a1 + 2 ^ 128 * a2) 0);
        [lia | reflexivity]. }
  destruct (Z.eqb_spec a1 0) as [->|N1]; cbn [negb].
  2:{ rewrite clzll_spec by assumption. f_equal.
      transitivity (64 + Z.log2 a1); [change (Z.of_nat 1) with 1; lia|].
      rewrite <- (log2_shift a0 a1 64) by lia.
      unfold to_Z, limb. cbn [limbs_ nth]. rewrite !Z.mul_0_r, !Z.add_0_r.
      destruct (Z.eqb_spec (a0 + 2 ^ 64 * a1) 0); [lia | reflexivity]. }
  unfold to_Z, limb. cbn [limbs_ nth]. rewrite !Z.mul_0_r, !Z.add_0_r.
  destruct (Z.eqb_spec a0 0) as [->|N0]; cbn [negb]; [reflexivity|].
  rewrite clzll_spec by assumption. f_equal.
  change (Z.of_nat 0) with 0. lia.
Qed.

Lemma is_zero_to_Z x : wf x -> is_zero x = true <-> to_Z x = 0.
Proof.
  intros (a0 & a1 & a2 & a3 & -> & A0 & A1 & A2 & A3)%wf_inv.
  unfold is_zero, limb. cbn [limbs_ nth].
  rewrite !andb_true_iff, !Z.eqb_eq.
  unfold to_Z, limb, is_u64 in *. cbn [limbs_ nth].
  change (2 ^ 128) with (2 ^ 64 * 2 ^ 64).
  change (2 ^ 192) with (2 ^ 64 * (2 ^ 64 * 2 ^ 64)).
  rewrite pow64_eq in *. lia.
Qed.

(** X5. [highest_bit] returns -1 on zero, which is when [is_zero] holds, and
    otherwise the position [h] of the top binary digit:
    2^h <= x < 2^(h+1). The call of [__builtin_clzll] is always on a limb
    that is not zero. *)
Theorem uint256_highest_bit (x : UInt256) :
  wf x ->
  exists h,
    highest_bit x = Some h
    /\ (is_zero x = true <-> h = -1)
    /\ (is_zero x = true <-> to_Z x = 0)
    /\ (is_zero x = false ->
        0 <= h < 256 /\ 2 ^ h <= to_Z x < 2 ^ (h + 1)
        /\ get_bit x h = true
        /\ forall q, h < q -> get_bit x q = false).
Proof.
  intros Hx. pose proof (to_Z_range x Hx) as Hr.
  pose proof (is_zero_to_Z x Hx) as Hz.
  eexists. split; [apply highest_bit_spec; exact Hx|].
  destruct (Z.eqb_spec (to_Z x) 0) as [E|E].
  - split; [tauto|]. split; [exact Hz|].
    intros Hf. apply Hz in E. congruence.
  - pose proof (Z.log2_nonneg (to_Z x)) as Hl.
    pose proof (Z.log2_spec (to_Z x) ltac:(lia)) as Hs.
    assert (Hh : Z.log2 (to_Z x) < 256).
    { apply Z.log2_lt_pow2; lia. }
    split; [split; [intros Ht; apply Hz in Ht; contradiction | lia]|].
    split; [exact Hz|]. intros _.
    split; [lia|]. split; [rewrite <- Z.add_1_r in Hs; exact Hs|]. split.
    + rewrite get_bit_to_Z by assumption. apply Z.bit_log2. lia.
    + intros q Hq. rewrite get_bit_to_Z by (try assumption; lia).
      apply Z.bits_above_log2; lia.
Qed.

Lemma uint256_highest_bit_witness :
  let x := MkUInt256 [0; 2 ^ 64 - 1; 1; 0] in
  wf x /\
  exists h,
    highest_bit x = Some h
    /\ (is_zero x = true <-> h = -1)
    /\ (is_zero x = true <-> to_Z x = 0)
    /\ (is_zero x = false ->
        0 <= h < 256 /\ 2 ^ h <= to_Z x < 2 ^ (h + 1)
        /\ get_bit x h = true
        /\ forall q, h < q -> get_bit x q = false).
Proof.
  intros x.
  assert (Hx : wf x) by (apply wf_intro; unfold is_u64; lia).
  split; [exact Hx|]. exact (uint256_highest_bit x Hx).
Defined.

(** The test [UInt256.HighestBit] of [tests/test_types.cpp]. *)
Example highest_bit_test :
  highest_bit (of_u64 1) = Some 0
  /\ highest_bit (of_u64 256) = Some 8
  /\ highest_bit (of_u64 18446744073709551615) = Some 63.
Proof. repeat split; reflexivity. Qed.

End UInt256HighestBit.

(** ** [KeyRange]: size and membership *)

Section KeyRangeMoreFacts.
Import Mach Exn Types UInt256Ops.

Lemma size_wf r : wf (start r) -> wf (end_ r) -> wf (size r).
Proof.
  intros Hs He. unfold size. destruct (gt (start r) (end_ r)).
  - apply of_u64_wf.
  - apply add_wf; [apply sub_wf; assumption | apply of_u64_wf].
Qed.

Lemma size_to_Z r :
  wf (start r) -> wf (end_ r) ->
  to_Z (size r)
  = if to_Z (end_ r) <? to_Z (start r) then 0
    else (to_Z (end_ r) - to_Z (start r) + 1) mod 2 ^ 256.
Proof.
  intros Hs He. unfold size.
  pose proof (gt_to_Z (start r) (end_ r) Hs He) as Hgt.
  destruct (gt (start r) (end_ r)).
  - destruct (Z.ltb_spec (to_Z (end_ r)) (to_Z (start r))) as [_|Hge].
    + rewrite of_u64_to_Z. reflexivity.
    + pose proof (proj1 Hgt eq_refl). lia.
  - destruct (Z.ltb_spec (to_Z (end_ r)) (to_Z (start r))) as [Hlt|_].
    + apply Hgt in Hlt. discriminate Hlt.
    + rewrite add_to_Z by (try apply sub_wf; try apply of_u64_wf; assumption).
      rewrite sub_to_Z, of_u64_to_Z by assumption.
      change (u64 1) with 1. rewrite Zplus_mod_idemp_l. reflexivity.
Qed.

(** X6. [size()] is the number of keys of the range, counted modulo 2^256: an
    inverted range has size zero, and so has the range of all 2^256 keys. *)
Theorem keyrange_size_spec (r : KeyRange) :
  wf (start r) -> wf (end_ r) ->
  wf (size r)
  /\ (to_Z (end_ r) < to_Z (start r) -> to_Z (size r) = 0)
  /\ (to_Z (start r) <= to_Z (end_ r) ->
      to_Z (end_ r) - to_Z (start r) < 2 ^ 256 - 1 ->
      to_Z (size r) = to_Z (end_ r) - to_Z (start r) + 1)
  /\ (to_Z (size r) = 0 <->
      to_Z (end_ r) < to_Z (start r)
      \/ (to_Z (start r) = 0 /\ to_Z (end_ r) = 2 ^ 256 - 1)).
Proof.
  intros Hs He.
  pose proof (to_Z_range _ Hs) as Rs. pose proof (to_Z_range _ He) as Re.
  pose proof (size_to_Z r Hs He) as Hv.
  split; [apply size_wf; assumption|].
  destruct (Z.ltb_spec (to_Z (end_ r)) (to_Z (start r))) as [Hlt|Hge].
  - split; [intros _; exact Hv|]. split; [lia|]. split; [auto | intros _; exact Hv].
  - split; [lia|].
    destruct (Z.eq_dec (to_Z (end_ r) - to_Z (start r)) (2 ^ 256 - 1)) as [E|E].
    + split; [lia|]. rewrite Hv.
      replace (to_Z (end_ r) - to_Z (start r) + 1) with (2 ^ 256) by lia.
      rewrite Z.mod_same by lia. split; [intros _; right; lia | reflexivity].
    + rewrite Z.mod_small in Hv by lia.
      split; [intros _ _; exact Hv|]. rewrite Hv. split; lia.
Qed.

Lemma keyrange_size_spec_witness :
  let r := MkKeyRange zero (MkUInt256 [2 ^ 64 - 1; 2 ^ 64 - 1; 2 ^ 64 - 1; 2 ^ 64 - 1]) in
  wf (start r) /\ wf (end_ r)
  /\ wf (size r)
  /\ (to_Z (end_ r) < to_Z (start r) -> to_Z (size r) = 0)
  /\ (to_Z (start r) <= to_Z (end_ r) ->
      to_Z (end_ r) - to_Z (start r) < 2 ^ 256 - 1 ->
      to_Z (size r) = to_Z (end_ r) - to_Z (start r) + 1)
  /\ (to_Z (size r) = 0 <->
      to_Z (end_ r) < to_Z (start r)
      \/ (to_Z (start r) = 0 /\ to_Z (end_ r) = 2 ^ 256 - 1)).
Proof.
  intros r.
  assert (Hs : wf (start r)) by (apply wf_intro; unfold is_u64; lia).
  assert (He : wf (end_ r)) by (apply wf_intro; unfold is_u64; lia).
  split; [exact Hs|]. split; [exact He|].
  exact (keyrange_size_spec r Hs He).
Defined.

Lemma contains_to_Z r key :
  wf (start r) -> wf (end_ r) -> wf key ->
  contains r key = true <-> to_Z (start r) <= to_Z key <= to_Z (end_ r).
Proof.
  intros Hs He Hk. unfold contains.
  rewrite andb_true_iff, ge_to_Z, le_to_Z by assumption. reflexivity.
Qed.

(** What [for_bits] returns on a bit count from 1 to 256. *)
Lemma for_bits_range n :
  1 <= n <= 256 ->
  exists r, for_bits n = Returns r
            /\ wf (start r) /\ wf (end_ r)
            /\ to_Z (start r) = 2 ^ (n - 1)
            /\ to_Z (end_ r) = 2 ^ n - 1.
Proof.
  intros Hn.
  pose proof for_bits_table as Htab. rewrite forallb_forall in Htab.
  specialize (Htab (Z.to_nat n)).
  rewrite Z2Nat.id in Htab by lia.
  assert (Hin : In (Z.to_nat n) (seq 1 256)) by (apply in_seq; lia).
  specialize (Htab Hin). unfold for_bits_returns_bits in Htab.
  destruct (for_bits n) as [r|e]; [|discriminate Htab].
  apply andb_true_iff in Htab as [Htab He].
  apply andb_true_iff in Htab as [Htab Hs].
  apply andb_true_iff in Htab as [W1 W2].
  exists r. split; [reflexivity|].
  split; [apply wf_b_spec, W1|]. split; [apply wf_b_spec, W2|].
  split; [apply Z.eqb_eq, Hs | apply Z.eqb_eq, He].
Qed.

(** X7. [contains] is membership in the closed interval from [start] to [end];
    the range [for_bits n] contains exactly the keys whose top binary digit
    is digit [n - 1]. *)
Theorem keyrange_contains_spec (r : KeyRange) (key : UInt256) :
  wf (start r) -> wf (end_ r) -> wf key ->
  (contains r key = true <-> to_Z (start r) <= to_Z key <= to_Z (end_ r))
  /\ forall n, 1 <= n <= 256 ->
       exists rn, for_bits n = Returns rn
         /\ (contains rn key = true <-> highest_bit key = Some (n - 1)).
Proof.
  intros Hs He Hk. split; [apply contains_to_Z; assumption|].
  intros n Hn.
  destruct (for_bits_range n Hn) as (rn & Hr & Ws & We & Vs & Ve).
  exists rn. split; [exact Hr|].
  rewrite contains_to_Z, Vs, Ve, highest_bit_spec by assumption.
  pose proof (to_Z_range key Hk) as Rk.
  assert (Hp : 0 < 2 ^ (n - 1)) by (apply Z.pow_pos_nonneg; lia).
  assert (Hp2 : 2 ^ n = 2 * 2 ^ (n - 1)).
  { replace n with (n - 1 + 1) at 1 by lia. rewrite Z.pow_add_r by lia. lia. }
  destruct (Z.eqb_spec (to_Z key) 0) as [E|E].
  - split; [lia | intros [= H]; lia].
  - pose proof (Z.log2_spec (to_Z key) ltac:(lia)) as Hl.
    split.
    + intros Hin. f_equal. apply Z.log2_unique; [lia|].
      replace (Z.succ (n - 1)) with n by lia. lia.
    + intros [= H]. rewrite H in Hl.
      replace (Z.succ (n - 1)) with n in Hl by lia. lia.
Qed.

Lemma keyrange_contains_spec_witness :
  let r := MkKeyRange (of_u64 128) (of_u64 255) in
  let key := of_u64 200 in
  wf (start r) /\ wf (end_ r) /\ wf key
  /\ (contains r key = true <-> to_Z (start r) <= to_Z key <= to_Z (end_ r))
  /\ forall n, 1 <= n <= 256 ->
       exists rn, for_bits n = Returns rn
         /\ (contains rn key = true <-> highest_bit key = Some (n - 1)).
Proof.
  intros r key.
  assert (Hs : wf (start r)) by apply of_u64_wf.
  assert (He : wf (end_ r)) by apply of_u64_wf.
  assert (Hk : wf key) by apply of_u64_wf.
  split; [exact Hs|]. split; [exact He|]. split; [exact Hk|].
  exact (keyrange_contains_spec r key Hs He Hk).
Defined.

End KeyRangeMoreFacts.

(** ** Hexadecimal text of [UInt256] *)

Section HexFacts.
Import Stdlib.Strings.Ascii Mach Types Hex.

Lemma hex_char_to_int_range c : -1 <= hex_char_to_int c < 16.
Proof.
  unfold hex_char_to_int. set (n := Z.of_N (N_of_ascii c)).
  repeat match goal with
         | |- context [Z.leb ?u ?v] => destruct (Z.leb_spec u v)
         end; cbn [andb]; lia.
Qed.

Lemma hex_digit_value d : 0 <= d < 16 -> hex_char_to_int (hex_digit d) = d.
Proof.
  intros Hd.
  assert (H : d = 0 \/ d = 1 \/ d = 2 \/ d = 3 \/ d = 4 \/ d = 5 \/ d = 6
              \/ d = 7 \/ d = 8 \/ d = 9 \/ d = 10 \/ d = 11 \/ d = 12
              \/ d = 13 \/ d = 14 \/ d = 15) by lia.
  repeat (destruct H as [-> | H]; [reflexivity|]). subst d. reflexivity.
Qed.

Lemma hex_digit_zero d : 0 <= d < 16 -> Ascii.eqb (hex_digit d) "0" = (d =? 0).
Proof.
  intros Hd.
  assert (H : d = 0 \/ d = 1 \/ d = 2 \/ d = 3 \/ d = 4 \/ d = 5 \/ d = 6
              \/ d = 7 \/ d = 8 \/ d = 9 \/ d = 10 \/ d = 11 \/ d = 12
              \/ d = 13 \/ d = 14 \/ d = 15) by lia.
  repeat (destruct H as [-> | H]; [reflexivity|]). subst d. reflexivity.
Qed.

Lemma hex_value_from_app a s t :
  hex_value_from a (s ++ t) = hex_value_from (hex_value_from a s) t.
Proof. unfold hex_value_from. apply fold_left_app. Qed.

Lemma hex_value_from_shift a s :
  hex_value_from a s = a * 16 ^ Z.of_nat (length s) + hex_value s.
Proof.
  unfold hex_value. revert a. induction s as [|c s IH] using rev_ind; intros a.
  - cbn. lia.
  - rewrite !hex_value_from_app, length_app. cbn [length hex_value_from fold_left].
    rewrite (IH a).
    replace (Z.of_nat (length s + 1)) with (Z.of_nat (length s) + 1) by lia.
    rewrite Z.pow_add_r by lia. lia.
Qed.

Lemma hex_value_app s t :
  hex_value (s ++ t) = hex_value s * 16 ^ Z.of_nat (length t) + hex_value t.
Proof.
  unfold hex_value at 1. rewrite hex_value_from_app.
  rewrite hex_value_from_shift. reflexivity.
Qed.

Lemma hex_value_range s :
  Forall is_hex s -> 0 <= hex_value s < 16 ^ Z.of_nat (length s).
Proof.
  induction s as [|c s IH] using rev_ind; intros Hs.
  - cbn. lia.
  - apply Forall_app in Hs as [Hs Hc]. specialize (IH Hs).
    apply Forall_cons in Hc as [Hc _]. unfold is_hex in Hc.
    pose proof (hex_char_to_int_range c).
    rewrite hex_value_app, length_app. cbn [length].
    replace (Z.of_nat (length s + 1)) with (Z.of_nat (length s) + 1) by lia.
    rewrite Z.pow_add_r by lia.
    change (hex_value [c]) with (0 * 16 + hex_char_to_int c).
    change (16 ^ Z.of_nat 1) with 16. lia.
Qed.

Lemma hex_value_zeros n : hex_value (repeat "0"%char n) = 0.
Proof.
  induction n as [|n IH]; [reflexivity|].
  change (repeat "0"%char (S n)) with (["0"%char] ++ repeat "0"%char n).
  rewrite hex_value_app, IH. reflexivity.
Qed.

Lemma is_hex_zeros n : Forall is_hex (repeat "0"%char n).
Proof.
  apply Forall_forall. intros c Hc. rewrite list_elem_of_In in Hc.
  apply repeat_spec in Hc. subst c. unfold is_hex.
  change (hex_char_to_int "0") with 0. lia.
Qed.

Lemma lor_digit a d :
  0 <= a -> 0 <= d < 16 -> Z.lor (Z.shiftl a 4) d = a * 16 + d.
Proof.
  intros Ha Hd. rewrite Z.shiftl_mul_pow2 by lia. change (2 ^ 4) with 16.
  rewrite <- Z.lxor_lor, <- Z.add_nocarry_lxor; try reflexivity.
  all: apply Z.bits_inj'; intros n Hn; rewrite Z.land_spec, Z.bits_0;
    destruct (Z.ltb_spec n 4).
  all: try (replace (a * 16) with (a * 2 ^ 4) by reflexivity;
            rewrite Z.mul_pow2_bits_low by lia; reflexivity).
  all: replace d with (d mod 2 ^ 4) by (apply Z.mod_small; change (2 ^ 4) with 16; lia);
       rewrite Z.mod_pow2_bits_high by lia; apply andb_false_r.
Qed.

Lemma parse_chunk_step c rest a :
  0 <= a -> a * 16 + 15 < 2 ^ 64 -> is_hex c ->
  parse_chunk (c :: rest) a = parse_chunk rest (a * 16 + hex_char_to_int c).
Proof.
  intros Ha Hb Hc. unfold is_hex in Hc. pose proof (hex_char_to_int_range c).
  cbn [parse_chunk]. destruct (Z.ltb_spec (hex_char_to_int c) 0); [lia|].
  f_equal. unfold u64. rewrite Z.mod_small.
  - apply lor_digit; lia.
  - rewrite Z.shiftl_mul_pow2 by lia. change (2 ^ 4) with 16. lia.
Qed.

Lemma hex_value_from_mono a s : Forall is_hex s -> 0 <= a -> a <= hex_value_from a s.
Proof.
  intros Hs Ha. rewrite hex_value_from_shift.
  pose proof (hex_value_range s Hs).
  assert (1 <= 16 ^ Z.of_nat (length s)) by (apply Z.pow_le_mono_r with (b := 0) (c := Z.of_nat (length s)) (a := 16); lia).
  nia.
Qed.

Lemma parse_chunk_valid s a :
  Forall is_hex s -> 0 <= a -> hex_value_from a s < 2 ^ 64 ->
  parse_chunk s a = Some (hex_value_from a s).
Proof.
  revert a. induction s as [|c s IH]; intros a Hs Ha Hb; [reflexivity|].
  apply Forall_cons in Hs as [Hc Hs].
  assert (Hc' := Hc). unfold is_hex in Hc'.
  change (hex_value_from a (c :: s))
    with (hex_value_from (a * 16 + hex_char_to_int c) s) in *.
  pose proof (hex_value_from_mono (a * 16 + hex_char_to_int c) s Hs
                ltac:(lia)) as Hm.
  destruct (Z.eq_dec a 0) as [->|Hne].
  - rewrite parse_chunk_step by (try assumption; lia).
    apply IH; [assumption | lia | assumption].
  - rewrite parse_chunk_step; [apply IH; try assumption; lia | lia | | assumption].
    destruct s as [|c' s'].
    + cbn in Hb, Hm. pose proof (hex_char_to_int_range c). 
      (* the last digit: a * 16 + digit < 2^64 gives a * 16 + 15 < 2^64 *)
      assert (a * 16 + hex_char_to_int c < 2 ^ 64) by lia.
      change (2 ^ 64) with (1152921504606846976 * 16) in *. lia.
    + apply Forall_cons in Hs as [Hc2 Hs']. unfold is_hex in Hc2.
      pose proof (hex_value_from_mono
                    ((a * 16 + hex_char_to_int c) * 16 + hex_char_to_int c') s' Hs'
                    ltac:(lia)) as Hm2.
      change (hex_value_from (a * 16 + hex_char_to_int c) (c' :: s'))
        with (hex_value_from ((a * 16 + hex_char_to_int c) * 16
                              + hex_char_to_int c') s') in Hb.
      lia.
Qed.

Lemma parse_chunk_invalid s a :
  ~ Forall is_hex s -> parse_chunk s a = None.
Proof.
  revert a. induction s as [|c s IH]; intros a Hs.
  - exfalso. apply Hs. constructor.
  - cbn [parse_chunk]. destruct (Z.ltb_spec (hex_char_to_int c) 0) as [|Hc];
      [reflexivity|].
    apply IH. intros Hs'. apply Hs. constructor; assumption.
Qed.

End HexFacts.

Section UInt256HexFacts.
Import Stdlib.Strings.Ascii Mach Types Hex.

Lemma parse_chunk_some s a v : parse_chunk s a = Some v -> Forall is_hex s.
Proof.
  revert a. induction s as [|c s IH]; intros a H; [constructor|].
  cbn [parse_chunk] in H.
  destruct (Z.ltb_spec (hex_char_to_int c) 0) as [|Hc]; [discriminate H|].
  constructor; [exact Hc | eapply IH; exact H].
Qed.

Lemma parse_chunk_16 s :
  length s = 16%nat -> Forall is_hex s ->
  parse_chunk s 0 = Some (hex_value s) /\ is_u64 (hex_value s).
Proof.
  intros Hl Hs. pose proof (hex_value_range s Hs) as Hr.
  rewrite Hl in Hr. change (16 ^ Z.of_nat 16) with (2 ^ 64) in Hr.
  split; [|exact Hr].
  apply parse_chunk_valid; [assumption | lia | apply Hr].
Qed.

Lemma padded_length s : (length s <= 64)%nat -> length (padded s) = 64%nat.
Proof.
  intros Hl. unfold padded. destruct (Nat.ltb_spec (length s) 64).
  - rewrite length_app, repeat_length. lia.
  - lia.
Qed.

Lemma padded_value s : hex_value (padded s) = hex_value s.
Proof.
  unfold padded. destruct (Nat.ltb_spec (length s) 64); [|reflexivity].
  rewrite hex_value_app, hex_value_zeros. reflexivity.
Qed.

Lemma padded_is_hex s : Forall is_hex (padded s) <-> Forall is_hex s.
Proof.
  unfold padded. destruct (Nat.ltb_spec (length s) 64); [|reflexivity].
  rewrite Forall_app. split; [intros [_ Hs]; exact Hs|].
  intros Hs. split; [apply is_hex_zeros | exact Hs].
Qed.

Lemma chunks_of p :
  length p = 64%nat ->
  p = substr p 0 16 ++ substr p 16 16 ++ substr p 32 16 ++ substr p 48 16
  /\ length (substr p 0 16) = 16%nat /\ length (substr p 16 16) = 16%nat
  /\ length (substr p 32 16) = 16%nat /\ length (substr p 48 16) = 16%nat.
Proof.
  intros Hl. unfold substr.
  do 64 (destruct p as [|? p]; [discriminate Hl|]).
  destruct p; [|discriminate Hl].
  repeat split; reflexivity.
Qed.

Lemma from_hex_unfold hex :
  (length (strip_prefix hex) <= 64)%nat ->
  from_hex hex
  = let p := padded (strip_prefix hex) in
    match parse_chunk (substr p 48 16) 0 with
    | None => None
    | Some v0 =>
        match parse_chunk (substr p 32 16) 0 with
        | None => None
        | Some v1 =>
            match parse_chunk (substr p 16 16) 0 with
            | None => None
            | Some v2 =>
                match parse_chunk (substr p 0 16) 0 with
                | None => None
                | Some v3 => Some (MkUInt256 [v0; v1; v2; v3])
                end
            end
        end
    end.
Proof.
  intros Hl. unfold from_hex.
  rewrite (padded_length _ Hl). cbv zeta.
  change (64 <? 64)%nat with false. cbv iota.
  cbn [seq fold_left Nat.sub Nat.mul Nat.add].
  destruct (parse_chunk _ 0) as [v0|]; [|reflexivity].
  destruct (parse_chunk _ 0) as [v1|]; [|reflexivity].
  destruct (parse_chunk _ 0) as [v2|]; [|reflexivity].
  destruct (parse_chunk _ 0) as [v3|]; reflexivity.
Qed.

Lemma from_hex_valid hex :
  (length (strip_prefix hex) <= 64)%nat -> Forall is_hex (strip_prefix hex) ->
  exists x, from_hex hex = Some x /\ wf x
            /\ to_Z x = hex_value (strip_prefix hex).
Proof.
  intros Hl Hs. rewrite from_hex_unfold by exact Hl. cbv zeta.
  set (p := padded (strip_prefix hex)).
  assert (Hp : Forall is_hex p) by (apply padded_is_hex; exact Hs).
  destruct (chunks_of p (padded_length _ Hl)) as (Ep & L3 & L2 & L1 & L0).
  rewrite Ep in Hp. rewrite !Forall_app in Hp. destruct Hp as (H3 & H2 & H1 & H0).
  destruct (parse_chunk_16 _ L0 H0) as [-> U0].
  destruct (parse_chunk_16 _ L1 H1) as [-> U1].
  destruct (parse_chunk_16 _ L2 H2) as [-> U2].
  destruct (parse_chunk_16 _ L3 H3) as [-> U3].
  eexists. split; [reflexivity|]. split; [apply wf_intro; assumption|].
  rewrite <- (padded_value (strip_prefix hex)). fold p.
  set (c3 := substr p 0 16) in *. set (c2 := substr p 16 16) in *.
  set (c1 := substr p 32 16) in *. set (c0 := substr p 48 16) in *.
  clearbody c3 c2 c1 c0. rewrite Ep.
  rewrite !hex_value_app, !length_app, L0, L1, L2.
  unfold to_Z, limb. cbn [limbs_ nth].
  change (16 ^ Z.of_nat 16) with (2 ^ 64).
  change (16 ^ Z.of_nat (16 + 16)) with (2 ^ 128).
  change (16 ^ Z.of_nat (16 + (16 + 16))) with (2 ^ 192).
  lia.
Qed.

Lemma from_hex_invalid hex :
  (64 < length (strip_prefix hex))%nat \/ ~ Forall is_hex (strip_prefix hex) ->
  from_hex hex = None.
Proof.
  intros H.
  destruct (Nat.ltb_spec 64 (length (strip_prefix hex))) as [Hlong|Hl].
  - unfold from_hex, padded. cbv zeta.
    destruct (Nat.ltb_spec (length (strip_prefix hex)) 64); [lia|].
    destruct (Nat.ltb_spec 64 (length (strip_prefix hex))); [reflexivity|lia].
  - destruct H as [H|H]; [lia|].
    rewrite from_hex_unfold by exact Hl. cbv zeta.
    set (p := padded (strip_prefix hex)).
    destruct (chunks_of p (padded_length _ Hl)) as (Ep & _).
    destruct (parse_chunk (substr p 48 16) 0) as [v0|] eqn:E0; [|reflexivity].
    destruct (parse_chunk (substr p 32 16) 0) as [v1|] eqn:E1; [|reflexivity].
    destruct (parse_chunk (substr p 16 16) 0) as [v2|] eqn:E2; [|reflexivity].
    destruct (parse_chunk (substr p 0 16) 0) as [v3|] eqn:E3; [|reflexivity].
    exfalso. apply H. apply padded_is_hex. fold p. rewrite Ep.
    rewrite !Forall_app.
    repeat split; eapply parse_chunk_some; eassumption.
Qed.


(** The strings of [tests/test_types.cpp], and the edge cases. *)
Example from_hex_test :
  from_hex (String.list_ascii_of_string "ff") = Some (of_u64 255)
  /\ from_hex (String.list_ascii_of_string "0x100") = Some (of_u64 256)
  /\ from_hex (String.list_ascii_of_string "ffffffffffffffff")
     = Some (of_u64 18446744073709551615)
  /\ from_hex [] = Some zero
  /\ from_hex (String.list_ascii_of_string "0x") = Some zero
  /\ from_hex (String.list_ascii_of_string "0xg") = None
  /\ from_hex (String.list_ascii_of_string "0x0x1") = None.
Proof. repeat split; vm_compute; reflexivity. Qed.

End UInt256HexFacts.

Section ToHexFacts.
Import Stdlib.Strings.Ascii Mach Types Hex.

Lemma hex_digits_length n v : length (hex_digits n v) = n.
Proof.
  revert v. induction n as [|n IH]; intros v; [reflexivity|].
  cbn [hex_digits]. rewrite length_app, IH. cbn. lia.
Qed.

Lemma hex_digits_is_hex n v : Forall is_hex (hex_digits n v).
Proof.
  revert v. induction n as [|n IH]; intros v; [constructor|].
  cbn [hex_digits]. apply Forall_app. split; [apply IH|].
  constructor; [|constructor]. unfold is_hex.
  pose proof (Z.mod_pos_bound v 16 ltac:(lia)).
  rewrite hex_digit_value by lia. lia.
Qed.

Lemma hex_digits_value n v :
  hex_value (hex_digits n v) = v mod 16 ^ Z.of_nat n.
Proof.
  revert v. induction n as [|n IH]; intros v.
  - cbn. rewrite Z.mod_1_r. reflexivity.
  - cbn [hex_digits]. rewrite hex_value_app, IH.
    pose proof (Z.mod_pos_bound v 16 ltac:(lia)).
    change (hex_value [hex_digit (v mod 16)])
      with (0 * 16 + hex_char_to_int (hex_digit (v mod 16))).
    rewrite hex_digit_value by lia.
    change (16 ^ Z.of_nat (length [hex_digit (v mod 16)])) with 16.
    replace (Z.of_nat (S n)) with (1 + Z.of_nat n) by lia.
    rewrite Z.pow_add_r by lia. change (16 ^ 1) with 16.
    rewrite Z.rem_mul_r by (try lia; apply Z.pow_pos_nonneg; lia).
    lia.
Qed.

Lemma drop_zeros_value s : hex_value (drop_zeros s) = hex_value s.
Proof.
  induction s as [|c s IH]; [reflexivity|]. cbn [drop_zeros].
  destruct (Ascii.eqb_spec c "0"%char) as [->|_]; [|reflexivity].
  rewrite IH. change ("0"%char :: s) with (["0"%char] ++ s).
  rewrite hex_value_app. reflexivity.
Qed.

Lemma drop_zeros_is_hex s : Forall is_hex s -> Forall is_hex (drop_zeros s).
Proof.
  induction s as [|c s IH]; intros Hs; [constructor|]. cbn [drop_zeros].
  destruct (Ascii.eqb c "0"%char); [|exact Hs].
  apply IH. apply Forall_cons in Hs. apply Hs.
Qed.

Lemma drop_zeros_length s : (length (drop_zeros s) <= length s)%nat.
Proof.
  induction s as [|c s IH]; [reflexivity|]. cbn [drop_zeros].
  destruct (Ascii.eqb c "0"%char); cbn [length]; lia.
Qed.

Lemma put_hex_facts v :
  is_u64 v ->
  hex_value (put_hex v) = v /\ Forall is_hex (put_hex v)
  /\ (1 <= length (put_hex v) <= 16)%nat.
Proof.
  intros Hv. unfold put_hex.
  pose proof (drop_zeros_value (hex_digits 16 v)) as Hval.
  pose proof (drop_zeros_is_hex _ (hex_digits_is_hex 16 v)) as Hhex.
  pose proof (drop_zeros_length (hex_digits 16 v)) as Hlen.
  rewrite hex_digits_length in Hlen.
  rewrite hex_digits_value in Hval. change (16 ^ Z.of_nat 16) with (2 ^ 64) in Hval.
  rewrite Z.mod_small in Hval by exact Hv.
  destruct (drop_zeros (hex_digits 16 v)) as [|c s].
  - split; [exact Hval|]. split; [|cbn; lia].
    constructor; [|constructor]. unfold is_hex.
    change (hex_char_to_int "0") with 0. lia.
  - split; [exact Hval|]. split; [exact Hhex|]. cbn [length] in *. lia.
Qed.

Lemma put_hex_w_facts v :
  is_u64 v ->
  hex_value (put_hex_w 16 v) = v /\ Forall is_hex (put_hex_w 16 v)
  /\ length (put_hex_w 16 v) = 16%nat.
Proof.
  intros Hv. destruct (put_hex_facts v Hv) as (Hval & Hhex & Hlen).
  unfold put_hex_w. cbv zeta.
  rewrite hex_value_app, hex_value_zeros, Hval, length_app, repeat_length.
  split; [lia|]. split; [|lia].
  apply Forall_app. split; [apply is_hex_zeros | exact Hhex].
Qed.

Lemma strip_prefix_is_hex s : Forall is_hex s -> strip_prefix s = s.
Proof.
  intros Hs. destruct s as [|c0 [|c1 rest]]; try reflexivity.
  cbn [strip_prefix].
  apply Forall_cons in Hs as [_ Hs]. apply Forall_cons in Hs as [H1 _].
  destruct (Ascii.eqb_spec c1 "x"%char) as [->|_];
    [exfalso; revert H1; unfold is_hex; vm_compute; intros H; apply H; reflexivity|].
  destruct (Ascii.eqb_spec c1 "X"%char) as [->|_];
    [exfalso; revert H1; unfold is_hex; vm_compute; intros H; apply H; reflexivity|].
  rewrite andb_false_r. reflexivity.
Qed.

Lemma to_hex_facts x :
  wf x ->
  hex_value (to_hex x) = to_Z x /\ Forall is_hex (to_hex x)
  /\ (1 <= length (to_hex x) <= 64)%nat.
Proof.
  intros (a0 & a1 & a2 & a3 & -> & A0 & A1 & A2 & A3)%wf_inv.
  destruct (put_hex_facts a0 A0) as (V0 & H0 & N0).
  destruct (put_hex_facts a1 A1) as (V1 & H1 & N1).
  destruct (put_hex_facts a2 A2) as (V2 & H2 & N2).
  destruct (put_hex_facts a3 A3) as (V3 & H3 & N3).
  destruct (put_hex_w_facts a0 A0) as (W0 & G0 & M0).
  destruct (put_hex_w_facts a1 A1) as (W1 & G1 & M1).
  destruct (put_hex_w_facts a2 A2) as (W2 & G2 & M2).
  assert (Hz : Forall is_hex ["0"%char]).
  { constructor; [|constructor]. unfold is_hex.
    change (hex_char_to_int "0") with 0. lia. }
  unfold to_hex, to_hex_round, limb, to_Z. cbn [fold_left limbs_ nth Nat.eqb].
  destruct (Z.eqb_spec a3 0) as [E3|E3]; destruct (Z.eqb_spec a2 0) as [E2|E2];
    destruct (Z.eqb_spec a1 0) as [E1|E1]; destruct (Z.eqb_spec a0 0) as [E0|E0];
    cbn -[put_hex put_hex_w Z.pow hex_value Z.mul Z.add];
    rewrite ?hex_value_app, ?length_app, ?Forall_app, ?M0, ?M1, ?M2,
      ?V0, ?V1, ?V2, ?V3, ?W0, ?W1, ?W2;
    change (hex_value ["0"%char]) with 0;
    change (16 ^ Z.of_nat 16) with (2 ^ 64);
    change (2 ^ 128) with (2 ^ 64 * 2 ^ 64);
    change (2 ^ 192) with (2 ^ 64 * (2 ^ 64 * 2 ^ 64));
    (split; [lia|]); (split; [tauto|]); cbn [length]; lia.
Qed.

(** X9. [from_hex (to_hex x)] is [x]: the text [to_hex] prints has between 1
    and 64 digits, none of them a prefix, stands for the number of [x],
    and [from_hex] reads it back. Zero prints as the single digit 0. *)
Theorem uint256_hex_roundtrip (x : UInt256) :
  wf x ->
  from_hex (to_hex x) = Some x
  /\ hex_value (to_hex x) = to_Z x
  /\ (1 <= length (to_hex x) <= 64)%nat
  /\ to_hex zero = ["0"%char].
Proof.
  intros Hx. destruct (to_hex_facts x Hx) as (Hv & Hh & Hl).
  split; [|split; [exact Hv|split; [exact Hl|reflexivity]]].
  pose proof (strip_prefix_is_hex _ Hh) as Hs.
  destruct (from_hex_valid (to_hex x)) as (y & Hy & Wy & Vy).
  - rewrite Hs. lia.
  - rewrite Hs. exact Hh.
  - rewrite Hy. f_equal. apply to_Z_inj; [assumption..|].
    rewrite Vy, Hs, Hv. reflexivity.
Qed.

Lemma uint256_hex_roundtrip_witness :
  let x := MkUInt256 [255; 0; 1; 0] in
  wf x
  /\ from_hex (to_hex x) = Some x
  /\ hex_value (to_hex x) = to_Z x
  /\ (1 <= length (to_hex x) <= 64)%nat
  /\ to_hex zero = ["0"%char].
Proof.
  intros x.
  assert (Hx : wf x) by (apply wf_intro; unfold is_u64; lia).
  split; [exact Hx|]. exact (uint256_hex_roundtrip x Hx).
Defined.

(** The test [UInt256.ToHex] of [tests/test_types.cpp]. *)
Example to_hex_test :
  to_hex (of_u64 255) = String.list_ascii_of_string "ff"
  /\ to_hex (of_u64 4660) = String.list_ascii_of_string "1234"
  /\ to_hex (MkUInt256 [255; 0; 1; 0])
     = String.list_ascii_of_string
         "1000000000000000000000000000000ff".
Proof. repeat split; vm_compute; reflexivity. Qed.

End ToHexFacts.

(** ** [ByteArray] *)

Section IndexedLoops.

(** A list of length [n] is the list of its entries 0 to [n - 1]. *)
Lemma map_nth_seq (a : list Z) n :
  length a = n -> map (fun i => nth i a 0) (seq 0 n) = a.
Proof.
  intros <-. induction a as [|x a IH]; [reflexivity|].
  cbn [length seq map nth]. f_equal.
  rewrite <- seq_shift, map_map. exact IH.
Qed.

(** A loop that writes every slot of an array of length [n]. *)
Lemma fold_insert_seq (f : nat -> Z) n (init : list Z) :
  length init = n ->
  fold_left (fun r i => <[i := f i]> r) (seq 0 n) init = map f (seq 0 n).
Proof.
  intros Hn.
  assert (G : forall k, (k <= n)%nat ->
            fold_left (fun r i => <[i := f i]> r) (seq 0 k) init
            = map f (seq 0 k) ++ drop k init).
  { induction k as [|k IH]; intros Hk; [reflexivity|].
    rewrite seq_S, fold_left_app, map_app, IH by lia. cbn [fold_left map Nat.add].
    rewrite insert_app_r_alt by (rewrite length_map, length_seq; lia).
    rewrite length_map, length_seq, Nat.sub_diag.
    destruct (drop k init) as [|y rest] eqn:E.
    - apply (f_equal length) in E. rewrite length_drop in E. cbn in E. lia.
    - cbn [insert list_insert]. rewrite <- app_assoc. cbn [app].
      do 2 f_equal.
      pose proof (drop_drop init 1 k) as D. rewrite E in D. cbn in D.
      rewrite Nat.add_1_r in D. rewrite drop_0 in D. exact D. }
  rewrite (G n) by lia. rewrite drop_ge by lia. apply app_nil_r.
Qed.

Lemma fold_app_seq {A} (f : nat -> list A) (l : list nat) (acc : list A) :
  fold_left (fun oss i => oss ++ f i) l acc = acc ++ concat (map f l).
Proof.
  revert acc. induction l as [|i l IH]; intros acc; cbn [fold_left map concat].
  - rewrite app_nil_r. reflexivity.
  - rewrite IH, <- app_assoc. reflexivity.
Qed.

End IndexedLoops.

Section ByteArrayFacts.
Import Stdlib.Strings.Ascii Mach Hex.
Variable N : nat.

Lemma xor_eq a b :
  ByteArray.xor N a b
  = map (fun i => Z.lxor (nth i a 0) (nth i b 0)) (seq 0 N).
Proof.
  unfold ByteArray.xor. apply fold_insert_seq.
  unfold ByteArray.zero. apply repeat_length.
Qed.

Lemma xor_nth a b i :
  (i < N)%nat ->
  nth i (ByteArray.xor N a b) 0 = Z.lxor (nth i a 0) (nth i b 0).
Proof.
  intros Hi. rewrite xor_eq.
  rewrite (nth_indep _ 0 (Z.lxor (nth 0%nat a 0) (nth 0%nat b 0)))
    by (rewrite length_map, length_seq; exact Hi).
  rewrite (map_nth (fun i => Z.lxor (nth i a 0) (nth i b 0)) (seq 0 N) 0%nat i).
  rewrite seq_nth by exact Hi. reflexivity.
Qed.

Lemma xor_length a b : length (ByteArray.xor N a b) = N.
Proof. rewrite xor_eq, length_map, length_seq. reflexivity. Qed.

Lemma is_u8_lxor x y : is_u8 x -> is_u8 y -> is_u8 (Z.lxor x y).
Proof.
  unfold is_u8. intros Hx Hy.
  assert (E : Z.lxor x y mod 2 ^ 8 = Z.lxor x y).
  { apply Z.bits_inj'. intros n Hn.
    destruct (Z.ltb_spec n 8).
    - apply Z.mod_pow2_bits_low. lia.
    - rewrite Z.mod_pow2_bits_high by lia. rewrite Z.lxor_spec.
      rewrite <- (Z.mod_small x (2 ^ 8)), <- (Z.mod_small y (2 ^ 8)) by lia.
      rewrite !Z.mod_pow2_bits_high by lia. reflexivity. }
  rewrite <- E. apply Z.mod_pos_bound. reflexivity.
Qed.

Lemma wf_nth a i : ByteArray.wf N a -> is_u8 (nth i a 0).
Proof.
  intros [Hl Hf].
  destruct (Nat.lt_ge_cases i (length a)) as [Hi|Hi].
  - rewrite Forall_forall in Hf. apply Hf. rewrite list_elem_of_In.
    apply nth_In. exact Hi.
  - rewrite nth_overflow by exact Hi. unfold is_u8. lia.
Qed.

Lemma list_eq_nth (a b : list Z) :
  length a = N -> length b = N ->
  (forall i, (i < N)%nat -> nth i a 0 = nth i b 0) -> a = b.
Proof.
  intros Ha Hb H. rewrite <- (map_nth_seq a N Ha), <- (map_nth_seq b N Hb).
  apply map_ext_in. intros i Hi. apply in_seq in Hi. apply H. lia.
Qed.

(** X10. [operator^] is the bytewise exclusive or: it is its own inverse and
    commutes, and [a ^ a] is the zero array. *)
Theorem bytearray_xor_spec (a b : list Z) :
  ByteArray.wf N a -> ByteArray.wf N b ->
  ByteArray.wf N (ByteArray.xor N a b)
  /\ (forall i, (i < N)%nat ->
        nth i (ByteArray.xor N a b) 0 = Z.lxor (nth i a 0) (nth i b 0))
  /\ ByteArray.xor N (ByteArray.xor N a b) b = a
  /\ ByteArray.xor N a b = ByteArray.xor N b a
  /\ ByteArray.xor N a a = ByteArray.zero N
  /\ ByteArray.is_zero N (ByteArray.xor N a a) = true.
Proof.
  intros Ha Hb.
  assert (Hz : ByteArray.xor N a a = ByteArray.zero N).
  { apply list_eq_nth; [apply xor_length | apply repeat_length |].
    intros i Hi. rewrite xor_nth, Z.lxor_nilpotent by exact Hi.
    unfold ByteArray.zero. symmetry. apply nth_repeat. }
  split; [|split; [|split; [|split; [|split]]]].
  - split; [apply xor_length|]. rewrite xor_eq. apply Forall_forall.
    intros v Hv. rewrite list_elem_of_In in Hv. apply in_map_iff in Hv as (i & <- & _).
    apply is_u8_lxor; apply wf_nth; assumption.
  - intros i Hi. apply xor_nth. exact Hi.
  - apply list_eq_nth; [apply xor_length | apply Ha |].
    intros i Hi. rewrite !xor_nth by exact Hi.
    rewrite Z.lxor_assoc, Z.lxor_nilpotent, Z.lxor_0_r. reflexivity.
  - apply list_eq_nth; [apply xor_length | apply xor_length |].
    intros i Hi. rewrite !xor_nth by exact Hi. apply Z.lxor_comm.
  - exact Hz.
  - rewrite Hz. unfold ByteArray.is_zero, ByteArray.zero.
    apply forallb_forall. intros i _. rewrite nth_repeat. reflexivity.
Qed.

End ByteArrayFacts.

Section ByteArrayWitnesses.
Import Mach.

Lemma bytearray_xor_spec_witness :
  let a := [255; 15] in
  let b := [15; 240] in
  ByteArray.wf 2 a /\ ByteArray.wf 2 b
  /\ ByteArray.wf 2 (ByteArray.xor 2 a b)
  /\ (forall i, (i < 2)%nat ->
        nth i (ByteArray.xor 2 a b) 0 = Z.lxor (nth i a 0) (nth i b 0))
  /\ ByteArray.xor 2 (ByteArray.xor 2 a b) b = a
  /\ ByteArray.xor 2 a b = ByteArray.xor 2 b a
  /\ ByteArray.xor 2 a a = ByteArray.zero 2
  /\ ByteArray.is_zero 2 (ByteArray.xor 2 a a) = true.
Proof.
  intros a b.
  assert (Ha : ByteArray.wf 2 a).
  { split; [reflexivity|]. repeat (apply Forall_cons; split; [unfold is_u8; lia|]).
    apply Forall_nil_2. }
  assert (Hb : ByteArray.wf 2 b).
  { split; [reflexivity|]. repeat (apply Forall_cons; split; [unfold is_u8; lia|]).
    apply Forall_nil_2. }
  split; [exact Ha|]. split; [exact Hb|].
  exact (bytearray_xor_spec 2 a b Ha Hb).
Defined.

End ByteArrayWitnesses.

Section ByteArrayHex.
Import Stdlib.Strings.Ascii Mach Hex.

Lemma put_hex_w_byte_table :
  forallb (fun k => bool_decide (put_hex_w 2 (Z.of_nat k) = byte_hex (Z.of_nat k)))
          (seq 0 256) = true.
Proof. vm_compute. reflexivity. Qed.

Lemma put_hex_w_byte b : is_u8 b -> put_hex_w 2 b = byte_hex b.
Proof.
  unfold is_u8. change (2 ^ 8) with 256. intros Hb.
  pose proof put_hex_w_byte_table as T. rewrite forallb_forall in T.
  specialize (T (Z.to_nat b)). rewrite Z2Nat.id in T by lia.
  apply bool_decide_eq_true in T; [exact T|]. apply in_seq. lia.
Qed.

Lemma byte_of_digits b :
  is_u8 b ->
  hex_char_to_int (hex_digit (b / 16)) = b / 16
  /\ hex_char_to_int (hex_digit (b mod 16)) = b mod 16
  /\ u8 (Z.lor (Z.shiftl (b / 16) 4) (b mod 16)) = b.
Proof.
  unfold is_u8. change (2 ^ 8) with 256. intros Hb.
  assert (H1 : 0 <= b / 16 < 16)
    by (split; [apply Z.div_pos; lia | apply Z.div_lt_upper_bound; lia]).
  pose proof (Z.mod_pos_bound b 16 ltac:(lia)) as H2.
  rewrite !hex_digit_value by lia. split; [reflexivity|]. split; [reflexivity|].
  rewrite lor_digit by lia. unfold u8. change (2 ^ 8) with 256.
  pose proof (Z.div_mod b 16 ltac:(lia)). rewrite Z.mod_small; lia.
Qed.

Lemma to_hex_flat N a :
  ByteArray.wf N a -> ByteArray.to_hex N a = flat_map byte_hex a.
Proof.
  intros [Hl Hf]. unfold ByteArray.to_hex.
  rewrite fold_app_seq. cbn [app]. rewrite flat_map_concat_map.
  f_equal.
  transitivity (map byte_hex (map (fun i => nth i a 0) (seq 0 N)));
    [|rewrite map_nth_seq by exact Hl; reflexivity].
  rewrite map_map.
  apply map_ext_in. intros i Hi. apply put_hex_w_byte.
  apply (wf_nth N). split; assumption.
Qed.

Lemma flat_pairs_nth (a : list Z) i :
  (i < length a)%nat ->
  nth (i * 2) (flat_map byte_hex a) "000"%char = hex_digit (nth i a 0 / 16)
  /\ nth (i * 2 + 1) (flat_map byte_hex a) "000"%char
     = hex_digit (nth i a 0 mod 16).
Proof.
  revert i. induction a as [|x a IH]; intros i Hi; [cbn in Hi; lia|].
  destruct i as [|i]; [split; reflexivity|].
  cbn [length] in Hi. specialize (IH i ltac:(lia)).
  cbn [flat_map byte_hex app nth Nat.mul Nat.add]. exact IH.
Qed.

Lemma flat_pairs_length (a : list Z) :
  length (flat_map byte_hex a) = (length a * 2)%nat.
Proof.
  induction a as [|x a IH]; [reflexivity|].
  cbn [flat_map byte_hex app length]. rewrite IH. lia.
Qed.

Lemma flat_pairs_is_hex (a : list Z) :
  Forall is_u8 a -> Forall is_hex (flat_map byte_hex a).
Proof.
  induction 1 as [|x a Hx Ha IH]; [constructor|].
  cbn [flat_map byte_hex app].
  destruct (byte_of_digits x Hx) as (E1 & E2 & _).
  unfold is_u8 in Hx. change (2 ^ 8) with 256 in Hx.
  pose proof (Z.mod_pos_bound x 16 ltac:(lia)).
  assert (0 <= x / 16) by (apply Z.div_pos; lia).
  constructor; [unfold is_hex; rewrite E1; lia|].
  constructor; [unfold is_hex; rewrite E2; lia|]. exact IH.
Qed.

Lemma from_hex_loop N (hex : list ascii) (a : list Z) (init : list Z) :
  length init = N -> length a = N -> Forall is_u8 a ->
  (forall i, (i < N)%nat ->
     nth (i * 2) hex "000"%char = hex_digit (nth i a 0 / 16)
     /\ nth (i * 2 + 1) hex "000"%char = hex_digit (nth i a 0 mod 16)) ->
  fold_left
    (fun acc i =>
       match acc with
       | None => None
       | Some result =>
           let high := hex_char_to_int (nth (i * 2) hex "000"%char) in
           let low := hex_char_to_int (nth (i * 2 + 1) hex "000"%char) in
           if (high <? 0) || (low <? 0) then None
           else Some (<[i := u8 (Z.lor (Z.shiftl high 4) low)]> result)
       end)
    (seq 0 N) (Some init)
  = Some a.
Proof.
  intros Hi Ha Hf Hd.
  set (body := fun acc i => match acc with None => None | Some result => _ end).
  assert (G : forall k, (k <= N)%nat ->
            fold_left body (seq 0 k) (Some init)
            = Some (fold_left (fun r i => <[i := nth i a 0]> r) (seq 0 k) init)).
  { induction k as [|k IH]; intros Hk; [reflexivity|].
    rewrite !seq_S, !fold_left_app, IH by lia. cbn [fold_left Nat.add].
    unfold body at 1. cbv zeta.
    destruct (Hd k ltac:(lia)) as [-> ->].
    assert (Hb : is_u8 (nth k a 0)).
    { rewrite Forall_forall in Hf. apply Hf. rewrite list_elem_of_In.
      apply nth_In. lia. }
    destruct (byte_of_digits _ Hb) as (-> & -> & ->).
    unfold is_u8 in Hb. change (2 ^ 8) with 256 in Hb.
    pose proof (Z.mod_pos_bound (nth k a 0) 16 ltac:(lia)).
    assert (0 <= nth k a 0 / 16) by (apply Z.div_pos; lia).
    destruct (Z.ltb_spec (nth k a 0 / 16) 0); [lia|].
    destruct (Z.ltb_spec (nth k a 0 mod 16) 0); [lia|].
    reflexivity. }
  rewrite (G N) by lia. f_equal.
  rewrite fold_insert_seq by exact Hi. apply map_nth_seq. exact Ha.
Qed.

Lemma bytearray_from_hex_to_hex N a :
  ByteArray.wf N a -> ByteArray.from_hex N (ByteArray.to_hex N a) = Some a.
Proof.
  intros Hw. assert (Hw' := Hw). destruct Hw' as [Hl Hf].
  rewrite (to_hex_flat N a Hw). unfold ByteArray.from_hex. cbv zeta.
  rewrite (strip_prefix_is_hex _ (flat_pairs_is_hex a Hf)).
  rewrite flat_pairs_length, Hl, Nat.eqb_refl. cbn [negb].
  apply from_hex_loop; [apply repeat_length | exact Hl | exact Hf |].
  intros i Hi. apply flat_pairs_nth. lia.
Qed.

(** X11. [ByteArray::from_hex (to_hex a)] is [a]; [to_hex] prints two digits
    per byte; [from_hex] refuses every string that, after an optional
    [0x], does not have exactly 2N characters. *)
Theorem bytearray_hex_roundtrip (N : nat) (a : list Z) :
  ByteArray.wf N a ->
  ByteArray.from_hex N (ByteArray.to_hex N a) = Some a
  /\ length (ByteArray.to_hex N a) = (N * 2)%nat
  /\ forall hex, length (strip_prefix hex) <> (N * 2)%nat ->
                 ByteArray.from_hex N hex = None.
Proof.
  intros Hw. split; [apply bytearray_from_hex_to_hex; exact Hw|]. split.
  - rewrite (to_hex_flat N a Hw), flat_pairs_length.
    destruct Hw as [-> _]. reflexivity.
  - intros hex Hl. unfold ByteArray.from_hex. cbv zeta.
    destruct (Nat.eqb_spec (length (strip_prefix hex)) (N * 2)) as [E|_];
      [contradiction | reflexivity].
Qed.

Lemma bytearray_hex_roundtrip_witness :
  let a := [0; 171; 255] in
  ByteArray.wf 3 a
  /\ ByteArray.from_hex 3 (ByteArray.to_hex 3 a) = Some a
  /\ length (ByteArray.to_hex 3 a) = (3 * 2)%nat
  /\ forall hex, length (strip_prefix hex) <> (3 * 2)%nat ->
                 ByteArray.from_hex 3 hex = None.
Proof.
  intros a.
  assert (Ha : ByteArray.wf 3 a).
  { split; [reflexivity|]. repeat (apply Forall_cons; split; [unfold is_u8; lia|]).
    apply Forall_nil_2. }
  split; [exact Ha|]. exact (bytearray_hex_roundtrip 3 a Ha).
Defined.

(** The tests [ByteArray.FromHex] and [ByteArray.ToHex]. *)
Example bytearray_hex_test :
  ByteArray.from_hex 2 (String.list_ascii_of_string "0001") = Some [0; 1]
  /\ ByteArray.to_hex 2 [0; 171] = String.list_ascii_of_string "00ab"
  /\ ByteArray.from_hex 2 (String.list_ascii_of_string "0xAb01") = Some [171; 1]
  /\ ByteArray.from_hex 2 (String.list_ascii_of_string "00g1") = None.
Proof. repeat split; vm_compute; reflexivity. Qed.

End ByteArrayHex.

Section ByteOrder.
Import Mach Types.

Lemma be_value_app a b :
  be_value (a ++ b) = be_value a * 256 ^ Z.of_nat (length b) + be_value b.
Proof.
  unfold be_value. rewrite fold_left_app. generalize (fold_left (fun acc b0 => acc * 256 + b0) a 0).
  induction b as [|x b IH] using rev_ind; intros z.
  - cbn. lia.
  - rewrite !fold_left_app, length_app. cbn [fold_left length].
    rewrite IH.
    replace (Z.of_nat (length b + 1)) with (Z.of_nat (length b) + 1) by lia.
    rewrite Z.pow_add_r by lia.
    rewrite (IH 0). lia.
Qed.

Lemma be_value_cons x a :
  be_value (x :: a) = x * 256 ^ Z.of_nat (length a) + be_value a.
Proof.
  change (x :: a) with ([x] ++ a). rewrite be_value_app.
  change (be_value [x]) with (0 * 256 + x). lia.
Qed.

Lemma be_value_range a :
  Forall is_u8 a -> 0 <= be_value a < 256 ^ Z.of_nat (length a).
Proof.
  induction 1 as [|x a Hx Ha IH]; [cbn; lia|].
  rewrite be_value_cons. cbn [length].
  replace (Z.of_nat (S (length a))) with (1 + Z.of_nat (length a)) by lia.
  rewrite Z.pow_add_r by lia. change (256 ^ 1) with 256.
  unfold is_u8 in Hx. change (2 ^ 8) with 256 in Hx.
  assert (0 < 256 ^ Z.of_nat (length a)) by (apply Z.pow_pos_nonneg; lia).
  nia.
Qed.

Lemma lt_be_value a b :
  length a = length b -> Forall is_u8 a -> Forall is_u8 b ->
  ByteArray.lt a b = true <-> be_value a < be_value b.
Proof.
  revert b. induction a as [|x a IH]; intros [|y b] Hl Ha Hb;
    try discriminate Hl.
  - cbn. split; [discriminate | lia].
  - apply Forall_cons in Ha as [Hx Ha]. apply Forall_cons in Hb as [Hy Hb].
    cbn [length] in Hl. apply Nat.succ_inj in Hl.
    specialize (IH b Hl Ha Hb).
    pose proof (be_value_range a Ha) as Ra.
    pose proof (be_value_range b Hb) as Rb.
    rewrite !be_value_cons, <- Hl.
    unfold is_u8 in Hx, Hy.
    set (p := 256 ^ Z.of_nat (length a)) in *. rewrite <- Hl in Rb. fold p in Rb.
    cbn [ByteArray.lt].
    destruct (Z.ltb_spec x y) as [Hxy|Hxy].
    + split; [intros _; nia | reflexivity].
    + destruct (Z.ltb_spec y x) as [Hyx|Hyx].
      * split; [discriminate | nia].
      * assert (x = y) by lia. subst y. rewrite IH. lia.
Qed.

Lemma to_bytes_value x :
  wf x -> be_value (to_bytes x) = to_Z x
          /\ length (to_bytes x) = 32%nat /\ Forall is_u8 (to_bytes x).
Proof.
  intros (a0 & a1 & a2 & a3 & -> & A0 & A1 & A2 & A3)%wf_inv.
  rewrite to_bytes_eq, to_bytes_into_eq by reflexivity.
  pose proof (limb_split a0 A0) as S0. pose proof (limb_split a1 A1) as S1.
  pose proof (limb_split a2 A2) as S2. pose proof (limb_split a3 A3) as S3.
  split; [|split; [reflexivity|]].
  - unfold to_Z, limb, be_value. cbn [limbs_ nth fold_left].
    change (2 ^ 64) with 18446744073709551616.
    change (2 ^ 128) with 340282366920938463463374607431768211456.
    change (2 ^ 192)
      with 6277101735386680763835789423207666416102355444464034512896.
    lia.
  - repeat (apply Forall_cons; split; [apply byte_at_range|]).
    apply Forall_nil_2.
Qed.

(** X12. [operator<] of [ByteArray] compares big-endian numbers; on the byte
    strings of two [UInt256] values it decides as [operator<] of [UInt256]
    does: [to_bytes] keeps the order. *)
Theorem bytearray_order (x y : UInt256) (a b : list Z) :
  wf x -> wf y ->
  length a = length b -> Forall is_u8 a -> Forall is_u8 b ->
  (ByteArray.lt a b = true <-> be_value a < be_value b)
  /\ ByteArray.lt (to_bytes x) (to_bytes y) = lt x y.
Proof.
  intros Hx Hy Hl Ha Hb. split; [apply lt_be_value; assumption|].
  destruct (to_bytes_value x Hx) as (Vx & Lx & Fx).
  destruct (to_bytes_value y Hy) as (Vy & Ly & Fy).
  pose proof (lt_be_value (to_bytes x) (to_bytes y) ltac:(congruence) Fx Fy) as H1.
  pose proof (lt_to_Z x y Hx Hy) as H2. rewrite Vx, Vy in H1.
  destruct (ByteArray.lt (to_bytes x) (to_bytes y)), (lt x y); try reflexivity.
  - symmetry. apply H2, H1. reflexivity.
  - apply H1, H2. reflexivity.
Qed.

Lemma bytearray_order_witness :
  let x := MkUInt256 [0; 1; 0; 0] in
  let y := MkUInt256 [2 ^ 64 - 1; 0; 0; 0] in
  wf x /\ wf y
  /\ (ByteArray.lt [1; 255] [2; 0] = true <-> be_value [1; 255] < be_value [2; 0])
  /\ ByteArray.lt (to_bytes x) (to_bytes y) = lt x y.
Proof.
  intros x y.
  assert (Hx : wf x) by (apply wf_intro; unfold is_u64; lia).
  assert (Hy : wf y) by (apply wf_intro; unfold is_u64; lia).
  split; [exact Hx|]. split; [exact Hy|].
  refine (bytearray_order x y [1; 255] [2; 0] Hx Hy eq_refl _ _);
    repeat (apply Forall_cons; split; [unfold is_u8; lia|]); apply Forall_nil_2.
Defined.

End ByteOrder.

Section ByteArrayZero.
Import Mach.
Variable N : nat.

Lemma secure_zero_eq a : length a = N -> ByteArray.secure_zero N a = ByteArray.zero N.
Proof.
  intros Hl. unfold ByteArray.secure_zero.
  rewrite (fold_insert_seq (fun _ => 0) N a Hl).
  unfold ByteArray.zero. clear. generalize 0%nat.
  induction N as [|n IH]; intros s; [reflexivity|].
  cbn [seq map repeat]. f_equal. apply IH.
Qed.

Lemma bytearray_eqb_eq a b :
  length a = N -> length b = N -> ByteArray.eqb N a b = true <-> a = b.
Proof.
  intros Ha Hb. unfold ByteArray.eqb. rewrite forallb_forall. split.
  - intros H. apply (list_eq_nth N); [assumption..|].
    intros i Hi. apply Z.eqb_eq, H, in_seq. lia.
  - intros -> i _. apply Z.eqb_refl.
Qed.

(** X13. [secure_zero] leaves the array of N zero bytes whatever it held;
    [is_zero] holds of that array only; [operator==] is equality of the
    contents. *)
Theorem bytearray_zero_spec (a b : list Z) :
  length a = N -> length b = N ->
  ByteArray.secure_zero N a = ByteArray.zero N
  /\ ByteArray.is_zero N (ByteArray.secure_zero N a) = true
  /\ (ByteArray.is_zero N a = true <-> a = ByteArray.zero N)
  /\ (ByteArray.eqb N a b = true <-> a = b)
  /\ (ByteArray.neqb N a b = true <-> a <> b).
Proof.
  intros Ha Hb.
  assert (Hz : forall c, length c = N ->
                 ByteArray.is_zero N c = true <-> c = ByteArray.zero N).
  { intros c Hc. unfold ByteArray.is_zero. rewrite forallb_forall. split.
    - intros H. apply (list_eq_nth N); [exact Hc | apply repeat_length |].
      intros i Hi. unfold ByteArray.zero. rewrite nth_repeat.
      apply Z.eqb_eq, H, in_seq. lia.
    - intros -> i _. unfold ByteArray.zero. rewrite nth_repeat. reflexivity. }
  split; [apply secure_zero_eq; exact Ha|].
  split; [rewrite secure_zero_eq by exact Ha; apply Hz; [apply repeat_length | reflexivity]|].
  split; [apply Hz; exact Ha|].
  split; [apply bytearray_eqb_eq; assumption|].
  unfold ByteArray.neqb. rewrite negb_true_iff, <- not_true_iff_false.
  rewrite bytearray_eqb_eq by assumption. reflexivity.
Qed.

End ByteArrayZero.

Lemma bytearray_zero_spec_witness :
  let a := [255; 0; 171] in
  let b := [255; 0; 172] in
  length a = 3%nat /\ length b = 3%nat
  /\ ByteArray.secure_zero 3 a = ByteArray.zero 3
  /\ ByteArray.is_zero 3 (ByteArray.secure_zero 3 a) = true
  /\ (ByteArray.is_zero 3 a = true <-> a = ByteArray.zero 3)
  /\ (ByteArray.eqb 3 a b = true <-> a = b)
  /\ (ByteArray.neqb 3 a b = true <-> a <> b).
Proof.
  intros a b. split; [reflexivity|]. split; [reflexivity|].
  exact (bytearray_zero_spec 3 a b eq_refl eq_refl).
Defined.

(** ** The thread pool: batches, counters, shutdown, [parallel_reduce] *)

Section SubmitBatchFacts.
Import Mach Exn ThreadPool PoolRuns.

Lemma for_each_submit_running fs prio : forall p,
  stop_ p = false ->
  for_each fs (fun f => submit_with_priority prio f) p
  = Ok tt (fold_left (fun q f => add_pending 1 (add_submitted 1
                                   (push_task (MkTask f prio) q))) fs p).
Proof.
  induction fs as [|f fs IH]; intros p Hrun; [reflexivity|].
  cbn [for_each fold_left]. unfold bind at 1.
  unfold submit_with_priority, bind, get, modify. rewrite Hrun.
  apply IH. exact Hrun.
Qed.

Lemma for_each_push fs prio : forall p,
  for_each fs (fun task => modify (push_task (MkTask task prio))) p
  = Ok tt (fold_left (fun q f => push_task (MkTask f prio) q) fs p).
Proof.
  induction fs as [|f fs IH]; intros p; [reflexivity|].
  cbn [for_each fold_left]. unfold bind at 1, modify at 1. apply IH.
Qed.

Lemma submit_batch_running fs prio p :
  stop_ p = false ->
  submit_batch fs prio p
  = Ok tt (add_pending (Z.of_nat (length fs))
             (add_submitted (Z.of_nat (length fs))
                (fold_left (fun q f => push_task (MkTask f prio) q) fs p))).
Proof.
  intros Hrun. unfold submit_batch. unfold bind at 1, get. rewrite Hrun.
  unfold bind at 1. rewrite for_each_push. reflexivity.
Qed.

Lemma pool_eta p :
  p = MkPool (workers_ p) (tasks_ p) (stop_ p) (paused_ p) (active_tasks_ p)
             (stats_ p).
Proof. destruct p. reflexivity. Qed.

Lemma stats_eta st :
  st = MkStats (tasks_submitted st) (tasks_completed st) (tasks_pending st)
               (total_wait_time_ns st) (total_exec_time_ns st).
Proof. destruct st. reflexivity. Qed.

Lemma fold_push_fields fs prio : forall p,
  fold_left (fun q f => push_task (MkTask f prio) q) fs p
  = set_tasks (pushed fs prio (tasks_ p)) p.
Proof.
  induction fs as [|f fs IH]; intros p.
  - cbn. destruct p. reflexivity.
  - cbn [fold_left]. rewrite IH. destruct p. reflexivity.
Qed.

Lemma fold_submit_fields fs prio : forall p,
  fold_left (fun q f => add_pending 1 (add_submitted 1
                          (push_task (MkTask f prio) q))) fs p
  = MkPool (workers_ p) (pushed fs prio (tasks_ p)) (stop_ p) (paused_ p)
           (active_tasks_ p)
           (MkStats
              (Nat.iter (length fs) (fun a => u64 (a + 1))
                        (tasks_submitted (stats_ p)))
              (tasks_completed (stats_ p))
              (Nat.iter (length fs) (fun a => u64 (a + 1))
                        (tasks_pending (stats_ p)))
              (total_wait_time_ns (stats_ p))
              (total_exec_time_ns (stats_ p))).
Proof.
  induction fs as [|f fs IH]; intros p.
  - cbn. destruct p as [? ? ? ? ? []]. reflexivity.
  - cbn [fold_left]. rewrite IH. destruct p as [? ? ? ? ? []].
    cbn [workers_ tasks_ stop_ paused_ active_tasks_ stats_ add_pending
         add_submitted push_task set_stats set_tasks tasks_submitted
         tasks_completed tasks_pending total_wait_time_ns total_exec_time_ns
         length pushed fold_left].
    rewrite !Nat.iter_succ_r. reflexivity.
Qed.

Lemma iter_incr n a :
  is_u64 a -> Nat.iter n (fun a => u64 (a + 1)) a = u64 (a + Z.of_nat n).
Proof.
  intros Ha. induction n as [|n IH].
  - change (Nat.iter 0 (fun a => u64 (a + 1)) a) with a.
    rewrite Z.add_0_r. symmetry. apply u64_small, Ha.
  - rewrite Nat.iter_succ, IH. unfold u64.
    rewrite Zplus_mod_idemp_l. f_equal. lia.
Qed.

Lemma pushed_spec fs prio : forall q,
  HeapInv.is_heap task_key no_task q ->
  HeapInv.is_heap task_key no_task (pushed fs prio q)
  /\ pushed fs prio q ≡ₚ map (fun f => MkTask f prio) fs ++ q.
Proof.
  induction fs as [|f fs IH]; intros q Hq.
  - split; [exact Hq | reflexivity].
  - cbn [pushed fold_left].
    destruct (pq_push_spec task_key no_task (MkTask f prio) q Hq) as [H1 H2].
    destruct (IH _ H1) as [I1 I2]. split; [exact I1|].
    unfold pushed in I2. rewrite I2, H2. cbn [map app].
    symmetry. apply Permutation_middle.
Qed.

(** X14. On a pool that is not stopped [submit_batch] leaves the pool as the
    calls of [submit_with_priority] on the same tasks, in order, leave it:
    the same queue, slot for slot, and the same counters. The queue stays
    a heap and gains exactly the tasks of the batch. *)
Theorem submit_batch_as_submits (p : Pool) (fs : list Closure)
  (prio : TaskPriority) :
  stop_ p = false -> stats_wf (stats_ p) -> queue_ok p ->
  submit_batch fs prio p
  = for_each fs (fun f => submit_with_priority prio f) p
  /\ exists p',
       submit_batch fs prio p = Ok tt p'
       /\ tasks_ p' ≡ₚ map (fun f => MkTask f prio) fs ++ tasks_ p
       /\ queue_ok p'
       /\ tasks_submitted (stats_ p')
          = u64 (tasks_submitted (stats_ p) + Z.of_nat (length fs))
       /\ tasks_pending (stats_ p')
          = u64 (tasks_pending (stats_ p) + Z.of_nat (length fs)).
Proof.
  intros Hrun [Hs Hp] Hq.
  rewrite for_each_submit_running, submit_batch_running by exact Hrun.
  rewrite fold_submit_fields, fold_push_fields, !iter_incr by assumption.
  split; [destruct p as [? ? ? ? ? []]; reflexivity|].
  eexists. split; [reflexivity|].
  destruct (pushed_spec fs prio (tasks_ p) Hq) as [H1 H2].
  destruct p as [w q st pa ac [sub comp pend wt et]].
  cbn [tasks_ stats_ add_pending add_submitted set_stats set_tasks
       tasks_submitted tasks_pending workers_ stop_ paused_ active_tasks_
       tasks_completed total_wait_time_ns total_exec_time_ns] in *.
  split; [exact H2|]. split; [exact H1|]. split; reflexivity.
Qed.

Lemma submit_batch_as_submits_witness :
  let p := new_pool 2 in
  let fs := [Work 1; Work 2; Work 3] in
  stop_ p = false /\ stats_wf (stats_ p) /\ queue_ok p
  /\ submit_batch fs HIGH p
     = for_each fs (fun f => submit_with_priority HIGH f) p
  /\ exists p',
       submit_batch fs HIGH p = Ok tt p'
       /\ tasks_ p' ≡ₚ map (fun f => MkTask f HIGH) fs ++ tasks_ p
       /\ queue_ok p'
       /\ tasks_submitted (stats_ p')
          = u64 (tasks_submitted (stats_ p) + Z.of_nat (length fs))
       /\ tasks_pending (stats_ p')
          = u64 (tasks_pending (stats_ p) + Z.of_nat (length fs)).
Proof.
  intros p fs.
  assert (H1 : stop_ p = false) by reflexivity.
  assert (H2 : stats_wf (stats_ p)) by (split; unfold is_u64; cbn; lia).
  assert (H3 : queue_ok p) by (intros i Hi; cbn in Hi; lia).
  split; [exact H1|]. split; [exact H2|]. split; [exact H3|].
  exact (submit_batch_as_submits p fs HIGH H1 H2 H3).
Defined.

End SubmitBatchFacts.

Section PoolInvariants.
Import Mach Exn ThreadPool PoolRuns.

Lemma u64_add_l a b : u64 (u64 a + b) = u64 (a + b).
Proof. unfold u64. apply Zplus_mod_idemp_l. Qed.

Lemma u64_idem a : u64 (u64 a) = u64 a.
Proof. unfold u64. apply Z.mod_mod. lia. Qed.

Lemma u64_congr a b c : u64 a = u64 b -> u64 (a + c) = u64 (b + c).
Proof. intros H. rewrite <- (u64_add_l a), <- (u64_add_l b), H. reflexivity. Qed.

Lemma running_count_insert pcs w old new :
  pcs !! w = Some old ->
  running_count (<[w := new]> pcs)
  = running_count pcs - Z.b2z (is_running old) + Z.b2z (is_running new).
Proof.
  intros Hw. pose proof (lookup_lt_Some _ _ _ Hw) as Hlt.
  rewrite insert_take_drop by exact Hlt.
  rewrite <- (take_drop_middle pcs w old Hw) at 3.
  unfold running_count. rewrite !List.filter_app. cbn [List.filter].
  destruct (is_running old), (is_running new);
    rewrite !length_app; cbn [length Z.b2z]; lia.
Qed.

Lemma mutex_free_spec s :
  mutex_free s = true <->
  forall w pc, pcs s !! w = Some pc -> holds_mutex pc = false.
Proof.
  unfold mutex_free. rewrite forallb_forall. split.
  - intros H w pc Hw. apply negb_true_iff, H.
    apply list_elem_of_In. eapply list_elem_of_lookup_2. exact Hw.
  - intros H pc Hin. apply list_elem_of_In, list_elem_of_lookup in Hin as [w Hw].
    apply negb_true_iff. eapply H. exact Hw.
Qed.

Lemma lookup_set_pc s w pc w' pc' :
  pcs (set_pc w pc s) !! w' = Some pc' ->
  (w' = w /\ pc' = pc /\ (w < length (pcs s))%nat) \/ (w' <> w /\ pcs s !! w' = Some pc').
Proof.
  unfold set_pc. cbn [pcs]. intros H.
  destruct (Nat.eq_dec w' w) as [->|Hne].
  - pose proof (lookup_lt_Some _ _ _ H) as Hlt. rewrite length_insert in Hlt.
    rewrite list_lookup_insert_eq in H by exact Hlt. injection H as <-.
    left. auto.
  - rewrite list_lookup_insert_ne in H by congruence. right. auto.
Qed.

(** A step that moves one worker between two places of the locked block,
    or into it when the mutex is free, or out of it. *)
Lemma inv_set_pc s w old new :
  pool_inv s -> pcs s !! w = Some old ->
  is_running old = false -> is_running new = false ->
  (holds_mutex new = true -> holds_mutex old = true \/ mutex_free s = true) ->
  (new = Popping -> tasks_ (pool s) <> []) ->
  pool_inv (set_pc w new s).
Proof.
  intros (H1 & H2 & H3 & H4 & H5) Hw Ro Rn Hm Hp.
  split; [|split; [|split; [|split]]].
  - intros a b pa pb Ha Hb Ma Mb.
    apply lookup_set_pc in Ha as [(-> & -> & _)|[Na Ha]];
      apply lookup_set_pc in Hb as [(-> & -> & _)|[Nb Hb]]; try reflexivity.
    + destruct (Hm Ma) as [Mo|Mf].
      * exact (H1 _ _ _ _ Hw Hb Mo Mb).
      * rewrite (proj1 (mutex_free_spec s) Mf _ _ Hb) in Mb. discriminate.
    + destruct (Hm Mb) as [Mo|Mf].
      * exact (H1 _ _ _ _ Ha Hw Ma Mo).
      * rewrite (proj1 (mutex_free_spec s) Mf _ _ Ha) in Ma. discriminate.
    + exact (H1 _ _ _ _ Ha Hb Ma Mb).
  - intros a Ha. cbn [pool set_pc].
    apply lookup_set_pc in Ha as [(-> & E & _)|[Na Ha]].
    + apply Hp. congruence.
    + apply (H2 a Ha).
  - exact H3.
  - exact H4.
  - cbn [pool set_pc pcs]. rewrite (running_count_insert _ _ _ _ Hw), Ro, Rn.
    cbn [Z.b2z]. rewrite H5. f_equal. lia.
Qed.

Lemma inv_pool_only s p' :
  pool_inv s ->
  tasks_ p' = tasks_ (pool s) -> stats_ p' = stats_ (pool s) ->
  pool_inv (MkSys p' (pcs s)).
Proof.
  intros (H1 & H2 & H3 & H4 & H5) Et Es.
  unfold pool_inv, one_holder, queue_ok. cbn [pool pcs]. rewrite Et, Es.
  auto.
Qed.

Lemma popping_blocks s w :
  pcs s !! w = Some Popping -> mutex_free s = false.
Proof.
  intros Hw. destruct (mutex_free s) eqn:E; [|reflexivity].
  pose proof (proj1 (mutex_free_spec s) E _ _ Hw) as H. discriminate H.
Qed.

Lemma inv_step e s s' : pool_inv s -> step e s = Some s' -> pool_inv s'.
Proof.
  intros Hinv Hstep. assert (Hinv' := Hinv).
  destruct Hinv' as (H1 & H2 & H3 & H4 & H5).
  destruct e as [prio f| | | |w|w|w|w|w]; cbn [step] in Hstep.
  - (* submit *)
    destruct (mutex_free s) eqn:Hfree; [|discriminate Hstep].
    unfold submit_with_priority, bind, get, modify, throw in Hstep.
    destruct (stop_ (pool s)); injection Hstep as <-.
    { apply inv_pool_only; [exact Hinv | reflexivity | reflexivity]. }
    destruct (pq_push_spec task_key no_task (MkTask f prio) (tasks_ (pool s)) H3)
      as [Q1 Q2].
    split; [exact H1|]. split; [|split; [exact Q1|split]].
    + intros w Hw. cbn [pcs] in Hw.
      rewrite (popping_blocks s w Hw) in Hfree. discriminate.
    + cbn [pool tasks_ stats_ add_pending add_submitted push_task set_stats
           set_tasks tasks_pending].
      rewrite pq_push_length, H4, u64_add_l. f_equal. lia.
    + cbn [pool pcs tasks_ stats_ add_pending add_submitted push_task set_stats
           set_tasks tasks_pending tasks_submitted tasks_completed].
      rewrite pq_push_length, u64_idem.
      rewrite (u64_congr _ _ 1 H5). f_equal. lia.
  - injection Hstep as <-. apply inv_pool_only; [exact Hinv|reflexivity..].
  - injection Hstep as <-. apply inv_pool_only; [exact Hinv|reflexivity..].
  - destruct (mutex_free s); [|discriminate Hstep]. injection Hstep as <-.
    apply inv_pool_only; [exact Hinv| |]; unfold shutdown;
      destruct (stop_ (pool s)); reflexivity.
  - (* wake *)
    destruct (pcs s !! w) as [[| | | | |]|] eqn:Hw; try discriminate Hstep.
    destruct (mutex_free s) eqn:Hfree; [|discriminate Hstep].
    destruct (wake_condition (pool s)); [|discriminate Hstep].
    injection Hstep as <-.
    apply (inv_set_pc s w Waiting Woken Hinv Hw); auto; discriminate.
  - (* stop check *)
    destruct (pcs s !! w) as [[| | | | |]|] eqn:Hw; try discriminate Hstep.
    destruct (stop_ (pool s) && _); injection Hstep as <-;
      apply (inv_set_pc s w Woken _ Hinv Hw); auto; discriminate.
  - (* pause check *)
    destruct (pcs s !! w) as [[| | | | |]|] eqn:Hw; try discriminate Hstep.
    destruct (Nat.eqb_spec (length (tasks_ (pool s))) 0) as [E0|N0];
      cbn [orb] in Hstep.
    { injection Hstep as <-.
      apply (inv_set_pc s w Checking _ Hinv Hw); auto; discriminate. }
    destruct (paused_ (pool s)); injection Hstep as <-;
      apply (inv_set_pc s w Checking _ Hinv Hw); auto; try discriminate.
    intros _ E. rewrite E in N0. apply N0. reflexivity.
  - (* pop *)
    destruct (pcs s !! w) as [[| | | | |]|] eqn:Hw; try discriminate Hstep.
    unfold take_top in Hstep. injection Hstep as <-.
    pose proof (H2 w Hw) as Hne.
    destruct (pq_pop_spec task_key no_task (tasks_ (pool s)) H3 Hne)
      as [Q1 Q2].
    pose proof (Permutation_length Q2) as Hlen. cbn [length] in Hlen.
    change (StdHeap.pq_pop (fun a b : Task => task_key a <? task_key b))
      with (StdHeap.pq_pop task_lt) in *.
    split; [|split; [|split; [exact Q1|split]]].
    + intros a b pa pb Ha Hb Ma Mb. cbn [pcs] in Ha, Hb.
      destruct (Nat.eq_dec a w) as [->|Na].
      { rewrite list_lookup_insert_eq in Ha by (eapply lookup_lt_Some; exact Hw).
        injection Ha as <-. discriminate Ma. }
      destruct (Nat.eq_dec b w) as [->|Nb].
      { rewrite list_lookup_insert_eq in Hb by (eapply lookup_lt_Some; exact Hw).
        injection Hb as <-. discriminate Mb. }
      rewrite list_lookup_insert_ne in Ha by congruence.
      rewrite list_lookup_insert_ne in Hb by congruence.
      exact (H1 _ _ _ _ Ha Hb Ma Mb).
    + intros a Ha. cbn [pcs] in Ha. exfalso.
      destruct (Nat.eq_dec a w) as [->|Na].
      { rewrite list_lookup_insert_eq in Ha by (eapply lookup_lt_Some; exact Hw).
        discriminate Ha. }
      rewrite list_lookup_insert_ne in Ha by congruence.
      apply Na. exact (H1 _ _ _ _ Ha Hw eq_refl eq_refl).
    + cbn [pool tasks_ stats_ start_task sub_pending set_stats set_tasks
           tasks_pending].
      rewrite H4.
      replace (u64 (Z.of_nat (length (tasks_ (pool s)))) - 1)
        with (u64 (Z.of_nat (length (tasks_ (pool s)))) + (-1)) by lia.
      rewrite u64_add_l. f_equal. lia.
    + cbn [pool pcs tasks_ stats_ start_task sub_pending set_stats set_tasks
           tasks_pending tasks_submitted tasks_completed].
      rewrite (running_count_insert _ _ _ _ Hw). cbn [is_running Z.b2z].
      rewrite H5. f_equal. lia.
  - (* finish *)
    destruct (pcs s !! w) as [[| | | |t|]|] eqn:Hw; try discriminate Hstep.
    injection Hstep as <-.
    split; [|split; [|split; [exact H3|split; [exact H4|]]]].
    + intros a b pa pb Ha Hb Ma Mb. cbn [pcs] in Ha, Hb.
      destruct (Nat.eq_dec a w) as [->|Na].
      { rewrite list_lookup_insert_eq in Ha by (eapply lookup_lt_Some; exact Hw).
        injection Ha as <-. discriminate Ma. }
      destruct (Nat.eq_dec b w) as [->|Nb].
      { rewrite list_lookup_insert_eq in Hb by (eapply lookup_lt_Some; exact Hw).
        injection Hb as <-. discriminate Mb. }
      rewrite list_lookup_insert_ne in Ha by congruence.
      rewrite list_lookup_insert_ne in Hb by congruence.
      exact (H1 _ _ _ _ Ha Hb Ma Mb).
    + intros a Ha. cbn [pcs pool finish_task tasks_] in *.
      destruct (Nat.eq_dec a w) as [->|Na].
      { rewrite list_lookup_insert_eq in Ha by (eapply lookup_lt_Some; exact Hw).
        discriminate Ha. }
      rewrite list_lookup_insert_ne in Ha by congruence.
      exact (H2 a Ha).
    + cbn [pool pcs tasks_ stats_ finish_task tasks_submitted tasks_completed].
      rewrite (running_count_insert _ _ _ _ Hw). cbn [is_running Z.b2z].
      rewrite H5, <- !Z.add_assoc, u64_add_l. f_equal. lia.
Qed.

Lemma lookup_repeat {A} (x y : A) n i : repeat x n !! i = Some y -> y = x.
Proof.
  intros H. apply list_elem_of_lookup_2, list_elem_of_In in H.
  eapply repeat_spec. exact H.
Qed.

Lemma inv_start n : pool_inv (start_sys n).
Proof.
  split; [|split; [|split; [|split]]].
  - intros w w' pc pc' Hw _ Mw _. cbn [start_sys pcs] in Hw.
    apply lookup_repeat in Hw as ->. discriminate Mw.
  - intros w Hw. cbn [start_sys pcs] in Hw.
    apply lookup_repeat in Hw. discriminate Hw.
  - intros i Hi. cbn in Hi. lia.
  - reflexivity.
  - cbn [start_sys pool pcs new_pool stats_ tasks_submitted tasks_completed
         tasks_ length].
    unfold running_count.
    replace (List.filter is_running (repeat Waiting n)) with (@nil WorkerPc);
      [reflexivity|].
    induction n as [|n IH]; [reflexivity | exact IH].
Qed.

Lemma inv_run evs : forall s s',
  pool_inv s -> run_events evs s = Some s' -> pool_inv s'.
Proof.
  induction evs as [|e evs IH]; intros s s' Hinv Hrun; cbn [run_events] in Hrun.
  - injection Hrun as <-. exact Hinv.
  - destruct (step e s) as [s1|] eqn:E; [|discriminate Hrun].
    exact (IH s1 s' (inv_step e s s1 Hinv E) Hrun).
Qed.

(** X15. In every state a pool of [n] workers reaches by calls of [submit],
    [pause], [resume] and [shutdown] and steps of its workers, the counter
    [tasks_pending] is the length of the queue and every task ever counted
    by [tasks_submitted] is queued, taken by a worker that has not yet
    counted it completed, or counted by [tasks_completed], all modulo
    2^64; and the queue is a heap on the priority. *)
Theorem pool_counters_conserved (n : nat) (evs : list Event) (s : Sys) :
  run_events evs (start_sys n) = Some s ->
  tasks_pending (stats_ (pool s)) = u64 (pending (pool s))
  /\ u64 (tasks_submitted (stats_ (pool s)))
     = u64 (tasks_completed (stats_ (pool s)) + running_count (pcs s)
            + pending (pool s))
  /\ queue_ok (pool s).
Proof.
  intros Hrun.
  destruct (inv_run evs _ _ (inv_start n) Hrun) as (_ & _ & H3 & H4 & H5).
  auto.
Qed.

Lemma pool_counters_conserved_witness :
  let evs := [ClientSubmit HIGH (Work 1); ClientSubmit LOW (Work 2);
              WorkerWake 0; WorkerStopCheck 0; WorkerPauseCheck 0;
              WorkerPop 0; ClientSubmit NORMAL (Work 3); WorkerFinish 0] in
  exists s,
    run_events evs (start_sys 2) = Some s
    /\ tasks_pending (stats_ (pool s)) = u64 (pending (pool s))
    /\ u64 (tasks_submitted (stats_ (pool s)))
       = u64 (tasks_completed (stats_ (pool s)) + running_count (pcs s)
              + pending (pool s))
    /\ queue_ok (pool s).
Proof.
  intros evs.
  destruct (run_events evs (start_sys 2)) as [s|] eqn:E;
    [|vm_compute in E; discriminate E].
  exists s. split; [reflexivity|].
  exact (pool_counters_conserved 2 evs s E).
Defined.

(** X16. In every such state a worker about to call [tasks_.top()] finds the
    queue non-empty; the task it takes has the highest priority among the
    queued ones, and the queue loses that task and no other. *)
Theorem worker_pop_takes_max (n : nat) (evs : list Event) (s s' : Sys)
  (w : nat) :
  run_events evs (start_sys n) = Some s ->
  step (WorkerPop w) s = Some s' ->
  exists t,
    pcs s' !! w = Some (Running t)
    /\ tasks_ (pool s) <> []
    /\ tasks_ (pool s) ≡ₚ t :: tasks_ (pool s')
    /\ (forall u, In u (tasks_ (pool s)) ->
                  priority_value (priority u) <= priority_value (priority t))
    /\ queue_ok (pool s').
Proof.
  intros Hrun Hstep.
  destruct (inv_run evs _ _ (inv_start n) Hrun) as (_ & H2 & H3 & _).
  cbn [step] in Hstep.
  destruct (pcs s !! w) as [[| | | | |]|] eqn:Hw; try discriminate Hstep.
  unfold take_top in Hstep. injection Hstep as <-.
  pose proof (H2 w Hw) as Hne.
  destruct (pq_pop_spec task_key no_task (tasks_ (pool s)) H3 Hne) as [Q1 Q2].
  exists (StdHeap.pq_top no_task (tasks_ (pool s))).
  split; [cbn [pcs]; apply list_lookup_insert_eq; eapply lookup_lt_Some; exact Hw|].
  split; [exact Hne|]. split; [exact Q2|]. split; [|exact Q1].
  intros u Hu. apply list_elem_of_In, list_elem_of_lookup in Hu as [i Hi].
  pose proof (lookup_lt_Some _ _ _ Hi) as Hlt.
  rewrite (lookup_nth no_task _ i Hlt) in Hi. injection Hi as <-.
  apply (heap_top_max task_key no_task _ H3 i Hlt).
Qed.

Lemma worker_pop_takes_max_witness :
  let evs := [ClientSubmit LOW (Work 1); ClientSubmit CRITICAL (Work 2);
              ClientSubmit NORMAL (Work 3);
              WorkerWake 1; WorkerStopCheck 1; WorkerPauseCheck 1] in
  exists s s',
    run_events evs (start_sys 2) = Some s
    /\ step (WorkerPop 1) s = Some s'
    /\ exists t,
         pcs s' !! 1%nat = Some (Running t)
         /\ tasks_ (pool s) <> []
         /\ tasks_ (pool s) ≡ₚ t :: tasks_ (pool s')
         /\ (forall u, In u (tasks_ (pool s)) ->
                       priority_value (priority u)
                       <= priority_value (priority t))
         /\ queue_ok (pool s').
Proof.
  intros evs.
  destruct (run_events evs (start_sys 2)) as [s|] eqn:E;
    [|vm_compute in E; discriminate E].
  destruct (step (WorkerPop 1) s) as [s'|] eqn:E';
    [|vm_compute in E; injection E as <-; vm_compute in E'; discriminate E'].
  exists s, s'. split; [reflexivity|]. split; [exact E'|].
  exact (worker_pop_takes_max 2 evs s s' 1 E E').
Defined.

End PoolInvariants.

Section ShutdownPaused.
Import Mach Exn ThreadPool PoolRuns.

Lemma lookup_insert_cases {A} (l : list A) i j x y :
  <[i := x]> l !! j = Some y -> (j = i /\ y = x) \/ (j <> i /\ l !! j = Some y).
Proof.
  intros H. destruct (Nat.eq_dec j i) as [->|Hne].
  - pose proof (lookup_lt_Some _ _ _ H) as Hlt. rewrite length_insert in Hlt.
    rewrite list_lookup_insert_eq in H by exact Hlt. injection H as <-. auto.
  - rewrite list_lookup_insert_ne in H by congruence. auto.
Qed.

(** One step of a pool that is stopped and paused with tasks queued: unless
    the step is [resume], the pool stays so, the queue is untouched, no
    worker leaves [worker_loop] and none starts a task. *)
Lemma stuck_step e s s' :
  stuck s -> e <> ClientResume -> step e s = Some s' ->
  stuck s'
  /\ tasks_ (pool s') = tasks_ (pool s)
  /\ (forall w, pcs s' !! w = Some Exited -> pcs s !! w = Some Exited)
  /\ (forall w t, pcs s' !! w = Some (Running t) ->
                  pcs s !! w = Some (Running t)).
Proof.
  intros (Hs & Hp & Hq & Hpc) Hne Hstep.
  assert (Keep : forall w pc,
            pcs s !! w <> None -> pc <> Popping -> pc <> Exited ->
            (forall t, pc <> Running t) ->
            stuck (set_pc w pc s)
            /\ tasks_ (pool (set_pc w pc s)) = tasks_ (pool s)
            /\ (forall w', pcs (set_pc w pc s) !! w' = Some Exited ->
                           pcs s !! w' = Some Exited)
            /\ (forall w' t, pcs (set_pc w pc s) !! w' = Some (Running t) ->
                             pcs s !! w' = Some (Running t))).
  { intros w pc _ N1 N2 N3. split; [|split; [reflexivity|split]].
    - split; [exact Hs|]. split; [exact Hp|]. split; [exact Hq|].
      apply set_pc_not_popping; assumption.
    - intros w' H. cbn [set_pc pcs] in H.
      apply lookup_insert_cases in H as [[_ E]|[_ H]]; [congruence | exact H].
    - intros w' t H. cbn [set_pc pcs] in H.
      apply lookup_insert_cases in H as [[_ E]|[_ H]];
        [exfalso; apply (N3 t); congruence | exact H]. }
  destruct e as [prio f| | | |w|w|w|w|w]; cbn [step] in Hstep.
  - destruct (mutex_free s); [|discriminate Hstep].
    unfold submit_with_priority, bind, get, modify, throw in Hstep.
    rewrite Hs in Hstep. injection Hstep as <-.
    repeat split; auto.
  - injection Hstep as <-. repeat split; auto.
  - contradiction.
  - destruct (mutex_free s); [|discriminate Hstep]. injection Hstep as <-.
    unfold shutdown. rewrite Hs. repeat split; auto.
  - destruct (pcs s !! w) as [[| | | | |]|] eqn:Hw; try discriminate Hstep.
    destruct (mutex_free s && wake_condition (pool s)); [|discriminate Hstep].
    injection Hstep as <-. apply Keep; congruence.
  - destruct (pcs s !! w) as [[| | | | |]|] eqn:Hw; try discriminate Hstep.
    destruct (Nat.eqb_spec (length (tasks_ (pool s))) 0) as [E0|N0].
    { destruct (tasks_ (pool s)); [contradiction | discriminate E0]. }
    rewrite andb_false_r in Hstep. injection Hstep as <-.
    apply Keep; congruence.
  - destruct (pcs s !! w) as [[| | | | |]|] eqn:Hw; try discriminate Hstep.
    rewrite Hp, orb_true_r in Hstep. injection Hstep as <-.
    apply Keep; congruence.
  - destruct (pcs s !! w) as [[| | | | |]|] eqn:Hw; try discriminate Hstep.
    exfalso. exact (Hpc w Hw).
  - destruct (pcs s !! w) as [[| | | |t|]|] eqn:Hw; try discriminate Hstep.
    injection Hstep as <-.
    split; [|split; [reflexivity|split]].
    + split; [exact Hs|]. split; [exact Hp|]. split; [exact Hq|].
      apply (set_pc_not_popping (MkSys (finish_task (pool s)) (pcs s)));
        [discriminate | exact Hpc].
    + intros w' H. cbn [pcs] in H.
      apply lookup_insert_cases in H as [[_ E]|[_ H]]; [discriminate E | exact H].
    + intros w' t' H. cbn [pcs] in H.
      apply lookup_insert_cases in H as [[_ E]|[_ H]]; [discriminate E | exact H].
Qed.

(** X17. A pool shut down while it is paused and holds queued tasks never gets
    its workers back: as long as nobody calls [resume], whatever the
    clients and the workers do, the queue keeps its tasks, no worker starts
    one and no worker returns from [worker_loop], so the [join] of
    [shutdown], and with it the destructor, does not return. *)
Theorem shutdown_while_paused_hangs (evs : list Event) (s s' : Sys) :
  stuck s -> ~ In ClientResume evs -> run_events evs s = Some s' ->
  stuck s'
  /\ tasks_ (pool s') = tasks_ (pool s)
  /\ (forall w, pcs s' !! w = Some Exited -> pcs s !! w = Some Exited)
  /\ (forall w t, pcs s' !! w = Some (Running t) ->
                  pcs s !! w = Some (Running t)).
Proof.
  revert s. induction evs as [|e evs IH]; intros s Hst Hno Hrun;
    cbn [run_events] in Hrun.
  - injection Hrun as <-. auto.
  - destruct (step e s) as [s1|] eqn:E; [|discriminate Hrun].
    assert (He : e <> ClientResume) by (intros ->; apply Hno; left; reflexivity).
    destruct (stuck_step e s s1 Hst He E) as (S1 & T1 & X1 & R1).
    destruct (IH s1 S1 (fun H => Hno (or_intror H)) Hrun) as (S2 & T2 & X2 & R2).
    split; [exact S2|]. split; [congruence|]. split.
    + intros w H. apply X1, X2, H.
    + intros w t H. apply R1, R2, H.
Qed.

(** The state after [pause(); submit(t); shutdown()] on two workers, and
    both workers going round their loop in it. *)
Lemma shutdown_while_paused_hangs_witness :
  let evs := [WorkerWake 0; WorkerStopCheck 0; WorkerPauseCheck 0;
              WorkerWake 1; WorkerStopCheck 1; WorkerPauseCheck 1;
              ClientPause; WorkerWake 0] in
  exists s s',
    run_events pause_submit_shutdown (start_sys 2) = Some s
    /\ stuck s /\ ~ In ClientResume evs /\ run_events evs s = Some s'
    /\ stuck s'
    /\ tasks_ (pool s') = tasks_ (pool s)
    /\ (forall w, pcs s' !! w = Some Exited -> pcs s !! w = Some Exited)
    /\ (forall w t, pcs s' !! w = Some (Running t) ->
                    pcs s !! w = Some (Running t)).
Proof.
  intros evs.
  destruct (run_events pause_submit_shutdown (start_sys 2)) as [s|] eqn:E;
    [|vm_compute in E; discriminate E].
  assert (Es := E). vm_compute in Es. injection Es as Es.
  assert (Hst : stuck s).
  { rewrite <- Es. split; [reflexivity|]. split; [reflexivity|].
    split; [discriminate|].
    intros [|[|w]] H; cbn in H; discriminate H. }
  assert (Hno : ~ In ClientResume evs).
  { intros H. cbn in H. repeat (destruct H as [H|H]; [discriminate H|]). exact H. }
  destruct (run_events evs s) as [s'|] eqn:E';
    [|rewrite <- Es in E'; vm_compute in E'; discriminate E'].
  exists s, s'. split; [reflexivity|]. split; [exact Hst|]. split; [exact Hno|].
  split; [exact E'|].
  exact (shutdown_while_paused_hangs evs s s' Hst Hno E').
Defined.

End ShutdownPaused.

Section ParallelReduceFacts.
Import Mach Exn ThreadPool ParallelReduce.
Context {T : Type} (identity : T) (map_func : Z -> T)
        (reduce_func : T -> T -> T).
Context (assoc : forall a b c,
            reduce_func (reduce_func a b) c = reduce_func a (reduce_func b c))
        (id_l : forall a, reduce_func identity a = a)
        (id_r : forall a, reduce_func a identity = a).

Lemma reduce_loop_from a js :
  reduce_loop map_func reduce_func a js
  = reduce_func a (reduce_loop map_func reduce_func identity js).
Proof.
  revert a. induction js as [|j js IH]; intros a; cbn [reduce_loop fold_left].
  - symmetry. apply id_r.
  - unfold reduce_loop in IH. rewrite (IH (reduce_func a (map_func j))).
    rewrite (IH (reduce_func identity (map_func j))).
    rewrite id_l, assoc. reflexivity.
Qed.

Lemma reduce_chunks futures : forall a,
  fold_left (fun result f =>
               reduce_func result (chunk_result identity map_func reduce_func f))
            futures a
  = reduce_loop map_func reduce_func a (flat_map closure_calls futures).
Proof.
  induction futures as [|f fs IH]; intros a; cbn [fold_left flat_map].
  - reflexivity.
  - rewrite IH. unfold chunk_result, reduce_loop. rewrite fold_left_app.
    f_equal. symmetry. apply reduce_loop_from.
Qed.


End ParallelReduceFacts.

Section ParallelReduceTest.
Import Mach Exn ThreadPool ParallelReduce.


Example parallel_reduce_sum :
  sequential_reduce 0 (fun i => i) Z.add 1 1001 = 500500.
Proof. vm_compute. reflexivity. Qed.

End ParallelReduceTest.

(** ** The thread pool: [wait()] *)

Section WaitFacts.
Import Mach Exn ThreadPool WaitRuns.

Lemma count_insert (f : Pc -> bool) pcs w old new :
  pcs !! w = Some old ->
  count f (<[w := new]> pcs) = count f pcs - Z.b2z (f old) + Z.b2z (f new).
Proof.
  intros Hw. pose proof (lookup_lt_Some _ _ _ Hw) as Hlt.
  rewrite insert_take_drop by exact Hlt.
  rewrite <- (take_drop_middle pcs w old Hw) at 3.
  unfold count. rewrite !List.filter_app. cbn [List.filter].
  destruct (f old), (f new);
    rewrite !length_app; cbn [length Z.b2z]; lia.
Qed.

Lemma count_bounds (f : Pc -> bool) pcs :
  0 <= count f pcs <= Z.of_nat (length pcs).
Proof.
  unfold count. pose proof (List.filter_length_le f pcs). lia.
Qed.

Lemma count_zero (f : Pc -> bool) pcs w pc :
  count f pcs = 0 -> pcs !! w = Some pc -> f pc = false.
Proof.
  unfold count. intros H Hw.
  destruct (f pc) eqn:E; [|reflexivity]. exfalso.
  assert (Hin : In pc (List.filter f pcs)).
  { apply filter_In. split; [|exact E].
    apply list_elem_of_In. eapply list_elem_of_lookup_2. exact Hw. }
  destruct (List.filter f pcs); [destruct Hin | cbn in H; lia].
Qed.

Lemma fmutex_free_spec s :
  fmutex_free s = true <->
  forall w pc, fpcs s !! w = Some pc -> fholds pc = false.
Proof.
  unfold fmutex_free. rewrite forallb_forall. split.
  - intros H w pc Hw. apply negb_true_iff, H.
    apply list_elem_of_In. eapply list_elem_of_lookup_2. exact Hw.
  - intros H pc Hin. apply list_elem_of_In, list_elem_of_lookup in Hin as [w Hw].
    apply negb_true_iff. eapply H. exact Hw.
Qed.

Lemma lookup_insert_pc (l : list Pc) w pc w' pc' :
  <[w := pc]> l !! w' = Some pc' ->
  (w' = w /\ pc' = pc) \/ (w' <> w /\ l !! w' = Some pc').
Proof.
  intros H. destruct (Nat.eq_dec w' w) as [->|Hne].
  - pose proof (lookup_lt_Some _ _ _ H) as Hlt. rewrite length_insert in Hlt.
    rewrite list_lookup_insert_eq in H by exact Hlt. injection H as <-.
    left. auto.
  - rewrite list_lookup_insert_ne in H by congruence. right. auto.
Qed.

(** A step that changes the place of one worker and, outside the locked
    block, the pool. *)
Lemma finv_move s w old new p' :
  finv s -> fpcs s !! w = Some old ->
  (fholds new = true -> fholds old = true \/ fmutex_free s = true) ->
  (new = At Popping -> tasks_ p' <> []) ->
  ((forall a, a <> w -> fpcs s !! a <> Some (At Popping)) \/
   tasks_ p' = tasks_ (fpool s)) ->
  queue_ok p' ->
  u64 (tasks_submitted (stats_ p'))
  = u64 (tasks_completed (stats_ p')
         + (count is_started (fpcs s) - Z.b2z (is_started old)
            + Z.b2z (is_started new))
         + (count is_taken (fpcs s) - Z.b2z (is_taken old)
            + Z.b2z (is_taken new))
         + Z.of_nat (length (tasks_ p'))) ->
  active_tasks_ p'
  = u64 (count is_started (fpcs s) - Z.b2z (is_started old)
         + Z.b2z (is_started new)) ->
  finv (MkFSys p' (<[w := new]> (fpcs s))).
Proof.
  intros (H1 & H2 & H3 & H4 & H5) Hw Hm Hp Hq Q S A.
  split; [|split; [|split; [exact Q|split]]]; cbn [fpool fpcs].
  - intros a b pa pb Ha Hb Ma Mb.
    apply lookup_insert_pc in Ha as [[-> ->]|[Na Ha]];
      apply lookup_insert_pc in Hb as [[-> ->]|[Nb Hb]]; try reflexivity.
    + destruct (Hm Ma) as [Mo|Mf].
      * exact (H1 _ _ _ _ Hw Hb Mo Mb).
      * rewrite (proj1 (fmutex_free_spec s) Mf _ _ Hb) in Mb. discriminate.
    + destruct (Hm Mb) as [Mo|Mf].
      * exact (H1 _ _ _ _ Ha Hw Ma Mo).
      * rewrite (proj1 (fmutex_free_spec s) Mf _ _ Ha) in Ma. discriminate.
    + exact (H1 _ _ _ _ Ha Hb Ma Mb).
  - intros a Ha.
    apply lookup_insert_pc in Ha as [[-> E]|[Na Ha]].
    + apply Hp. congruence.
    + destruct Hq as [Hq|Hq]; [exfalso; exact (Hq a Na Ha)|].
      rewrite Hq. exact (H2 a Ha).
  - rewrite !(count_insert _ _ _ _ _ Hw). exact S.
  - rewrite (count_insert _ _ _ _ _ Hw). exact A.
Qed.

Lemma finv_pool_only s p' :
  finv s ->
  tasks_ p' = tasks_ (fpool s) -> stats_ p' = stats_ (fpool s) ->
  active_tasks_ p' = active_tasks_ (fpool s) ->
  finv (MkFSys p' (fpcs s)).
Proof.
  intros (H1 & H2 & H3 & H4 & H5) Et Es Ea.
  unfold finv, queue_ok. cbn [fpool fpcs]. rewrite Et, Es, Ea. auto.
Qed.

Lemma fpopping_blocks s w :
  fpcs s !! w = Some (At Popping) -> fmutex_free s = false.
Proof.
  intros Hw. destruct (fmutex_free s) eqn:E; [|reflexivity].
  pose proof (proj1 (fmutex_free_spec s) E _ _ Hw) as H. discriminate H.
Qed.

Lemma finv_step e s s' : finv s -> fstep e s = Some s' -> finv s'.
Proof.
  intros Hinv Hstep. assert (Hinv' := Hinv).
  destruct Hinv' as (H1 & H2 & H3 & H4 & H5).
  assert (S0 : u64 (tasks_submitted (stats_ (fpool s)))
               = u64 (tasks_completed (stats_ (fpool s))
                      + (count is_started (fpcs s) - 0 + 0)
                      + (count is_taken (fpcs s) - 0 + 0)
                      + Z.of_nat (length (tasks_ (fpool s)))))
    by (rewrite H4; f_equal; lia).
  assert (A0 : active_tasks_ (fpool s)
               = u64 (count is_started (fpcs s) - 0 + 0))
    by (rewrite H5; f_equal; lia).
  destruct e as [prio f| | | |w|w|w|w|w|w]; cbn [fstep] in Hstep.
  - (* submit *)
    destruct (fmutex_free s) eqn:Hfree; [|discriminate Hstep].
    unfold submit_with_priority, bind, get, modify, throw in Hstep.
    destruct (stop_ (fpool s)); injection Hstep as <-.
    { apply finv_pool_only; [exact Hinv | reflexivity..]. }
    destruct (pq_push_spec task_key no_task (MkTask f prio) (tasks_ (fpool s)) H3)
      as [Q1 Q2].
    split; [exact H1|]. split; [|split; [exact Q1|split]].
    + intros w Hw. cbn [fpcs] in Hw.
      rewrite (fpopping_blocks s w Hw) in Hfree. discriminate.
    + cbn [fpool fpcs tasks_ stats_ add_pending add_submitted push_task
           set_stats set_tasks tasks_pending tasks_submitted tasks_completed].
      rewrite pq_push_length, u64_idem.
      rewrite (u64_congr _ _ 1 H4). f_equal. lia.
    + exact H5.
  - injection Hstep as <-. apply finv_pool_only; [exact Hinv|reflexivity..].
  - injection Hstep as <-. apply finv_pool_only; [exact Hinv|reflexivity..].
  - destruct (fmutex_free s); [|discriminate Hstep]. injection Hstep as <-.
    apply finv_pool_only; [exact Hinv|..]; unfold shutdown;
      destruct (stop_ (fpool s)); reflexivity.
  - (* wake *)
    destruct (fpcs s !! w) as [[[| | | | |]|]|] eqn:Hw; try discriminate Hstep.
    destruct (fmutex_free s) eqn:Hfree; [|discriminate Hstep].
    destruct (wake_condition (fpool s)); [|discriminate Hstep].
    injection Hstep as <-.
    apply (finv_move s w (At Waiting) (At Woken) (fpool s) Hinv Hw);
      auto; discriminate.
  - (* stop check *)
    destruct (fpcs s !! w) as [[[| | | | |]|]|] eqn:Hw; try discriminate Hstep.
    destruct (stop_ (fpool s) && _); injection Hstep as <-;
      apply (finv_move s w (At Woken) _ (fpool s) Hinv Hw); auto; discriminate.
  - (* pause check *)
    destruct (fpcs s !! w) as [[[| | | | |]|]|] eqn:Hw; try discriminate Hstep.
    destruct (Nat.eqb_spec (length (tasks_ (fpool s))) 0) as [E0|N0];
      cbn [orb] in Hstep.
    { injection Hstep as <-.
      apply (finv_move s w (At Checking) _ (fpool s) Hinv Hw); auto; discriminate. }
    destruct (paused_ (fpool s)); injection Hstep as <-;
      apply (finv_move s w (At Checking) _ (fpool s) Hinv Hw); auto;
      try discriminate.
    intros _ E. rewrite E in N0. apply N0. reflexivity.
  - (* pop *)
    destruct (fpcs s !! w) as [[[| | | | |]|]|] eqn:Hw; try discriminate Hstep.
    unfold take_top in Hstep. injection Hstep as <-.
    pose proof (H2 w Hw) as Hne.
    destruct (pq_pop_spec task_key no_task (tasks_ (fpool s)) H3 Hne)
      as [Q1 Q2].
    pose proof (Permutation_length Q2) as Hlen. cbn [length] in Hlen.
    change (StdHeap.pq_pop (fun a b : Task => task_key a <? task_key b))
      with (StdHeap.pq_pop task_lt) in *.
    apply (finv_move s w (At Popping) _ _ Hinv Hw).
    + discriminate.
    + discriminate.
    + left. intros a Na Ha. apply Na. exact (H1 _ _ _ _ Ha Hw eq_refl eq_refl).
    + exact Q1.
    + cbn [fpool tasks_ stats_ sub_pending set_stats set_tasks
           tasks_submitted tasks_completed is_started is_taken Z.b2z].
      rewrite H4. f_equal. lia.
    + cbn [fpool tasks_ stats_ sub_pending set_stats set_tasks active_tasks_
           is_started Z.b2z]. exact A0.
  - (* start *)
    destruct (fpcs s !! w) as [[[| | | | |]|t]|] eqn:Hw; try discriminate Hstep.
    injection Hstep as <-.
    apply (finv_move s w (Taken t) _ _ Hinv Hw).
    + discriminate.
    + discriminate.
    + right. reflexivity.
    + exact H3.
    + cbn [fpool tasks_ stats_ start_task tasks_submitted tasks_completed
           is_started is_taken Z.b2z].
      rewrite H4. f_equal. lia.
    + cbn [fpool start_task active_tasks_ is_started Z.b2z].
      rewrite H5, u64_add_l. f_equal. lia.
  - (* finish *)
    destruct (fpcs s !! w) as [[[| | | |t|]|]|] eqn:Hw; try discriminate Hstep.
    injection Hstep as <-.
    apply (finv_move s w (At (Running t)) _ _ Hinv Hw).
    + discriminate.
    + discriminate.
    + right. reflexivity.
    + exact H3.
    + cbn [fpool tasks_ stats_ finish_task tasks_submitted tasks_completed
           is_started is_taken Z.b2z].
      rewrite H4, <- !Z.add_assoc, u64_add_l. f_equal. lia.
    + cbn [fpool finish_task active_tasks_ is_started Z.b2z].
      rewrite H5.
      replace (u64 (count is_started (fpcs s)) - 1)
        with (u64 (count is_started (fpcs s)) + (-1)) by lia.
      rewrite u64_add_l. f_equal. lia.
Qed.

Lemma finv_start n : finv (fstart n).
Proof.
  assert (C : forall f, f (At Waiting) = false ->
                        count f (repeat (At Waiting) n) = 0).
  { intros f Hf. unfold count.
    replace (List.filter f (repeat (At Waiting) n)) with (@nil Pc);
      [reflexivity|].
    induction n as [|k IH]; [reflexivity | cbn; rewrite Hf; exact IH]. }
  split; [|split; [|split; [|split]]].
  - intros w w' pc pc' Hw _ Mw _. cbn [fstart fpcs] in Hw.
    apply lookup_repeat in Hw as ->. discriminate Mw.
  - intros w Hw. cbn [fstart fpcs] in Hw.
    apply lookup_repeat in Hw. discriminate Hw.
  - intros i Hi. cbn in Hi. lia.
  - cbn [fstart fpool fpcs new_pool stats_ tasks_submitted tasks_completed
         tasks_ length].
    rewrite !C by reflexivity. reflexivity.
  - cbn [fstart fpool fpcs new_pool active_tasks_].
    rewrite C by reflexivity. reflexivity.
Qed.

Lemma finv_run evs : forall s s',
  finv s -> frun evs s = Some s' -> finv s'.
Proof.
  induction evs as [|e evs IH]; intros s s' Hinv Hrun; cbn [frun] in Hrun.
  - injection Hrun as <-. exact Hinv.
  - destruct (fstep e s) as [s1|] eqn:E; [|discriminate Hrun].
    exact (IH s1 s' (finv_step e s s1 Hinv E) Hrun).
Qed.

Lemma fstep_length e s s' :
  fstep e s = Some s' -> length (fpcs s') = length (fpcs s).
Proof.
  intros H. destruct e as [prio f| | | |w|w|w|w|w|w]; cbn [fstep] in H.
  - destruct (fmutex_free s); [|discriminate H].
    destruct (submit_with_priority prio f (fpool s)); injection H as <-;
      reflexivity.
  - injection H as <-. reflexivity.
  - injection H as <-. reflexivity.
  - destruct (fmutex_free s); [|discriminate H]. injection H as <-. reflexivity.
  - destruct (fpcs s !! w) as [[[| | | | |]|]|]; try discriminate H.
    destruct (_ && _); [|discriminate H]. injection H as <-.
    apply length_insert.
  - destruct (fpcs s !! w) as [[[| | | | |]|]|]; try discriminate H.
    destruct (_ && _); injection H as <-; apply length_insert.
  - destruct (fpcs s !! w) as [[[| | | | |]|]|]; try discriminate H.
    destruct (_ || _); injection H as <-; apply length_insert.
  - destruct (fpcs s !! w) as [[[| | | | |]|]|]; try discriminate H.
    unfold take_top in H. injection H as <-. apply length_insert.
  - destruct (fpcs s !! w) as [[[| | | | |]|]|]; try discriminate H.
    injection H as <-. apply length_insert.
  - destruct (fpcs s !! w) as [[[| | | | |]|]|]; try discriminate H.
    injection H as <-. apply length_insert.
Qed.

Lemma frun_length evs : forall s s',
  frun evs s = Some s' -> length (fpcs s') = length (fpcs s).
Proof.
  induction evs as [|e evs IH]; intros s s' Hrun; cbn [frun] in Hrun.
  - injection Hrun as <-. reflexivity.
  - destruct (fstep e s) as [s1|] eqn:E; [|discriminate Hrun].
    rewrite (IH s1 s' Hrun). exact (fstep_length e s s1 E).
Qed.



End WaitFacts.

(** ** Bloom filters: bits, [add] as insertion, [clear] *)

Section BloomFilterBits.
Import Mach BloomFilter.

Lemma shiftr_land_1 b k :
  0 <= k -> (Z.land (Z.shiftr b k) 1 =? 0) = negb (Z.testbit b k).
Proof.
  intros Hk. change 1 with (Z.ones 1). rewrite Z.land_ones by lia.
  change (2 ^ 1) with 2. rewrite Z.shiftr_div_pow2 by lia.
  rewrite <- Z.testbit_spec' by lia.
  destruct (Z.testbit b k); reflexivity.
Qed.

(** X20. [test_bit] after [set_bit] answers true at the position set and as
    before at every other position; the vector keeps its length; both have
    no defined result outside the vector. *)
Theorem bloomfilter_bits (bits_ : list Z) (pos q : Z) :
  0 <= pos < 8 * Z.of_nat (length bits_) ->
  0 <= q < 8 * Z.of_nat (length bits_) ->
  exists bits', set_bit bits_ pos = Some bits'
    /\ memory_usage bits' = memory_usage bits_
    /\ test_bit bits' pos = Some true
    /\ (q <> pos -> test_bit bits' q = test_bit bits_ q)
    /\ (test_bit bits_ q = Some true -> test_bit bits' q = Some true).
Proof.
  intros Hp Hq. unfold set_bit, test_bit, memory_usage.
  assert (Hk : 0 <= pos mod 8 < 8) by (apply Z.mod_pos_bound; lia).
  assert (Hkq : 0 <= q mod 8 < 8) by (apply Z.mod_pos_bound; lia).
  assert (Hidx : (Z.to_nat (pos / 8) < length bits_)%nat).
  { assert (pos / 8 < Z.of_nat (length bits_))
      by (apply Z.div_lt_upper_bound; lia).
    assert (0 <= pos / 8) by (apply Z.div_pos; lia). lia. }
  destruct (lookup_lt_is_Some_2 bits_ _ Hidx) as [b Hb]. rewrite Hb.
  eexists. split; [reflexivity|]. rewrite length_insert.
  split; [reflexivity|].
  assert (Hbit : forall k, 0 <= k < 8 ->
            Z.testbit (u8 (Z.lor b (Z.shiftl 1 (pos mod 8)))) k
            = Z.testbit b k || (k =? pos mod 8)).
  { intros k Hk8. unfold u8. rewrite Z.mod_pow2_bits_low by lia.
    rewrite Z.lor_spec, Z.shiftl_1_l, Z.pow2_bits_eqb by lia.
    rewrite (Z.eqb_sym (pos mod 8) k). reflexivity. }
  assert (Hsame : forall r, 0 <= r -> r / 8 = pos / 8 ->
            <[Z.to_nat (pos / 8) := u8 (Z.lor b (Z.shiftl 1 (pos mod 8)))]> bits_
              !! Z.to_nat (r / 8)
            = Some (u8 (Z.lor b (Z.shiftl 1 (pos mod 8))))).
  { intros r Hr E. rewrite E. apply list_lookup_insert_eq, Hidx. }
  assert (Hother : forall r, 0 <= r -> r / 8 <> pos / 8 ->
            <[Z.to_nat (pos / 8) := u8 (Z.lor b (Z.shiftl 1 (pos mod 8)))]> bits_
              !! Z.to_nat (r / 8)
            = bits_ !! Z.to_nat (r / 8)).
  { intros r Hr E. apply list_lookup_insert_ne.
    assert (0 <= r / 8) by (apply Z.div_pos; lia).
    assert (0 <= pos / 8) by (apply Z.div_pos; lia). lia. }
  split; [|split].
  - rewrite (Hsame pos) by lia. rewrite shiftr_land_1, negb_involutive by lia.
    rewrite Hbit, Z.eqb_refl, orb_true_r by lia. reflexivity.
  - intros Hne. destruct (Z.eq_dec (q / 8) (pos / 8)) as [E|E].
    + rewrite (Hsame q) by lia. rewrite E, Hb.
      rewrite !shiftr_land_1, Hbit by lia.
      destruct (Z.eqb_spec (q mod 8) (pos mod 8)) as [E2|_];
        [|rewrite orb_false_r; reflexivity].
      exfalso. apply Hne.
      pose proof (Z.div_mod q 8 ltac:(lia)).
      pose proof (Z.div_mod pos 8 ltac:(lia)). lia.
    + rewrite (Hother q) by lia. reflexivity.
  - destruct (Z.eq_dec (q / 8) (pos / 8)) as [E|E].
    + rewrite (Hsame q) by lia. rewrite E, Hb.
      rewrite !shiftr_land_1, !negb_involutive, Hbit by lia.
      intros [= ->]. reflexivity.
    + rewrite (Hother q) by lia. auto.
Qed.

Lemma bloomfilter_bits_witness :
  let bits_ := [0; 129; 0] in
  0 <= 9 < 8 * Z.of_nat (length bits_)
  /\ 0 <= 15 < 8 * Z.of_nat (length bits_)
  /\ exists bits', set_bit bits_ 9 = Some bits'
       /\ memory_usage bits' = memory_usage bits_
       /\ test_bit bits' 9 = Some true
       /\ (15 <> 9 -> test_bit bits' 15 = test_bit bits_ 15)
       /\ (test_bit bits_ 15 = Some true -> test_bit bits' 15 = Some true).
Proof.
  intros bits_.
  assert (H1 : 0 <= 9 < 8 * Z.of_nat (length bits_)) by (cbn; lia).
  assert (H2 : 0 <= 15 < 8 * Z.of_nat (length bits_)) by (cbn; lia).
  split; [exact H1|]. split; [exact H2|].
  exact (bloomfilter_bits bits_ 9 15 H1 H2).
Defined.

End BloomFilterBits.

Section BloomRunFacts.
Import Mach TestBloom BloomRuns.

Lemma add_loop_set_all f data n : forall i bits,
  1 <= num_bits_ f ->
  add_loop f data n i bits = set_all bits (positions (num_bits_ f) data n i).
Proof.
  induction n as [|k IH]; intros i bits H1; [reflexivity|].
  cbn [add_loop positions set_all].
  destruct (position_spec f data i H1) as (pos & -> & -> & _).
  destruct (set_pos bits _); [apply IH; exact H1 | reflexivity].
Qed.

Lemma set_all_app bits ps qs :
  set_all bits (ps ++ qs)
  = match set_all bits ps with
    | Some b => set_all b qs
    | None => None
    end.
Proof.
  revert bits. induction ps as [|p ps IH]; intros bits; [reflexivity|].
  cbn [app set_all]. destruct (set_pos bits p); [apply IH | reflexivity].
Qed.

Lemma u8_lor_bits b m k :
  0 <= k ->
  Z.testbit (u8 (Z.lor b m)) k = (k <? 8) && (Z.testbit b k || Z.testbit m k).
Proof.
  intros Hk. unfold u8. destruct (Z.ltb_spec k 8).
  - rewrite Z.mod_pow2_bits_low, Z.lor_spec by lia. reflexivity.
  - rewrite Z.mod_pow2_bits_high by lia. reflexivity.
Qed.

Lemma u8_lor_comm b m1 m2 :
  u8 (Z.lor (u8 (Z.lor b m1)) m2) = u8 (Z.lor (u8 (Z.lor b m2)) m1).
Proof.
  apply Z.bits_inj'. intros k Hk. rewrite !u8_lor_bits by lia.
  destruct (k <? 8), (Z.testbit b k), (Z.testbit m1 k), (Z.testbit m2 k);
    reflexivity.
Qed.

Lemma u8_lor_idem b m : u8 (Z.lor (u8 (Z.lor b m)) m) = u8 (Z.lor b m).
Proof.
  apply Z.bits_inj'. intros k Hk. rewrite !u8_lor_bits by lia.
  destruct (k <? 8), (Z.testbit b k), (Z.testbit m k); reflexivity.
Qed.

Lemma set_pos_comm bits p q :
  match set_pos bits p with Some b => set_pos b q | None => None end
  = match set_pos bits q with Some b => set_pos b p | None => None end.
Proof.
  unfold set_pos.
  set (i := Z.to_nat (p / 8)). set (j := Z.to_nat (q / 8)).
  set (mp := Z.shiftl 1 (p mod 8)). set (mq := Z.shiftl 1 (q mod 8)).
  destruct (bits !! i) as [bi|] eqn:Ei; destruct (bits !! j) as [bj|] eqn:Ej.
  - pose proof (lookup_lt_Some _ _ _ Ei) as Li.
    pose proof (lookup_lt_Some _ _ _ Ej) as Lj.
    destruct (Nat.eq_dec i j) as [E|NE].
    + rewrite <- E in *. rewrite Ei in Ej. injection Ej as <-.
      rewrite !list_lookup_insert_eq by exact Li.
      rewrite !list_insert_insert_eq. f_equal. f_equal. apply u8_lor_comm.
    + rewrite !list_lookup_insert_ne by congruence. rewrite Ei, Ej.
      f_equal. apply list_insert_insert_ne. congruence.
  - pose proof (lookup_ge_None_1 _ _ Ej) as Lj.
    rewrite (lookup_ge_None_2 (<[i := _]> bits) j); [reflexivity|].
    rewrite length_insert. exact Lj.
  - pose proof (lookup_ge_None_1 _ _ Ei) as Li.
    rewrite (lookup_ge_None_2 (<[j := _]> bits) i); [reflexivity|].
    rewrite length_insert. exact Li.
  - reflexivity.
Qed.

Lemma set_pos_idem bits p b1 : set_pos bits p = Some b1 -> set_pos b1 p = Some b1.
Proof.
  unfold set_pos. destruct (bits !! Z.to_nat (p / 8)) as [b|] eqn:E;
    [|discriminate].
  pose proof (lookup_lt_Some _ _ _ E) as L. intros [= <-].
  rewrite list_lookup_insert_eq by exact L.
  rewrite list_insert_insert_eq, u8_lor_idem. reflexivity.
Qed.

Lemma set_all_perm ps qs :
  Permutation ps qs -> forall bits, set_all bits ps = set_all bits qs.
Proof.
  induction 1 as [|x ps qs _ IH|x y ps|ps qs rs _ IH1 _ IH2]; intros bits.
  - reflexivity.
  - cbn [set_all]. destruct (set_pos bits x); [apply IH | reflexivity].
  - cbn [set_all]. pose proof (set_pos_comm bits y x) as C.
    destruct (set_pos bits y) as [b1|]; destruct (set_pos bits x) as [b2|].
    + rewrite C. reflexivity.
    + rewrite C. reflexivity.
    + rewrite <- C. reflexivity.
    + reflexivity.
  - rewrite IH1. apply IH2.
Qed.

Lemma set_all_absorb ps : forall bits b1 p,
  set_all bits ps = Some b1 -> In p ps -> set_pos b1 p = Some b1.
Proof.
  induction ps as [|x ps IH]; intros bits b1 p Hs Hin; [destruct Hin|].
  cbn [set_all] in Hs. destruct (set_pos bits x) as [b0|] eqn:E0;
    [|discriminate Hs].
  destruct Hin as [->|Hin]; [|exact (IH b0 b1 p Hs Hin)].
  assert (H1 : set_all bits ((p :: ps) ++ [p]) = set_pos b1 p).
  { rewrite set_all_app. cbn [set_all]. rewrite E0, Hs.
    destruct (set_pos b1 p); reflexivity. }
  rewrite <- H1.
  rewrite (set_all_perm ((p :: ps) ++ [p]) (p :: p :: ps)).
  2:{ cbn [app]. apply Permutation_cons; [reflexivity|].
      symmetry. apply Permutation_cons_append. }
  cbn [set_all]. rewrite E0, (set_pos_idem bits p b0 E0). exact Hs.
Qed.

Lemma set_all_absorb_list ps bits b1 qs :
  set_all bits ps = Some b1 -> (forall p, In p qs -> In p ps) ->
  set_all b1 qs = Some b1.
Proof.
  intros Hs. induction qs as [|q qs IH]; intros Hsub; [reflexivity|].
  cbn [set_all].
  rewrite (set_all_absorb ps bits b1 q Hs (Hsub q (or_introl eq_refl))).
  apply IH. intros p Hp. apply Hsub. right. exact Hp.
Qed.

Lemma add_unfold f e :
  1 <= num_bits_ f ->
  add f e
  = match set_all (bits_ f)
                  (positions (num_bits_ f) e (Z.to_nat (num_hashes_ f)) 0) with
    | Some bits => Some {| bits_ := bits; num_bits_ := num_bits_ f;
                           num_hashes_ := num_hashes_ f |}
    | None => None
    end.
Proof. intros H1. unfold add. rewrite add_loop_set_all by exact H1. reflexivity. Qed.

(** X21. The filter is a set: adding an element that was added before leaves
    the filter as it is, byte for byte, and two elements can be added in
    either order with the same filter as the result. *)
Theorem bloom_add_is_set_insert (f : SimpleBloomFilter) (a b : list Z) :
  covers f ->
  exists fa fab,
    add f a = Some fa
    /\ add fa a = Some fa
    /\ add fa b = Some fab
    /\ (exists fb, add f b = Some fb /\ add fb a = Some fab)
    /\ add fab a = Some fab /\ add fab b = Some fab.
Proof.
  intros Hc. assert (H1 : 1 <= num_bits_ f) by apply Hc.
  destruct (add_spec f a Hc) as (fa & Ea & Ca & _).
  destruct (add_spec fa b Ca) as (fab & Eab & Cab & _).
  destruct (add_spec f b Hc) as (fb & Eb & Cb & _).
  exists fa, fab. split; [exact Ea|].
  rewrite add_unfold in Ea, Eb by exact H1.
  set (Pa := positions (num_bits_ f) a (Z.to_nat (num_hashes_ f)) 0) in *.
  set (Pb := positions (num_bits_ f) b (Z.to_nat (num_hashes_ f)) 0) in *.
  destruct (set_all (bits_ f) Pa) as [ba|] eqn:Sa; [|discriminate Ea].
  destruct (set_all (bits_ f) Pb) as [bb|] eqn:Sb; [|discriminate Eb].
  injection Ea as <-. injection Eb as <-.
  rewrite add_unfold in Eab by exact H1.
  cbn [bits_ num_bits_ num_hashes_] in Eab. fold Pb in Eab.
  destruct (set_all ba Pb) as [bab|] eqn:Sab; [|discriminate Eab].
  injection Eab as <-.
  assert (Hab : set_all (bits_ f) (Pa ++ Pb) = Some bab).
  { rewrite set_all_app, Sa. exact Sab. }
  assert (Hba : set_all bb Pa = Some bab).
  { rewrite (set_all_perm _ _ (Permutation_app_comm _ _)) in Hab.
    rewrite set_all_app, Sb in Hab. exact Hab. }
  split; [|split; [|split; [|split]]].
  - rewrite add_unfold by exact H1. cbn [bits_ num_bits_ num_hashes_].
    fold Pa. rewrite (set_all_absorb_list Pa _ _ Pa Sa) by auto. reflexivity.
  - rewrite add_unfold by exact H1. cbn [bits_ num_bits_ num_hashes_].
    fold Pb. rewrite Sab. reflexivity.
  - exists {| bits_ := bb; num_bits_ := num_bits_ f;
              num_hashes_ := num_hashes_ f |}.
    split; [rewrite add_unfold by exact H1; fold Pb; rewrite Sb; reflexivity|].
    rewrite add_unfold by exact H1. cbn [bits_ num_bits_ num_hashes_].
    fold Pa. rewrite Hba. reflexivity.
  - rewrite add_unfold by exact H1. cbn [bits_ num_bits_ num_hashes_].
    fold Pa. rewrite (set_all_absorb_list (Pa ++ Pb) _ _ Pa Hab); [reflexivity|].
    intros p Hp. apply in_or_app. left. exact Hp.
  - rewrite add_unfold by exact H1. cbn [bits_ num_bits_ num_hashes_].
    fold Pb. rewrite (set_all_absorb_list (Pa ++ Pb) _ _ Pb Hab); [reflexivity|].
    intros p Hp. apply in_or_app. right. exact Hp.
Qed.

Lemma bloom_add_is_set_insert_witness :
  let f := make 64 3 in
  covers f
  /\ exists fa fab,
       add f [1; 2] = Some fa
       /\ add fa [1; 2] = Some fa
       /\ add fa [7] = Some fab
       /\ (exists fb, add f [7] = Some fb /\ add fb [1; 2] = Some fab)
       /\ add fab [1; 2] = Some fab /\ add fab [7] = Some fab.
Proof.
  intros f.
  assert (Hc : covers f) by (apply make_covers; lia).
  split; [exact Hc|]. exact (bloom_add_is_set_insert f [1; 2] [7] Hc).
Defined.

End BloomRunFacts.

Section BloomClearFacts.
Import Mach TestBloom BloomRuns.

Lemma test_pos_zero bits pos :
  Forall (fun b => b = 0) bits ->
  0 <= pos < 8 * Z.of_nat (length bits) ->
  test_pos bits pos = Some false.
Proof.
  intros Hz Hp. unfold test_pos.
  assert (Hidx : (Z.to_nat (pos / 8) < length bits)%nat).
  { assert (pos / 8 < Z.of_nat (length bits))
      by (apply Z.div_lt_upper_bound; lia).
    assert (0 <= pos / 8) by (apply Z.div_pos; lia). lia. }
  destruct (lookup_lt_is_Some_2 bits _ Hidx) as [b Hb]. rewrite Hb.
  rewrite Forall_forall in Hz.
  rewrite (Hz b (list_elem_of_lookup_2 _ _ _ Hb)). reflexivity.
Qed.

Lemma contains_zero f e :
  covers f -> Forall (fun b => b = 0) (bits_ f) -> 1 <= num_hashes_ f ->
  possibly_contains f e = Some false.
Proof.
  intros [H1 Hlen] Hz Hn. unfold possibly_contains.
  destruct (Z.to_nat (num_hashes_ f)) as [|k] eqn:E; [lia|].
  cbn [contains_loop].
  destruct (position_spec f e 0 H1) as (pos & -> & _ & Hr).
  rewrite test_pos_zero by (try assumption; lia). reflexivity.
Qed.

(** X22. [clear] empties the filter and keeps its size: with at least one hash
    function no element tests positive afterwards, as in a filter just
    built. With no hash function every element tests positive and [add]
    changes nothing. The filter occupies [(num_bits + 7) / 8] bytes. *)
Theorem bloom_clear_spec (f : SimpleBloomFilter) (e : list Z) :
  covers f ->
  covers (clear f)
  /\ memory_usage (clear f) = memory_usage f
  /\ (1 <= num_hashes_ f -> possibly_contains (clear f) e = Some false)
  /\ (num_hashes_ f = 0 ->
      possibly_contains f e = Some true /\ add f e = Some f)
  /\ forall num_bits num_hashes,
       1 <= num_bits -> num_bits + 7 < 2 ^ 64 ->
       memory_usage (make num_bits num_hashes) = (num_bits + 7) / 8
       /\ (1 <= num_hashes ->
           possibly_contains (make num_bits num_hashes) e = Some false).
Proof.
  intros Hc. assert (Hc' : covers (clear f)).
  { destruct Hc as [H1 H2]. split; [exact H1|].
    cbn [clear bits_ num_bits_]. rewrite length_map. exact H2. }
  split; [exact Hc'|]. split; [|split; [|split]].
  - unfold memory_usage, clear. cbn [bits_]. rewrite length_map. reflexivity.
  - intros Hn. apply contains_zero; [exact Hc' | | exact Hn].
    cbn [clear bits_]. apply Forall_forall. intros b Hb.
    rewrite list_elem_of_In in Hb. apply in_map_iff in Hb as (? & <- & _).
    reflexivity.
  - intros Hn. unfold possibly_contains, add.
    destruct f as [bits nb nh]. cbn [num_hashes_ bits_ num_bits_] in *.
    subst nh. split; reflexivity.
  - intros nb nh H1 H2.
    pose proof (make_covers nb nh H1 H2) as Hm. split.
    + unfold memory_usage, make. cbn [bits_]. rewrite repeat_length.
      unfold u64. rewrite Z.mod_small by lia.
      apply Z2Nat.id. apply Z.div_pos; lia.
    + intros Hn. apply contains_zero; [exact Hm | | exact Hn].
      cbn [make bits_]. apply Forall_forall. intros b Hb.
      rewrite list_elem_of_In in Hb. apply repeat_spec in Hb. exact Hb.
Qed.

Lemma bloom_clear_spec_witness :
  let f := make 10000 5 in
  let e := [42; 0; 0; 0] in
  covers f
  /\ covers (clear f)
  /\ memory_usage (clear f) = memory_usage f
  /\ (1 <= num_hashes_ f -> possibly_contains (clear f) e = Some false)
  /\ (num_hashes_ f = 0 ->
      possibly_contains f e = Some true /\ add f e = Some f)
  /\ forall num_bits num_hashes,
       1 <= num_bits -> num_bits + 7 < 2 ^ 64 ->
       memory_usage (make num_bits num_hashes) = (num_bits + 7) / 8
       /\ (1 <= num_hashes ->
           possibly_contains (make num_bits num_hashes) e = Some false).
Proof.
  intros f e.
  assert (Hc : covers f) by (apply make_covers; lia).
  split; [exact Hc|]. exact (bloom_clear_spec f e Hc).
Defined.

End BloomClearFacts.

(** ** SIMD lanes and the SHA-256 message schedule *)

Section SimdFacts.
Import Simd.

Lemma u32_add_l a b : u32 (u32 a + b) = u32 (a + b).
Proof. unfold u32. apply Zplus_mod_idemp_l. Qed.

Lemma u32_add3 a b c : u32 (u32 a + b + c) = u32 (a + b + c).
Proof. rewrite <- !Z.add_assoc, u32_add_l. reflexivity. Qed.

Lemma fold_insert_prefix (f : nat -> Z) k (init : list Z) :
  (k <= length init)%nat ->
  fold_left (fun r i => <[i := f i]> r) (seq 0 k) init
  = map f (seq 0 k) ++ drop k init.
Proof.
  induction k as [|k IH]; intros Hk; [reflexivity|].
  rewrite seq_S, fold_left_app, map_app, IH by lia. cbn [fold_left map Nat.add].
  rewrite insert_app_r_alt by (rewrite length_map, length_seq; lia).
  rewrite length_map, length_seq, Nat.sub_diag.
  destruct (drop k init) as [|y rest] eqn:E.
  - apply (f_equal length) in E. rewrite length_drop in E. cbn in E. lia.
  - cbn [insert list_insert]. rewrite <- app_assoc. cbn [app].
    do 2 f_equal.
    pose proof (drop_drop init 1 k) as D. rewrite E in D. cbn in D.
    rewrite Nat.add_1_r in D. rewrite drop_0 in D. exact D.
Qed.

Lemma nth_insert_same (W : list Z) i v :
  (i < length W)%nat -> nth i (<[i := v]> W) 0 = v.
Proof.
  intros H. rewrite nth_lookup, list_lookup_insert_eq by exact H. reflexivity.
Qed.

Lemma nth_insert_other (W : list Z) i j v :
  i <> j -> nth j (<[i := v]> W) 0 = nth j W 0.
Proof.
  intros H. rewrite !nth_lookup, list_lookup_insert_ne by exact H. reflexivity.
Qed.

(** One round: the four words from [i] on are written, each from words
    below [i] but for its last operand, which lanes 2 and 3 read at [i] and
    [i + 1], the words this same round is about to write. *)
Lemma schedule_round_spec W i :
  (16 <= i)%nat -> (i + 4 <= length W)%nat ->
  let W' := schedule_round W i in
  length W' = length W
  /\ (forall t, (t < i \/ i + 4 <= t)%nat -> nth t W' 0 = nth t W 0)
  /\ nth i W' 0
     = schedule_word (nth (i - 16) W 0) (nth (i - 15) W 0) (nth (i - 7) W 0)
                     (nth (i - 2) W 0)
  /\ nth (i + 1) W' 0
     = schedule_word (nth (i - 15) W 0) (nth (i - 14) W 0) (nth (i - 6) W 0)
                     (nth (i - 1) W 0)
  /\ nth (i + 2) W' 0
     = schedule_word (nth (i - 14) W 0) (nth (i - 13) W 0) (nth (i - 5) W 0)
                     (nth i W 0)
  /\ nth (i + 3) W' 0
     = schedule_word (nth (i - 13) W 0) (nth (i - 12) W 0) (nth (i - 4) W 0)
                     (nth (i + 1) W 0).
Proof.
  intros Hi Hl. unfold schedule_round. cbv zeta.
  unfold storeu. cbn [seq fold_left].
  set (result := add _ _).
  assert (Hr : result
    = [ schedule_word (nth (i - 16) W 0) (nth (i - 15) W 0) (nth (i - 7) W 0)
                      (nth (i - 2) W 0);
        schedule_word (nth (i - 15) W 0) (nth (i - 14) W 0) (nth (i - 6) W 0)
                      (nth (i - 1) W 0);
        schedule_word (nth (i - 14) W 0) (nth (i - 13) W 0) (nth (i - 5) W 0)
                      (nth i W 0);
        schedule_word (nth (i - 13) W 0) (nth (i - 12) W 0) (nth (i - 4) W 0)
                      (nth (i + 1) W 0) ]).
  { unfold result, add, xor, rotr, or_, shr, shl, lanewise, loadu.
    cbn [seq map nth].
    unfold schedule_word, sigma0, sigma1, rotr32.
    rewrite !u32_add_l, !u32_add3.
    replace (i - 15 + 0)%nat with (i - 15)%nat by lia.
    replace (i - 15 + 1)%nat with (i - 14)%nat by lia.
    replace (i - 15 + 2)%nat with (i - 13)%nat by lia.
    replace (i - 15 + 3)%nat with (i - 12)%nat by lia.
    replace (i - 2 + 0)%nat with (i - 2)%nat by lia.
    replace (i - 2 + 1)%nat with (i - 1)%nat by lia.
    replace (i - 2 + 2)%nat with i by lia.
    replace (i - 2 + 3)%nat with (i + 1)%nat by lia.
    replace (i - 16 + 0)%nat with (i - 16)%nat by lia.
    replace (i - 16 + 1)%nat with (i - 15)%nat by lia.
    replace (i - 16 + 2)%nat with (i - 14)%nat by lia.
    replace (i - 16 + 3)%nat with (i - 13)%nat by lia.
    replace (i - 7 + 0)%nat with (i - 7)%nat by lia.
    replace (i - 7 + 1)%nat with (i - 6)%nat by lia.
    replace (i - 7 + 2)%nat with (i - 5)%nat by lia.
    replace (i - 7 + 3)%nat with (i - 4)%nat by lia.
    reflexivity. }
  rewrite Hr. clearbody result. clear Hr result. cbn [nth].
  rewrite Nat.add_0_r.
  split; [rewrite !length_insert; reflexivity|].
  split.
  { intros t Ht. rewrite !nth_insert_other by lia. reflexivity. }
  split.
  { rewrite !(nth_insert_other _ _ i) by lia.
    apply nth_insert_same. lia. }
  split.
  { rewrite !(nth_insert_other _ _ (i + 1)) by lia.
    apply nth_insert_same. rewrite length_insert. lia. }
  split.
  { rewrite !(nth_insert_other _ _ (i + 2)) by lia.
    apply nth_insert_same. rewrite !length_insert. lia. }
  apply nth_insert_same. rewrite !length_insert. lia.
Qed.


Lemma rounds_S n : rounds (S n) = rounds n ++ [(16 + 4 * n)%nat].
Proof. unfold rounds. rewrite seq_S, map_app. reflexivity. Qed.

Lemma schedule_rounds_spec W0 W1 n :
  (n <= 12)%nat -> length W1 = 64%nat ->
  (forall t, (16 <= t)%nat -> nth t W1 0 = nth t W0 0) ->
  let W := fold_left schedule_round (rounds n) W1 in
  length W = 64%nat
  /\ (forall t, (t < 16)%nat -> nth t W 0 = nth t W1 0)
  /\ (forall t, (16 + 4 * n <= t)%nat -> nth t W 0 = nth t W0 0)
  /\ (forall k, (k < n)%nat -> round_result W0 W (16 + 4 * k)).
Proof.
  intros Hn Hl H0. induction n as [|n IH]; cbv zeta.
  - cbn [rounds seq map fold_left]. split; [exact Hl|]. split; [auto|].
    split; [intros t Ht; apply H0; lia | intros k Hk; lia].
  - rewrite rounds_S, fold_left_app. cbn [fold_left].
    destruct (IH ltac:(lia)) as (L & M & R & K).
    set (W := fold_left schedule_round (rounds n) W1) in *.
    set (i := (16 + 4 * n)%nat).
    destruct (schedule_round_spec W i ltac:(lia) ltac:(lia))
      as (L' & O & E0 & E1 & E2 & E3).
    set (W' := schedule_round W i) in *.
    split; [congruence|]. split; [|split].
    + intros t Ht. rewrite O by lia. apply M, Ht.
    + intros t Ht. rewrite O by lia. apply R. lia.
    + intros k Hk. destruct (Nat.eq_dec k n) as [->|Hne].
      * fold i. unfold round_result.
        rewrite !(O (i - 16)%nat), !(O (i - 15)%nat), !(O (i - 14)%nat),
          !(O (i - 13)%nat), !(O (i - 12)%nat), !(O (i - 7)%nat),
          !(O (i - 6)%nat), !(O (i - 5)%nat), !(O (i - 4)%nat),
          !(O (i - 2)%nat), !(O (i - 1)%nat) by lia.
        rewrite <- (R i), <- (R (i + 1)%nat) by lia.
        auto.
      * destruct (K k ltac:(lia)) as (F0 & F1 & F2 & F3).
        set (j := (16 + 4 * k)%nat) in *.
        unfold round_result.
        rewrite !(O j), !(O (j + 1)%nat), !(O (j + 2)%nat), !(O (j + 3)%nat),
          !(O (j - 16)%nat), !(O (j - 15)%nat), !(O (j - 14)%nat),
          !(O (j - 13)%nat), !(O (j - 12)%nat), !(O (j - 7)%nat),
          !(O (j - 6)%nat), !(O (j - 5)%nat), !(O (j - 4)%nat),
          !(O (j - 2)%nat), !(O (j - 1)%nat) by lia.
        auto.
Qed.

(** X23. [sha256_schedule_simd] copies the 16 message words and then fills the
    words 16 to 63 four at a time. In each group the first two words
    follow the recurrence W[t] = W[t-16] + sigma0(W[t-15]) + W[t-7] +
    sigma1(W[t-2]); the last two take for W[t-2] the word that was in the
    output buffer before the call, since the vector of W[i-2 .. i+1] is
    loaded before W[i] and W[i+1] are stored. *)
Theorem sha256_schedule_simd_spec (message W0 : list Z) :
  length message = 16%nat -> length W0 = 64%nat ->
  length (sha256_schedule_simd message W0) = 64%nat
  /\ (forall t, (t < 16)%nat ->
        nth t (sha256_schedule_simd message W0) 0 = nth t message 0)
  /\ (forall k, (k < 12)%nat ->
        round_result W0 (sha256_schedule_simd message W0) (16 + 4 * k))
  /\ nth 18 (sha256_schedule_simd message W0) 0
     = schedule_word (nth 2 message 0) (nth 3 message 0) (nth 11 message 0)
                     (nth 16 W0 0).
Proof.
  intros Hm Hl. unfold sha256_schedule_simd. cbv zeta.
  set (W1 := fold_left (fun W i => <[i := nth i message 0]> W) (seq 0 16) W0).
  assert (E1 : W1 = map (fun i => nth i message 0) (seq 0 16) ++ drop 16 W0).
  { unfold W1. apply fold_insert_prefix. lia. }
  assert (L1 : length W1 = 64%nat).
  { rewrite E1, length_app, length_map, length_seq, length_drop. lia. }
  assert (M1 : forall t, (t < 16)%nat -> nth t W1 0 = nth t message 0).
  { intros t Ht. rewrite E1, app_nth1 by (rewrite length_map, length_seq; lia).
    rewrite (nth_indep _ 0 (nth 0%nat message 0))
      by (rewrite length_map, length_seq; lia).
    rewrite (map_nth (fun i => nth i message 0) (seq 0 16) 0%nat t).
    rewrite seq_nth by lia. reflexivity. }
  assert (R1 : forall t, (16 <= t)%nat -> nth t W1 0 = nth t W0 0).
  { intros t Ht. rewrite E1, app_nth2 by (rewrite length_map, length_seq; lia).
    rewrite length_map, length_seq. rewrite !nth_lookup, lookup_drop.
    do 2 f_equal. lia. }
  destruct (schedule_rounds_spec W0 W1 12 ltac:(lia) L1 R1) as (L & M & _ & K).
  split; [exact L|]. split; [intros t Ht; rewrite M by exact Ht; apply M1, Ht|].
  split; [exact K|].
  destruct (K 0%nat ltac:(lia)) as (_ & _ & F2 & _).
  change (16 + 4 * 0 + 2)%nat with 18%nat in F2.
  change (16 + 4 * 0 - 14)%nat with 2%nat in F2.
  change (16 + 4 * 0 - 13)%nat with 3%nat in F2.
  change (16 + 4 * 0 - 5)%nat with 11%nat in F2.
  change (16 + 4 * 0)%nat with 16%nat in F2.
  rewrite F2, !M, !M1 by lia. reflexivity.
Qed.

Lemma sha256_schedule_simd_spec_witness :
  let message := map Z.of_nat (seq 1 16) in
  let W0 := repeat 0 64 in
  length message = 16%nat /\ length W0 = 64%nat
  /\ length (sha256_schedule_simd message W0) = 64%nat
  /\ (forall t, (t < 16)%nat ->
        nth t (sha256_schedule_simd message W0) 0 = nth t message 0)
  /\ (forall k, (k < 12)%nat ->
        round_result W0 (sha256_schedule_simd message W0) (16 + 4 * k))
  /\ nth 18 (sha256_schedule_simd message W0) 0
     = schedule_word (nth 2 message 0) (nth 3 message 0) (nth 11 message 0)
                     (nth 16 W0 0).
Proof.
  intros message W0. split; [reflexivity|]. split; [reflexivity|].
  exact (sha256_schedule_simd_spec message W0 eq_refl eq_refl).
Defined.

(** The same message gives different schedules in two output buffers that
    differ in word 16 only. *)
Example schedule_depends_on_buffer :
  let message := repeat 0 16 in
  nth 18 (sha256_schedule_simd message (repeat 0 64)) 0 = 0
  /\ nth 18 (sha256_schedule_simd message (<[16%nat := 1]> (repeat 0 64))) 0
     = 40960.
Proof. split; vm_compute; reflexivity. Qed.

End SimdFacts.

Section SimdLaneFacts.
Import Simd.

Lemma is_u32_bits a :
  0 <= a -> (forall n, 32 <= n -> Z.testbit a n = false) -> is_u32 a.
Proof.
  intros Ha Hhigh.
  assert (E : a mod 2 ^ 32 = a).
  { apply Z.bits_inj'. intros n Hn.
    destruct (Z.ltb_spec n 32).
    - apply Z.mod_pow2_bits_low. lia.
    - rewrite Z.mod_pow2_bits_high by lia. symmetry. apply Hhigh. lia. }
  unfold is_u32. rewrite <- E. apply Z.mod_pos_bound. reflexivity.
Qed.

Lemma testbit_u32_high a n : is_u32 a -> 32 <= n -> Z.testbit a n = false.
Proof.
  intros Ha Hn. rewrite <- (Z.mod_small a (2 ^ 32) Ha).
  apply Z.mod_pow2_bits_high. lia.
Qed.

Lemma testbit_rotl32 N x k :
  0 < N < 32 -> is_u32 x -> 0 <= k ->
  Z.testbit (rotl32 N x) k
  = if k <? N then Z.testbit x (k + 32 - N)
    else if k <? 32 then Z.testbit x (k - N) else false.
Proof.
  intros HN Hx Hk. unfold rotl32, u32. rewrite Z.lor_spec.
  rewrite Z.shiftr_spec by lia.
  destruct (Z.ltb_spec k N) as [H1|H1].
  - rewrite Z.mod_pow2_bits_low, Z.shiftl_spec_low by lia.
    cbn [orb]. f_equal. lia.
  - destruct (Z.ltb_spec k 32) as [H2|H2].
    + rewrite Z.mod_pow2_bits_low, Z.shiftl_spec by lia.
      rewrite (testbit_u32_high x (k + (32 - N)) Hx) by lia.
      apply orb_false_r.
    + rewrite Z.mod_pow2_bits_high by lia.
      rewrite (testbit_u32_high x (k + (32 - N)) Hx) by lia. reflexivity.
Qed.

Lemma testbit_rotr32 N x k :
  0 < N < 32 -> is_u32 x -> 0 <= k ->
  Z.testbit (rotr32 N x) k
  = if k <? 32 - N then Z.testbit x (k + N)
    else if k <? 32 then Z.testbit x (k + N - 32) else false.
Proof.
  intros HN Hx Hk. unfold rotr32, u32. rewrite Z.lor_spec.
  rewrite Z.shiftr_spec by lia.
  destruct (Z.ltb_spec k (32 - N)) as [H1|H1].
  - rewrite Z.mod_pow2_bits_low, Z.shiftl_spec_low by lia.
    apply orb_false_r.
  - destruct (Z.ltb_spec k 32) as [H2|H2].
    + rewrite Z.mod_pow2_bits_low, Z.shiftl_spec by lia.
      rewrite (testbit_u32_high x (k + N) Hx) by lia.
      cbn [orb]. f_equal. lia.
    + rewrite Z.mod_pow2_bits_high by lia.
      rewrite (testbit_u32_high x (k + N) Hx) by lia. reflexivity.
Qed.

Lemma rotl32_range N x : 0 < N < 32 -> is_u32 x -> is_u32 (rotl32 N x).
Proof.
  intros HN Hx. apply is_u32_bits.
  - unfold rotl32, u32. apply Z.lor_nonneg. split.
    + apply Z.mod_pos_bound. reflexivity.
    + apply Z.shiftr_nonneg. apply Hx.
  - intros n Hn. rewrite testbit_rotl32 by (try assumption; lia).
    destruct (Z.ltb_spec n N); [lia|]. destruct (Z.ltb_spec n 32); [lia|].
    reflexivity.
Qed.

Lemma rotr32_range N x : 0 < N < 32 -> is_u32 x -> is_u32 (rotr32 N x).
Proof.
  intros HN Hx. apply is_u32_bits.
  - unfold rotr32, u32. apply Z.lor_nonneg. split.
    + apply Z.shiftr_nonneg. apply Hx.
    + apply Z.mod_pos_bound. reflexivity.
  - intros n Hn. rewrite testbit_rotr32 by (try assumption; lia).
    destruct (Z.ltb_spec n (32 - N)); [lia|]. destruct (Z.ltb_spec n 32); [lia|].
    reflexivity.
Qed.

Lemma rotr32_rotl32 N x : 0 < N < 32 -> is_u32 x -> rotr32 N (rotl32 N x) = x.
Proof.
  intros HN Hx. apply Z.bits_inj'. intros k Hk.
  rewrite testbit_rotr32 by (try assumption; try lia; apply rotl32_range; assumption).
  destruct (Z.ltb_spec k (32 - N)) as [H1|H1].
  - rewrite testbit_rotl32 by (try assumption; lia).
    destruct (Z.ltb_spec (k + N) N); [lia|].
    destruct (Z.ltb_spec (k + N) 32); [|lia]. f_equal. lia.
  - destruct (Z.ltb_spec k 32) as [H2|H2].
    + rewrite testbit_rotl32 by (try assumption; lia).
      destruct (Z.ltb_spec (k + N - 32) N); [|lia]. f_equal. lia.
    + symmetry. apply testbit_u32_high; [assumption | lia].
Qed.

Lemma rotl32_rotr32 N x : 0 < N < 32 -> is_u32 x -> rotl32 N (rotr32 N x) = x.
Proof.
  intros HN Hx. apply Z.bits_inj'. intros k Hk.
  rewrite testbit_rotl32 by (try assumption; try lia; apply rotr32_range; assumption).
  destruct (Z.ltb_spec k N) as [H1|H1].
  - rewrite testbit_rotr32 by (try assumption; lia).
    destruct (Z.ltb_spec (k + 32 - N) (32 - N)); [lia|].
    destruct (Z.ltb_spec (k + 32 - N) 32); [|lia]. f_equal. lia.
  - destruct (Z.ltb_spec k 32) as [H2|H2].
    + rewrite testbit_rotr32 by (try assumption; lia).
      destruct (Z.ltb_spec (k - N) (32 - N)); [|lia]. f_equal. lia.
    + symmetry. apply testbit_u32_high; [assumption | lia].
Qed.

Lemma lanes4 (a : UInt32x4) :
  length a = 4%nat ->
  exists a0 a1 a2 a3, a = [a0; a1; a2; a3].
Proof.
  intros H. destruct a as [|a0 [|a1 [|a2 [|a3 [|? ?]]]]]; try discriminate H.
  eauto.
Qed.

(** X24. The rotations of [UInt32x4] rotate each 32-bit lane: [rotr<N>] undoes
    [rotl<N>] and is [rotl<32 - N>]; [operator-] undoes [operator+] and
    [operator^] undoes itself, lane by lane, for N from 1 to 31. *)
Theorem uint32x4_lanes (N : Z) (a b : UInt32x4) :
  0 < N < 32 ->
  length a = 4%nat -> Forall is_u32 a -> length b = 4%nat -> Forall is_u32 b ->
  rotl N a = map (rotl32 N) a
  /\ rotr N a = map (rotr32 N) a
  /\ rotr N (rotl N a) = a
  /\ rotl N (rotr N a) = a
  /\ rotr N a = rotl (32 - N) a
  /\ sub (add a b) b = a
  /\ xor (xor a b) b = a.
Proof.
  intros HN La Fa Lb Fb.
  destruct (lanes4 a La) as (a0 & a1 & a2 & a3 & ->).
  destruct (lanes4 b Lb) as (b0 & b1 & b2 & b3 & ->).
  apply Forall_cons in Fa as [A0 Fa]. apply Forall_cons in Fa as [A1 Fa].
  apply Forall_cons in Fa as [A2 Fa]. apply Forall_cons in Fa as [A3 _].
  apply Forall_cons in Fb as [B0 Fb]. apply Forall_cons in Fb as [B1 Fb].
  apply Forall_cons in Fb as [B2 Fb]. apply Forall_cons in Fb as [B3 _].
  assert (Hl : rotl N [a0; a1; a2; a3] = map (rotl32 N) [a0; a1; a2; a3])
    by reflexivity.
  assert (Hr : rotr N [a0; a1; a2; a3] = map (rotr32 N) [a0; a1; a2; a3])
    by reflexivity.
  split; [exact Hl|]. split; [exact Hr|]. split; [|split; [|split; [|split]]].
  - rewrite Hl. cbn [map].
    change (rotr N [rotl32 N a0; rotl32 N a1; rotl32 N a2; rotl32 N a3])
      with [rotr32 N (rotl32 N a0); rotr32 N (rotl32 N a1);
            rotr32 N (rotl32 N a2); rotr32 N (rotl32 N a3)].
    rewrite !rotr32_rotl32 by assumption. reflexivity.
  - rewrite Hr. cbn [map].
    change (rotl N [rotr32 N a0; rotr32 N a1; rotr32 N a2; rotr32 N a3])
      with [rotl32 N (rotr32 N a0); rotl32 N (rotr32 N a1);
            rotl32 N (rotr32 N a2); rotl32 N (rotr32 N a3)].
    rewrite !rotl32_rotr32 by assumption. reflexivity.
  - unfold rotr, rotl, or_, lanewise, shl, shr. cbn [seq map nth].
    replace (32 - (32 - N)) with N by lia.
    rewrite !(Z.lor_comm (Z.shiftr _ N)). reflexivity.
  - unfold sub, add, lanewise, u32. cbn [seq map nth].
    unfold is_u32 in *.
    rewrite !Zminus_mod_idemp_l.
    replace (a0 + b0 - b0) with a0 by lia. replace (a1 + b1 - b1) with a1 by lia.
    replace (a2 + b2 - b2) with a2 by lia. replace (a3 + b3 - b3) with a3 by lia.
    rewrite !Z.mod_small by assumption. reflexivity.
  - unfold xor, lanewise. cbn [seq map nth].
    rewrite !Z.lxor_assoc, !Z.lxor_nilpotent, !Z.lxor_0_r. reflexivity.
Qed.

Lemma uint32x4_lanes_witness :
  let a := [1; 2; 3; 4] in
  let b := [5; 6; 7; 2 ^ 32 - 1] in
  0 < 7 < 32
  /\ length a = 4%nat /\ Forall is_u32 a /\ length b = 4%nat /\ Forall is_u32 b
  /\ rotl 7 a = map (rotl32 7) a
  /\ rotr 7 a = map (rotr32 7) a
  /\ rotr 7 (rotl 7 a) = a
  /\ rotl 7 (rotr 7 a) = a
  /\ rotr 7 a = rotl (32 - 7) a
  /\ sub (add a b) b = a
  /\ xor (xor a b) b = a.
Proof.
  intros a b.
  assert (Fa : Forall is_u32 a).
  { repeat (apply Forall_cons; split; [unfold is_u32; lia|]). apply Forall_nil_2. }
  assert (Fb : Forall is_u32 b).
  { repeat (apply Forall_cons; split; [unfold is_u32; lia|]). apply Forall_nil_2. }
  split; [lia|]. split; [reflexivity|]. split; [exact Fa|].
  split; [reflexivity|]. split; [exact Fb|].
  exact (uint32x4_lanes 7 a b ltac:(lia) eq_refl Fa eq_refl Fb).
Defined.

End SimdLaneFacts.

(** ** Input validation and safe parsing *)

Section SafeStoiFacts.
Import Stdlib.Strings.Ascii Mach Hex Security.

Lemma isdigit_range c : isdigit c = true -> 0 <= code c - 48 <= 9.
Proof. unfold isdigit. cbv zeta. lia. Qed.

Lemma decimal_from_mono ds a :
  Forall (fun c => isdigit c = true) ds -> 0 <= a -> a <= decimal_from a ds.
Proof.
  intros Hd. revert a. induction Hd as [|c ds Hc Hd IH]; intros a Ha.
  - cbn. lia.
  - unfold decimal_from in *. cbn [fold_left].
    pose proof (isdigit_range c Hc).
    specialize (IH (a * 10 + (code c - 48)) ltac:(lia)). lia.
Qed.

Lemma stoi_loop_digits max ds a r :
  stoi_loop max ds a = Some r -> Forall (fun c => isdigit c = true) ds.
Proof.
  revert a. induction ds as [|c ds IH]; intros a H; [constructor|].
  cbn [stoi_loop] in H. destruct (isdigit c) eqn:Ec; [|discriminate H].
  cbn [negb] in H. cbv zeta in H.
  destruct (_ <? a); [discriminate H|]. constructor; [exact Ec | eauto].
Qed.

(** The guard of the loop is the test [result * 10 + digit > max]. *)
Lemma stoi_guard max d a :
  9 <= max -> 0 <= d <= 9 ->
  (Z.quot (max - d) 10 <? a) = (max <? a * 10 + d).
Proof.
  intros Hm Hd. rewrite Z.quot_div_nonneg by lia.
  destruct (Z.ltb_spec ((max - d) / 10) a), (Z.ltb_spec max (a * 10 + d));
    try reflexivity; exfalso; Z.div_mod_to_equations; lia.
Qed.

Lemma stoi_loop_value max ds a :
  9 <= max -> 0 <= a <= max -> Forall (fun c => isdigit c = true) ds ->
  stoi_loop max ds a
  = if decimal_from a ds <=? max then Some (decimal_from a ds) else None.
Proof.
  intros Hm Ha Hd. revert a Ha.
  induction Hd as [|c ds Hc Hd IH]; intros a Ha.
  - cbn. destruct (Z.leb_spec a max); [reflexivity | lia].
  - cbn [stoi_loop]. rewrite Hc. cbn [negb]. cbv zeta.
    pose proof (isdigit_range c Hc) as Hr.
    rewrite stoi_guard by lia.
    change (decimal_from a (c :: ds))
      with (decimal_from (a * 10 + (code c - 48)) ds).
    destruct (Z.ltb_spec max (a * 10 + (code c - 48))) as [Hlt|Hle].
    + pose proof (decimal_from_mono ds (a * 10 + (code c - 48)) Hd ltac:(lia)).
      destruct (Z.leb_spec (decimal_from (a * 10 + (code c - 48)) ds) max);
        [lia | reflexivity].
    + apply IH. lia.
Qed.

Lemma stoi_digits_value max negative ds :
  9 <= max -> ds <> [] -> Forall (fun c => isdigit c = true) ds ->
  stoi_digits max negative ds
  = if decimal ds <=? max
    then Some (if negative then - decimal ds else decimal ds) else None.
Proof.
  intros Hm Hn Hd. unfold stoi_digits.
  destruct ds as [|c ds]; [contradiction|].
  rewrite stoi_loop_value by (try assumption; lia).
  fold (decimal (c :: ds)). destruct (_ <=? max); reflexivity.
Qed.

Lemma stoi_digits_some max negative ds r :
  9 <= max -> stoi_digits max negative ds = Some r ->
  ds <> [] /\ Forall (fun c => isdigit c = true) ds /\ decimal ds <= max
  /\ r = (if negative then - decimal ds else decimal ds).
Proof.
  intros Hm H.
  assert (Hn : ds <> []) by (intros ->; discriminate H).
  assert (Hd : Forall (fun c => isdigit c = true) ds).
  { unfold stoi_digits in H. destruct ds as [|c ds]; [discriminate H|].
    destruct (stoi_loop max (c :: ds) 0) eqn:E; [|discriminate H].
    eapply stoi_loop_digits. exact E. }
  rewrite stoi_digits_value in H by assumption.
  destruct (Z.leb_spec (decimal ds) max); [|discriminate H].
  injection H as <-. auto.
Qed.

Lemma skip_spaces_split s :
  exists ws, s = ws ++ skip_spaces s /\ Forall (fun c => isspace c = true) ws.
Proof.
  induction s as [|c s (ws & E & Hw)]; [exists []; split; [reflexivity | constructor]|].
  cbn [skip_spaces]. destruct (isspace c) eqn:Ec.
  - exists (c :: ws). split; [cbn; f_equal; exact E | constructor; assumption].
  - exists []. split; [reflexivity | constructor].
Qed.

Lemma skip_spaces_app ws t :
  Forall (fun c => isspace c = true) ws ->
  match t with c :: _ => isspace c = false | [] => True end ->
  skip_spaces (ws ++ t) = t.
Proof.
  intros Hw Ht. induction Hw as [|c ws Hc Hw IH].
  - destruct t as [|c t]; [reflexivity|]. cbn. rewrite Ht. reflexivity.
  - cbn. rewrite Hc. exact IH.
Qed.

Lemma decimal_nonneg ds :
  Forall (fun c => isdigit c = true) ds -> 0 <= decimal ds.
Proof. intros Hd. apply (decimal_from_mono ds 0 Hd). lia. Qed.

(** X25. [safe_stoi<T>] accepts exactly the strings made of white space, an
    optional sign, and one or more decimal digits whose number is at most
    the maximum of [T]; a minus sign needs a signed [T].  The result is the
    number with its sign.  Nothing may follow the digits or stand between
    the sign and the digits. *)
Theorem safe_stoi_spec (is_signed : bool) (max : Z) (s : list ascii) (r : Z) :
  9 <= max -> Forall (fun c => code c < 128) s ->
  (safe_stoi is_signed max s = Some r <->
   exists ws sign ds,
     s = ws ++ sign ++ ds
     /\ Forall (fun c => isspace c = true) ws
     /\ ds <> [] /\ Forall (fun c => isdigit c = true) ds
     /\ decimal ds <= max
     /\ (((sign = [] \/ sign = ["+"%char]) /\ r = decimal ds)
         \/ (sign = ["-"%char] /\ is_signed = true /\ r = - decimal ds))).
Proof.
  intros Hm _. split.
  - intros H. unfold safe_stoi in H.
    destruct (skip_spaces_split s) as (ws & Es & Hw).
    destruct s as [|c0 s0]; [discriminate H|]. cbv zeta in H.
    destruct (skip_spaces (c0 :: s0)) as [|c rest] eqn:Ek; [discriminate H|].
    destruct (Ascii.eqb_spec c "-") as [->|Hc1].
    + destruct is_signed; [|discriminate H]. cbn [negb] in H.
      apply stoi_digits_some in H; [|exact Hm].
      destruct H as (Hn & Hd & Hle & ->).
      exists ws, ["-"%char], rest. repeat split; try assumption.
      right. auto.
    + destruct (Ascii.eqb_spec c "+") as [->|Hc2].
      * apply stoi_digits_some in H; [|exact Hm].
        destruct H as (Hn & Hd & Hle & ->).
        exists ws, ["+"%char], rest. repeat split; try assumption.
        left. auto.
      * apply stoi_digits_some in H; [|exact Hm].
        destruct H as (Hn & Hd & Hle & ->).
        exists ws, [], (c :: rest). repeat split; try assumption.
        left. auto.
  - intros (ws & sign & ds & -> & Hw & Hn & Hd & Hle & Hs).
    destruct ds as [|d ds]; [contradiction|].
    assert (Hd0 : isdigit d = true) by (inversion Hd; assumption).
    assert (Hnd : isspace d = false /\ Ascii.eqb d "-" = false
                  /\ Ascii.eqb d "+" = false).
    { unfold isdigit in Hd0. cbv zeta in Hd0. unfold isspace. cbv zeta.
      repeat split.
      - lia.
      - destruct (Ascii.eqb_spec d "-") as [->|]; [vm_compute in Hd0; discriminate | reflexivity].
      - destruct (Ascii.eqb_spec d "+") as [->|]; [vm_compute in Hd0; discriminate | reflexivity]. }
    destruct Hnd as (N1 & N2 & N3).
    unfold safe_stoi.
    assert (Ek : skip_spaces (ws ++ sign ++ d :: ds) = sign ++ d :: ds).
    { apply skip_spaces_app; [exact Hw|].
      destruct Hs as [[[-> | ->] _] | [-> _]]; cbn [app];
        [exact N1 | reflexivity | reflexivity]. }
    destruct (ws ++ sign ++ d :: ds) as [|c0 s0] eqn:E0.
    { destruct ws; destruct sign; discriminate E0. }
    cbv zeta. rewrite Ek.
    destruct Hs as [[[-> | ->] ->] | (-> & -> & ->)]; cbn [app].
    + rewrite N2, N3, stoi_digits_value by (try assumption; discriminate).
      destruct (Z.leb_spec (decimal (d :: ds)) max); [reflexivity | lia].
    + change (Ascii.eqb "+" "-") with false. rewrite Ascii.eqb_refl.
      rewrite stoi_digits_value by (try assumption; discriminate).
      destruct (Z.leb_spec (decimal (d :: ds)) max); [reflexivity | lia].
    + rewrite Ascii.eqb_refl. cbn [negb].
      rewrite stoi_digits_value by (try assumption; discriminate).
      destruct (Z.leb_spec (decimal (d :: ds)) max); [reflexivity | lia].
Qed.

Lemma safe_stoi_spec_witness :
  let s := String.list_ascii_of_string "  -2147483647" in
  9 <= 2 ^ 31 - 1 /\ Forall (fun c => code c < 128) s
  /\ (safe_stoi true (2 ^ 31 - 1) s = Some (- 2147483647) <->
      exists ws sign ds,
        s = ws ++ sign ++ ds
        /\ Forall (fun c => isspace c = true) ws
        /\ ds <> [] /\ Forall (fun c => isdigit c = true) ds
        /\ decimal ds <= 2 ^ 31 - 1
        /\ (((sign = [] \/ sign = ["+"%char]) /\ - 2147483647 = decimal ds)
            \/ (sign = ["-"%char] /\ true = true
                /\ - 2147483647 = - decimal ds))).
Proof.
  intros s.
  assert (H1 : 9 <= 2 ^ 31 - 1) by lia.
  assert (H2 : Forall (fun c => code c < 128) s).
  { apply Forall_forall. intros c Hc. rewrite list_elem_of_In in Hc.
    vm_compute in Hc. repeat (destruct Hc as [<- | Hc]; [reflexivity|]).
    destruct Hc. }
  split; [exact H1|]. split; [exact H2|].
  exact (safe_stoi_spec true (2 ^ 31 - 1) s (- 2147483647) H1 H2).
Defined.

(** X26. Whatever [safe_stoi<T>] returns lies between [-max] and [max], and is
    not negative for an unsigned [T]: the least value of a signed [T],
    [-max - 1], is never returned, although [T] holds it. *)
Theorem safe_stoi_range (is_signed : bool) (max : Z) (s : list ascii) (r : Z) :
  9 <= max -> safe_stoi is_signed max s = Some r ->
  - max <= r <= max /\ (is_signed = false -> 0 <= r)
  /\ safe_stoi is_signed max s <> Some (- max - 1).
Proof.
  intros Hm H.
  assert (G : forall negative ds v,
            stoi_digits max negative ds = Some v ->
            - max <= v <= max /\ (negative = false -> 0 <= v)).
  { intros negative ds v Hv. apply stoi_digits_some in Hv; [|exact Hm].
    destruct Hv as (_ & Hd & Hle & ->).
    pose proof (decimal_nonneg ds Hd). destruct negative; split; lia. }
  assert (R : - max <= r <= max /\ (is_signed = false -> 0 <= r)).
  { unfold safe_stoi in H.
    destruct s as [|c0 s0]; [discriminate H|]. cbv zeta in H.
    destruct (skip_spaces (c0 :: s0)) as [|c rest]; [discriminate H|].
    destruct (Ascii.eqb c "-").
    - destruct is_signed; [|discriminate H]. cbn [negb] in H.
      apply G in H. split; [tauto | discriminate].
    - destruct (Ascii.eqb c "+"); apply G in H; split; try tauto;
        intros _; apply H; reflexivity. }
  destruct R as [R1 R2]. split; [exact R1|]. split; [exact R2|].
  rewrite H. intros E. injection E as E. lia.
Qed.

Lemma safe_stoi_range_witness :
  let s := String.list_ascii_of_string "+127" in
  9 <= 127 /\ safe_stoi true 127 s = Some 127
  /\ - 127 <= 127 <= 127 /\ (true = false -> 0 <= 127)
  /\ safe_stoi true 127 s <> Some (- 127 - 1).
Proof.
  intros s.
  assert (H1 : 9 <= 127) by lia.
  assert (H2 : safe_stoi true 127 s = Some 127) by (vm_compute; reflexivity).
  split; [exact H1|]. split; [exact H2|].
  exact (safe_stoi_range true 127 s 127 H1 H2).
Defined.

(** The least [int] in decimal is refused, and so is a number followed by
    a blank. *)
Example safe_stoi_test :
  safe_stoi true (2 ^ 31 - 1) (String.list_ascii_of_string "-2147483648") = None
  /\ safe_stoi true (2 ^ 31 - 1) (String.list_ascii_of_string "-2147483647")
     = Some (- 2147483647)
  /\ safe_stoi true (2 ^ 31 - 1) (String.list_ascii_of_string "12 ") = None
  /\ safe_stoi false (2 ^ 32 - 1) (String.list_ascii_of_string "-1") = None
  /\ safe_stoi false (2 ^ 32 - 1) (String.list_ascii_of_string " +4294967295")
     = Some 4294967295.
Proof. repeat split; vm_compute; reflexivity. Qed.

End SafeStoiFacts.

Section SecureCompareFacts.
Import Mach Security.

Lemma is_u8_lor x y : is_u8 x -> is_u8 y -> is_u8 (Z.lor x y).
Proof.
  unfold is_u8. intros Hx Hy.
  assert (E : Z.lor x y mod 2 ^ 8 = Z.lor x y).
  { apply Z.bits_inj'. intros n Hn.
    destruct (Z.ltb_spec n 8).
    - apply Z.mod_pow2_bits_low. lia.
    - rewrite Z.mod_pow2_bits_high by lia. rewrite Z.lor_spec.
      rewrite <- (Z.mod_small x (2 ^ 8)), <- (Z.mod_small y (2 ^ 8)) by lia.
      rewrite !Z.mod_pow2_bits_high by lia. reflexivity. }
  rewrite <- E. apply Z.mod_pos_bound. reflexivity.
Qed.

Lemma is_u8_nth (a : list Z) i : Forall is_u8 a -> is_u8 (nth i a 0).
Proof.
  intros Hf. destruct (Nat.lt_ge_cases i (length a)) as [Hi|Hi].
  - rewrite Forall_forall in Hf. apply Hf. rewrite list_elem_of_In.
    apply nth_In. exact Hi.
  - rewrite nth_overflow by exact Hi. unfold is_u8. lia.
Qed.

Lemma secure_compare_fold (a b : list Z) len :
  Forall is_u8 a -> Forall is_u8 b ->
  let r := fold_left
             (fun result i => u8 (Z.lor result (Z.lxor (nth i a 0) (nth i b 0))))
             (seq 0 len) 0 in
  is_u8 r /\ (r = 0 <-> forall i, (i < len)%nat -> nth i a 0 = nth i b 0).
Proof.
  intros Ha Hb. induction len as [|k [Hr IH]].
  - cbn. split; [unfold is_u8; lia|]. split; [intros _ i Hi; lia | reflexivity].
  - cbv zeta in *. rewrite seq_S, fold_left_app. cbn [fold_left Nat.add].
    set (r := fold_left _ (seq 0 k) 0) in *.
    assert (Hx : is_u8 (Z.lxor (nth k a 0) (nth k b 0)))
      by (apply is_u8_lxor; apply is_u8_nth; assumption).
    pose proof (is_u8_lor _ _ Hr Hx) as Hl.
    assert (E : u8 (Z.lor r (Z.lxor (nth k a 0) (nth k b 0)))
                = Z.lor r (Z.lxor (nth k a 0) (nth k b 0)))
      by (unfold u8; apply Z.mod_small; exact Hl).
    rewrite E. split; [exact Hl|].
    rewrite Z.lor_eq_0_iff, Z.lxor_eq_0_iff, IH. split.
    + intros [H1 H2] i Hi. destruct (Nat.eq_dec i k) as [->|Hne];
        [exact H2 | apply H1; lia].
    + intros H. split; [intros i Hi; apply H; lia | apply H; lia].
Qed.

(** X27. [secure_compare] answers [true] exactly when the first [len] bytes of
    the two buffers are the same. *)
Theorem secure_compare_spec (a b : list Z) (len : nat) :
  Forall is_u8 a -> Forall is_u8 b ->
  (len <= length a)%nat -> (len <= length b)%nat ->
  (secure_compare a b len = true <-> take len a = take len b).
Proof.
  intros Ha Hb La Lb. unfold secure_compare.
  destruct (secure_compare_fold a b len Ha Hb) as [_ H]. cbv zeta in H.
  rewrite Z.eqb_eq, H. split.
  - intros E. apply (list_eq_nth len).
    + rewrite length_take. lia.
    + rewrite length_take. lia.
    + intros i Hi. change take with (@firstn Z).
      rewrite !nth_firstn.
      destruct (Nat.ltb_spec i len); [apply E; exact Hi | lia].
  - intros E i Hi.
    assert (G : forall l : list Z, nth i l 0 = nth i (take len l) 0).
    { intros l. change take with (@firstn Z). rewrite nth_firstn.
      destruct (Nat.ltb_spec i len); [reflexivity | lia]. }
    rewrite (G a), (G b), E. reflexivity.
Qed.

Lemma secure_compare_spec_witness :
  let a := [1; 2; 3; 4] in
  let b := [1; 2; 3; 5; 6] in
  Forall is_u8 a /\ Forall is_u8 b
  /\ (3 <= length a)%nat /\ (3 <= length b)%nat
  /\ (secure_compare a b 3 = true <-> take 3 a = take 3 b).
Proof.
  intros a b.
  assert (Ha : Forall is_u8 a).
  { repeat (apply Forall_cons; split; [unfold is_u8; lia|]). apply Forall_nil_2. }
  assert (Hb : Forall is_u8 b).
  { repeat (apply Forall_cons; split; [unfold is_u8; lia|]). apply Forall_nil_2. }
  assert (La : (3 <= length a)%nat) by (cbn; lia).
  assert (Lb : (3 <= length b)%nat) by (cbn; lia).
  split; [exact Ha|]. split; [exact Hb|]. split; [exact La|]. split; [exact Lb|].
  exact (secure_compare_spec a b 3 Ha Hb La Lb).
Defined.

End SecureCompareFacts.

Section SafeHexFacts.
Import Stdlib.Strings.Ascii Mach Hex Security.

Lemma high_eq c : high c = hex_char_to_int c.
Proof. reflexivity. Qed.

Lemma isxdigit_high c : isxdigit c = negb (high c <? 0).
Proof.
  unfold isxdigit, high. cbv zeta.
  destruct (Z.leb_spec 48 (code c)), (Z.leb_spec (code c) 57),
    (Z.leb_spec 97 (code c)), (Z.leb_spec (code c) 102),
    (Z.leb_spec 65 (code c)), (Z.leb_spec (code c) 70);
    cbn [andb orb negb]; try reflexivity; try lia;
    match goal with |- _ = negb (?x <? 0) => destruct (Z.ltb_spec x 0) end;
    try reflexivity; lia.
Qed.

Lemma fold_left_snoc {A B} (f : A -> B -> A) (l : list B) (x : B) (a : A) :
  fold_left f (l ++ [x]) a = f (fold_left f l a) x.
Proof. rewrite fold_left_app. reflexivity. Qed.

Lemma map_seq_S {B} (f : nat -> B) k :
  map f (seq 0 (S k)) = map f (seq 0 k) ++ [f k].
Proof. rewrite seq_S, map_app. reflexivity. Qed.

(** The two loops over the digit pairs, side by side. *)
Lemma hex_loops_agree (hex : list ascii) (init : list Z) N k :
  length init = N -> (k <= N)%nat ->
  match fold_left
          (fun acc i =>
             match acc with
             | None => None
             | Some result =>
                 let h := high (nth i hex "000"%char) in
                 let l := high (nth (i + 1) hex "000"%char) in
                 if (h <? 0) || (l <? 0) then None
                 else Some (result ++ [u8 (Z.lor (Z.shiftl h 4) l)])
             end)
          (map (fun k => (k * 2)%nat) (seq 0 k)) (Some [])
  with
  | None =>
      fold_left
        (fun acc i =>
           match acc with
           | None => None
           | Some result =>
               let high := hex_char_to_int (nth (i * 2) hex "000"%char) in
               let low := hex_char_to_int (nth (i * 2 + 1) hex "000"%char) in
               if (high <? 0) || (low <? 0) then None
               else Some (<[i := u8 (Z.lor (Z.shiftl high 4) low)]> result)
           end)
        (seq 0 k) (Some init) = None
  | Some r =>
      length r = k
      /\ fold_left
           (fun acc i =>
              match acc with
              | None => None
              | Some result =>
                  let high := hex_char_to_int (nth (i * 2) hex "000"%char) in
                  let low := hex_char_to_int (nth (i * 2 + 1) hex "000"%char) in
                  if (high <? 0) || (low <? 0) then None
                  else Some (<[i := u8 (Z.lor (Z.shiftl high 4) low)]> result)
              end)
           (seq 0 k) (Some init) = Some (r ++ drop k init)
  end.
Proof.
  intros Hi. induction k as [|k IH]; intros Hk.
  - cbn. split; [reflexivity|]. rewrite drop_0. reflexivity.
  - specialize (IH ltac:(lia)).
    rewrite map_seq_S, seq_S, !fold_left_snoc. change (0 + k)%nat with k.
    destruct (fold_left _ (map _ (seq 0 k)) (Some [])) as [r|].
    + destruct IH as [Hr ->]. cbv beta iota zeta.
      change high with hex_char_to_int.
      destruct ((hex_char_to_int (nth (k * 2) hex "000"%char) <? 0)
                || (hex_char_to_int (nth (k * 2 + 1) hex "000"%char) <? 0));
        cbv iota; [reflexivity|].
      split; [rewrite length_app; cbn; lia|]. f_equal.
      rewrite insert_app_r_alt by lia. rewrite Hr, Nat.sub_diag.
      destruct (drop k init) as [|y rest] eqn:E.
      * apply (f_equal length) in E. rewrite length_drop in E. cbn in E. lia.
      * cbn [insert list_insert]. rewrite <- app_assoc. cbn [app].
        do 2 f_equal.
        pose proof (drop_drop init 1 k) as D. rewrite E in D. cbn in D.
        rewrite Nat.add_1_r in D. rewrite drop_0 in D. exact D.
    + rewrite IH. reflexivity.
Qed.

Lemma safe_hex_loop_facts (hex : list ascii) k :
  (k * 2 <= length hex)%nat ->
  match fold_left
          (fun acc i =>
             match acc with
             | None => None
             | Some result =>
                 let h := high (nth i hex "000"%char) in
                 let l := high (nth (i + 1) hex "000"%char) in
                 if (h <? 0) || (l <? 0) then None
                 else Some (result ++ [u8 (Z.lor (Z.shiftl h 4) l)])
             end)
          (map (fun k => (k * 2)%nat) (seq 0 k)) (Some [])
  with
  | None => exists i, (i < k * 2)%nat /\ isxdigit (nth i hex "000"%char) = false
  | Some r =>
      length r = k /\ Forall is_u8 r
      /\ forall i, (i < k * 2)%nat -> isxdigit (nth i hex "000"%char) = true
  end.
Proof.
  induction k as [|k IH]; intros Hk.
  - cbn. split; [reflexivity|]. split; [constructor|]. intros i Hi. lia.
  - specialize (IH ltac:(lia)).
    rewrite map_seq_S, fold_left_snoc.
    destruct (fold_left _ (map _ (seq 0 k)) (Some [])) as [r|].
    + destruct IH as (Hr & Hu & Hx). cbv beta iota zeta.
      pose proof (isxdigit_high (nth (k * 2) hex "000"%char)) as X0.
      pose proof (isxdigit_high (nth (k * 2 + 1) hex "000"%char)) as X1.
      destruct (high (nth (k * 2) hex "000"%char) <? 0) eqn:E0; cbn [orb negb] in *.
      { exists (k * 2)%nat. split; [lia | exact X0]. }
      destruct (high (nth (k * 2 + 1) hex "000"%char) <? 0) eqn:E1; cbn [negb] in *.
      { exists (k * 2 + 1)%nat. split; [lia | exact X1]. }
      split; [rewrite length_app; cbn; lia|]. split.
      * apply Forall_app. split; [exact Hu|]. apply Forall_cons. split; [|constructor].
        unfold is_u8, u8. apply Z.mod_pos_bound. reflexivity.
      * intros i Hi.
        destruct (Nat.eq_dec i (k * 2)%nat) as [->|N0]; [exact X0|].
        destruct (Nat.eq_dec i (k * 2 + 1)%nat) as [->|N1]; [exact X1|].
        apply Hx. lia.
    + destruct IH as (i & Hi & Hx). exists i. split; [lia | exact Hx].
Qed.

Lemma find_none_forall {A} (p : A -> bool) (l : list A) :
  List.find (fun c => negb (p c)) l = None <-> forallb p l = true.
Proof.
  induction l as [|x l IH]; [cbn; tauto|].
  cbn [List.find forallb]. destruct (p x); cbn [negb andb]; [exact IH|].
  split; discriminate.
Qed.

Lemma forallb_nth {A} (p : A -> bool) (l : list A) (d : A) :
  forallb p l = true <-> forall i, (i < length l)%nat -> p (nth i l d) = true.
Proof.
  rewrite forallb_forall. split.
  - intros H i Hi. apply H. apply nth_In. exact Hi.
  - intros H x Hx. apply (In_nth _ _ d) in Hx as (i & Hi & <-). apply H. exact Hi.
Qed.

(** X28. [ByteArray<N>::from_hex] is [safe_hex_to_bytes] on the strings of
    [2N] digits, and refuses all others; the bytes [safe_hex_to_bytes]
    returns are half as many as the digits. *)
Theorem safe_hex_to_bytes_bytearray (N : nat) (hex : list ascii) :
  ByteArray.from_hex N hex
  = (if (length (strip_prefix hex) =? N * 2)%nat
     then safe_hex_to_bytes hex else None)
  /\ match safe_hex_to_bytes hex with
     | Some bytes =>
         length (strip_prefix hex) = (length bytes * 2)%nat
         /\ Forall is_u8 bytes
     | None => True
     end.
Proof.
  split.
  - unfold ByteArray.from_hex, safe_hex_to_bytes. cbv zeta.
    destruct (Nat.eqb_spec (length (strip_prefix hex)) (N * 2)) as [E|E];
      [|reflexivity].
    cbn [negb]. rewrite E, Nat.Div0.mod_mul, Nat.div_mul by lia.
    cbn [Nat.eqb negb].
    pose proof (hex_loops_agree (strip_prefix hex) (ByteArray.zero N) N N
                  (repeat_length _ _) (Nat.le_refl _)) as H.
    cbv zeta in H.
    destruct (fold_left _ (map _ (seq 0 N)) (Some [])) as [r|].
    + destruct H as [Hr ->]. rewrite drop_ge, app_nil_r;
        [reflexivity | unfold ByteArray.zero; rewrite repeat_length; lia].
    + exact H.
  - unfold safe_hex_to_bytes. cbv zeta.
    destruct (Nat.eqb_spec (length (strip_prefix hex) mod 2) 0) as [E|E];
      [|exact I].
    cbn [negb].
    assert (L : (length (strip_prefix hex) / 2 * 2 = length (strip_prefix hex))%nat).
    { pose proof (Nat.div_mod_eq (length (strip_prefix hex)) 2). lia. }
    pose proof (safe_hex_loop_facts (strip_prefix hex)
                  (length (strip_prefix hex) / 2) ltac:(lia)) as H.
    cbv zeta in H.
    destruct (fold_left _ (map _ (seq 0 _)) (Some [])) as [r|]; [|exact I].
    destruct H as (Hr & Hu & _). split; [rewrite Hr; lia | exact Hu].
Qed.

(** X29. [safe_hex_to_bytes] returns bytes exactly for the strings
    [validate_hex_string] accepts (with no lower bound and an upper bound
    the string meets) that have an even number of digits after the
    optional [0x]. *)
Theorem safe_hex_to_bytes_validate (hex : list ascii) (max_length : Z) :
  Z.of_nat (length (strip_prefix hex)) <= max_length ->
  (safe_hex_to_bytes hex <> None
   <-> valid (validate_hex_string hex 0 max_length) = true
       /\ (length (strip_prefix hex) mod 2 = 0)%nat).
Proof.
  intros Hmax. unfold validate_hex_string, safe_hex_to_bytes. cbv zeta.
  destruct (Z.ltb_spec (Z.of_nat (length (strip_prefix hex))) 0); [lia|].
  destruct (Z.ltb_spec max_length (Z.of_nat (length (strip_prefix hex)))); [lia|].
  destruct (Nat.eqb_spec (length (strip_prefix hex) mod 2) 0) as [E|E];
    cbn [negb]; [|split; [intros C; contradiction | intros [_ C]; contradiction]].
  assert (L : (length (strip_prefix hex) / 2 * 2 = length (strip_prefix hex))%nat).
  { pose proof (Nat.div_mod_eq (length (strip_prefix hex)) 2). lia. }
  pose proof (safe_hex_loop_facts (strip_prefix hex)
                (length (strip_prefix hex) / 2) ltac:(lia)) as G.
  cbv zeta in G. rewrite L in G.
  destruct (fold_left _ (map _ (seq 0 _)) (Some [])) as [r|].
  - destruct G as (_ & _ & Hx).
    apply (forallb_nth isxdigit _ "000"%char) in Hx.
    apply find_none_forall in Hx. rewrite Hx.
    split; [intros _; split; [reflexivity | exact E] | intros _; discriminate].
  - destruct G as (i & Hi & Hx).
    destruct (List.find _ (strip_prefix hex)) as [c|] eqn:F.
    + split; [intros C; contradiction | intros [C _]; discriminate C].
    + apply find_none_forall in F.
      rewrite (forallb_nth isxdigit _ "000"%char) in F.
      rewrite F in Hx by exact Hi. discriminate Hx.
Qed.

Lemma safe_hex_to_bytes_validate_witness :
  let hex := String.list_ascii_of_string "0xdeadBEEF" in
  Z.of_nat (length (strip_prefix hex)) <= 2 ^ 64 - 1
  /\ safe_hex_to_bytes hex = Some [222; 173; 190; 239]
  /\ (safe_hex_to_bytes hex <> None
      <-> valid (validate_hex_string hex 0 (2 ^ 64 - 1)) = true
          /\ (length (strip_prefix hex) mod 2 = 0)%nat).
Proof.
  intros hex.
  assert (H : Z.of_nat (length (strip_prefix hex)) <= 2 ^ 64 - 1)
    by (vm_compute; discriminate).
  split; [exact H|]. split; [vm_compute; reflexivity|].
  exact (safe_hex_to_bytes_validate hex (2 ^ 64 - 1) H).
Defined.

(** An odd number of digits and a character that is no digit are refused. *)
Example safe_hex_to_bytes_test :
  safe_hex_to_bytes (String.list_ascii_of_string "abc") = None
  /\ safe_hex_to_bytes (String.list_ascii_of_string "0xzz") = None
  /\ safe_hex_to_bytes (String.list_ascii_of_string "0x") = Some []
  /\ safe_hex_to_bytes [] = Some []
  /\ valid (validate_hex_string (String.list_ascii_of_string "abc") 0 10) = true.
Proof. repeat split; vm_compute; reflexivity. Qed.

End SafeHexFacts.

Section AddressFacts.
Import Stdlib.Strings.Ascii Mach Hex Security.

Lemma starts_with_head n (s : string) (c : ascii) prefix rest :
  String.list_ascii_of_string s = c :: List.tl (String.list_ascii_of_string s) ->
  n <> O -> starts_with n s (prefix :: rest) = true -> prefix = c.
Proof.
  intros Es Hn H. unfold starts_with in H. apply bool_decide_eq_true in H.
  rewrite Es in H. destruct n as [|n]; [contradiction|].
  unfold substr in H. rewrite drop_0 in H. cbn [take] in H.
  injection H as H _. exact H.
Qed.

Lemma legacy_not_bech32 n (s : string) prefix rest :
  other_prefix prefix = false -> n <> O ->
  (String.list_ascii_of_string s
     = "b"%char :: List.tl (String.list_ascii_of_string s)
   \/ String.list_ascii_of_string s
     = "t"%char :: List.tl (String.list_ascii_of_string s)) ->
  starts_with n s (prefix :: rest) = false.
Proof.
  intros Hp Hn Hs.
  destruct (starts_with n s (prefix :: rest)) eqn:E; [|reflexivity].
  destruct Hs as [Hs|Hs];
    apply (starts_with_head n s _ prefix rest Hs Hn) in E; subst prefix;
    vm_compute in Hp; discriminate Hp.
Qed.

(** X30. On an address whose first character is 1, 3, m, n or 2 the two
    validators, [BitcoinAddress::validate] and
    [security::validate_bitcoin_address], agree.  An address with any other
    first character is never accepted by both: what [validate] lets through
    as Bech32 (all characters Base58, the start [bc1] or [tb1]),
    [validate_bitcoin_address] refuses for its prefix. *)
Theorem address_validators (prefix : ascii) (rest : list ascii) :
  (other_prefix prefix = false ->
   validate (prefix :: rest) = valid (validate_bitcoin_address (prefix :: rest)))
  /\ (other_prefix prefix = true ->
      validate (prefix :: rest) = true ->
      valid (validate_bitcoin_address (prefix :: rest)) = false)
  /\ (validate (prefix :: rest) = true ->
      (26 <= length (prefix :: rest) <= 35)%nat
      /\ forallb (contains_char base58_chars) (prefix :: rest) = true).
Proof.
  assert (F : forallb (contains_char base58_chars) (prefix :: rest) = true ->
              List.find (fun c => negb (contains_char base58_chars c))
                        (prefix :: rest) = None)
    by (apply find_none_forall).
  cbv beta iota delta [validate validate_bitcoin_address].
  set (a := prefix :: rest) in *.
  split; [|split].
  - intros Hp.
    destruct ((length a <? 26)%nat || (35 <? length a)%nat); [reflexivity|].
    destruct (forallb (contains_char base58_chars) a) eqn:Eb; cbn [negb].
    + rewrite (F eq_refl), Hp. reflexivity.
    + destruct (List.find _ a) as [c|] eqn:Ef.
      * unfold a.
        rewrite !(legacy_not_bech32 4 _ prefix rest Hp)
          by (try discriminate; (left; reflexivity) || (right; reflexivity)).
        rewrite andb_false_r. reflexivity.
      * apply find_none_forall in Ef. rewrite Ef in Eb. discriminate Eb.
  - intros Hp Hv.
    destruct ((length a <? 26)%nat || (35 <? length a)%nat); [reflexivity|].
    destruct (forallb (contains_char base58_chars) a) eqn:Eb;
      [|discriminate Hv].
    rewrite (F eq_refl), Hp. reflexivity.
  - intros Hv.
    destruct (Nat.ltb_spec (length a) 26); [discriminate Hv|].
    destruct (Nat.ltb_spec 35 (length a)); [discriminate Hv|].
    cbn [orb] in Hv.
    destruct (forallb (contains_char base58_chars) a); [|discriminate Hv].
    split; [lia | reflexivity].
Qed.

(** Both ways of disagreeing occur. *)
Example address_validators_test :
  let a := String.list_ascii_of_string "bc1qqqqqqqqqqqqqqqqqqqqqqqqq" in
  let b := String.list_ascii_of_string "bc1q0000000000000000000000" in
  validate a = true /\ valid (validate_bitcoin_address a) = false
  /\ validate b = false /\ valid (validate_bitcoin_address b) = true.
Proof. repeat split; vm_compute; reflexivity. Qed.

End AddressFacts.
